(** * ExpressionActions: the action DAG, its linearizer and the block executor

    A shallow embedding of [src/Interpreters/ExpressionActions.cpp]
    (ClickHouse).  Pointers to DAG nodes are addresses ([NodePtr]); the node
    storage ([std::list<Node>]) is a list of nodes that carry their address;
    maps and sets of the source are stdpp's [gmap] and [gset]; exceptions are
    the [Throw] results of a small error monad. *)

From Stdlib Require Import ZArith.
From stdpp Require Import base option list strings gmap pretty.

#[local] Set Warnings "-clear-no-such-hyp".

(** ** Exceptions *)

(** The error codes of [namespace ErrorCodes] used by the file, and
    [POSITION_OUT_OF_BOUND], which [Block::erase] raises. *)
Inductive ErrorCode :=
  | LOGICAL_ERROR
  | DUPLICATE_COLUMN
  | UNKNOWN_IDENTIFIER
  | NOT_FOUND_COLUMN_IN_BLOCK
  | TOO_MANY_TEMPORARY_COLUMNS
  | TOO_MANY_TEMPORARY_NON_CONST_COLUMNS
  | TYPE_MISMATCH
  | POSITION_OUT_OF_BOUND.

#[global] Instance ErrorCode_eq_dec : EqDecision ErrorCode.
Proof. solve_decision. Defined.

Record Exception := { code : ErrorCode; message : string }.

(** [Exception::addMessage]: the text is appended to the message. *)
Definition addMessage (e : Exception) (msg : string) : Exception :=
  {| code := code e; message := message e +:+ ": " +:+ msg |}.

(** The result of a call: a value, a thrown exception, or [Undefined] for
    what C++ leaves undefined (a null or dangling pointer dereferenced, a
    vector read out of range) and for a loop of the model that ran out of
    fuel. *)
Inductive Result (A : Type) :=
  | Ok (a : A)
  | Throw (e : Exception)
  | Undefined.
Arguments Ok {A} a.
Arguments Throw {A} e.
Arguments Undefined {A}.

#[global] Instance Result_ret : MRet Result := λ A a, Ok a.
#[global] Instance Result_bind : MBind Result := λ A B f m,
  match m with
  | Ok a => f a
  | Throw e => Throw e
  | Undefined => Undefined
  end.

Definition newline : string := String (Ascii.ascii_of_nat 10) "".

Definition throw {A} (c : ErrorCode) (msg : string) : Result A :=
  Throw {| code := c; message := msg |}.

(** A pointer that must not be null, an index that must be in range. *)
Definition defined {A} (o : option A) : Result A :=
  match o with
  | Some a => Ok a
  | None => Undefined
  end.

(** [for (x : xs) acc = f acc x], stopping at the first exception. *)
Fixpoint foldM {A B} (f : B → A → Result B) (acc : B) (xs : list A) : Result B :=
  match xs with
  | [] => Ok acc
  | x :: xs' => acc' ← f acc x; foldM f acc' xs'
  end.

(** ** Data types

    Modelled from the spec: the type system (DataTypes/IDataType.h and
    DataTypeArray.h are not among the sources) provides type descriptors
    with equality, a name and, for array types, the nested type. *)
Module IDataType.

Inductive t :=
  | DataTypeSimple (name : string)
  | DataTypeArray (nested : t).

#[global] Instance eq_dec : EqDecision t.
Proof. solve_decision. Defined.

Fixpoint getName (ty : t) : string :=
  match ty with
  | DataTypeSimple name => name
  | DataTypeArray nested => "Array(" +:+ getName nested +:+ ")"
  end.

Definition equals (a b : t) : bool := bool_decide (a = b).

(** [typeid_cast<const DataTypeArray *>(ty)->getNestedType()] *)
Definition getNestedType (ty : t) : option t :=
  match ty with
  | DataTypeArray nested => Some nested
  | DataTypeSimple _ => None
  end.

End IDataType.

(** ** Columns

    Modelled from the spec: the column primitives (Columns/IColumn.h,
    ColumnArray.h, ColumnConst.h and ColumnSet.h are not among the sources):
    immutable columns with [size], [cloneResized], [replicate],
    [convertToFullColumnIfConst] and the constant-column test.  An array
    column is a flat column of elements with one cumulative offset per row; a
    constant column is a one-row column and a size; a set column carries the
    set built for [IN]. *)
Module IColumn.

Record SetData := { isCreated : bool; getTotalRowCount : nat }.

Inductive t :=
  | ColumnVector (data : list Z)
  | ColumnString (data : list string)
  | ColumnArray (data : t) (offsets : list nat)
  | ColumnConst (data : t) (s : nat)
  | ColumnSet (s : nat) (set : SetData).

Definition size (c : t) : nat :=
  match c with
  | ColumnVector d => length d
  | ColumnString d => length d
  | ColumnArray _ offsets => length offsets
  | ColumnConst _ s => s
  | ColumnSet s _ => s
  end.

Definition empty (c : t) : bool := bool_decide (size c = 0).

Definition isColumnConst (c : t) : bool :=
  match c with
  | ColumnConst _ _ => true
  | _ => false
  end.

Definition getName (c : t) : string :=
  match c with
  | ColumnVector _ => "Int64"
  | ColumnString _ => "String"
  | ColumnArray _ _ => "Array"
  | ColumnConst _ _ => "Const"
  | ColumnSet _ _ => "Set"
  end.

(** Row [i] of the source is taken [offsets[i] - offsets[i-1]] times. *)
Fixpoint replicate_rows (prev i : nat) (offsets : list nat) : list nat :=
  match offsets with
  | [] => []
  | o :: rest => repeat i (o - prev) ++ replicate_rows o (S i) rest
  end.

(** The rows of the flat column that make up row [i] of an array column. *)
Definition array_range (offsets : list nat) (i : nat) : list nat :=
  let start := match i with 0 => 0 | S j => default 0 (offsets !! j) end in
  seq start (default start (offsets !! i) - start).

Fixpoint running_total (acc : nat) (lens : list nat) : list nat :=
  match lens with
  | [] => []
  | n :: rest => (acc + n) :: running_total (acc + n) rest
  end.

(** The column made of the rows [rows] of [c], in that order. *)
Fixpoint select (c : t) (rows : list nat) : t :=
  match c with
  | ColumnVector d => ColumnVector ((λ i, default 0%Z (d !! i)) <$> rows)
  | ColumnString d => ColumnString ((λ i, default "" (d !! i)) <$> rows)
  | ColumnArray d offsets =>
      let ranges := array_range offsets <$> rows in
      ColumnArray (select d (concat ranges)) (running_total 0 (length <$> ranges))
  | ColumnConst d _ => ColumnConst d (length rows)
  | ColumnSet _ set => ColumnSet (length rows) set
  end.

Definition replicate (c : t) (offsets : list nat) : t :=
  select c (replicate_rows 0 0 offsets).

(** The first [n] rows, padded with default values up to [n] rows. *)
Fixpoint cloneResized (c : t) (n : nat) : t :=
  match c with
  | ColumnVector d => ColumnVector (take n d ++ repeat 0%Z (n - length d))
  | ColumnString d => ColumnString (take n d ++ repeat "" (n - length d))
  | ColumnArray d offsets =>
      let kept := take n offsets in
      let total := default 0 (last kept) in
      ColumnArray (cloneResized d total) (kept ++ repeat total (n - length offsets))
  | ColumnConst d _ => ColumnConst d n
  | ColumnSet _ set => ColumnSet n set
  end.

Definition convertToFullColumnIfConst (c : t) : t :=
  match c with
  | ColumnConst d s => replicate d [s]
  | _ => c
  end.

(** [typeid_cast<const ColumnArray *>(c)]: the flat column ([getDataPtr])
    and the offsets ([getOffsets]) of a true array column. *)
Definition asColumnArray (c : t) : option (t * list nat) :=
  match c with
  | ColumnArray d offsets => Some (d, offsets)
  | _ => None
  end.

(** [checkAndGetColumn<const ColumnSet>(c)->getData()] *)
Definition asColumnSet (c : t) : option SetData :=
  match c with
  | ColumnSet _ set => Some set
  | _ => None
  end.

End IColumn.

(** ** Columns with a type and a name, and blocks *)

Module ColumnWithTypeAndName.

Record t := mk {
  column : option IColumn.t;
  type : option IDataType.t;
  name : string;
}.

(** A default-constructed value, [{}]; also what [std::move] leaves
    behind: the two pointers are null, and the moved-from name (which the
    standard leaves unspecified) is taken to be empty. *)
Definition null : t := {| column := None; type := None; name := "" |}.

Definition set_column (c : t) (col : option IColumn.t) : t :=
  {| column := col; type := type c; name := name c |}.
Definition set_type (c : t) (ty : option IDataType.t) : t :=
  {| column := column c; type := ty; name := name c |}.
Definition set_name (c : t) (n : string) : t :=
  {| column := column c; type := type c; name := n |}.

End ColumnWithTypeAndName.

Module CWT := ColumnWithTypeAndName.

Record NameAndTypePair := { nt_name : string; nt_type : option IDataType.t }.

(** Modelled from the spec: Block (Core/Block.h is not among the sources) is
    an ordered list of columns with a type and a name, addressable by
    position and, through [index_by_name], by name. *)
Module Block.

Record t := mk {
  data : list CWT.t;
  index_by_name : gmap string nat;
}.

Definition empty : t := {| data := []; index_by_name := ∅ |}.

Definition clear (b : t) : t := empty.

Definition has (b : t) (name : string) : bool :=
  bool_decide (is_Some (index_by_name b !! name)).

Definition getPositionByName (b : t) (name : string) : Result nat :=
  match index_by_name b !! name with
  | Some pos => Ok pos
  | None => throw NOT_FOUND_COLUMN_IN_BLOCK ("Not found column " +:+ name +:+ " in block")
  end.

Definition getByPosition (b : t) (pos : nat) : Result CWT.t :=
  defined (data b !! pos).

Definition getByName (b : t) (name : string) : Result CWT.t :=
  pos ← getPositionByName b name; getByPosition b pos.

(** [block.getByPosition(pos) = elem] *)
Definition setByPosition (b : t) (pos : nat) (elem : CWT.t) : t :=
  {| data := <[pos := elem]> (data b); index_by_name := index_by_name b |}.

(** [block.getByName(name) = elem] *)
Definition setByName (b : t) (name : string) (elem : CWT.t) : Result t :=
  pos ← getPositionByName b name; Ok (setByPosition b pos elem).

(** The number of rows: the size of the first column that is present. *)
Definition rows (b : t) : nat :=
  default 0 (IColumn.size <$> head (omap CWT.column (data b))).

(** [index_by_name.emplace(elem.name, data.size()); data.emplace_back(elem)]:
    a name already present keeps its position. *)
Definition insert (b : t) (elem : CWT.t) : t :=
  {| data := data b ++ [elem];
     index_by_name :=
       match index_by_name b !! CWT.name elem with
       | Some _ => index_by_name b
       | None => <[CWT.name elem := length (data b)]> (index_by_name b)
       end |}.

Definition erase (b : t) (position : nat) : Result t :=
  if bool_decide (length (data b) ≤ position)
  then throw POSITION_OUT_OF_BOUND "Position out of bound in Block::erase()"
  else Ok {| data := delete position (data b);
             index_by_name :=
               omap (λ p, if bool_decide (p = position) then None
                          else Some (if bool_decide (position < p) then p - 1 else p))
                    (index_by_name b) |}.

Definition getNamesAndTypesList (b : t) : list NameAndTypePair :=
  (λ c, {| nt_name := CWT.name c; nt_type := CWT.type c |}) <$> data b.

End Block.

(** ** Functions

    The function registry is an external collaborator (Functions/IFunction.h
    is not among the sources): the interfaces below list the methods the file
    calls on an overload resolver, on a function built for given argument
    types, and on a prepared function.  An object is the record of its
    methods. *)
Module IExecutableFunction.
Record t := mk {
  execute : list CWT.t → option IDataType.t → nat → bool → Result IColumn.t;
}.
End IExecutableFunction.

Module IFunctionBase.
Record t := mk {
  getName : string;
  getResultType : option IDataType.t;
  getArgumentTypes : list IDataType.t;
  prepare : list CWT.t → IExecutableFunction.t;
  isSuitableForConstantFolding : bool;
  isDeterministic : bool;
  getResultIfAlwaysReturnsConstantAndHasArguments : list CWT.t → option IColumn.t;
}.
End IFunctionBase.

Module IFunctionOverloadResolver.
Record t := mk {
  getName : string;
  build : list CWT.t → Result IFunctionBase.t;
}.
End IFunctionOverloadResolver.

(** ** DAG nodes *)

(** [ActionsDAG::Type] *)
Inductive NodeType := INPUT | COLUMN | ALIAS | ARRAY_JOIN | FUNCTION.

#[global] Instance NodeType_eq_dec : EqDecision NodeType.
Proof. solve_decision. Defined.

(** [Node *]: the address of a node in the node list. *)
Definition NodePtr := nat.

(** [ActionsDAG::Node].  [addr] is the address the node has in the list that
    owns it; [children] and [renaming_parent] hold such addresses. *)
Module Node.

Record t := mk {
  addr : NodePtr;
  children : list NodePtr;
  renaming_parent : option NodePtr;
  type : NodeType;
  result_name : string;
  result_type : option IDataType.t;
  unique_column_name_for_array_join : string;
  function_builder : option IFunctionOverloadResolver.t;
  function_base : option IFunctionBase.t;
  function : option IExecutableFunction.t;
  is_function_compiled : bool;
  allow_constant_folding : bool;
  column : option IColumn.t;
}.

(** [Node node;] *)
Definition init : t :=
  {| addr := 0; children := []; renaming_parent := None; type := INPUT;
     result_name := ""; result_type := None;
     unique_column_name_for_array_join := "";
     function_builder := None; function_base := None; function := None;
     is_function_compiled := false; allow_constant_folding := true;
     column := None |}.

Definition set_addr (n : t) (a : NodePtr) : t :=
  mk a (children n) (renaming_parent n) (type n) (result_name n) (result_type n)
     (unique_column_name_for_array_join n) (function_builder n) (function_base n)
     (function n) (is_function_compiled n) (allow_constant_folding n) (column n).

Definition set_renaming_parent (p : option NodePtr) (n : t) : t :=
  mk (addr n) (children n) p (type n) (result_name n) (result_type n)
     (unique_column_name_for_array_join n) (function_builder n) (function_base n)
     (function n) (is_function_compiled n) (allow_constant_folding n) (column n).

End Node.

(** [*ptr] for a pointer into the node list [nodes]. *)
Definition deref (nodes : list Node.t) (ptr : NodePtr) : option Node.t :=
  list_find (λ n, Node.addr n = ptr) nodes ≫= λ '(_, n), Some n.

(** ** The linearized program and its executor *)
Module ExpressionActions.

Record Argument := { pos : nat; remove : bool }.

(** [Action::node] points to a node of [ExpressionActions::nodes], which
    nothing writes once the program is built: the action holds the node. *)
Record Action := {
  node : Node.t;
  arguments : list Argument;
  result_position : nat;
  is_used_in_result : bool;
}.

(** Modelled from the spec: ExecutionContext (declared in
    ExpressionActions.h, not among the sources) holds the slot array
    [columns], the row count and [input_columns], a snapshot of the
    block's columns taken when [execute] starts. *)
Record ExecutionContext := {
  input_columns : list CWT.t;
  columns : list CWT.t;
  num_rows : nat;
}.

Record Settings := { setting_max_temporary_non_const_columns : nat }.

Record t := mk {
  nodes : list Node.t;
  actions : list Action;
  num_columns : nat;
  required_columns : list NameAndTypePair;
  sample_block : Block.t;
  project_input : bool;
  max_temporary_non_const_columns : nat;
  settings : Settings;
}.

(** [std::make_shared<ExpressionActions>()] *)
Definition init : t :=
  {| nodes := []; actions := []; num_columns := 0; required_columns := [];
     sample_block := Block.empty; project_input := false;
     max_temporary_non_const_columns := 0;
     settings := {| setting_max_temporary_non_const_columns := 0 |} |}.

Definition typeName (ty : option IDataType.t) : string :=
  from_option IDataType.getName "(no type)" ty.

(** [ptr->result_name] for a child pointer, in messages. *)
Definition childName (nodes : list Node.t) (ptr : option NodePtr) : string :=
  from_option Node.result_name "" (ptr ≫= deref nodes).

Fixpoint join (sep : string) (names : list string) : string :=
  match names with
  | [] => ""
  | [x] => x
  | x :: rest => x +:+ sep +:+ join sep rest
  end.

(** [ExpressionActions::Action::toString] *)
Definition toString (nodes : list Node.t) (action : Action) : string :=
  let n := node action in
  match Node.type n with
  | COLUMN =>
      "COLUMN " +:+ Node.result_name n +:+ " " +:+ typeName (Node.result_type n) +:+ " "
      +:+ from_option IColumn.getName "(no column)" (Node.column n)
  | ALIAS =>
      "ALIAS " +:+ Node.result_name n +:+ " = " +:+ childName nodes (head (Node.children n))
      +:+ (if from_option remove false (head (arguments action)) then " (removing)" else "")
  | FUNCTION =>
      "FUNCTION " +:+ Node.result_name n +:+ " "
      +:+ (if Node.is_function_compiled n then "[compiled] " else "")
      +:+ typeName (Node.result_type n) +:+ " = "
      +:+ from_option IFunctionBase.getName "(no function)" (Node.function_base n) +:+ "("
      +:+ join ", " ((λ c, childName nodes (Some c)) <$> Node.children n) +:+ ")"
  | ARRAY_JOIN =>
      "ARRAY JOIN " +:+ childName nodes (head (Node.children n)) +:+ " -> " +:+ Node.result_name n
  | INPUT => ""
  end.

(** [column.column && !isColumnConst( *column.column)] *)
Definition isNonConst (c : CWT.t) : bool :=
  match CWT.column c with
  | Some col => negb (IColumn.isColumnConst col)
  | None => false
  end.

(** [ExpressionActions::checkLimits]: the guard reads the member
    [max_temporary_non_const_columns], the comparison and the message read
    [settings.max_temporary_non_const_columns]. *)
Definition checkLimits (this : t) (execution_context : ExecutionContext) : Result unit :=
  if bool_decide (max_temporary_non_const_columns this ≠ 0) then
    let non_const_columns := length (filter (λ c, isNonConst c = true) (columns execution_context)) in
    if bool_decide (setting_max_temporary_non_const_columns (settings this) < non_const_columns) then
      let list_of_non_const_columns :=
        foldl (λ acc c, if isNonConst c then acc +:+ newline +:+ CWT.name c else acc) "" (columns execution_context) in
      throw TOO_MANY_TEMPORARY_NON_CONST_COLUMNS
        ("Too many temporary non-const columns:" +:+ list_of_non_const_columns
         +:+ ". Maximum: " +:+ pretty (setting_max_temporary_non_const_columns (settings this)))
    else Ok ()
  else Ok ().

(** [std::move(columns[pos])]: the value read, and the slots with the
    moved-from slot left null. *)
Definition moveOut (columns : list CWT.t) (pos : nat) : Result (CWT.t * list CWT.t) :=
  c ← defined (columns !! pos); Ok (c, <[pos := CWT.null]> columns).

Definition with_columns (ctx : ExecutionContext) (cols : list CWT.t) : ExecutionContext :=
  {| input_columns := input_columns ctx; columns := cols; num_rows := num_rows ctx |}.

Definition replicateIfPresent (offsets : list nat) (c : CWT.t) : CWT.t :=
  match CWT.column c with
  | Some col => CWT.set_column c (Some (IColumn.replicate col offsets))
  | None => c
  end.

(** [ExpressionActions::executeAction] *)
Definition executeAction (action : Action) (execution_context : ExecutionContext)
    (dry_run : bool) : Result ExecutionContext :=
  let columns0 := columns execution_context in
  let n := node action in
  match Node.type n with
  | FUNCTION =>
      res_column ← defined (columns0 !! result_position action);
      if bool_decide (is_Some (CWT.type res_column) ∨ is_Some (CWT.column res_column)) then
        throw LOGICAL_ERROR "Result column is not empty"
      else
        let columns1 :=
          <[result_position action :=
              CWT.set_name (CWT.set_type res_column (Node.result_type n)) (Node.result_name n)]>
            columns0 in
        (* arguments[i] = std::move(columns[action.arguments[i].pos]) *)
        '(args, columns2) ← foldM (λ '(args, cols) a,
                               '(c, cols') ← moveOut cols (pos a); Ok (args ++ [c], cols'))
                             ([], columns1) (arguments action);
        function ← defined (Node.function n);
        res_column ← defined (columns2 !! result_position action);
        col ← IExecutableFunction.execute function args (CWT.type res_column)
                (num_rows execution_context) dry_run;
        let columns3 :=
          <[result_position action := CWT.set_column res_column (Some col)]> columns2 in
        (* if (!remove) arguments[i] = std::move(columns[action.arguments[i].pos]) *)
        columns4 ← foldM (λ cols a,
                      if remove a then Ok cols
                      else '(_, cols') ← moveOut cols (pos a); Ok cols')
                    columns3 (arguments action);
        Ok (with_columns execution_context columns4)
  | ARRAY_JOIN =>
      front ← defined (head (arguments action));
      let array_join_key_pos := pos front in
      array_join_key ← defined (columns0 !! array_join_key_pos);
      let columns1 :=
        if remove front then <[array_join_key_pos := CWT.null]> columns0 else columns0 in
      key_column ← defined (CWT.column array_join_key);
      let key_column := IColumn.convertToFullColumnIfConst key_column in
      match IColumn.asColumnArray key_column with
      | None => throw TYPE_MISMATCH ("ARRAY JOIN of not array: " +:+ Node.result_name n)
      | Some (data, offsets) =>
          let columns2 := replicateIfPresent offsets <$> columns1 in
          let input_columns2 := replicateIfPresent offsets <$> input_columns execution_context in
          res_column ← defined (columns2 !! result_position action);
          nested ← defined (CWT.type array_join_key ≫= IDataType.getNestedType);
          let res_column := CWT.set_type (CWT.set_column res_column (Some data)) (Some nested) in
          Ok {| input_columns := input_columns2;
                columns := <[result_position action := res_column]> columns2;
                num_rows := IColumn.size data |}
      end
  | COLUMN =>
      res_column ← defined (columns0 !! result_position action);
      column ← defined (Node.column n);
      let res_column :=
        CWT.set_type
          (CWT.set_column res_column (Some (IColumn.cloneResized column (num_rows execution_context))))
          (Node.result_type n) in
      Ok (with_columns execution_context (<[result_position action := res_column]> columns0))
  | ALIAS =>
      arg ← defined (head (arguments action));
      res_column ← defined (columns0 !! result_position action);
      columns1 ←
        (if bool_decide (result_position action ≠ pos arg) then
           src ← defined (columns0 !! pos arg);
           Ok (<[result_position action :=
                   CWT.set_type (CWT.set_column res_column (CWT.column src)) (CWT.type src)]>
                 columns0)
         else Ok columns0);
      res_column ← defined (columns1 !! result_position action);
      let columns2 :=
        <[result_position action := CWT.set_name res_column (Node.result_name n)]> columns1 in
      if remove arg then
        _ ← defined (columns2 !! pos arg);
        Ok (with_columns execution_context (<[pos arg := CWT.null]> columns2))
      else Ok (with_columns execution_context columns2)
  | INPUT => throw LOGICAL_ERROR "Cannot execute INPUT action"
  end.

(** [columns.resize(n)] *)
Definition resize (columns : list CWT.t) (n : nat) : list CWT.t :=
  take n columns ++ repeat CWT.null (n - length columns).

Fixpoint insertDescending (x : nat) (l : list nat) : list nat :=
  match l with
  | [] => [x]
  | y :: l' => if bool_decide (y ≤ x) then x :: l else y :: insertDescending x l'
  end.

(** [std::sort(v.rbegin(), v.rend())]: decreasing order. *)
Definition sortDescending (l : list nat) : list nat := foldr insertDescending [] l.

(** [ExpressionActions::execute].  The block is taken and given back by
    value; [std::move] leaves a null column behind, in the block as in the
    slots. *)
Definition execute (this : t) (block : Block.t) (dry_run : bool) : Result Block.t :=
  let input_columns0 := Block.data block in
  let num_rows0 := Block.rows block in
  '(block1, columns0, inputs_to_remove) ←
    foldM (λ '(blk, cols, to_remove) column,
             pos ← Block.getPositionByName blk (nt_name column);
             c ← Block.getByPosition blk pos;
             Ok (Block.setByPosition blk pos CWT.null,
                 cols ++ [c],
                 if Block.has (sample_block this) (nt_name column)
                 then to_remove else to_remove ++ [pos]))
          (block, [], []) (required_columns this);
  let execution_context :=
    {| input_columns := input_columns0;
       columns := resize columns0 (num_columns this);
       num_rows := num_rows0 |} in
  execution_context ←
    foldM (λ ctx action,
             match (ctx' ← executeAction action ctx dry_run;
                    _ ← checkLimits this ctx';
                    Ok ctx') with
             | Throw e =>
                 Throw (addMessage e ("while executing '" +:+ toString (nodes this) action +:+ "'"))
             | r => r
             end)
          execution_context (actions this);
  block2 ←
    (if project_input this then Ok (Block.clear block1)
     else foldM Block.erase block1 (sortDescending inputs_to_remove));
  '(block3, _) ←
    foldM (λ '(blk, cols) action,
             if negb (is_used_in_result action) then Ok (blk, cols)
             else
               column ← defined (cols !! result_position action);
               let name := Node.result_name (node action) in
               let column := CWT.set_name column name in
               let cols' := <[result_position action := CWT.null]> cols in
               if Block.has blk name then
                 blk' ← Block.setByName blk name column; Ok (blk', cols')
               else Ok (Block.insert blk column, cols'))
          (block2, columns execution_context) (actions this);
  Ok block3.

(** [ExpressionActions::getRequiredColumns] *)
Definition getRequiredColumns (this : t) : list string :=
  nt_name <$> required_columns this.

(** [ExpressionActions::hasArrayJoin] *)
Definition hasArrayJoin (this : t) : bool :=
  bool_decide (Exists (λ action, Node.type (node action) = ARRAY_JOIN) (actions this)).

Definition isInFunction (name : string) : bool :=
  bool_decide (name = "in") || bool_decide (name = "globalIn").

(** The test of the first loop of [checkColumnIsAlwaysFalse]. *)
Definition isInActionFor (column_name : string) (action : Action) : bool :=
  let n := node action in
  match Node.type n, Node.function_base n with
  | FUNCTION, Some function_base =>
      bool_decide (Node.result_name n = column_name)
      && bool_decide (1 < length (Node.children n))
      && isInFunction (IFunctionBase.getName function_base)
  | _, _ => false
  end.

(** [column_set->getData()->isCreated() && getTotalRowCount() == 0] *)
Definition isCreatedEmptySet (column : option IColumn.t) : bool :=
  match column ≫= IColumn.asColumnSet with
  | Some set => IColumn.isCreated set && bool_decide (IColumn.getTotalRowCount set = 0)
  | None => false
  end.

(** The test of the second loop of [checkColumnIsAlwaysFalse]. *)
Definition isEmptySetColumn (set_to_check : string) (action : Action) : bool :=
  let n := node action in
  bool_decide (Node.type n = COLUMN)
  && bool_decide (Node.result_name n = set_to_check)
  && isCreatedEmptySet (Node.column n).

(** [ExpressionActions::checkColumnIsAlwaysFalse] *)
Definition checkColumnIsAlwaysFalse (this : t) (column_name : string) : Result bool :=
  set_to_check ←
    match list_find (λ action, isInActionFor column_name action = true) (reverse (actions this)) with
    | Some (_, action) =>
        child ← defined (Node.children (node action) !! 1 ≫= deref (nodes this));
        Ok (Node.result_name child)
    | None => Ok ""
    end;
  if bool_decide (set_to_check ≠ "") then
    Ok (bool_decide (Exists (λ action, isEmptySetColumn set_to_check action = true) (actions this)))
  else Ok false.

End ExpressionActions.

(** ** The action DAG *)
Module ActionsDAG.

(** What [addFunction] reads of [Context]: three settings. *)
Record Context := {
  settings_max_temporary_columns : nat;
  settings_max_temporary_non_const_columns : nat;
  settings_compile_expressions : bool;
}.

Record t := mk {
  nodes : list Node.t;
  index : gmap string NodePtr;
  max_temporary_columns : nat;
  max_temporary_non_const_columns : nat;
}.

(** A DAG without nodes. *)
Definition init : t :=
  {| nodes := []; index := ∅; max_temporary_columns := 0;
     max_temporary_non_const_columns := 0 |}.

Definition with_nodes_index (this : t) (ns : list Node.t) (idx : gmap string NodePtr) : t :=
  {| nodes := ns; index := idx;
     max_temporary_columns := max_temporary_columns this;
     max_temporary_non_const_columns := max_temporary_non_const_columns this |}.

(** The address [nodes.emplace_back] gives the new node: one that no node
    of the list has. *)
Definition fresh_addr (ns : list Node.t) : NodePtr :=
  S (max_list (Node.addr <$> ns)).

(** [ptr->renaming_parent = parent] for a pointer into the list. *)
Definition setRenamingParent (ptr : NodePtr) (parent : option NodePtr)
    (ns : list Node.t) : list Node.t :=
  (λ n, if bool_decide (Node.addr n = ptr) then Node.set_renaming_parent parent n else n) <$> ns.

(** [ActionsDAG::addNode]; the node returned is the one stored. *)
Definition addNode (this : t) (node : Node.t) (can_replace : bool) : Result (t * Node.t) :=
  let it := index this !! Node.result_name node in
  if bool_decide (is_Some it) && negb can_replace then
    throw DUPLICATE_COLUMN ("Column '" +:+ Node.result_name node +:+ "' already exists")
  else
    let res := Node.set_addr node (fresh_addr (nodes this)) in
    let nodes1 := nodes this ++ [res] in
    let nodes2 :=
      match it with
      | Some old => setRenamingParent old (Some (Node.addr res)) nodes1
      | None => nodes1
      end in
    Ok (with_nodes_index this nodes2 (<[Node.result_name res := Node.addr res]> (index this)),
        res).

(** [ActionsDAG::getNode] *)
Definition getNode (this : t) (name : string) : Result Node.t :=
  match index this !! name with
  | None => throw UNKNOWN_IDENTIFIER ("Unknown identifier: '" +:+ name +:+ "'")
  | Some ptr => defined (deref (nodes this) ptr)
  end.

(** [ActionsDAG::addInput(std::string, DataTypePtr)] *)
Definition addInput (this : t) (name : string) (type : option IDataType.t)
    : Result (t * Node.t) :=
  let node := Node.mk 0 [] None INPUT name type "" None None None false true None in
  addNode this node false.

(** [ActionsDAG::addInput(ColumnWithTypeAndName)] *)
Definition addInputColumn (this : t) (column : CWT.t) : Result (t * Node.t) :=
  let node :=
    Node.mk 0 [] None INPUT (CWT.name column) (CWT.type column) "" None None None
            false true (CWT.column column) in
  addNode this node false.

(** [ActionsDAG::addColumn] *)
Definition addColumn (this : t) (column : CWT.t) : Result (t * Node.t) :=
  if bool_decide (CWT.column column = None) then
    throw LOGICAL_ERROR ("Cannot add column " +:+ CWT.name column +:+ " because it is nullptr")
  else
    let node :=
      Node.mk 0 [] None COLUMN (CWT.name column) (CWT.type column) "" None None None
              false true (CWT.column column) in
    addNode this node false.

(** [ActionsDAG::addAlias] *)
Definition addAlias (this : t) (name alias : string) (can_replace : bool)
    : Result (t * Node.t) :=
  child ← getNode this name;
  let node :=
    Node.mk 0 [Node.addr child] None ALIAS alias (Node.result_type child) "" None None None
            false (Node.allow_constant_folding child) (Node.column child) in
  addNode this node can_replace.

(** [ActionsDAG::addArrayJoin] *)
Definition addArrayJoin (this : t) (source_name result_name unique_column_name : string)
    : Result (t * Node.t) :=
  child ← getNode this source_name;
  match Node.result_type child ≫= IDataType.getNestedType with
  | None => throw TYPE_MISMATCH "ARRAY JOIN requires array argument"
  | Some nested =>
      let node :=
        Node.mk 0 [Node.addr child] None ARRAY_JOIN result_name (Some nested)
                unique_column_name None None None false true None in
      addNode this node false
  end.

(** [!argument.column || !isColumnConst( *argument.column)] *)
Definition notConst (argument : CWT.t) : bool :=
  match CWT.column argument with
  | Some col => negb (IColumn.isColumnConst col)
  | None => true
  end.

(** [arguments.empty() ? 0 : arguments.front().column->size()] *)
Definition foldingNumRows (arguments : list CWT.t) : Result nat :=
  match arguments with
  | [] => Ok 0
  | front :: _ => col ← defined (CWT.column front); Ok (IColumn.size col)
  end.

(** The loop of [addFunction] over the argument names: the children, the
    conjunction of their [allow_constant_folding], whether all of them hold
    a constant column, and the arguments. *)
Definition gatherArgument (this : t) (acc : list NodePtr * bool * bool * list CWT.t)
    (name : string) : Result (list NodePtr * bool * bool * list CWT.t) :=
  let '(children, allow_constant_folding, all_const, arguments) := acc in
  child ← getNode this name;
  let argument := CWT.mk (Node.column child) (Node.result_type child) "" in
  Ok (children ++ [Node.addr child],
      allow_constant_folding && Node.allow_constant_folding child,
      if notConst argument then false else all_const,
      arguments ++ [argument]).

Definition gatherArguments (this : t) (argument_names : list string)
    : Result (list NodePtr * bool * bool * list CWT.t) :=
  foldM (gatherArgument this) ([], true, true, []) argument_names.

(** The result name of [addFunction]: [fn(arg1, arg2, ...)] when none is
    given. *)
Definition functionResultName (function : IFunctionOverloadResolver.t)
    (argument_names : list string) (result_name : string) : string :=
  if bool_decide (result_name = "") then
    IFunctionOverloadResolver.getName function +:+ "("
    +:+ ExpressionActions.join ", " argument_names +:+ ")"
  else result_name.

(** [ActionsDAG::addFunction].  [USE_EMBEDDED_COMPILER] is the build
    switch of config_core.h. *)
Definition addFunction (USE_EMBEDDED_COMPILER : bool) (this : t)
    (function : IFunctionOverloadResolver.t) (argument_names : list string)
    (result_name : string) (context : Context) : Result (t * Node.t) :=
  let this :=
    {| nodes := nodes this; index := index this;
       max_temporary_columns := settings_max_temporary_columns context;
       max_temporary_non_const_columns := settings_max_temporary_non_const_columns context |} in
  let do_compile_expressions :=
    if USE_EMBEDDED_COMPILER then settings_compile_expressions context else false in
  '(children, allow_constant_folding, all_const, arguments) ←
    gatherArguments this argument_names;
  function_base ← IFunctionOverloadResolver.build function arguments;
  let result_type := IFunctionBase.getResultType function_base in
  let prepared := IFunctionBase.prepare function_base arguments in
  column ←
    (if all_const && IFunctionBase.isSuitableForConstantFolding function_base
        && (negb do_compile_expressions || IFunctionBase.isDeterministic function_base)
     then
       num_rows ← foldingNumRows arguments;
       col ← IExecutableFunction.execute prepared arguments result_type num_rows true;
       if IColumn.isColumnConst col then
         Ok (Some (if IColumn.empty col then IColumn.cloneResized col 1 else col))
       else Ok None
     else Ok None);
  let '(column, allow_constant_folding) :=
    match column with
    | None =>
        if IFunctionBase.isSuitableForConstantFolding function_base then
          match IFunctionBase.getResultIfAlwaysReturnsConstantAndHasArguments
                  function_base arguments with
          | Some col => (Some col, false)
          | None => (None, allow_constant_folding)
          end
        else (None, allow_constant_folding)
    | Some _ => (column, allow_constant_folding)
    end in
  let result_name := functionResultName function argument_names result_name in
  let node :=
    Node.mk 0 children None FUNCTION result_name result_type "" (Some function)
            (Some function_base) (Some prepared) false allow_constant_folding column in
  addNode this node false.

(** [ActionsDAG::getResultColumns] *)
Definition getResultColumns (this : t) : list CWT.t :=
  (λ n, CWT.mk (Node.column n) (Node.result_type n) (Node.result_name n))
    <$> filter (λ n, Node.renaming_parent n = None) (nodes this).

(** [ActionsDAG::getNames] *)
Definition getNames (this : t) : list string :=
  Node.result_name <$> filter (λ n, Node.renaming_parent n = None) (nodes this).

(** [ActionsDAG::dumpNames] *)
Definition dumpNames (this : t) : string :=
  ExpressionActions.join ", " (Node.result_name <$> nodes this).

(** *** Pruning *)

(** [for (auto * child : node->children) if (!visited.count(child)) ...] *)
Definition visitChild (state : list NodePtr * gset NodePtr) (child : NodePtr)
    : list NodePtr * gset NodePtr :=
  let '(stack, visited_nodes) := state in
  if bool_decide (child ∈ visited_nodes) then (stack, visited_nodes)
  else (child :: stack, {[child]} ∪ visited_nodes).

Definition visitChildren (children : list NodePtr) (stack : list NodePtr)
    (visited_nodes : gset NodePtr) : list NodePtr * gset NodePtr :=
  foldl visitChild (stack, visited_nodes) children.

(** [while (!stack.empty())] of [removeUnusedActions], at most [fuel]
    iterations. *)
Fixpoint traverse (fuel : nat) (ns : list Node.t) (stack : list NodePtr)
    (visited_nodes : gset NodePtr) : Result (gset NodePtr) :=
  match stack with
  | [] => Ok visited_nodes
  | ptr :: stack' =>
      match fuel with
      | 0 => Undefined
      | S fuel' =>
          node ← defined (deref ns ptr);
          let '(stack'', visited_nodes') :=
            visitChildren (Node.children node) stack' visited_nodes in
          traverse fuel' ns stack'' visited_nodes'
      end
  end.

(** The first loop of [removeUnusedActions]: the new index, the visited
    set and the stack after the required names. *)
Definition requireName (this : t) (state : gmap string NodePtr * gset NodePtr * list NodePtr)
    (name : string) : Result (gmap string NodePtr * gset NodePtr * list NodePtr) :=
  let '(new_index, visited_nodes, stack) := state in
  match index this !! name with
  | None =>
      throw UNKNOWN_IDENTIFIER
        ("Unknown column: " +:+ name +:+ ", there are only columns " +:+ dumpNames this)
  | Some node =>
      Ok (<[name := node]> new_index, {[node]} ∪ visited_nodes, node :: stack)
  end.

Definition collectRequired (this : t) (required_names : list string)
    : Result (gmap string NodePtr * gset NodePtr * list NodePtr) :=
  foldM (requireName this) (∅, ∅, []) required_names.

(** [if (node.renaming_parent && !visited.count(node.renaming_parent))
      node.renaming_parent = nullptr] *)
Definition clearPrunedParent (visited_nodes : gset NodePtr) (n : Node.t) : Node.t :=
  match Node.renaming_parent n with
  | Some parent =>
      if bool_decide (parent ∈ visited_nodes) then n else Node.set_renaming_parent None n
  | None => n
  end.

(** [ActionsDAG::removeUnusedActions] *)
Definition removeUnusedActions (this : t) (required_names : list string) : Result t :=
  '(new_index, visited_nodes, stack) ← collectRequired this required_names;
  visited_nodes ←
    traverse (length required_names + length (nodes this)) (nodes this) stack visited_nodes;
  let nodes1 := filter (λ n, Node.addr n ∈ visited_nodes) (nodes this) in
  Ok (with_nodes_index this (clearPrunedParent visited_nodes <$> nodes1) new_index).

(** *** Linearization *)

(** [struct Data] of [buildExpressions] *)
Record Data := mkData {
  node : option NodePtr;
  num_created_children : nat;
  num_expected_children : nat;
  parents : list NodePtr;
  renamed_child : option NodePtr;
  position : Z;
  num_created_parents : nat;
  used_in_result : bool;
}.

Definition initData : Data := mkData None 0 0 [] None (-1) 0 false.

#[global] Instance Data_inhabited : Inhabited Data := populate initData.

Definition set_node (p : NodePtr) (d : Data) : Data :=
  mkData (Some p) (num_created_children d) (num_expected_children d) (parents d)
         (renamed_child d) (position d) (num_created_parents d) (used_in_result d).
Definition incr_created_children (d : Data) : Data :=
  mkData (node d) (S (num_created_children d)) (num_expected_children d) (parents d)
         (renamed_child d) (position d) (num_created_parents d) (used_in_result d).
Definition add_expected_children (k : nat) (d : Data) : Data :=
  mkData (node d) (num_created_children d) (num_expected_children d + k) (parents d)
         (renamed_child d) (position d) (num_created_parents d) (used_in_result d).
Definition push_parent (p : NodePtr) (d : Data) : Data :=
  mkData (node d) (num_created_children d) (num_expected_children d) (parents d ++ [p])
         (renamed_child d) (position d) (num_created_parents d) (used_in_result d).
Definition set_renamed_child (p : NodePtr) (d : Data) : Data :=
  mkData (node d) (num_created_children d) (num_expected_children d) (parents d)
         (Some p) (position d) (num_created_parents d) (used_in_result d).
Definition set_position (pos : Z) (d : Data) : Data :=
  mkData (node d) (num_created_children d) (num_expected_children d) (parents d)
         (renamed_child d) pos (num_created_parents d) (used_in_result d).
Definition incr_created_parents (d : Data) : Data :=
  mkData (node d) (num_created_children d) (num_expected_children d) (parents d)
         (renamed_child d) (position d) (S (num_created_parents d)) (used_in_result d).
Definition set_used_in_result (b : bool) (d : Data) : Data :=
  mkData (node d) (num_created_children d) (num_expected_children d) (parents d)
         (renamed_child d) (position d) (num_created_parents d) b.

(** [reverse_index[ptr]]: [operator[]] gives 0 for a pointer that is not a
    key. *)
Definition idOf (reverse_index : gmap NodePtr nat) (ptr : NodePtr) : nat :=
  default 0 (reverse_index !! ptr).

(** The first loop: [data[id].node = &node; reverse_index[&node] = id] with
    [id = reverse_index.size()]. *)
Definition numberNode (state : list Data * gmap NodePtr nat) (n : Node.t)
    : list Data * gmap NodePtr nat :=
  let '(data, reverse_index) := state in
  let id := size reverse_index in
  (alter (set_node (Node.addr n)) id data, <[Node.addr n := id]> reverse_index).

Definition numberNodes (ns : list Node.t) : list Data * gmap NodePtr nat :=
  foldl numberNode (repeat initData (length ns), ∅) ns.

(** The second loop: expected children, the result flag, the parents of
    every child and the renamed child of every renaming parent. *)
Definition countNode (this : t) (reverse_index : gmap NodePtr nat)
    (data : list Data) (n : Node.t) : list Data :=
  let data :=
    alter (λ d, set_used_in_result
                  (bool_decide (Node.renaming_parent n = None)
                   && bool_decide (is_Some (index this !! Node.result_name n)))
                  (add_expected_children (length (Node.children n)) d))
          (idOf reverse_index (Node.addr n)) data in
  let data :=
    foldl (λ data child,
             alter (push_parent (Node.addr n)) (idOf reverse_index child) data)
          data (Node.children n) in
  match Node.renaming_parent n with
  | Some parent =>
      alter (λ d, add_expected_children 1 (set_renamed_child (Node.addr n) d))
            (idOf reverse_index parent) data
  | None => data
  end.

Definition countChildren (this : t) (reverse_index : gmap NodePtr nat)
    (data : list Data) : list Data :=
  foldl (countNode this reverse_index) data (nodes this).

(** The state of the main loop. *)
Record Linearizer := mkLinearizer {
  data : list Data;
  ready_nodes : list NodePtr;
  ready_array_joins : list NodePtr;
  free_positions : list nat;
  expressions : ExpressionActions.t;
}.

(** The lambda [update_parent]. *)
Definition update_parent (ns : list Node.t) (reverse_index : gmap NodePtr nat)
    (st : Linearizer) (parent : NodePtr) : Result Linearizer :=
  let id := idOf reverse_index parent in
  let data1 := alter incr_created_children id (data st) in
  let cur := data1 !!! id in
  if bool_decide (num_created_children cur = num_expected_children cur) then
    parent_node ← defined (deref ns parent);
    if bool_decide (Node.type parent_node = ARRAY_JOIN) then
      Ok (mkLinearizer data1 (ready_nodes st) (ready_array_joins st ++ [parent])
                       (free_positions st) (expressions st))
    else
      Ok (mkLinearizer data1 (ready_nodes st ++ [parent]) (ready_array_joins st)
                       (free_positions st) (expressions st))
  else
    Ok (mkLinearizer data1 (ready_nodes st) (ready_array_joins st)
                     (free_positions st) (expressions st)).

(** The loop over [cur.node->children] that builds the arguments. *)
Definition buildArguments (ns : list Node.t) (reverse_index : gmap NodePtr nat)
    (data : list Data) (children : list NodePtr)
    : Result (list Data * list ExpressionActions.Argument) :=
  foldM (λ '(data, arguments) child,
           let id := idOf reverse_index child in
           let arg := data !!! id in
           if bool_decide (position arg < 0)%Z then
             throw LOGICAL_ERROR
               ("Argument was not calculated for "
                +:+ ExpressionActions.childName ns (Some child))
           else
             let data1 := alter incr_created_parents id data in
             let arg := data1 !!! id in
             let argument :=
               {| ExpressionActions.pos := Z.to_nat (position arg);
                  ExpressionActions.remove :=
                    negb (used_in_result arg)
                    && bool_decide (num_created_parents arg = length (parents arg)) |} in
             Ok (data1, arguments ++ [argument]))
        (data, []) children.

(** One iteration of the main loop, for the node at the front of the
    queue that is served. *)
Definition linearizeNode (ns : list Node.t) (reverse_index : gmap NodePtr nat)
    (st : Linearizer) (ptr : NodePtr) : Result Linearizer :=
  n ← defined (deref ns ptr);
  let id := idOf reverse_index ptr in
  let e := expressions st in
  let '(free_position, num_columns, free_positions1) :=
    match free_positions st with
    | [] => (ExpressionActions.num_columns e, S (ExpressionActions.num_columns e), [])
    | top :: rest => (top, ExpressionActions.num_columns e, rest)
    end in
  let data1 := alter (set_position (Z.of_nat free_position)) id (data st) in
  '(data2, arguments) ← buildArguments ns reverse_index data1 (Node.children n);
  let cur := data2 !!! id in
  let required_columns :=
    if bool_decide (Node.type n = INPUT) then
      ExpressionActions.required_columns e
      ++ [{| nt_name := Node.result_name n; nt_type := Node.result_type n |}]
    else ExpressionActions.required_columns e in
  let actions :=
    if bool_decide (Node.type n = INPUT) then ExpressionActions.actions e
    else ExpressionActions.actions e
         ++ [{| ExpressionActions.node := n;
                ExpressionActions.arguments := arguments;
                ExpressionActions.result_position := free_position;
                ExpressionActions.is_used_in_result := used_in_result cur |}] in
  let sample_block :=
    if used_in_result cur then
      Block.insert (ExpressionActions.sample_block e)
                   (CWT.mk (Node.column n) (Node.result_type n) (Node.result_name n))
    else ExpressionActions.sample_block e in
  let e1 :=
    ExpressionActions.mk (ExpressionActions.nodes e) actions num_columns required_columns
      sample_block (ExpressionActions.project_input e)
      (ExpressionActions.max_temporary_non_const_columns e) (ExpressionActions.settings e) in
  let st1 := mkLinearizer data2 (ready_nodes st) (ready_array_joins st) free_positions1 e1 in
  st2 ← foldM (update_parent ns reverse_index) st1 (parents cur);
  match Node.renaming_parent n with
  | Some parent => update_parent ns reverse_index st2 parent
  | None => Ok st2
  end.

(** [while (!ready_nodes.empty() || !ready_array_joins.empty())], at most
    [fuel] iterations: array joins are served when no other node is
    ready. *)
Fixpoint linearize (fuel : nat) (ns : list Node.t) (reverse_index : gmap NodePtr nat)
    (st : Linearizer) : Result Linearizer :=
  match ready_nodes st, ready_array_joins st with
  | [], [] => Ok st
  | ptr :: rest, _ =>
      match fuel with
      | 0 => Undefined
      | S fuel' =>
          st' ← linearizeNode ns reverse_index
                  (mkLinearizer (data st) rest (ready_array_joins st)
                                (free_positions st) (expressions st)) ptr;
          linearize fuel' ns reverse_index st'
      end
  | [], ptr :: rest =>
      match fuel with
      | 0 => Undefined
      | S fuel' =>
          st' ← linearizeNode ns reverse_index
                  (mkLinearizer (data st) [] rest (free_positions st) (expressions st)) ptr;
          linearize fuel' ns reverse_index st'
      end
  end.

(** The state the main loop starts from: the leaves that rename no node
    are ready. *)
Definition startLinearizer (this : t) : gmap NodePtr nat * Linearizer :=
  let '(data0, reverse_index) := numberNodes (nodes this) in
  let data1 := countChildren this reverse_index data0 in
  let ready :=
    Node.addr <$>
      filter (λ n, Node.children n = []
                   ∧ renamed_child (data1 !!! idOf reverse_index (Node.addr n)) = None)
             (nodes this) in
  (reverse_index, mkLinearizer data1 ready [] [] ExpressionActions.init).

(** [ActionsDAG::buildExpressions]: the program, and the DAG it leaves
    behind (its nodes are moved into the program, its index is cleared). *)
Definition buildExpressions (this : t) : Result (t * ExpressionActions.t) :=
  let '(reverse_index, st) := startLinearizer this in
  st ← linearize (length (nodes this)) (nodes this) reverse_index st;
  let e := expressions st in
  (* expressions->nodes.swap(nodes); index.clear(); *)
  let this' := with_nodes_index this (ExpressionActions.nodes e) ∅ in
  let e1 :=
    ExpressionActions.mk (nodes this) (ExpressionActions.actions e)
      (ExpressionActions.num_columns e) (ExpressionActions.required_columns e)
      (ExpressionActions.sample_block e) (ExpressionActions.project_input e)
      (ExpressionActions.max_temporary_non_const_columns e) (ExpressionActions.settings e) in
  if bool_decide (max_temporary_columns this' ≠ 0)
     && bool_decide (max_temporary_columns this' < ExpressionActions.num_columns e1) then
    throw TOO_MANY_TEMPORARY_COLUMNS
      ("Too many temporary columns: " +:+ dumpNames this' +:+ ". Maximum: "
       +:+ pretty (max_temporary_columns this'))
  else
    Ok (this',
        ExpressionActions.mk (ExpressionActions.nodes e1) (ExpressionActions.actions e1)
          (ExpressionActions.num_columns e1) (ExpressionActions.required_columns e1)
          (ExpressionActions.sample_block e1) (ExpressionActions.project_input e1)
          (max_temporary_non_const_columns this') (ExpressionActions.settings e1)).

End ActionsDAG.

(** ** [ExpressionAction]: equality and hash of the actions kept by the
    compiled-expression cache

    The struct is declared in ExpressionActions.h (not among the sources);
    its fields are those [ActionHash] and [operator==] read.  Types,
    functions, columns and join descriptors are objects behind shared
    pointers: a pointer is [None] or [Some] object, two pointers are equal
    when they hold the same object, and the methods called on an object are
    parameters.  So is SipHash (Common/SipHash.h): a state that absorbs what
    [update] is given and yields 128 bits. *)
Module ExpressionAction.

Inductive ActionType :=
  | ADD_COLUMN
  | REMOVE_COLUMN
  | COPY_COLUMN
  | APPLY_FUNCTION
  | ARRAY_JOIN
  | PROJECT
  | ADD_ALIASES.

#[global] Instance ActionType_eq_dec : EqDecision ActionType.
Proof. solve_decision. Defined.

(** What one call of [hash.update] absorbs. *)
Inductive Datum :=
  | DType (t : ActionType)
  | DBool (b : bool)
  | DString (s : string).

#[global] Instance Datum_eq_dec : EqDecision Datum.
Proof. solve_decision. Defined.

Section WithObjects.

Context {DataType FunctionBase Column TableJoin SipHash : Type}.
Context `{EqDecision DataType, EqDecision FunctionBase, EqDecision Column}.

(** [IDataType::getName], [IDataType::equals] *)
Variable type_getName : DataType → string.
Variable type_equals : DataType → DataType → bool.
(** [IFunctionBase::getName], [IFunctionBase::getArgumentTypes] *)
Variable function_getName : FunctionBase → string.
Variable function_getArgumentTypes : FunctionBase → list DataType.
(** [IColumn::getName] *)
Variable column_getName : Column → string.
(** [TableJoin::sameJoin] *)
Variable sameJoin : option TableJoin → option TableJoin → bool.
(** [SipHash hash], [hash.update], [hash.get128] *)
Variable sip_init : SipHash.
Variable sip_update : SipHash → Datum → SipHash.
Variable sip_get128 : SipHash → Z * Z.

Record t := mk {
  type : ActionType;
  source_name : string;
  result_name : string;
  result_type : option DataType;
  added_column : option Column;
  function_base : option FunctionBase;
  argument_names : list string;
  is_function_compiled : bool;
  table_join : option TableJoin;
  projection : list (string * string);
}.

(** The calls of [hash.update] in [ActionHash::operator()], in order. *)
Definition updates (action : t) : list Datum :=
  [DType (type action); DBool (is_function_compiled action)]
  ++ match type action with
     | ADD_COLUMN =>
         [DString (result_name action)]
         ++ from_option (λ ty, [DString (type_getName ty)]) [] (result_type action)
         ++ from_option (λ c, [DString (column_getName c)]) [] (added_column action)
     | REMOVE_COLUMN => [DString (source_name action)]
     | COPY_COLUMN => [DString (result_name action); DString (source_name action)]
     | APPLY_FUNCTION =>
         [DString (result_name action)]
         ++ from_option (λ ty, [DString (type_getName ty)]) [] (result_type action)
         ++ from_option
              (λ f, DString (function_getName f)
                    :: ((λ ty, DString (type_getName ty)) <$> function_getArgumentTypes f))
              [] (function_base action)
         ++ (DString <$> argument_names action)
     | ARRAY_JOIN => [DString (result_name action); DString (source_name action)]
     | PROJECT =>
         flat_map (λ pair_of_strs, [DString pair_of_strs.1; DString pair_of_strs.2])
                  (projection action)
     | ADD_ALIASES => []
     end.

(** [ExpressionAction::ActionHash::operator()] *)
Definition ActionHash (action : t) : Z * Z :=
  sip_get128 (foldl sip_update sip_init (updates action)).

(** [for (i = 0; i < my.size(); ++i) if (!my[i]->equals( *other[i])) return
    false], the sizes being equal. *)
Fixpoint allEqual (my_arg_types other_arg_types : list DataType) : bool :=
  match my_arg_types, other_arg_types with
  | my :: my_rest, other :: other_rest =>
      type_equals my other && allEqual my_rest other_rest
  | _, _ => true
  end.

(** [ExpressionAction::operator==] *)
Definition eqb (this other : t) : bool :=
  (if bool_decide (result_type this ≠ result_type other) then
     match result_type this, result_type other with
     | Some a, Some b => type_equals a b
     | _, _ => false
     end
   else true)
  && (if bool_decide (function_base this ≠ function_base other) then
        match function_base this, function_base other with
        | Some f, Some g =>
            bool_decide (function_getName f = function_getName g)
            && bool_decide (length (function_getArgumentTypes f)
                            = length (function_getArgumentTypes g))
            && allEqual (function_getArgumentTypes f) (function_getArgumentTypes g)
        | _, _ => false
        end
      else true)
  && (if bool_decide (added_column this ≠ added_column other) then
        match added_column this, added_column other with
        | Some c, Some d => bool_decide (column_getName c = column_getName d)
        | _, _ => false
        end
      else true)
  && bool_decide (source_name this = source_name other)
  && bool_decide (result_name this = result_name other)
  && bool_decide (argument_names this = argument_names other)
  && sameJoin (table_join this) (table_join other)
  && bool_decide (projection this = projection other)
  && Bool.eqb (is_function_compiled this) (is_function_compiled other).

End WithObjects.

Arguments t : clear implicits.

End ExpressionAction.

(** ** Concrete DAGs, programs and blocks *)
Module Scenarios.

Definition Int64 : IDataType.t := IDataType.DataTypeSimple "Int64".
Definition String_ : IDataType.t := IDataType.DataTypeSimple "String".
Definition UInt8 : IDataType.t := IDataType.DataTypeSimple "UInt8".
Definition Set_ : IDataType.t := IDataType.DataTypeSimple "Set".

(** A resolver with one overload: the function [name], of result type
    [result_type], computed by [impl] from the arguments and the row
    count. *)
Definition simpleFunctionBase (name : string) (result_type : IDataType.t)
    (suitable deterministic : bool) (impl : list CWT.t → nat → Result IColumn.t)
    (arguments : list CWT.t) : IFunctionBase.t :=
  {| IFunctionBase.getName := name;
     IFunctionBase.getResultType := Some result_type;
     IFunctionBase.getArgumentTypes := omap CWT.type arguments;
     IFunctionBase.prepare := λ _,
       {| IExecutableFunction.execute := λ args _ num_rows _, impl args num_rows |};
     IFunctionBase.isSuitableForConstantFolding := suitable;
     IFunctionBase.isDeterministic := deterministic;
     IFunctionBase.getResultIfAlwaysReturnsConstantAndHasArguments := λ _, None |}.

Definition simpleFunction (name : string) (result_type : IDataType.t)
    (suitable deterministic : bool) (impl : list CWT.t → nat → Result IColumn.t)
    : IFunctionOverloadResolver.t :=
  {| IFunctionOverloadResolver.getName := name;
     IFunctionOverloadResolver.build := λ arguments,
       Ok (simpleFunctionBase name result_type suitable deterministic impl arguments) |}.

(** [f] and [g] return a column of zeros, one per row. *)
Definition zerosImpl (args : list CWT.t) (num_rows : nat) : Result IColumn.t :=
  Ok (IColumn.ColumnVector (repeat 0%Z num_rows)).
Definition f : IFunctionOverloadResolver.t := simpleFunction "f" Int64 true true zerosImpl.
Definition g : IFunctionOverloadResolver.t := simpleFunction "g" Int64 true true zerosImpl.
Definition in_ : IFunctionOverloadResolver.t := simpleFunction "in" UInt8 false true zerosImpl.

(** [rowCount] returns the row count it is evaluated at, as a constant. *)
Definition rowCountImpl (args : list CWT.t) (num_rows : nat) : Result IColumn.t :=
  Ok (IColumn.ColumnConst (IColumn.ColumnVector [Z.of_nat num_rows]) num_rows).
Definition rowCount : IFunctionOverloadResolver.t :=
  simpleFunction "rowCount" Int64 true true rowCountImpl.

Definition context (max_temporary_columns : nat) : ActionsDAG.Context :=
  {| ActionsDAG.settings_max_temporary_columns := max_temporary_columns;
     ActionsDAG.settings_max_temporary_non_const_columns := 0;
     ActionsDAG.settings_compile_expressions := false |}.

Definition block (columns : list CWT.t) : Block.t := foldl Block.insert Block.empty columns.

(** *** One input, required in the output *)
Definition passthrough_dag : Result ActionsDAG.t :=
  '(dag, _) ← ActionsDAG.addInput ActionsDAG.init "x" (Some Int64);
  Ok dag.

Definition passthrough_block : Block.t :=
  block [CWT.mk (Some (IColumn.ColumnVector [1; 2; 3]%Z)) (Some Int64) "x"].

(** *** [y = plus(x, 1)]: the input [x], the literal [1] and [y] are all
    in the index *)
Definition plusImpl (args : list CWT.t) (num_rows : nat) : Result IColumn.t :=
  match CWT.column <$> args with
  | [Some (IColumn.ColumnVector xs); Some (IColumn.ColumnConst (IColumn.ColumnVector [c]) _)] =>
      Ok (IColumn.ColumnVector ((λ x, x + c)%Z <$> xs))
  | [Some (IColumn.ColumnConst (IColumn.ColumnVector [a]) _);
     Some (IColumn.ColumnConst (IColumn.ColumnVector [c]) _)] =>
      Ok (IColumn.ColumnConst (IColumn.ColumnVector [a + c]%Z) num_rows)
  | _ => throw LOGICAL_ERROR "Illegal arguments of function plus"
  end.
Definition plus : IFunctionOverloadResolver.t := simpleFunction "plus" Int64 true true plusImpl.

Definition literal_one : CWT.t :=
  CWT.mk (Some (IColumn.ColumnConst (IColumn.ColumnVector [1%Z]) 1)) (Some Int64) "1".

Definition plus_dag : Result ActionsDAG.t :=
  '(dag, _) ← ActionsDAG.addInput ActionsDAG.init "x" (Some Int64);
  '(dag, _) ← ActionsDAG.addColumn dag literal_one;
  '(dag, _) ← ActionsDAG.addFunction false dag plus ["x"; "1"] "y" (context 0);
  Ok dag.

Definition plus_block : Block.t :=
  block [CWT.mk (Some (IColumn.ColumnVector [10; 20; 30]%Z)) (Some Int64) "x"].

(** *** [c = g(f(a))], only [c] required *)
Definition chain_dag : Result ActionsDAG.t :=
  '(dag, _) ← ActionsDAG.addInput ActionsDAG.init "a" (Some Int64);
  '(dag, _) ← ActionsDAG.addFunction false dag f ["a"] "b" (context 0);
  '(dag, _) ← ActionsDAG.addFunction false dag g ["b"] "c" (context 0);
  ActionsDAG.removeUnusedActions dag ["c"].

(** *** Ten independent function applications, at most five temporary
    columns *)
Definition pressure_inputs : list string :=
  ["x0"; "x1"; "x2"; "x3"; "x4"; "x5"; "x6"; "x7"; "x8"; "x9"].

Definition pressure_dag (max_temporary_columns : nat) : Result ActionsDAG.t :=
  dag ← foldM (λ dag name,
                 '(dag, _) ← ActionsDAG.addInput dag name (Some Int64); Ok dag)
              ActionsDAG.init pressure_inputs;
  foldM (λ dag name,
           '(dag, _) ← ActionsDAG.addFunction false dag f [name] ""
                         (context max_temporary_columns);
           Ok dag)
        dag pressure_inputs.

(** *** Array join: [arr = [[1,2],[],[3]]], [tag = ["x","y","z"]] *)
Definition array_join_dag : Result ActionsDAG.t :=
  '(dag, _) ← ActionsDAG.addInput ActionsDAG.init "arr" (Some (IDataType.DataTypeArray Int64));
  '(dag, _) ← ActionsDAG.addInput dag "tag" (Some String_);
  '(dag, _) ← ActionsDAG.addArrayJoin dag "arr" "e" "";
  ActionsDAG.removeUnusedActions dag ["e"; "tag"].

Definition arr_column : CWT.t :=
  CWT.mk (Some (IColumn.ColumnArray (IColumn.ColumnVector [1; 2; 3]%Z) [2; 2; 3]))
         (Some (IDataType.DataTypeArray Int64)) "arr".
Definition tag_column : CWT.t :=
  CWT.mk (Some (IColumn.ColumnString ["x"; "y"; "z"])) (Some String_) "tag".

Definition array_join_block : Block.t := block [arr_column; tag_column].

(** The [ARRAY JOIN arr -> e] action of the program, and the execution
    context [execute] gives it: the two inputs in slots 0 and 1. *)
Definition array_join_action : Result ExpressionActions.Action :=
  dag ← array_join_dag;
  '(_, program) ← ActionsDAG.buildExpressions dag;
  defined (head (ExpressionActions.actions program)).

Definition array_join_context : ExpressionActions.ExecutionContext :=
  {| ExpressionActions.input_columns := [arr_column; tag_column];
     ExpressionActions.columns := [arr_column; tag_column; CWT.null];
     ExpressionActions.num_rows := 3 |}.

(** *** [in(k, s)] where [s] names an empty set column that an alias of
    the input [t] has replaced *)
Definition empty_set : CWT.t :=
  CWT.mk (Some (IColumn.ColumnSet 1 {| IColumn.isCreated := true; IColumn.getTotalRowCount := 0 |}))
         (Some Set_) "s".

Definition renamed_set_dag : Result ActionsDAG.t :=
  '(dag, _) ← ActionsDAG.addInput ActionsDAG.init "k" (Some Int64);
  '(dag, _) ← ActionsDAG.addColumn dag empty_set;
  '(dag, _) ← ActionsDAG.addInput dag "t" (Some Int64);
  '(dag, _) ← ActionsDAG.addAlias dag "t" "s" true;
  '(dag, _) ← ActionsDAG.addFunction false dag in_ ["k"; "s"] "" (context 0);
  Ok dag.

(** *** [in(k, s)] over the empty set column [s] itself *)
Definition empty_set_dag : Result ActionsDAG.t :=
  '(dag, _) ← ActionsDAG.addInput ActionsDAG.init "k" (Some Int64);
  '(dag, _) ← ActionsDAG.addColumn dag empty_set;
  '(dag, _) ← ActionsDAG.addFunction false dag in_ ["k"; "s"] "" (context 0);
  Ok dag.

(** *** A constant of five rows and [rowCount] over it *)
Definition five_rows : CWT.t :=
  CWT.mk (Some (IColumn.ColumnConst (IColumn.ColumnVector [7%Z]) 5)) (Some Int64) "c".

Definition constant_dag : Result ActionsDAG.t :=
  '(dag, _) ← ActionsDAG.addColumn ActionsDAG.init five_rows;
  Ok dag.

Definition program (dag : Result ActionsDAG.t) : Result ExpressionActions.t :=
  dag ← dag; '(_, program) ← ActionsDAG.buildExpressions dag; Ok program.

(** The value of a result that is [Ok]. *)
Definition the {A} (default : A) (r : Result A) : A :=
  match r with
  | Ok a => a
  | _ => default
  end.

(** The DAG with the input [x]; [c = g(f(a))] before it is pruned; the ten
    function applications without a limit, and their program; the DAG with
    the constant [c]; the ARRAY JOIN action. *)
Definition x_dag : ActionsDAG.t := the ActionsDAG.init passthrough_dag.

Definition unpruned_chain_dag : ActionsDAG.t :=
  the ActionsDAG.init
    ('(dag, _) ← ActionsDAG.addInput ActionsDAG.init "a" (Some Int64);
     '(dag, _) ← ActionsDAG.addFunction false dag f ["a"] "b" (context 0);
     '(dag, _) ← ActionsDAG.addFunction false dag g ["b"] "c" (context 0);
     Ok dag).

Definition unlimited_dag : ActionsDAG.t := the ActionsDAG.init (pressure_dag 0).
Definition unlimited_program : ExpressionActions.t :=
  the ExpressionActions.init (program (pressure_dag 0)).

Definition c_dag : ActionsDAG.t := the ActionsDAG.init constant_dag.
Definition c_node : Node.t :=
  Node.mk 1 [] None COLUMN "c" (Some Int64) "" None None None false true
          (Some (IColumn.ColumnConst (IColumn.ColumnVector [7%Z]) 5)).

Definition the_array_join_action : ExpressionActions.Action :=
  the {| ExpressionActions.node := Node.init; ExpressionActions.arguments := [];
         ExpressionActions.result_position := 0;
         ExpressionActions.is_used_in_result := false |}
      array_join_action.

(** *** [c = g(b)] with [b = f(a)], and then [b] replaced by an alias of
    [a]: the function [b] has the alias as its renaming parent *)
Definition renamed_chain_dag : ActionsDAG.t :=
  the ActionsDAG.init
    ('(dag, _) ← ActionsDAG.addInput ActionsDAG.init "a" (Some Int64);
     '(dag, _) ← ActionsDAG.addFunction false dag f ["a"] "b" (context 0);
     '(dag, _) ← ActionsDAG.addFunction false dag g ["b"] "c" (context 0);
     '(dag, _) ← ActionsDAG.addAlias dag "a" "b" true;
     Ok dag).

(** The node [addInput("x", String)] hands to [addNode]. *)
Definition x_again : Node.t :=
  Node.mk 0 [] None INPUT "x" (Some String_) "" None None None false true None.

(** *** [r1 = in(k, s)] over the empty set [s]; then [s] is replaced by an
    alias of the set [t] of three rows, and [r2 = in(k, s)] is added; both
    results are required *)
Definition full_set : CWT.t :=
  CWT.mk (Some (IColumn.ColumnSet 1 {| IColumn.isCreated := true; IColumn.getTotalRowCount := 3 |}))
         (Some Set_) "t".

Definition stale_set_dag : Result ActionsDAG.t :=
  '(dag, _) ← ActionsDAG.addInput ActionsDAG.init "k" (Some Int64);
  '(dag, _) ← ActionsDAG.addColumn dag empty_set;
  '(dag, _) ← ActionsDAG.addFunction false dag in_ ["k"; "s"] "r1" (context 0);
  '(dag, _) ← ActionsDAG.addColumn dag full_set;
  '(dag, _) ← ActionsDAG.addAlias dag "t" "s" true;
  '(dag, _) ← ActionsDAG.addFunction false dag in_ ["k"; "s"] "r2" (context 0);
  ActionsDAG.removeUnusedActions dag ["r1"; "r2"].

End Scenarios.

(** * Properties *)

(** ** The error monad *)

Lemma bind_Ok {A B} (m : Result A) (k : A → Result B) (b : B) :
  m ≫= k = Ok b → ∃ a, m = Ok a ∧ k a = Ok b.
Proof. destruct m; simpl; [eauto | discriminate..]. Qed.

Lemma bind_Throw {A B} (m : Result A) (k : A → Result B) (e : Exception) :
  m ≫= k = Throw e → m = Throw e ∨ ∃ a, m = Ok a ∧ k a = Throw e.
Proof. destruct m; simpl; [eauto | intros [= ->]; eauto | discriminate]. Qed.

Lemma defined_Ok {A} (o : option A) (a : A) : defined o = Ok a ↔ o = Some a.
Proof. destruct o; simpl; split; congruence. Qed.

Lemma defined_Throw {A} (o : option A) (e : Exception) : defined o ≠ Throw e.
Proof. destruct o; discriminate. Qed.

(** An exception out of a loop is an exception of one of its iterations. *)
Lemma foldM_Throw {A B} (P : Exception → Prop) (f : B → A → Result B) xs acc e :
  (∀ b a e', f b a = Throw e' → P e') →
  foldM f acc xs = Throw e → P e.
Proof.
  intros Hf. revert acc. induction xs as [|x xs IH]; intros acc; simpl; [discriminate|].
  intros [H | (acc' & _ & H)]%bind_Throw; eauto.
Qed.

(** A loop invariant holds when the loop is over. *)
Lemma foldM_invariant {A B} (I : B → Prop) (f : B → A → Result B) xs acc acc' :
  (∀ b a b', I b → f b a = Ok b' → I b') →
  I acc → foldM f acc xs = Ok acc' → I acc'.
Proof.
  intros Hf. revert acc. induction xs as [|x xs IH]; intros acc Hacc; simpl.
  - by intros [= <-].
  - intros (b & Hb & H)%bind_Ok. eauto.
Qed.

(** ** Pointers into the list of nodes *)

Lemma deref_Some (ns : list Node.t) (ptr : NodePtr) (node : Node.t) :
  deref ns ptr = Some node → node ∈ ns ∧ Node.addr node = ptr.
Proof.
  unfold deref. destruct (list_find _ ns) as [[i n]|] eqn:Hfind; [|discriminate].
  intros [= <-]. apply list_find_Some in Hfind as (Hi & Haddr & _).
  split; [by eapply list_elem_of_lookup_2|done].
Qed.

Lemma deref_is_Some (ns : list Node.t) (node : Node.t) :
  node ∈ ns → is_Some (deref ns (Node.addr node)).
Proof.
  intros Hin. unfold deref.
  destruct (list_find_elem_of (λ n, Node.addr n = Node.addr node) ns node) as [[i n] ->]; eauto.
Qed.

(** The DAG [addFunction] works on: the limits are read from the context. *)
Definition withSettings (this : ActionsDAG.t) (context : ActionsDAG.Context) : ActionsDAG.t :=
  {| ActionsDAG.nodes := ActionsDAG.nodes this;
     ActionsDAG.index := ActionsDAG.index this;
     ActionsDAG.max_temporary_columns := ActionsDAG.settings_max_temporary_columns context;
     ActionsDAG.max_temporary_non_const_columns :=
       ActionsDAG.settings_max_temporary_non_const_columns context |}.

(** ** [addNode]: one node per name *)

Lemma addNode_replace (this : ActionsDAG.t) (node : Node.t) (can_replace : bool) :
  can_replace = true ∨ ActionsDAG.index this !! Node.result_name node = None →
  let res := Node.set_addr node (ActionsDAG.fresh_addr (ActionsDAG.nodes this)) in
  ActionsDAG.addNode this node can_replace =
    Ok (ActionsDAG.with_nodes_index this
          (match ActionsDAG.index this !! Node.result_name node with
           | Some old => ActionsDAG.setRenamingParent old (Some (Node.addr res))
                           (ActionsDAG.nodes this ++ [res])
           | None => ActionsDAG.nodes this ++ [res]
           end)
          (<[Node.result_name node := Node.addr res]> (ActionsDAG.index this)),
        res).
Proof.
  intros H. unfold ActionsDAG.addNode.
  destruct H as [-> | ->]; [rewrite andb_false_r | rewrite bool_decide_eq_false_2 by (by intros [? ?])];
    reflexivity.
Qed.

Lemma addNode_duplicate (this : ActionsDAG.t) (node : Node.t) (old : NodePtr) :
  ActionsDAG.index this !! Node.result_name node = Some old →
  ActionsDAG.addNode this node false =
    throw DUPLICATE_COLUMN ("Column '" +:+ Node.result_name node +:+ "' already exists").
Proof.
  intros H. unfold ActionsDAG.addNode. rewrite H.
  by rewrite bool_decide_eq_true_2 by eauto.
Qed.

Lemma fresh_addr_fresh (ns : list Node.t) (n : Node.t) :
  n ∈ ns → Node.addr n < ActionsDAG.fresh_addr ns.
Proof.
  intros Hn. unfold ActionsDAG.fresh_addr.
  assert (Node.addr n ≤ max_list (Node.addr <$> ns)); [|lia].
  apply max_list_elem_of_le, list_elem_of_fmap. eauto.
Qed.

Lemma getNode_Ok (this : ActionsDAG.t) (name : string) (child : Node.t) :
  ActionsDAG.getNode this name = Ok child →
  ∃ ptr, ActionsDAG.index this !! name = Some ptr ∧ deref (ActionsDAG.nodes this) ptr = Some child.
Proof.
  unfold ActionsDAG.getNode. destruct (ActionsDAG.index this !! name) as [ptr|]; [|discriminate].
  intros ?%defined_Ok. eauto.
Qed.

(** [addFunction] ends in [addNode] with replacement forbidden. *)
Lemma addFunction_Ok_addNode flag this function argument_names result_name context r :
  ActionsDAG.addFunction flag this function argument_names result_name context = Ok r →
  ∃ this' node,
    ActionsDAG.index this' = ActionsDAG.index this
    ∧ Node.result_name node = ActionsDAG.functionResultName function argument_names result_name
    ∧ ActionsDAG.addNode this' node false = Ok r.
Proof.
  unfold ActionsDAG.addFunction.
  intros ([[[children allow] all_const] arguments] & _ & H)%bind_Ok.
  apply bind_Ok in H as (function_base & _ & H).
  apply bind_Ok in H as (column & _ & H).
  destruct column as [col|];
    [|destruct (IFunctionBase.isSuitableForConstantFolding function_base);
      [destruct (IFunctionBase.getResultIfAlwaysReturnsConstantAndHasArguments _ _)|]];
    (eexists _, _; split; [|split; [|exact H]]; reflexivity).
Qed.

(** The fields of a node but its renaming parent, and but its address. *)
Definition sameButRenamingParent (n n' : Node.t) : Prop :=
  Node.addr n' = Node.addr n
  ∧ Node.children n' = Node.children n
  ∧ Node.type n' = Node.type n
  ∧ Node.result_name n' = Node.result_name n
  ∧ Node.result_type n' = Node.result_type n
  ∧ Node.unique_column_name_for_array_join n' = Node.unique_column_name_for_array_join n
  ∧ Node.function_builder n' = Node.function_builder n
  ∧ Node.function_base n' = Node.function_base n
  ∧ Node.function n' = Node.function n
  ∧ Node.is_function_compiled n' = Node.is_function_compiled n
  ∧ Node.allow_constant_folding n' = Node.allow_constant_folding n
  ∧ Node.column n' = Node.column n.

Definition sameButAddr (n n' : Node.t) : Prop :=
  Node.children n' = Node.children n
  ∧ Node.renaming_parent n' = Node.renaming_parent n
  ∧ Node.type n' = Node.type n
  ∧ Node.result_name n' = Node.result_name n
  ∧ Node.result_type n' = Node.result_type n
  ∧ Node.unique_column_name_for_array_join n' = Node.unique_column_name_for_array_join n
  ∧ Node.function_builder n' = Node.function_builder n
  ∧ Node.function_base n' = Node.function_base n
  ∧ Node.function n' = Node.function n
  ∧ Node.is_function_compiled n' = Node.is_function_compiled n
  ∧ Node.allow_constant_folding n' = Node.allow_constant_folding n
  ∧ Node.column n' = Node.column n.

Lemma sameButRenamingParent_refl (n : Node.t) : sameButRenamingParent n n.
Proof. by repeat split. Qed.

(** [addFunction] comes to its last statement, the call of [addNode], when
    every argument is found, the overload is resolved and, where the function
    is evaluated for constant folding, the evaluation returns. *)
Definition ReachesAddNode (USE_EMBEDDED_COMPILER : bool) (this : ActionsDAG.t)
    (function : IFunctionOverloadResolver.t) (argument_names : list string)
    (context : ActionsDAG.Context) : Prop :=
  ∃ children allow_constant_folding all_const arguments function_base,
    ActionsDAG.gatherArguments (withSettings this context) argument_names
    = Ok (children, allow_constant_folding, all_const, arguments)
    ∧ IFunctionOverloadResolver.build function arguments = Ok function_base
    ∧ (all_const && IFunctionBase.isSuitableForConstantFolding function_base
       && (negb (if USE_EMBEDDED_COMPILER
                 then ActionsDAG.settings_compile_expressions context else false)
           || IFunctionBase.isDeterministic function_base) = true →
       ∃ num_rows col,
         ActionsDAG.foldingNumRows arguments = Ok num_rows
         ∧ IExecutableFunction.execute (IFunctionBase.prepare function_base arguments)
             arguments (IFunctionBase.getResultType function_base) num_rows true = Ok col).

Lemma deref_cons (n : Node.t) (ns : list Node.t) (ptr : NodePtr) :
  deref (n :: ns) ptr = if decide (Node.addr n = ptr) then Some n else deref ns ptr.
Proof.
  unfold deref. simpl. case_decide; [done|].
  by destruct (list_find (λ n0, Node.addr n0 = ptr) ns) as [[i m]|].
Qed.

(** A pointer is followed to the same node after a write that moves no
    node. *)
Lemma deref_fmap_addr (g : Node.t → Node.t) (ns : list Node.t) (ptr : NodePtr) :
  (∀ n, Node.addr (g n) = Node.addr n) → deref (g <$> ns) ptr = g <$> deref ns ptr.
Proof.
  intros Hg. induction ns as [|n ns IH]; [done|].
  rewrite fmap_cons, !deref_cons, Hg. by case_decide.
Qed.

Lemma deref_app_l (ns ns' : list Node.t) (ptr : NodePtr) (n : Node.t) :
  deref ns ptr = Some n → deref (ns ++ ns') ptr = Some n.
Proof.
  induction ns as [|m ns IH]; [done|]. simpl. rewrite !deref_cons. by case_decide.
Qed.

Lemma deref_app_fresh (ns : list Node.t) (res : Node.t) :
  (∀ n, n ∈ ns → Node.addr n ≠ Node.addr res) → deref (ns ++ [res]) (Node.addr res) = Some res.
Proof.
  induction ns as [|m ns IH]; intros Hfresh; simpl; rewrite deref_cons.
  - by rewrite decide_True.
  - rewrite decide_False by (apply Hfresh; left). apply IH. intros n Hn. apply Hfresh. by right.
Qed.

(** What [it->second->renaming_parent = &res] does to the node at an index
    of the list. *)
Lemma lookup_setRenamingParent (ptr : NodePtr) (parent : option NodePtr)
    (ns : list Node.t) (i : nat) (n : Node.t) :
  ns !! i = Some n →
  ∃ n', ActionsDAG.setRenamingParent ptr parent ns !! i = Some n'
        ∧ sameButRenamingParent n n'
        ∧ Node.renaming_parent n'
          = if bool_decide (Node.addr n = ptr) then parent else Node.renaming_parent n.
Proof.
  intros Hi. unfold ActionsDAG.setRenamingParent. rewrite list_lookup_fmap, Hi. simpl.
  eexists. split; [reflexivity|]. case_bool_decide; simpl; by repeat split.
Qed.

(** C7: a node whose name the index already holds is refused with
    DUPLICATE_COLUMN when replacement is not permitted, by [addNode] and so by
    the builders that reach it: [addInput], [addColumn] for a column that is
    present, [addAlias] without [can_replace], [addArrayJoin] for a source
    that exists and is an array, and [addFunction] when its arguments are
    found and it is built (it never succeeds).  With [can_replace = true] the
    node is stored at the end of the list under a fresh address, with the
    fields it was given; the index maps the name to it; the renaming parent
    of the node the index held before is the new node, and every other field
    of every node is as it was. *)
Theorem addNode_duplicate_column (this : ActionsDAG.t) (name : string) (old : NodePtr)
    (Hin : ActionsDAG.index this !! name = Some old) :
  (∀ node, Node.result_name node = name →
     (∃ e, ActionsDAG.addNode this node false = Throw e ∧ code e = DUPLICATE_COLUMN)
     ∧ ∃ this' res,
         ActionsDAG.addNode this node true = Ok (this', res)
         ∧ res = Node.set_addr node (ActionsDAG.fresh_addr (ActionsDAG.nodes this))
         ∧ Node.addr res = ActionsDAG.fresh_addr (ActionsDAG.nodes this)
         ∧ sameButAddr node res
         ∧ ActionsDAG.index this' = <[name := Node.addr res]> (ActionsDAG.index this)
         ∧ ActionsDAG.index this' !! name = Some (Node.addr res)
         ∧ (∀ n, n ∈ ActionsDAG.nodes this → Node.addr n ≠ Node.addr res)
         ∧ length (ActionsDAG.nodes this') = S (length (ActionsDAG.nodes this))
         ∧ (∀ i n, ActionsDAG.nodes this !! i = Some n →
              ActionsDAG.nodes this' !! i =
                Some (if bool_decide (Node.addr n = old)
                      then Node.set_renaming_parent (Some (Node.addr res)) n else n))
         ∧ (∀ i n, ActionsDAG.nodes this !! i = Some n →
              ∃ n', ActionsDAG.nodes this' !! i = Some n'
                    ∧ sameButRenamingParent n n'
                    ∧ Node.renaming_parent n'
                      = if bool_decide (Node.addr n = old) then Some (Node.addr res)
                        else Node.renaming_parent n)
         ∧ (∀ displaced, deref (ActionsDAG.nodes this) old = Some displaced →
              ActionsDAG.nodes this' !! length (ActionsDAG.nodes this) = Some res
              ∧ deref (ActionsDAG.nodes this') (Node.addr res) = Some res
              ∧ ∃ displaced',
                  deref (ActionsDAG.nodes this') old = Some displaced'
                  ∧ sameButRenamingParent displaced displaced'
                  ∧ Node.renaming_parent displaced' = Some (Node.addr res)))
  ∧ (∀ type, ∃ e, ActionsDAG.addInput this name type = Throw e ∧ code e = DUPLICATE_COLUMN)
  ∧ (∀ column, CWT.name column = name →
       (∃ e, ActionsDAG.addInputColumn this column = Throw e ∧ code e = DUPLICATE_COLUMN)
       ∧ (is_Some (CWT.column column) →
          ∃ e, ActionsDAG.addColumn this column = Throw e ∧ code e = DUPLICATE_COLUMN))
  ∧ (∀ source child, ActionsDAG.getNode this source = Ok child →
       (∃ e, ActionsDAG.addAlias this source name false = Throw e ∧ code e = DUPLICATE_COLUMN)
       ∧ (is_Some (Node.result_type child ≫= IDataType.getNestedType) →
          ∀ unique, ∃ e, ActionsDAG.addArrayJoin this source name unique = Throw e
                         ∧ code e = DUPLICATE_COLUMN))
  ∧ (∀ flag function argument_names result_name context,
       ActionsDAG.functionResultName function argument_names result_name = name →
       (∀ r, ActionsDAG.addFunction flag this function argument_names result_name context
             ≠ Ok r)
       ∧ (ReachesAddNode flag this function argument_names context →
          ∃ e, ActionsDAG.addFunction flag this function argument_names result_name context
               = Throw e
               ∧ code e = DUPLICATE_COLUMN)).
Proof.
  assert (Hdup : ∀ this0 node, ActionsDAG.index this0 = ActionsDAG.index this →
            Node.result_name node = name →
            ∃ e, ActionsDAG.addNode this0 node false = Throw e ∧ code e = DUPLICATE_COLUMN).
  { intros this0 node Hindex Hname. eexists. split.
    - apply (addNode_duplicate this0 node old). by rewrite Hindex, Hname.
    - reflexivity. }
  split; [|split; [|split; [|split]]].
  - intros node Hname. split; [by apply Hdup|].
    set (res := Node.set_addr node (ActionsDAG.fresh_addr (ActionsDAG.nodes this))).
    exists (ActionsDAG.with_nodes_index this
              (ActionsDAG.setRenamingParent old (Some (Node.addr res))
                 (ActionsDAG.nodes this ++ [res]))
              (<[name := Node.addr res]> (ActionsDAG.index this))), res.
    assert (∀ n, n ∈ ActionsDAG.nodes this → Node.addr n ≠ Node.addr res) as Hfresh
      by (intros n Hn%fresh_addr_fresh; simpl; lia).
    split; [rewrite addNode_replace by auto; by rewrite Hname, Hin|].
    unfold ActionsDAG.with_nodes_index. cbn [ActionsDAG.nodes ActionsDAG.index].
    split; [reflexivity|]. split; [reflexivity|].
    split; [by repeat split|]. split; [reflexivity|].
    split; [apply lookup_insert_eq|]. split; [exact Hfresh|].
    split; [|split; [|split]].
    + unfold ActionsDAG.setRenamingParent. rewrite length_fmap, length_app. simpl. lia.
    + intros i n Hi. unfold ActionsDAG.setRenamingParent.
      rewrite list_lookup_fmap, lookup_app_l by (by eapply lookup_lt_Some).
      by rewrite Hi.
    + intros i n Hi. apply lookup_setRenamingParent.
      by rewrite lookup_app_l by (by eapply lookup_lt_Some).
    + intros displaced Hdisplaced.
      destruct (deref_Some _ _ _ Hdisplaced) as [Hold Haddr].
      assert (Node.addr res ≠ old) as Hne by (intros Heq; by apply (Hfresh displaced Hold); congruence).
      assert (∀ n, Node.addr (if bool_decide (Node.addr n = old)
                              then Node.set_renaming_parent (Some (Node.addr res)) n else n)
                   = Node.addr n) as Hmoves by (intros n; by case_bool_decide).
      unfold ActionsDAG.setRenamingParent. split; [|split].
      * rewrite list_lookup_fmap, list_lookup_middle by done. simpl.
        by rewrite bool_decide_eq_false_2.
      * rewrite (deref_fmap_addr _ _ _ Hmoves), (deref_app_fresh _ _ Hfresh). simpl.
        by rewrite bool_decide_eq_false_2.
      * rewrite (deref_fmap_addr _ _ _ Hmoves), (deref_app_l _ _ _ _ Hdisplaced). simpl.
        rewrite bool_decide_eq_true_2 by done.
        eexists. split; [reflexivity|]. by repeat split.
  - intros type. by apply Hdup.
  - intros column Hname. split; [by apply Hdup|].
    intros [col Hcol]. unfold ActionsDAG.addColumn.
    rewrite bool_decide_eq_false_2 by congruence. by apply Hdup.
  - intros source child Hchild. split.
    + unfold ActionsDAG.addAlias. rewrite Hchild. simpl. by apply Hdup.
    + intros [nested Hnested] unique. unfold ActionsDAG.addArrayJoin. rewrite Hchild. simpl.
      rewrite Hnested. by apply Hdup.
  - intros flag function argument_names result_name context Hname. split.
    + intros r (this' & node & Hidx & Hnode & Hadd)%addFunction_Ok_addNode.
      erewrite addNode_duplicate in Hadd by (rewrite Hidx, Hnode, Hname; exact Hin).
      discriminate.
    + intros (children & allow & all_const & arguments & function_base & Hgather & Hbuild
              & Hfold).
      unfold ActionsDAG.addFunction. fold (withSettings this context).
      rewrite Hgather. simpl. rewrite Hbuild. simpl.
      destruct (all_const && IFunctionBase.isSuitableForConstantFolding function_base
                && (negb (if flag then ActionsDAG.settings_compile_expressions context
                          else false)
                    || IFunctionBase.isDeterministic function_base)) eqn:Hcondition.
      * destruct (Hfold eq_refl) as (num_rows & col & -> & Hexecute). simpl.
        rewrite Hexecute. simpl.
        destruct (IColumn.isColumnConst col); simpl;
          [|destruct (IFunctionBase.isSuitableForConstantFolding function_base);
            [destruct (IFunctionBase.getResultIfAlwaysReturnsConstantAndHasArguments _ _)|]];
          by apply Hdup.
      * simpl.
        destruct (IFunctionBase.isSuitableForConstantFolding function_base);
          [destruct (IFunctionBase.getResultIfAlwaysReturnsConstantAndHasArguments _ _)|];
          by apply Hdup.
Qed.

(** ** The linearizer raises LOGICAL_ERROR only; the limit is checked after it *)

Lemma update_parent_Throw ns reverse_index st parent e :
  ActionsDAG.update_parent ns reverse_index st parent ≠ Throw e.
Proof.
  unfold ActionsDAG.update_parent. case_bool_decide as Hready; [|discriminate].
  intros [Hn | (n & _ & Hn)]%bind_Throw; [by apply defined_Throw in Hn|].
  by case_bool_decide.
Qed.

Lemma buildArguments_Throw ns reverse_index data children e :
  ActionsDAG.buildArguments ns reverse_index data children = Throw e → code e = LOGICAL_ERROR.
Proof.
  unfold ActionsDAG.buildArguments. apply (foldM_Throw (λ e, code e = LOGICAL_ERROR)).
  intros [d args] child e'. case_bool_decide as Hpos; [by intros [= <-]|discriminate].
Qed.

Lemma linearizeNode_Throw ns reverse_index st ptr e :
  ActionsDAG.linearizeNode ns reverse_index st ptr = Throw e → code e = LOGICAL_ERROR.
Proof.
  unfold ActionsDAG.linearizeNode.
  intros [H | (n & _ & H)]%bind_Throw; [by apply defined_Throw in H|].
  destruct (ActionsDAG.free_positions st) as [|top rest];
    (apply bind_Throw in H as [H | ([data2 arguments] & _ & H)];
     [by apply buildArguments_Throw in H|];
     apply bind_Throw in H as [H | (st2 & _ & H)];
     [by apply (foldM_Throw (λ _, False)) in H;
         [|intros ??? ?%update_parent_Throw]|];
     destruct (Node.renaming_parent n); [by apply update_parent_Throw in H|discriminate]).
Qed.

Lemma linearize_Throw fuel ns reverse_index st e :
  ActionsDAG.linearize fuel ns reverse_index st = Throw e → code e = LOGICAL_ERROR.
Proof.
  revert st. induction fuel as [|fuel IH]; intros st; simpl.
  - by destruct (ActionsDAG.ready_nodes st), (ActionsDAG.ready_array_joins st).
  - destruct (ActionsDAG.ready_nodes st) as [|ptr rest],
             (ActionsDAG.ready_array_joins st) as [|ptr' rest']; try discriminate;
      (intros [H | (st' & _ & H)]%bind_Throw; [by apply linearizeNode_Throw in H | eauto]).
Qed.

(** What [buildExpressions] does once the main loop is over. *)
Lemma buildExpressions_after_loop (this : ActionsDAG.t) reverse_index st st' :
  ActionsDAG.startLinearizer this = (reverse_index, st) →
  ActionsDAG.linearize (length (ActionsDAG.nodes this)) (ActionsDAG.nodes this) reverse_index st
    = Ok st' →
  let e := ActionsDAG.expressions st' in
  ActionsDAG.buildExpressions this =
    if bool_decide (ActionsDAG.max_temporary_columns this ≠ 0)
       && bool_decide (ActionsDAG.max_temporary_columns this < ExpressionActions.num_columns e)
    then throw TOO_MANY_TEMPORARY_COLUMNS
           ("Too many temporary columns: "
            +:+ ExpressionActions.join ", " (Node.result_name <$> ExpressionActions.nodes e)
            +:+ ". Maximum: " +:+ pretty (ActionsDAG.max_temporary_columns this))
    else Ok (ActionsDAG.with_nodes_index this (ExpressionActions.nodes e) ∅,
             ExpressionActions.mk (ActionsDAG.nodes this) (ExpressionActions.actions e)
               (ExpressionActions.num_columns e) (ExpressionActions.required_columns e)
               (ExpressionActions.sample_block e) (ExpressionActions.project_input e)
               (ActionsDAG.max_temporary_non_const_columns this) (ExpressionActions.settings e)).
Proof.
  intros Hstart Hloop. unfold ActionsDAG.buildExpressions. rewrite Hstart, Hloop. reflexivity.
Qed.

Lemma buildExpressions_Throw (this : ActionsDAG.t) (e : Exception) :
  ActionsDAG.buildExpressions this = Throw e →
  code e = LOGICAL_ERROR
  ∨ (code e = TOO_MANY_TEMPORARY_COLUMNS ∧ ActionsDAG.max_temporary_columns this ≠ 0).
Proof.
  unfold ActionsDAG.buildExpressions.
  destruct (ActionsDAG.startLinearizer this) as [reverse_index st].
  intros [H | (st' & _ & H)]%bind_Throw; [left; by eapply linearize_Throw|].
  simpl in H. case_bool_decide as Hmax; simpl in H; [|discriminate].
  case_bool_decide as Hlt; [|discriminate]. injection H as <-. by right.
Qed.

(** C10: a limit of zero disables its check.  With [max_temporary_columns =
    0], [buildExpressions] raises no TOO_MANY_TEMPORARY_COLUMNS, and returns
    the program whenever the main loop completes, whatever the slot count;
    with the program's [max_temporary_non_const_columns = 0], [checkLimits]
    returns normally for every execution context. *)
Theorem zero_limit_disables_check (this : ActionsDAG.t) (program : ExpressionActions.t)
    (execution_context : ExpressionActions.ExecutionContext)
    (Hdag : ActionsDAG.max_temporary_columns this = 0)
    (Hprogram : ExpressionActions.max_temporary_non_const_columns program = 0) :
  (∀ e, ActionsDAG.buildExpressions this = Throw e → code e ≠ TOO_MANY_TEMPORARY_COLUMNS)
  ∧ (∀ reverse_index st st',
       ActionsDAG.startLinearizer this = (reverse_index, st) →
       ActionsDAG.linearize (length (ActionsDAG.nodes this)) (ActionsDAG.nodes this)
         reverse_index st = Ok st' →
       ∃ this' program',
         ActionsDAG.buildExpressions this = Ok (this', program')
         ∧ ExpressionActions.num_columns program'
           = ExpressionActions.num_columns (ActionsDAG.expressions st'))
  ∧ ExpressionActions.checkLimits program execution_context = Ok ().
Proof.
  split; [|split].
  - intros e [He | [_ He]]%buildExpressions_Throw; [by rewrite He | done].
  - intros reverse_index st st' Hstart Hloop.
    rewrite (buildExpressions_after_loop _ _ _ _ Hstart Hloop).
    rewrite (bool_decide_eq_false_2 (_ ≠ 0)) by (intros ?; done). simpl. eauto.
  - unfold ExpressionActions.checkLimits.
    by rewrite bool_decide_eq_false_2 by (intros ?; done).
Qed.

(** ** Invariants of the main loop of [buildExpressions] *)

Lemma update_parent_Ok ns reverse_index st parent st' :
  ActionsDAG.update_parent ns reverse_index st parent = Ok st' →
  ActionsDAG.free_positions st' = ActionsDAG.free_positions st
  ∧ ActionsDAG.expressions st' = ActionsDAG.expressions st.
Proof.
  unfold ActionsDAG.update_parent. case_bool_decide as Hready; [|by intros [= <-]].
  intros (n & _ & Hn)%bind_Ok. by case_bool_decide; injection Hn as <-.
Qed.

Lemma update_parents_Ok ns reverse_index st parents st' :
  foldM (ActionsDAG.update_parent ns reverse_index) st parents = Ok st' →
  ActionsDAG.free_positions st' = ActionsDAG.free_positions st
  ∧ ActionsDAG.expressions st' = ActionsDAG.expressions st.
Proof.
  apply (foldM_invariant
           (λ s, ActionsDAG.free_positions s = ActionsDAG.free_positions st
                 ∧ ActionsDAG.expressions s = ActionsDAG.expressions st)); [|done].
  intros s p s' [Hf He] [Hf' He']%update_parent_Ok. split; congruence.
Qed.

(** Nothing pushes onto [free_positions]: while it is empty every node
    linearized takes a new slot, and the program's node list stays empty
    until the swap that follows the loop. *)
Definition noSlotFreed (st : ActionsDAG.Linearizer) : Prop :=
  ActionsDAG.free_positions st = []
  ∧ ExpressionActions.nodes (ActionsDAG.expressions st) = []
  ∧ ExpressionActions.num_columns (ActionsDAG.expressions st)
    = length (ExpressionActions.required_columns (ActionsDAG.expressions st))
      + length (ExpressionActions.actions (ActionsDAG.expressions st)).

Lemma linearizeNode_noSlotFreed ns reverse_index data ready_nodes ready_array_joins
    ready_nodes' ready_array_joins' free_positions expressions ptr st' :
  noSlotFreed (ActionsDAG.mkLinearizer data ready_nodes ready_array_joins
                 free_positions expressions) →
  ActionsDAG.linearizeNode ns reverse_index
    (ActionsDAG.mkLinearizer data ready_nodes' ready_array_joins' free_positions expressions)
    ptr = Ok st' →
  noSlotFreed st'.
Proof.
  intros (Hfree & Hnodes & Hcount). simpl in Hfree, Hnodes, Hcount. subst free_positions.
  unfold ActionsDAG.linearizeNode. simpl.
  intros (n & _ & H)%bind_Ok.
  apply bind_Ok in H as ([data2 arguments] & _ & H).
  apply bind_Ok in H as (st2 & [Hf2 He2]%update_parents_Ok & H).
  assert (noSlotFreed st2) as Hst2.
  { unfold noSlotFreed. rewrite Hf2, He2. simpl.
    split; [done|]. split; [done|].
    case_bool_decide; rewrite ?length_app; simpl; lia. }
  destruct (Node.renaming_parent n) as [parent|]; [|by injection H as <-].
  apply update_parent_Ok in H as [Hf He]. unfold noSlotFreed. by rewrite Hf, He.
Qed.

Lemma linearize_noSlotFreed fuel ns reverse_index st st' :
  noSlotFreed st →
  ActionsDAG.linearize fuel ns reverse_index st = Ok st' →
  noSlotFreed st'.
Proof.
  revert st. induction fuel as [|fuel IH]; intros [data rn raj fp e] Hst; simpl.
  - destruct rn, raj; try discriminate. by intros [= <-].
  - destruct rn as [|ptr rest], raj as [|ptr' rest']; [by intros [= <-]|..];
      (intros (st1 & Hst1 & H)%bind_Ok; eapply IH; [|exact H];
       eapply linearizeNode_noSlotFreed; [exact Hst|exact Hst1]).
Qed.

Lemma startLinearizer_noSlotFreed (this : ActionsDAG.t) reverse_index st :
  ActionsDAG.startLinearizer this = (reverse_index, st) → noSlotFreed st.
Proof.
  unfold ActionsDAG.startLinearizer.
  destruct (ActionsDAG.numberNodes (ActionsDAG.nodes this)) as [data0 rev].
  by intros [= _ <-].
Qed.

(** The program [buildExpressions] returns has one slot per node. *)
Lemma buildExpressions_one_slot_per_node (this this' : ActionsDAG.t) program :
  ActionsDAG.buildExpressions this = Ok (this', program) →
  ExpressionActions.num_columns program
  = length (ExpressionActions.required_columns program)
    + length (ExpressionActions.actions program).
Proof.
  unfold ActionsDAG.buildExpressions.
  destruct (ActionsDAG.startLinearizer this) as [reverse_index st] eqn:Hstart.
  intros (st' & Hloop & H)%bind_Ok.
  apply startLinearizer_noSlotFreed in Hstart.
  apply (linearize_noSlotFreed _ _ _ _ _ Hstart) in Hloop as (_ & _ & Hcount).
  simpl in H. destruct (_ && _); [discriminate|]. by injection H as _ <-.
Qed.

(** The message of TOO_MANY_TEMPORARY_COLUMNS is built after the nodes were
    swapped into the program: it names no column. *)
Lemma buildExpressions_message (this : ActionsDAG.t) (e : Exception) :
  ActionsDAG.buildExpressions this = Throw e →
  code e = TOO_MANY_TEMPORARY_COLUMNS →
  message e = "Too many temporary columns: . Maximum: "
              +:+ pretty (ActionsDAG.max_temporary_columns this).
Proof.
  unfold ActionsDAG.buildExpressions.
  destruct (ActionsDAG.startLinearizer this) as [reverse_index st] eqn:Hstart.
  intros [H | (st' & Hloop & H)]%bind_Throw.
  { apply linearize_Throw in H. by rewrite H. }
  apply startLinearizer_noSlotFreed in Hstart.
  apply (linearize_noSlotFreed _ _ _ _ _ Hstart) in Hloop as (_ & Hnodes & _).
  simpl in H. destruct (_ && _); [|discriminate]. injection H as <-.
  intros _. simpl. unfold ActionsDAG.dumpNames. simpl. by rewrite Hnodes.
Qed.

(** ** Slot allocation and the planning-time limit on the concrete DAGs *)

(** C3 (the code diverges): the arguments are tagged [remove] as the claim
    says, but nothing pushes a slot onto [free_positions], so no slot is ever
    taken from it: every program has one slot per node.  For [c = g(f(a))]
    with only [c] required, [a] is removed by [f] and [b] by [g]; [c] still
    gets slot 2 and the program has three slots, where the slot of [a] was
    free to be taken again. *)
Theorem free_positions_never_pushed :
  (∀ this this' program,
     ActionsDAG.buildExpressions this = Ok (this', program) →
     ExpressionActions.num_columns program
     = length (ExpressionActions.required_columns program)
       + length (ExpressionActions.actions program))
  ∧ (program ← Scenarios.program Scenarios.chain_dag;
     Ok (ExpressionActions.toString (ExpressionActions.nodes program)
           <$> ExpressionActions.actions program,
         ExpressionActions.arguments <$> ExpressionActions.actions program,
         ExpressionActions.result_position <$> ExpressionActions.actions program,
         ExpressionActions.num_columns program))
    = Ok (["FUNCTION b Int64 = f(a)"; "FUNCTION c Int64 = g(b)"],
          [[{| ExpressionActions.pos := 0; ExpressionActions.remove := true |}];
           [{| ExpressionActions.pos := 1; ExpressionActions.remove := true |}]],
          [1; 2],
          3).
Proof.
  split.
  - apply buildExpressions_one_slot_per_node.
  - vm_compute. reflexivity.
Qed.

(** C6 (the code diverges): with ten independent function applications and
    [max_temporary_columns = 5], [buildExpressions] fails with
    TOO_MANY_TEMPORARY_COLUMNS, as it does whenever the limit is set and the
    slot count of the linearized program exceeds it; but the message is built
    from the node list after it was swapped into the program, and lists no
    name, for this DAG (whose names [dumpNames] would list before the call)
    and for every other. *)
Theorem too_many_temporary_columns_names_nothing :
  (dag ← Scenarios.pressure_dag 5; Ok (ActionsDAG.dumpNames dag))
    = Ok ("x0, x1, x2, x3, x4, x5, x6, x7, x8, x9, "
          +:+ "f(x0), f(x1), f(x2), f(x3), f(x4), f(x5), f(x6), f(x7), f(x8), f(x9)")
  ∧ Scenarios.program (Scenarios.pressure_dag 5)
    = throw TOO_MANY_TEMPORARY_COLUMNS "Too many temporary columns: . Maximum: 5"
  ∧ (∀ this reverse_index st st',
       ActionsDAG.startLinearizer this = (reverse_index, st) →
       ActionsDAG.linearize (length (ActionsDAG.nodes this)) (ActionsDAG.nodes this)
         reverse_index st = Ok st' →
       ActionsDAG.max_temporary_columns this ≠ 0 →
       ActionsDAG.max_temporary_columns this
         < ExpressionActions.num_columns (ActionsDAG.expressions st') →
       ActionsDAG.buildExpressions this
       = throw TOO_MANY_TEMPORARY_COLUMNS
           ("Too many temporary columns: . Maximum: "
            +:+ pretty (ActionsDAG.max_temporary_columns this))).
Proof.
  split; [by vm_compute|]. split; [by vm_compute|].
  intros this reverse_index st st' Hstart Hloop Hset Hexceeds.
  rewrite (buildExpressions_after_loop _ _ _ _ Hstart Hloop).
  rewrite !bool_decide_eq_true_2 by done. simpl.
  apply startLinearizer_noSlotFreed in Hstart.
  apply (linearize_noSlotFreed _ _ _ _ _ Hstart) in Hloop as (_ & -> & _).
  reflexivity.
Qed.

(** ** The executor on the concrete programs *)

(** C1 (the code diverges): a required input that is also part of
    [sample_block] is moved out of the block into its slot and never moved
    back.  The program of the DAG with the single input [x] has the sample
    block [x : Int64] and no action; on the block [x = [1, 2, 3]] it leaves
    one column, without values and without type.  With [y = plus(x, 1)] the
    literal [1], an action used in the result, is moved into the arguments of
    [plus] and not put back: the block ends with [y = [11, 21, 31]] and with
    [x] and [1] empty. *)
Theorem execute_loses_passthrough_input :
  (program ← Scenarios.program Scenarios.passthrough_dag;
   block ← ExpressionActions.execute program Scenarios.passthrough_block false;
   Ok (Block.getNamesAndTypesList (ExpressionActions.sample_block program),
       ExpressionActions.actions program,
       Block.data block, Block.getByName block "x"))
    = Ok ([{| nt_name := "x"; nt_type := Some Scenarios.Int64 |}], [],
          [CWT.null], Ok CWT.null)
  ∧ (program ← Scenarios.program Scenarios.plus_dag;
     block ← ExpressionActions.execute program Scenarios.plus_block false;
     Ok (Block.getNamesAndTypesList (ExpressionActions.sample_block program),
         Block.getByName block "x", Block.getByName block "1", Block.getByName block "y"))
    = Ok ([{| nt_name := "x"; nt_type := Some Scenarios.Int64 |};
           {| nt_name := "1"; nt_type := Some Scenarios.Int64 |};
           {| nt_name := "y"; nt_type := Some Scenarios.Int64 |}],
          Ok CWT.null,
          Ok (CWT.mk None None "1"),
          Ok (CWT.mk (Some (IColumn.ColumnVector [11; 21; 31]%Z)) (Some Scenarios.Int64) "y")).
Proof. split; by vm_compute. Qed.

(** C4 (the code diverges): on [arr = [[1,2],[],[3]]], [tag = ["x","y","z"]]
    with [e] and [tag] required, the ARRAY JOIN action itself leaves [tag =
    ["x","x","z"]] in slot 1, [e = [1,2,3]] in slot 2 and [num_rows = 3]; but
    [tag] is an input, so [execute] does not move its slot back into the
    block: the block returned holds [e = [1,2,3]] and an empty column where
    [tag] was. *)
Theorem array_join_scenario_loses_tag :
  (action ← Scenarios.array_join_action;
   ExpressionActions.executeAction action Scenarios.array_join_context false)
    = Ok {| ExpressionActions.input_columns :=
              [CWT.mk (Some (IColumn.ColumnArray (IColumn.ColumnVector [1; 2; 1; 2; 3]%Z) [2; 4; 5]))
                      (Some (IDataType.DataTypeArray Scenarios.Int64)) "arr";
               CWT.mk (Some (IColumn.ColumnString ["x"; "x"; "z"])) (Some Scenarios.String_) "tag"];
            ExpressionActions.columns :=
              [CWT.null;
               CWT.mk (Some (IColumn.ColumnString ["x"; "x"; "z"])) (Some Scenarios.String_) "tag";
               CWT.mk (Some (IColumn.ColumnVector [1; 2; 3]%Z)) (Some Scenarios.Int64) ""];
            ExpressionActions.num_rows := 3 |}
  ∧ (program ← Scenarios.program Scenarios.array_join_dag;
     block ← ExpressionActions.execute program Scenarios.array_join_block false;
     Ok (Block.getNamesAndTypesList (ExpressionActions.sample_block program),
         Block.data block, Block.getByName block "e", Block.getByName block "tag"))
    = Ok ([{| nt_name := "tag"; nt_type := Some Scenarios.String_ |};
           {| nt_name := "e"; nt_type := Some Scenarios.Int64 |}],
          [CWT.null; CWT.mk (Some (IColumn.ColumnVector [1; 2; 3]%Z)) (Some Scenarios.Int64) "e"],
          Ok (CWT.mk (Some (IColumn.ColumnVector [1; 2; 3]%Z)) (Some Scenarios.Int64) "e"),
          Ok CWT.null).
Proof. split; by vm_compute. Qed.

(** ** The ARRAY JOIN action *)

(** Executing an ARRAY_JOIN action whose argument slot holds a column: if
    the column, constants materialized, is not a true array the action fails
    with TYPE_MISMATCH; otherwise (the slot's type being an array type) every
    slot but the result slot is replaced by its [replicate(offsets)] when it
    holds a column (the argument slot is cleared instead when it is tagged
    [remove]), every input column is replaced by its [replicate(offsets)],
    the result slot holds the flat column of elements with the nested type,
    and [num_rows] is the size of the flat column. *)
Theorem executeAction_array_join (action : ExpressionActions.Action)
    (execution_context : ExpressionActions.ExecutionContext) (dry_run : bool)
    (front : ExpressionActions.Argument) (key : CWT.t) (column : IColumn.t)
    (Htype : Node.type (ExpressionActions.node action) = ARRAY_JOIN)
    (Hfront : head (ExpressionActions.arguments action) = Some front)
    (Hkey : ExpressionActions.columns execution_context !! ExpressionActions.pos front = Some key)
    (Hcolumn : CWT.column key = Some column)
    (Hres : ExpressionActions.result_position action
            < length (ExpressionActions.columns execution_context)) :
  match IColumn.asColumnArray (IColumn.convertToFullColumnIfConst column) with
  | None =>
      ∃ e, ExpressionActions.executeAction action execution_context dry_run = Throw e
           ∧ code e = TYPE_MISMATCH
  | Some (data, offsets) =>
      ∀ nested, CWT.type key ≫= IDataType.getNestedType = Some nested →
      ∃ ctx',
        ExpressionActions.executeAction action execution_context dry_run = Ok ctx'
        ∧ ExpressionActions.num_rows ctx' = IColumn.size data
        ∧ ExpressionActions.input_columns ctx'
          = ExpressionActions.replicateIfPresent offsets
              <$> ExpressionActions.input_columns execution_context
        ∧ length (ExpressionActions.columns ctx')
          = length (ExpressionActions.columns execution_context)
        ∧ (∃ slot, ExpressionActions.columns ctx' !! ExpressionActions.result_position action
                   = Some slot
                   ∧ CWT.column slot = Some data ∧ CWT.type slot = Some nested)
        ∧ ∀ i c, i ≠ ExpressionActions.result_position action →
            ExpressionActions.columns execution_context !! i = Some c →
            ExpressionActions.columns ctx' !! i
            = Some (if ExpressionActions.remove front
                       && bool_decide (i = ExpressionActions.pos front)
                    then CWT.null
                    else ExpressionActions.replicateIfPresent offsets c)
  end.
Proof.
  unfold ExpressionActions.executeAction. rewrite Htype, Hfront. simpl.
  rewrite Hkey. simpl. rewrite Hcolumn. simpl.
  destruct (IColumn.asColumnArray _) as [[data offsets]|]; [|by eexists].
  intros nested Hnested. rewrite Hnested. simpl.
  set (columns1 := if ExpressionActions.remove front then _ else _).
  assert (length columns1 = length (ExpressionActions.columns execution_context)) as Hlen.
  { subst columns1. destruct (ExpressionActions.remove front); by rewrite ?length_insert. }
  destruct (lookup_lt_is_Some_2 (ExpressionActions.replicateIfPresent offsets <$> columns1)
              (ExpressionActions.result_position action)) as [res Hres'].
  { by rewrite length_fmap, Hlen. }
  rewrite Hres'. simpl. eexists. split; [reflexivity|]. simpl.
  split; [done|]. split; [done|]. split; [by rewrite length_insert, length_fmap|].
  split.
  - eexists. rewrite list_lookup_insert_eq by (by rewrite length_fmap, Hlen). done.
  - intros i c Hi Hc. rewrite list_lookup_insert_ne by done.
    rewrite list_lookup_fmap. subst columns1.
    destruct (ExpressionActions.remove front); simpl.
    + case_bool_decide as Hpos.
      * subst i. rewrite list_lookup_insert_eq by (by eapply lookup_lt_Some). done.
      * rewrite list_lookup_insert_ne by done. by rewrite Hc.
    + by rewrite Hc.
Qed.

(** ** Constant folding in [addFunction] *)

(** The arguments [addFunction] builds from the children. *)
Definition argumentsOf (children : list Node.t) : list CWT.t :=
  (λ child, CWT.mk (Node.column child) (Node.result_type child) "") <$> children.

Definition hasConstColumn (child : Node.t) : Prop :=
  ∃ c, Node.column child = Some c ∧ IColumn.isColumnConst c = true.

Lemma gatherArguments_from (this : ActionsDAG.t) argument_names (children : list Node.t)
    ptrs allow args :
  Forall2 (λ name child, ActionsDAG.getNode this name = Ok child) argument_names children →
  Forall hasConstColumn children →
  foldM (ActionsDAG.gatherArgument this) (ptrs, allow, true, args) argument_names
  = Ok (ptrs ++ (Node.addr <$> children),
        foldl (λ allow child, allow && Node.allow_constant_folding child) allow children,
        true, args ++ argumentsOf children).
Proof.
  intros Hnames. revert ptrs allow args.
  induction Hnames as [|name child names children Hchild _ IH]; intros ptrs allow args Hconst.
  - simpl. by rewrite !app_nil_r.
  - apply Forall_cons in Hconst as [(c & Hc & Hcc) Hconst].
    simpl. rewrite Hchild. simpl.
    unfold ActionsDAG.notConst. simpl. rewrite Hc, Hcc. simpl.
    rewrite IH by done. by rewrite <- !app_assoc.
Qed.

Lemma gatherArguments_const (this : ActionsDAG.t) argument_names (children : list Node.t) :
  Forall2 (λ name child, ActionsDAG.getNode this name = Ok child) argument_names children →
  Forall hasConstColumn children →
  ActionsDAG.gatherArguments this argument_names
  = Ok (Node.addr <$> children,
        foldl (λ allow child, allow && Node.allow_constant_folding child) true children,
        true, argumentsOf children).
Proof. apply gatherArguments_from. Qed.

(** C2, amended: when every argument names a node with a constant column, the
    function built for the arguments is suitable for constant folding, and
    expressions are not compiled or the function is deterministic, the
    prepared function is executed with [dry_run = true] at the row count of
    the first argument's column (0 when there is no argument); a constant
    result is attached to the node as its column, resized to one row when it
    is empty, and the node is then added with [addNode]. *)
Theorem addFunction_constant_folding (USE_EMBEDDED_COMPILER : bool) (this : ActionsDAG.t)
    (function : IFunctionOverloadResolver.t) (argument_names : list string)
    (result_name : string) (context : ActionsDAG.Context)
    (children : list Node.t) (function_base : IFunctionBase.t) (col : IColumn.t)
    (Hargs : Forall2 (λ name child, ActionsDAG.getNode this name = Ok child)
                     argument_names children)
    (Hconst : Forall hasConstColumn children)
    (Hbuild : IFunctionOverloadResolver.build function (argumentsOf children) = Ok function_base)
    (Hsuitable : IFunctionBase.isSuitableForConstantFolding function_base = true)
    (Hdeterministic :
       USE_EMBEDDED_COMPILER && ActionsDAG.settings_compile_expressions context = false
       ∨ IFunctionBase.isDeterministic function_base = true)
    (Hexecute :
       IExecutableFunction.execute
         (IFunctionBase.prepare function_base (argumentsOf children))
         (argumentsOf children) (IFunctionBase.getResultType function_base)
         (from_option (λ front, from_option IColumn.size 0 (Node.column front)) 0 (head children))
         true = Ok col)
    (Hcol : IColumn.isColumnConst col = true) :
  ActionsDAG.addFunction USE_EMBEDDED_COMPILER this function argument_names result_name context
  = ActionsDAG.addNode (withSettings this context)
      (Node.mk 0 (Node.addr <$> children) None FUNCTION
         (ActionsDAG.functionResultName function argument_names result_name)
         (IFunctionBase.getResultType function_base) "" (Some function) (Some function_base)
         (Some (IFunctionBase.prepare function_base (argumentsOf children))) false
         (foldl (λ allow child, allow && Node.allow_constant_folding child) true children)
         (Some (if IColumn.empty col then IColumn.cloneResized col 1 else col)))
      false.
Proof.
  unfold ActionsDAG.addFunction. fold (withSettings this context).
  rewrite (gatherArguments_const _ _ children) by done. simpl.
  rewrite Hbuild. simpl. rewrite Hsuitable. simpl.
  assert ((negb (if USE_EMBEDDED_COMPILER
                 then ActionsDAG.settings_compile_expressions context else false)
           || IFunctionBase.isDeterministic function_base) = true) as ->.
  { destruct Hdeterministic as [Hc | ->]; [|by rewrite orb_true_r].
    destruct USE_EMBEDDED_COMPILER; simpl in *; by rewrite ?Hc. }
  assert (ActionsDAG.foldingNumRows (argumentsOf children)
          = Ok (from_option (λ front, from_option IColumn.size 0 (Node.column front)) 0
                            (head children))) as ->.
  { destruct Hconst as [|child rest (c & Hc & _) _]; [done|]. simpl. by rewrite Hc. }
  simpl. rewrite Hexecute. simpl. rewrite Hcol. reflexivity.
Qed.

(** ** [checkColumnIsAlwaysFalse] *)

(** The action is a function [in] or [globalIn] named [column_name], with at
    least two children. *)
Definition IsInFunctionNamed (column_name : string) (action : ExpressionActions.Action) : Prop :=
  let n := ExpressionActions.node action in
  Node.type n = FUNCTION
  ∧ match Node.function_base n with
    | Some function_base =>
        IFunctionBase.getName function_base = "in"
        ∨ IFunctionBase.getName function_base = "globalIn"
    | None => False
    end
  ∧ Node.result_name n = column_name
  ∧ 1 < length (Node.children n).

(** The node carries a set column (not a constant one) whose set is created
    and empty. *)
Definition HoldsCreatedEmptySet (n : Node.t) : Prop :=
  ∃ s set, Node.column n = Some (IColumn.ColumnSet s set)
           ∧ IColumn.isCreated set = true ∧ IColumn.getTotalRowCount set = 0.

(** The last action of the program, in execution order, that is a function
    [in] or [globalIn] named [column_name]. *)
Definition LastInFunctionNamed (this : ExpressionActions.t) (column_name : string)
    (action : ExpressionActions.Action) : Prop :=
  ∃ before after,
    ExpressionActions.actions this = before ++ action :: after
    ∧ IsInFunctionNamed column_name action
    ∧ Forall (λ a, ¬ IsInFunctionNamed column_name a) after.

(** The claim as the spec words it: the named column is the output of a
    function [in] or [globalIn] whose second child is a COLUMN node carrying
    a created, empty set. *)
Definition OutputOfInOverEmptySet (this : ExpressionActions.t) (column_name : string) : Prop :=
  Exists (λ action,
            IsInFunctionNamed column_name action
            ∧ match Node.children (ExpressionActions.node action) !! 1
                    ≫= deref (ExpressionActions.nodes this) with
              | Some child => Node.type child = COLUMN ∧ HoldsCreatedEmptySet child
              | None => False
              end)
         (ExpressionActions.actions this).

Lemma isInActionFor_true (column_name : string) (action : ExpressionActions.Action) :
  ExpressionActions.isInActionFor column_name action = true ↔ IsInFunctionNamed column_name action.
Proof.
  unfold ExpressionActions.isInActionFor, IsInFunctionNamed, ExpressionActions.isInFunction.
  destruct (Node.type _) eqn:Htype, (Node.function_base _) as [function_base|];
    try (split; [discriminate | intros (Ht & Hf & _); done || discriminate]).
  rewrite !andb_true_iff, orb_true_iff, !bool_decide_eq_true. naive_solver.
Qed.

Lemma isCreatedEmptySet_true (n : Node.t) :
  ExpressionActions.isCreatedEmptySet (Node.column n) = true ↔ HoldsCreatedEmptySet n.
Proof.
  unfold ExpressionActions.isCreatedEmptySet, HoldsCreatedEmptySet.
  destruct (Node.column n) as [[| | | |s set]|]; simpl;
    try (split; [discriminate | intros (s' & set' & Hs & _); discriminate]).
  rewrite andb_true_iff, bool_decide_eq_true. naive_solver.
Qed.

(** The first match from the back is the last match. *)
Lemma list_find_reverse {A} (P : A → Prop) `{!∀ x, Decision (P x)} (l : list A) :
  match list_find P (reverse l) with
  | Some (_, x) => ∃ before after, l = before ++ x :: after ∧ P x ∧ Forall (λ y, ¬ P y) after
  | None => Forall (λ y, ¬ P y) l
  end.
Proof.
  induction l as [|x l IH] using rev_ind; [by constructor|].
  rewrite reverse_snoc. simpl. case_decide as Hx.
  - exists l, []. by repeat split.
  - destruct (list_find P (reverse l)) as [[i y]|]; simpl.
    + destruct IH as (before & after & -> & Hy & Hafter).
      exists before, (after ++ [x]). rewrite <- app_assoc. simpl.
      repeat split; [done|]. apply Forall_app. by repeat constructor.
    + apply Forall_app. by repeat constructor.
Qed.

Lemma list_find_reverse_last {A} (P : A → Prop) `{!∀ x, Decision (P x)}
    (before after : list A) (x : A) :
  P x → Forall (λ y, ¬ P y) after →
  list_find P (reverse (before ++ x :: after)) = Some (length after, x).
Proof.
  intros Hx Hafter. rewrite reverse_app, reverse_cons, <- app_assoc.
  rewrite list_find_app_r by (by apply list_find_None, Forall_reverse).
  simpl. rewrite decide_True by done. simpl. by rewrite length_reverse.
Qed.

(** What [checkColumnIsAlwaysFalse(name)] computes: it returns true iff the
    last action of the program that is a function [in] or [globalIn] named
    [name] (with at least two children) exists, the result name of its second
    child is not empty, and some COLUMN action of the program with that
    result name carries a created, empty set.  The set column is found by
    the name of the second child among all the actions. *)
Theorem checkColumnIsAlwaysFalse_by_name (this : ExpressionActions.t) (column_name : string) :
  ExpressionActions.checkColumnIsAlwaysFalse this column_name = Ok true
  ↔ ∃ action child set_action,
      LastInFunctionNamed this column_name action
      ∧ Node.children (ExpressionActions.node action) !! 1 ≫= deref (ExpressionActions.nodes this)
        = Some child
      ∧ Node.result_name child ≠ ""
      ∧ set_action ∈ ExpressionActions.actions this
      ∧ Node.type (ExpressionActions.node set_action) = COLUMN
      ∧ Node.result_name (ExpressionActions.node set_action) = Node.result_name child
      ∧ HoldsCreatedEmptySet (ExpressionActions.node set_action).
Proof.
  unfold ExpressionActions.checkColumnIsAlwaysFalse. split.
  - pose proof (list_find_reverse
                  (λ action, ExpressionActions.isInActionFor column_name action = true)
                  (ExpressionActions.actions this)) as Hfind.
    destruct (list_find _ _) as [[i action]|].
    + destruct Hfind as (before & after & Hactions & Haction & Hafter).
      intros (set_to_check & (child & Hchild%defined_Ok & [= <-])%bind_Ok & H)%bind_Ok.
      case_bool_decide as Hname; [|discriminate].
      injection H as H. apply bool_decide_eq_true, Exists_exists in H as (set_action & Hin & H).
      unfold ExpressionActions.isEmptySetColumn in H.
      rewrite !andb_true_iff, !bool_decide_eq_true, isCreatedEmptySet_true in H.
      destruct H as [[Htype Hset_name] Hset].
      exists action, child, set_action.
      split; [|by repeat (split; [done|])].
      exists before, after. split; [done|]. split; [by apply isInActionFor_true|].
      eapply Forall_impl; [exact Hafter|]. intros a Ha ?%isInActionFor_true. done.
    + simpl. discriminate.
  - intros (action & child & set_action & (before & after & Hactions & Haction & Hafter)
            & Hchild & Hname & Hin & Htype & Hset_name & Hset).
    rewrite Hactions.
    rewrite (list_find_reverse_last _ before after action).
    + rewrite Hchild. simpl. rewrite bool_decide_eq_true_2 by done. f_equal.
      apply bool_decide_eq_true, Exists_exists. exists set_action.
      rewrite <- Hactions. split; [done|].
      unfold ExpressionActions.isEmptySetColumn.
      rewrite !andb_true_iff, !bool_decide_eq_true, isCreatedEmptySet_true. done.
    + by apply isInActionFor_true.
    + eapply Forall_impl; [exact Hafter|]. intros a Ha ?%isInActionFor_true. done.
Qed.

(** C9 fails on the code: [checkColumnIsAlwaysFalse] keeps the name of the
    second child of the function and looks for a COLUMN action of that name,
    so it answers from a column that the second child has replaced.  After
    [s], an empty set column, was replaced by an alias of the input [t], the
    second child of [in(k, s)] is the ALIAS node, and the answer is true.
    And with [r1 = in(k, s)] over the empty set [s], [s] then replaced by an
    alias of the set [t] of three rows, and [r2 = in(k, s)], both required:
    the second child of [r2] is the alias and holds the set of three rows,
    and [checkColumnIsAlwaysFalse("r2")] is true, from the empty set that
    [r1] reads. *)
Lemma checkColumnIsAlwaysFalse_stale_set :
  (∃ program,
     Scenarios.program Scenarios.renamed_set_dag = Ok program
     ∧ ExpressionActions.toString (ExpressionActions.nodes program)
         <$> ExpressionActions.actions program
       = ["COLUMN s Set Set"; "ALIAS s = t"; "FUNCTION in(k, s) UInt8 = in(k, s)"]
     ∧ ExpressionActions.checkColumnIsAlwaysFalse program "in(k, s)" = Ok true
     ∧ ¬ OutputOfInOverEmptySet program "in(k, s)")
  ∧ ∃ program r2 rhs,
      Scenarios.program Scenarios.stale_set_dag = Ok program
      ∧ ExpressionActions.toString (ExpressionActions.nodes program)
          <$> ExpressionActions.actions program
        = ["COLUMN s Set Set"; "COLUMN t Set Set"; "FUNCTION r1 UInt8 = in(k, s)";
           "ALIAS s = t (removing)"; "FUNCTION r2 UInt8 = in(k, s)"]
      ∧ last (ExpressionActions.actions program) = Some r2
      ∧ Node.result_name (ExpressionActions.node r2) = "r2"
      ∧ Node.children (ExpressionActions.node r2) !! 1
          ≫= deref (ExpressionActions.nodes program) = Some rhs
      ∧ Node.type rhs = ALIAS
      ∧ Node.column rhs
        = Some (IColumn.ColumnSet 1 {| IColumn.isCreated := true;
                                       IColumn.getTotalRowCount := 3 |})
      ∧ ExpressionActions.checkColumnIsAlwaysFalse program "r2" = Ok true
      ∧ ¬ OutputOfInOverEmptySet program "r2".
Proof.
  split.
  - eexists. split; [vm_compute; reflexivity|].
    split; [by vm_compute|]. split; [by vm_compute|].
    unfold OutputOfInOverEmptySet. simpl ExpressionActions.actions.
    rewrite !Exists_cons, Exists_nil.
    intros [[(Htype & _) _] | [[(Htype & _) _] | [[_ Hchild] | []]]]; try discriminate.
    vm_compute in Hchild. by destruct Hchild as [? _].
  - eexists _, _, _. split; [vm_compute; reflexivity|].
    split; [by vm_compute|]. split; [vm_compute; reflexivity|].
    split; [reflexivity|]. split; [vm_compute; reflexivity|].
    split; [reflexivity|]. split; [reflexivity|]. split; [by vm_compute|].
    unfold OutputOfInOverEmptySet. simpl ExpressionActions.actions.
    rewrite !Exists_cons, Exists_nil.
    intros [[(Htype & _) _] | [[(Htype & _) _] | [[(_ & _ & Hname & _) _]
            | [[(Htype & _) _] | [[_ Hchild] | []]]]]]; try discriminate.
    vm_compute in Hchild. by destruct Hchild as [? _].
Qed.

(** C2 as stated: the constant attached is the result of the evaluation at
    row count 1. *)
Definition FoldedAtOneRow (USE_EMBEDDED_COMPILER : bool) (this : ActionsDAG.t)
    (function : IFunctionOverloadResolver.t) (argument_names : list string)
    (result_name : string) (context : ActionsDAG.Context) : Prop :=
  ∀ children function_base col this' node,
    Forall2 (λ name child, ActionsDAG.getNode this name = Ok child) argument_names children →
    Forall hasConstColumn children →
    IFunctionOverloadResolver.build function (argumentsOf children) = Ok function_base →
    IFunctionBase.isSuitableForConstantFolding function_base = true →
    USE_EMBEDDED_COMPILER && ActionsDAG.settings_compile_expressions context = false
    ∨ IFunctionBase.isDeterministic function_base = true →
    IExecutableFunction.execute
      (IFunctionBase.prepare function_base (argumentsOf children))
      (argumentsOf children) (IFunctionBase.getResultType function_base) 1 true = Ok col →
    IColumn.isColumnConst col = true →
    ActionsDAG.addFunction USE_EMBEDDED_COMPILER this function argument_names result_name context
    = Ok (this', node) →
    Node.column node = Some col.

(** C2 as stated fails: a function without arguments is evaluated at row
    count 0.  [rowCount()] would give the constant 1 at one row; the node
    holds the constant 0, resized to one row. *)
Lemma addFunction_not_at_one_row :
  ('(_, node) ← ActionsDAG.addFunction false ActionsDAG.init Scenarios.rowCount [] ""
                  (Scenarios.context 0);
   Ok (Node.result_name node, Node.column node))
    = Ok ("rowCount()", Some (IColumn.ColumnConst (IColumn.ColumnVector [0%Z]) 1))
  ∧ ¬ FoldedAtOneRow false ActionsDAG.init Scenarios.rowCount [] "" (Scenarios.context 0).
Proof.
  split; [by vm_compute|]. intros H.
  destruct (ActionsDAG.addFunction false ActionsDAG.init Scenarios.rowCount [] ""
              (Scenarios.context 0)) as [[this' node]| |] eqn:Hadd; [|by vm_compute in Hadd..].
  specialize (H [] (Scenarios.simpleFunctionBase "rowCount" Scenarios.Int64 true true
                      Scenarios.rowCountImpl [])
                (IColumn.ColumnConst (IColumn.ColumnVector [1%Z]) 1) this' node).
  assert (Node.column node = Some (IColumn.ColumnConst (IColumn.ColumnVector [0%Z]) 1)) as Hnode.
  { vm_compute in Hadd. by injection Hadd as _ <-. }
  rewrite Hnode in H. by discriminate H; auto.
Qed.

(** ** Equality and hash of [ExpressionAction] *)

Section ActionHashEq.

Context {DataType FunctionBase Column TableJoin SipHash : Type}.
Context `{EqDecision DataType, EqDecision FunctionBase, EqDecision Column}.
Variable type_getName : DataType → string.
Variable type_equals : DataType → DataType → bool.
Variable function_getName : FunctionBase → string.
Variable function_getArgumentTypes : FunctionBase → list DataType.
Variable column_getName : Column → string.
Variable sameJoin : option TableJoin → option TableJoin → bool.
Variable sip_init : SipHash.
Variable sip_update : SipHash → ExpressionAction.Datum → SipHash.
Variable sip_get128 : SipHash → Z * Z.

Abbreviation Action := (ExpressionAction.t DataType FunctionBase Column TableJoin).
Abbreviation updates :=
  (ExpressionAction.updates type_getName function_getName function_getArgumentTypes
     column_getName).
Abbreviation eqb :=
  (ExpressionAction.eqb type_equals function_getName function_getArgumentTypes
     column_getName sameJoin).

(** Types that are [equals] have the same name. *)
Hypothesis equals_getName :
  ∀ a b, type_equals a b = true → type_getName a = type_getName b.

Lemma allEqual_names (my other : list DataType) :
  length my = length other →
  ExpressionAction.allEqual type_equals my other = true →
  type_getName <$> my = type_getName <$> other.
Proof.
  revert other. induction my as [|a my IH]; intros [|b other]; simpl; try done.
  intros [= Hlen] [Hab Hrest]%andb_true_iff. f_equal; auto.
Qed.

(** For two actions of one type, [operator==] implies equal hash input, so
    equal hashes. *)
Lemma eqb_updates (this other : Action) :
  ExpressionAction.type this = ExpressionAction.type other →
  eqb this other = true →
  updates this = updates other.
Proof.
  intros Htype. unfold ExpressionAction.eqb.
  rewrite !andb_true_iff, !bool_decide_eq_true.
  intros [[[[[[[[Hrt Hfb] Hcol] Hsrc] Hres] Hargs] _] Hproj] Hcompiled%Bool.eqb_prop].
  unfold ExpressionAction.updates. rewrite <- Htype, Hcompiled, Hsrc, Hres, Hargs, Hproj.
  assert (from_option (λ ty, [ExpressionAction.DString (type_getName ty)]) []
            (ExpressionAction.result_type this)
          = from_option (λ ty, [ExpressionAction.DString (type_getName ty)]) []
              (ExpressionAction.result_type other)) as ->.
  { destruct (decide (ExpressionAction.result_type this = ExpressionAction.result_type other))
      as [->|Hne]; [done|].
    rewrite bool_decide_eq_true_2 in Hrt by done.
    destruct (ExpressionAction.result_type this), (ExpressionAction.result_type other);
      try discriminate. simpl. by rewrite (equals_getName _ _ Hrt). }
  assert (from_option (λ c, [ExpressionAction.DString (column_getName c)]) []
            (ExpressionAction.added_column this)
          = from_option (λ c, [ExpressionAction.DString (column_getName c)]) []
              (ExpressionAction.added_column other)) as ->.
  { destruct (decide (ExpressionAction.added_column this = ExpressionAction.added_column other))
      as [->|Hne]; [done|].
    rewrite bool_decide_eq_true_2 in Hcol by done.
    destruct (ExpressionAction.added_column this), (ExpressionAction.added_column other);
      try discriminate. simpl. apply bool_decide_eq_true in Hcol. by rewrite Hcol. }
  assert (from_option
            (λ f, ExpressionAction.DString (function_getName f)
                  :: ((λ ty, ExpressionAction.DString (type_getName ty))
                        <$> function_getArgumentTypes f))
            [] (ExpressionAction.function_base this)
          = from_option
              (λ f, ExpressionAction.DString (function_getName f)
                    :: ((λ ty, ExpressionAction.DString (type_getName ty))
                          <$> function_getArgumentTypes f))
              [] (ExpressionAction.function_base other)) as ->; [|done].
  destruct (decide (ExpressionAction.function_base this = ExpressionAction.function_base other))
    as [->|Hne]; [done|].
  rewrite bool_decide_eq_true_2 in Hfb by done.
  destruct (ExpressionAction.function_base this) as [f|],
           (ExpressionAction.function_base other) as [g|]; try discriminate.
  simpl. rewrite !andb_true_iff, !bool_decide_eq_true in Hfb.
  destruct Hfb as [[-> Hlen] Hall]. f_equal.
  rewrite !(list_fmap_compose type_getName ExpressionAction.DString).
  by rewrite (allEqual_names _ _ Hlen Hall).
Qed.

(** For two actions of one type, [a == b] implies [ActionHash(a) =
    ActionHash(b)], whatever the hash function, as long as types that are
    [equals] have the same name. *)
Theorem operator_eq_same_type_ActionHash (this other : Action)
    (Htype : ExpressionAction.type this = ExpressionAction.type other)
    (Heq : eqb this other = true) :
  ExpressionAction.ActionHash type_getName function_getName function_getArgumentTypes
    column_getName sip_init sip_update sip_get128 this
  = ExpressionAction.ActionHash type_getName function_getName function_getArgumentTypes
      column_getName sip_init sip_update sip_get128 other.
Proof. unfold ExpressionAction.ActionHash. by rewrite (eqb_updates this other). Qed.

End ActionHashEq.

(** Concrete objects for the actions: types as above, a function is its name
    and argument types, a column its name, and a hash function that mixes in
    every value it is given. *)
Module HashScenarios.

(** A function object: its identity, its name and its argument types. *)
Record FunctionBase := {
  identity : nat;
  getName : string;
  getArgumentTypes : list IDataType.t;
}.

#[global] Instance FunctionBase_eq_dec : EqDecision FunctionBase.
Proof. solve_decision. Defined.

Definition Action : Type := ExpressionAction.t IDataType.t FunctionBase string unit.

Definition datumCode (d : ExpressionAction.Datum) : Z :=
  match d with
  | ExpressionAction.DType ExpressionAction.ADD_COLUMN => 0
  | ExpressionAction.DType ExpressionAction.REMOVE_COLUMN => 1
  | ExpressionAction.DType ExpressionAction.COPY_COLUMN => 2
  | ExpressionAction.DType ExpressionAction.APPLY_FUNCTION => 3
  | ExpressionAction.DType ExpressionAction.ARRAY_JOIN => 4
  | ExpressionAction.DType ExpressionAction.PROJECT => 5
  | ExpressionAction.DType ExpressionAction.ADD_ALIASES => 6
  | ExpressionAction.DBool b => if b then 1 else 0
  | ExpressionAction.DString s => Z.of_nat (String.length s)
  end.

Definition mix (h : Z * Z) (d : ExpressionAction.Datum) : Z * Z :=
  ((h.1 * 1099511628211 + datumCode d) mod 2 ^ 64, (h.2 * 31 + h.1 + 1) mod 2 ^ 64)%Z.

Definition eqb : Action → Action → bool :=
  ExpressionAction.eqb IDataType.equals getName getArgumentTypes id (λ _ _, true).

Definition ActionHash : Action → Z * Z :=
  ExpressionAction.ActionHash IDataType.getName getName getArgumentTypes id (0, 0)%Z mix id.

Definition updates : Action → list ExpressionAction.Datum :=
  ExpressionAction.updates IDataType.getName getName getArgumentTypes id.

(** [COPY_COLUMN x -> y] and [ARRAY_JOIN x -> y]: the same fields, another
    type. *)
Definition copy_column : Action :=
  ExpressionAction.mk ExpressionAction.COPY_COLUMN "x" "y" None None None [] false None [].
Definition array_join : Action :=
  ExpressionAction.mk ExpressionAction.ARRAY_JOIN "x" "y" None None None [] false None [].

(** [y = plus(x, 1)] for the function object of identity [i]: [plus] over two
    [Int64] arguments. *)
Definition apply_plus (i : nat) : Action :=
  ExpressionAction.mk ExpressionAction.APPLY_FUNCTION "" "y" (Some Scenarios.Int64) None
    (Some {| identity := i; getName := "plus";
             getArgumentTypes := [Scenarios.Int64; Scenarios.Int64] |})
    ["x"; "1"] false None [].

End HashScenarios.

(** C8 (the code diverges): [operator==] does not compare the action type,
    which [ActionHash] absorbs first.  [COPY_COLUMN x -> y] and [ARRAY_JOIN x
    -> y] are equal for [operator==]; the values their hashes absorb differ in
    the first one, and so do the hashes of a hash function that mixes every
    value in. *)
Theorem operator_eq_ignores_type :
  HashScenarios.eqb HashScenarios.copy_column HashScenarios.array_join = true
  ∧ HashScenarios.updates HashScenarios.copy_column
    = [ExpressionAction.DType ExpressionAction.COPY_COLUMN; ExpressionAction.DBool false;
       ExpressionAction.DString "y"; ExpressionAction.DString "x"]
  ∧ HashScenarios.updates HashScenarios.array_join
    = [ExpressionAction.DType ExpressionAction.ARRAY_JOIN; ExpressionAction.DBool false;
       ExpressionAction.DString "y"; ExpressionAction.DString "x"]
  ∧ HashScenarios.ActionHash HashScenarios.copy_column
    ≠ HashScenarios.ActionHash HashScenarios.array_join.
Proof. split; [|split; [|split]]; by vm_compute. Qed.

(** ** Pruning: [removeUnusedActions] *)

(** The nodes reachable from the required names through [children]. *)
Inductive Reachable (this : ActionsDAG.t) (required_names : list string) : NodePtr → Prop :=
  | reachable_required name ptr :
      name ∈ required_names →
      ActionsDAG.index this !! name = Some ptr →
      Reachable this required_names ptr
  | reachable_child ptr node child :
      Reachable this required_names ptr →
      deref (ActionsDAG.nodes this) ptr = Some node →
      child ∈ Node.children node →
      Reachable this required_names child.

(** The pointers of the DAG point to nodes of its list. *)
Definition ValidPointers (this : ActionsDAG.t) : Prop :=
  (∀ name ptr, ActionsDAG.index this !! name = Some ptr →
               is_Some (deref (ActionsDAG.nodes this) ptr))
  ∧ (∀ node child, node ∈ ActionsDAG.nodes this → child ∈ Node.children node →
                   is_Some (deref (ActionsDAG.nodes this) child)).

(** The addresses of the nodes of a list. *)
Definition addresses (ns : list Node.t) : gset NodePtr := list_to_set (Node.addr <$> ns).

Lemma elem_of_addresses (ns : list Node.t) (ptr : NodePtr) :
  ptr ∈ addresses ns ↔ is_Some (deref ns ptr).
Proof.
  unfold addresses. rewrite elem_of_list_to_set, list_elem_of_fmap. split.
  - intros (n & -> & Hn). by apply deref_is_Some.
  - intros [n [Hn <-]%deref_Some]. eauto.
Qed.

Lemma size_addresses (ns : list Node.t) : size (addresses ns) ≤ length ns.
Proof.
  unfold addresses. induction ns as [|n ns IH].
  - by rewrite fmap_nil, list_to_set_nil, size_empty.
  - rewrite fmap_cons, list_to_set_cons, size_union_alt, size_singleton.
    assert (size (list_to_set (Node.addr <$> ns) ∖ {[Node.addr n]} : gset NodePtr)
            ≤ size (list_to_set (Node.addr <$> ns) : gset NodePtr)); [|simpl; lia].
    apply subseteq_size. set_solver.
Qed.

(** The first loop: every required name is looked up in the index. *)
Lemma collectRequired_from (this : ActionsDAG.t) (names : list string)
    (new_index : gmap string NodePtr) (visited : gset NodePtr) (stack : list NodePtr) :
  match foldM (ActionsDAG.requireName this) (new_index, visited, stack) names with
  | Ok (new_index', visited', stack') =>
      (∀ name, name ∈ names → is_Some (ActionsDAG.index this !! name))
      ∧ (∀ name, new_index' !! name
                 = if bool_decide (name ∈ names) then ActionsDAG.index this !! name
                   else new_index !! name)
      ∧ (∀ ptr, ptr ∈ visited'
                ↔ ptr ∈ visited
                  ∨ ∃ name, name ∈ names ∧ ActionsDAG.index this !! name = Some ptr)
      ∧ (∀ ptr, ptr ∈ stack'
                ↔ ptr ∈ stack
                  ∨ ∃ name, name ∈ names ∧ ActionsDAG.index this !! name = Some ptr)
      ∧ length stack' = length names + length stack
  | Throw e =>
      code e = UNKNOWN_IDENTIFIER
      ∧ ∃ name, name ∈ names ∧ ActionsDAG.index this !! name = None
  | Undefined => False
  end.
Proof.
  revert new_index visited stack.
  induction names as [|name names IH]; intros new_index visited stack; simpl.
  - split; [by intros ? ?%elem_of_nil|]. split; [done|].
    split; [|split; [|done]]; intros ptr; split; auto;
      by intros [?|(? & ?%elem_of_nil & _)].
  - destruct (ActionsDAG.index this !! name) as [node|] eqn:Hname; simpl.
    + specialize (IH (<[name := node]> new_index) ({[node]} ∪ visited) (node :: stack)).
      destruct (foldM _ _ names) as [[[new_index' visited'] stack']|e|]; [|..|done].
      * destruct IH as (Hall & Hindex & Hvisited & Hstack & Hlen).
        split; [|split; [|split; [|split]]].
        -- intros name' [->|Hin]%elem_of_cons; eauto.
        -- intros name'. rewrite Hindex.
           destruct (decide (name' = name)) as [->|Hne].
           ++ rewrite (bool_decide_eq_true_2 (name ∈ name :: names)) by left.
              case_bool_decide as Hin; [done|]. by rewrite lookup_insert_eq.
           ++ rewrite lookup_insert_ne by done.
              apply option_eq. intros ptr.
              do 2 case_bool_decide; set_solver.
        -- intros ptr. rewrite Hvisited. set_solver.
        -- intros ptr. rewrite Hstack. set_solver.
        -- simpl in Hlen. lia.
      * destruct IH as (Hcode & name' & Hin & Hnone). split; [done|].
        exists name'. split; [by right|done].
    + split; [done|]. exists name. split; [by left|done].
Qed.

(** The loop over the children of one node. *)
Lemma visitChildren_spec (valid : gset NodePtr) (children stack : list NodePtr)
    (visited : gset NodePtr) :
  (∀ child, child ∈ children → child ∈ valid) →
  let '(stack', visited') := ActionsDAG.visitChildren children stack visited in
  visited' = visited ∪ list_to_set children
  ∧ (∀ ptr, ptr ∈ stack' ↔ ptr ∈ stack ∨ (ptr ∈ children ∧ ptr ∉ visited))
  ∧ length stack' + size (valid ∖ visited') = length stack + size (valid ∖ visited).
Proof.
  unfold ActionsDAG.visitChildren. revert stack visited.
  induction children as [|child children IH]; intros stack visited Hvalid; simpl.
  - split; [set_solver|]. split; [set_solver|done].
  - case_bool_decide as Hvisited.
    + specialize (IH stack visited).
      destruct (foldl _ _ children) as [stack' visited'].
      destruct IH as (-> & Hstack & Hsize); [set_solver|].
      split; [set_solver|]. split; [|done].
      intros ptr. rewrite Hstack. set_solver.
    + specialize (IH (child :: stack) ({[child]} ∪ visited)).
      destruct (foldl _ _ children) as [stack' visited'].
      destruct IH as (-> & Hstack & Hsize); [set_solver|].
      split; [set_solver|]. split.
      * intros ptr. rewrite Hstack.
        destruct (decide (ptr = child)) as [->|Hne]; set_solver.
      * rewrite Hsize. simpl.
        assert (valid ∖ visited = {[child]} ∪ valid ∖ ({[child]} ∪ visited)) as Hsplit.
        { apply set_eq. intros ptr. destruct (decide (ptr = child)) as [->|Hne]; set_solver. }
        assert (size (valid ∖ visited) = 1 + size (valid ∖ ({[child]} ∪ visited))) as ->; [|lia].
        rewrite <- (size_singleton (C := gset NodePtr) child), <- size_union by set_solver.
        by f_equal.
Qed.

Lemma reachable_valid (this : ActionsDAG.t) (required_names : list string) (ptr : NodePtr) :
  ValidPointers this →
  Reachable this required_names ptr →
  is_Some (deref (ActionsDAG.nodes this) ptr).
Proof.
  intros [Hindex Hchildren]. destruct 1 as [name ptr _ Hname | ptr node child _ Hnode Hchild].
  - eauto.
  - apply deref_Some in Hnode as [Hnode _]. eauto.
Qed.

(** The traversal ends within its fuel, with the visited set closed under
    [children] and made of reachable nodes only. *)
Lemma traverse_spec (this : ActionsDAG.t) (required_names : list string) (fuel : nat)
    (stack : list NodePtr) (visited : gset NodePtr) :
  ValidPointers this →
  (∀ ptr, ptr ∈ stack → ptr ∈ visited) →
  (∀ ptr, ptr ∈ visited → Reachable this required_names ptr) →
  (∀ ptr node child,
     ptr ∈ visited → ptr ∉ stack →
     deref (ActionsDAG.nodes this) ptr = Some node → child ∈ Node.children node →
     child ∈ visited) →
  length stack + size (addresses (ActionsDAG.nodes this) ∖ visited) ≤ fuel →
  ∃ visited',
    ActionsDAG.traverse fuel (ActionsDAG.nodes this) stack visited = Ok visited'
    ∧ visited ⊆ visited'
    ∧ (∀ ptr, ptr ∈ visited' → Reachable this required_names ptr)
    ∧ (∀ ptr node child,
         ptr ∈ visited' →
         deref (ActionsDAG.nodes this) ptr = Some node → child ∈ Node.children node →
         child ∈ visited').
Proof.
  intros Hvalid. revert stack visited.
  induction fuel as [|fuel IH]; intros stack visited Hstack Hreach Hclosed Hfuel.
  - destruct stack as [|ptr stack]; [|simpl in Hfuel; lia].
    exists visited. simpl. split; [done|]. split; [done|]. split; [done|].
    intros ptr node child Hptr. apply Hclosed; [done|]. apply not_elem_of_nil.
  - destruct stack as [|ptr stack].
    { exists visited. simpl. split; [done|]. split; [done|]. split; [done|].
      intros ptr node child Hptr. apply Hclosed; [done|]. apply not_elem_of_nil. }
    assert (Reachable this required_names ptr) as Hptr by (apply Hreach, Hstack; left).
    destruct (reachable_valid _ _ _ Hvalid Hptr) as [node Hnode].
    simpl. rewrite Hnode. simpl.
    pose proof (visitChildren_spec (addresses (ActionsDAG.nodes this))
                  (Node.children node) stack visited) as Hvisit.
    destruct (ActionsDAG.visitChildren (Node.children node) stack visited)
      as [stack' visited'].
    destruct Hvisit as (-> & Hstack' & Hsize).
    { intros child Hchild. apply elem_of_addresses.
      apply deref_Some in Hnode as [Hin _]. destruct Hvalid as [_ Hchildren]. eauto. }
    destruct (IH stack' (visited ∪ list_to_set (Node.children node)))
      as (final & Hfinal & Hsub & Hfinal_reach & Hfinal_closed).
    + intros p [Hp | [Hp _]]%Hstack'; [|set_solver].
      apply elem_of_union_l, Hstack. by right.
    + intros p [Hp | Hp%elem_of_list_to_set]%elem_of_union; [by apply Hreach|].
      by eapply reachable_child.
    + intros p node' child [Hp | Hp%elem_of_list_to_set]%elem_of_union Hnot Hnode' Hchild.
      * destruct (decide (p = ptr)) as [->|Hne].
        { rewrite Hnode in Hnode'. injection Hnode' as <-. set_solver. }
        apply elem_of_union_l. apply (Hclosed p node'); [done| |done..].
        intros [->|Hin]%elem_of_cons; [done|]. apply Hnot, Hstack'. by left.
      * destruct (decide (p ∈ visited)) as [Hvisited|Hnew].
        -- destruct (decide (p = ptr)) as [->|Hne].
           { rewrite Hnode in Hnode'. injection Hnode' as <-. set_solver. }
           apply elem_of_union_l. apply (Hclosed p node'); [done| |done..].
           intros [->|Hin]%elem_of_cons; [done|]. apply Hnot, Hstack'. by left.
        -- exfalso. apply Hnot, Hstack'. by right.
    + simpl in Hfuel. lia.
    + exists final. split; [done|]. split; [set_solver|]. done.
Qed.

(** What the last loop of [removeUnusedActions] does to a node. *)
Lemma clearPrunedParent_fields (visited : gset NodePtr) (n : Node.t) :
  sameButRenamingParent n (ActionsDAG.clearPrunedParent visited n)
  ∧ Node.renaming_parent (ActionsDAG.clearPrunedParent visited n)
    = match Node.renaming_parent n with
      | Some parent => if bool_decide (parent ∈ visited) then Some parent else None
      | None => None
      end.
Proof.
  unfold ActionsDAG.clearPrunedParent.
  destruct (Node.renaming_parent n) as [parent|] eqn:Hparent; [|by repeat split].
  destruct (decide (parent ∈ visited)) as [Hin|Hout].
  - rewrite !bool_decide_eq_true_2 by exact Hin. rewrite Hparent. by repeat split.
  - rewrite !bool_decide_eq_false_2 by exact Hout. by repeat split.
Qed.

(** C5: [removeUnusedActions(required_names)] raises UNKNOWN_IDENTIFIER when
    a required name is absent from the index.  Otherwise, on a DAG whose
    pointers are valid, it returns; the nodes it retains are, in their order,
    exactly the nodes reachable from the required names through [children];
    the new index maps exactly the required names, each to the node the old
    index gave it; and the renaming parent of a retained node is null when
    that parent was pruned and is kept otherwise, every other field of the
    node being as it was, so that every renaming parent that is left is a
    retained node. *)
Theorem removeUnusedActions_spec (this : ActionsDAG.t) (required_names : list string)
    (Hvalid : ValidPointers this) :
  match ActionsDAG.removeUnusedActions this required_names with
  | Throw e =>
      code e = UNKNOWN_IDENTIFIER
      ∧ ∃ name, name ∈ required_names ∧ ActionsDAG.index this !! name = None
  | Undefined => False
  | Ok this' =>
      (∀ name, name ∈ required_names → is_Some (ActionsDAG.index this !! name))
      ∧ (∀ name, ActionsDAG.index this' !! name
                 = if bool_decide (name ∈ required_names) then ActionsDAG.index this !! name
                   else None)
      ∧ ∃ visited : gset NodePtr,
          (∀ ptr, ptr ∈ visited ↔ Reachable this required_names ptr)
          ∧ ActionsDAG.nodes this'
            = (λ n, match Node.renaming_parent n with
                    | Some parent =>
                        if bool_decide (parent ∈ visited) then n
                        else Node.set_renaming_parent None n
                    | None => n
                    end)
                <$> filter (λ n, Node.addr n ∈ visited) (ActionsDAG.nodes this)
          ∧ Forall2 (λ n n',
                       sameButRenamingParent n n'
                       ∧ Node.renaming_parent n'
                         = match Node.renaming_parent n with
                           | Some parent =>
                               if bool_decide (parent ∈ visited) then Some parent else None
                           | None => None
                           end)
                    (filter (λ n, Node.addr n ∈ visited) (ActionsDAG.nodes this))
                    (ActionsDAG.nodes this')
          ∧ (∀ n' parent, n' ∈ ActionsDAG.nodes this' →
                          Node.renaming_parent n' = Some parent →
                          Reachable this required_names parent)
  end.
Proof.
  unfold ActionsDAG.removeUnusedActions, ActionsDAG.collectRequired.
  pose proof (collectRequired_from this required_names ∅ ∅ []) as Hcollect.
  destruct (foldM _ _ required_names) as [[[new_index visited] stack]|e|]; [|done..].
  destruct Hcollect as (Hall & Hindex & Hvisited & Hstack & Hlen). simpl.
  destruct (traverse_spec this required_names
              (length required_names + length (ActionsDAG.nodes this)) stack visited)
    as (final & -> & Hsub & Hreach & Hclosed); try done.
  - intros ptr. rewrite Hstack, Hvisited. intros [[]%elem_of_nil | ?]; by right.
  - intros ptr [[]%elem_of_empty | (name & Hin & Hname)]%Hvisited.
    by eapply reachable_required.
  - intros ptr node child Hptr Hnot. exfalso. apply Hnot.
    apply Hstack. apply Hvisited in Hptr as [[]%elem_of_empty | ?]. by right.
  - simpl in Hlen. rewrite Hlen, Nat.add_0_r. apply Nat.add_le_mono_l.
    etrans; [|apply size_addresses]. apply subseteq_size. set_solver.
  - simpl. split; [done|]. split.
    { intros name. rewrite Hindex. by case_bool_decide. }
    exists final.
    assert (∀ ptr, ptr ∈ final ↔ Reachable this required_names ptr) as Hfinal.
    { intros ptr. split; [apply Hreach|].
      induction 1 as [name ptr Hin Hname | ptr node child _ IH Hnode Hchild].
      - apply Hsub, Hvisited. eauto.
      - eauto. }
    split; [done|]. split; [done|].
    assert (Forall2 (λ n n',
                       sameButRenamingParent n n'
                       ∧ Node.renaming_parent n'
                         = match Node.renaming_parent n with
                           | Some parent =>
                               if bool_decide (parent ∈ final) then Some parent else None
                           | None => None
                           end)
                    (filter (λ n, Node.addr n ∈ final) (ActionsDAG.nodes this))
                    (ActionsDAG.clearPrunedParent final
                       <$> filter (λ n, Node.addr n ∈ final) (ActionsDAG.nodes this)))
      as Hcleared.
    { apply Forall2_fmap_r, Forall_Forall2_diag, Forall_forall. intros n _.
      apply clearPrunedParent_fields. }
    split; [exact Hcleared|].
    intros n' parent Hn' Hparent. apply Hfinal.
    apply list_elem_of_lookup in Hn' as [i Hi].
    destruct (Forall2_lookup_r _ _ _ _ _ Hcleared Hi) as (n & _ & _ & Hrenaming).
    rewrite Hparent in Hrenaming.
    destruct (Node.renaming_parent n) as [parent0|]; [|discriminate].
    case_bool_decide; [|discriminate]. by injection Hrenaming as ->.
Qed.

(** ** The theorems at concrete inputs *)

Lemma ValidPointers_decide (this : ActionsDAG.t) :
  map_Forall (λ _ ptr, is_Some (deref (ActionsDAG.nodes this) ptr)) (ActionsDAG.index this) →
  Forall (λ node, Forall (λ child, is_Some (deref (ActionsDAG.nodes this) child))
                         (Node.children node))
         (ActionsDAG.nodes this) →
  ValidPointers this.
Proof.
  intros Hindex Hchildren. split.
  - intros name ptr Hname. by apply (Hindex name ptr).
  - intros node child Hnode Hchild.
    rewrite Forall_forall in Hchildren. specialize (Hchildren node Hnode).
    rewrite Forall_forall in Hchildren. by apply Hchildren.
Qed.

(** [addNode_duplicate_column] on the DAG with the input [x], the node 1:
    adding an input [x] again fails, and so does a function named [x] over
    [x]; adding an input [x] with replacement stores it as the node 2, maps
    [x] to it and makes it the renaming parent of the node 1. *)
Lemma addNode_duplicate_column_witness :
  ActionsDAG.index Scenarios.x_dag !! "x" = Some 1
  ∧ (∃ e, ActionsDAG.addInput Scenarios.x_dag "x" (Some Scenarios.Int64) = Throw e
          ∧ code e = DUPLICATE_COLUMN)
  ∧ (∃ e, ActionsDAG.addFunction false Scenarios.x_dag Scenarios.f ["x"] "x"
            (Scenarios.context 0) = Throw e
          ∧ code e = DUPLICATE_COLUMN)
  ∧ ∃ this' res displaced',
      ActionsDAG.addNode Scenarios.x_dag Scenarios.x_again true = Ok (this', res)
      ∧ Node.addr res = 2
      ∧ Node.result_type res = Some Scenarios.String_
      ∧ ActionsDAG.index this' !! "x" = Some 2
      ∧ ActionsDAG.nodes this' !! 1 = Some res
      ∧ deref (ActionsDAG.nodes this') 1 = Some displaced'
      ∧ Node.result_type displaced' = Some Scenarios.Int64
      ∧ Node.renaming_parent displaced' = Some 2.
Proof.
  pose proof (addNode_duplicate_column Scenarios.x_dag "x" 1 eq_refl)
    as (Hnode & Hinput & _ & _ & Hfunction).
  split; [reflexivity|]. split; [exact (Hinput (Some Scenarios.Int64))|]. split.
  - destruct (Hfunction false Scenarios.f ["x"] "x" (Scenarios.context 0) eq_refl)
      as [_ Hreaches].
    apply Hreaches. unfold ReachesAddNode. eexists _, _, _, _, _.
    split; [vm_compute; reflexivity|]. split; [reflexivity|]. discriminate.
  - destruct (Hnode Scenarios.x_again eq_refl)
      as (_ & this' & res & Hadd & _ & Haddr & Hfields & _ & Hindex & _ & _ & _ & _
          & Hdisplaced).
    destruct (Hdisplaced (Node.mk 1 [] None INPUT "x" (Some Scenarios.Int64) "" None None None
                            false true None) eq_refl)
      as (Hlast & _ & displaced' & Hderef & Hsame & Hparent).
    exists this', res, displaced'. rewrite Haddr in Hindex, Hparent.
    split; [exact Hadd|]. split; [exact Haddr|].
    split; [exact (proj1 (proj2 (proj2 (proj2 (proj2 Hfields)))))|].
    split; [exact Hindex|]. split; [exact Hlast|]. split; [exact Hderef|].
    split; [exact (proj1 (proj2 (proj2 (proj2 (proj2 Hsame)))))|exact Hparent].
Defined.

(** [zero_limit_disables_check] on the ten function applications without a
    limit (twenty slots) and on an execution context with two columns that
    are not constant. *)
Lemma zero_limit_disables_check_witness :
  ActionsDAG.max_temporary_columns Scenarios.unlimited_dag = 0
  ∧ ExpressionActions.max_temporary_non_const_columns Scenarios.unlimited_program = 0
  ∧ ExpressionActions.num_columns Scenarios.unlimited_program = 20
  ∧ (∀ e, ActionsDAG.buildExpressions Scenarios.unlimited_dag = Throw e →
          code e ≠ TOO_MANY_TEMPORARY_COLUMNS)
  ∧ ExpressionActions.checkLimits Scenarios.unlimited_program Scenarios.array_join_context
    = Ok ().
Proof.
  split; [reflexivity|]. split; [reflexivity|]. split; [reflexivity|].
  pose proof (zero_limit_disables_check Scenarios.unlimited_dag Scenarios.unlimited_program
                Scenarios.array_join_context eq_refl eq_refl) as (Hbuild & _ & Hlimits).
  split; [exact Hbuild | exact Hlimits].
Defined.

(** [addFunction_constant_folding] on the DAG with the constant [c] of five
    rows: [rowCount(c)] is evaluated at five rows and folded to the constant
    5. *)
Lemma addFunction_constant_folding_witness :
  ActionsDAG.getNode Scenarios.c_dag "c" = Ok Scenarios.c_node
  ∧ hasConstColumn Scenarios.c_node
  ∧ ActionsDAG.addFunction false Scenarios.c_dag Scenarios.rowCount ["c"] ""
      (Scenarios.context 0)
    = ActionsDAG.addNode (withSettings Scenarios.c_dag (Scenarios.context 0))
        (Node.mk 0 [1] None FUNCTION "rowCount(c)" (Some Scenarios.Int64) ""
           (Some Scenarios.rowCount)
           (Some (Scenarios.simpleFunctionBase "rowCount" Scenarios.Int64 true true
                    Scenarios.rowCountImpl (argumentsOf [Scenarios.c_node])))
           (Some (IFunctionBase.prepare
                    (Scenarios.simpleFunctionBase "rowCount" Scenarios.Int64 true true
                       Scenarios.rowCountImpl (argumentsOf [Scenarios.c_node]))
                    (argumentsOf [Scenarios.c_node])))
           false true
           (Some (IColumn.ColumnConst (IColumn.ColumnVector [5%Z]) 5)))
        false.
Proof.
  assert (hasConstColumn Scenarios.c_node) as Hconst by (eexists; split; reflexivity).
  split; [reflexivity|]. split; [exact Hconst|].
  apply (addFunction_constant_folding false Scenarios.c_dag Scenarios.rowCount ["c"] ""
           (Scenarios.context 0) [Scenarios.c_node]
           (Scenarios.simpleFunctionBase "rowCount" Scenarios.Int64 true true
              Scenarios.rowCountImpl (argumentsOf [Scenarios.c_node]))
           (IColumn.ColumnConst (IColumn.ColumnVector [5%Z]) 5)).
  - repeat constructor.
  - repeat constructor. exact Hconst.
  - reflexivity.
  - reflexivity.
  - left. reflexivity.
  - reflexivity.
  - reflexivity.
Defined.

(** [removeUnusedActions_spec] on [c = g(b)], [b = f(a)] and the alias of
    [a] that replaced [b], the nodes 1 to 4: with [c] required the alias is
    pruned and the renaming parent of the function [b] is null; with [c] and
    [b] required it is kept; [z] is unknown. *)
Lemma removeUnusedActions_spec_witness :
  ValidPointers Scenarios.renamed_chain_dag
  ∧ Node.renaming_parent <$> ActionsDAG.nodes Scenarios.renamed_chain_dag
    = [None; Some 4; None; None]
  ∧ (∃ this', ActionsDAG.removeUnusedActions Scenarios.renamed_chain_dag ["c"] = Ok this'
              ∧ ActionsDAG.index this' !! "c" = Some 3
              ∧ ActionsDAG.index this' !! "b" = None
              ∧ (∀ n' parent, n' ∈ ActionsDAG.nodes this' →
                              Node.renaming_parent n' = Some parent →
                              Reachable Scenarios.renamed_chain_dag ["c"] parent)
              ∧ Node.addr <$> ActionsDAG.nodes this' = [1; 2; 3]
              ∧ Node.result_name <$> ActionsDAG.nodes this' = ["a"; "b"; "c"]
              ∧ Node.renaming_parent <$> ActionsDAG.nodes this' = [None; None; None])
  ∧ (∃ this', ActionsDAG.removeUnusedActions Scenarios.renamed_chain_dag ["c"; "b"] = Ok this'
              ∧ ActionsDAG.index this' !! "b" = Some 4
              ∧ Node.addr <$> ActionsDAG.nodes this' = [1; 2; 3; 4]
              ∧ Node.renaming_parent <$> ActionsDAG.nodes this' = [None; Some 4; None; None])
  ∧ (∃ e, ActionsDAG.removeUnusedActions Scenarios.renamed_chain_dag ["z"] = Throw e
          ∧ code e = UNKNOWN_IDENTIFIER).
Proof.
  assert (ValidPointers Scenarios.renamed_chain_dag) as Hvalid.
  { apply ValidPointers_decide; apply (bool_decide_unpack _); vm_compute; exact I. }
  split; [exact Hvalid|]. split; [reflexivity|]. split; [|split].
  - pose proof (removeUnusedActions_spec Scenarios.renamed_chain_dag ["c"] Hvalid) as Hspec.
    destruct (ActionsDAG.removeUnusedActions Scenarios.renamed_chain_dag ["c"])
      as [this'|e|] eqn:Hrun; [|vm_compute in Hrun; discriminate..].
    destruct Hspec as (_ & Hindex & visited & _ & _ & _ & Hparents).
    exists this'. split; [reflexivity|].
    split; [exact (Hindex "c")|]. split; [exact (Hindex "b")|].
    split; [exact Hparents|].
    vm_compute in Hrun. injection Hrun as <-. by repeat split.
  - pose proof (removeUnusedActions_spec Scenarios.renamed_chain_dag ["c"; "b"] Hvalid)
      as Hspec.
    destruct (ActionsDAG.removeUnusedActions Scenarios.renamed_chain_dag ["c"; "b"])
      as [this'|e|] eqn:Hrun; [|vm_compute in Hrun; discriminate..].
    destruct Hspec as (_ & Hindex & _).
    exists this'. split; [reflexivity|]. split; [exact (Hindex "b")|].
    vm_compute in Hrun. injection Hrun as <-. by repeat split.
  - pose proof (removeUnusedActions_spec Scenarios.renamed_chain_dag ["z"] Hvalid) as Hspec.
    destruct (ActionsDAG.removeUnusedActions Scenarios.renamed_chain_dag ["z"])
      as [this'|e|] eqn:Hrun; [vm_compute in Hrun; discriminate| |vm_compute in Hrun; discriminate].
    exists e. split; [reflexivity|]. exact (proj1 Hspec).
Defined.

(** [executeAction_array_join] on the array join of [arr = [[1,2],[],[3]]]. *)
Lemma executeAction_array_join_witness :
  Node.type (ExpressionActions.node Scenarios.the_array_join_action) = ARRAY_JOIN
  ∧ head (ExpressionActions.arguments Scenarios.the_array_join_action)
    = Some {| ExpressionActions.pos := 0; ExpressionActions.remove := true |}
  ∧ ExpressionActions.columns Scenarios.array_join_context !! 0 = Some Scenarios.arr_column
  ∧ ExpressionActions.result_position Scenarios.the_array_join_action = 2
  ∧ ∃ ctx',
      ExpressionActions.executeAction Scenarios.the_array_join_action
        Scenarios.array_join_context false = Ok ctx'
      ∧ ExpressionActions.num_rows ctx' = 3
      ∧ ExpressionActions.columns ctx' !! 1
        = Some (CWT.mk (Some (IColumn.ColumnString ["x"; "x"; "z"]))
                       (Some Scenarios.String_) "tag").
Proof.
  split; [reflexivity|]. split; [reflexivity|]. split; [reflexivity|]. split; [reflexivity|].
  pose proof (executeAction_array_join Scenarios.the_array_join_action
                Scenarios.array_join_context false
                {| ExpressionActions.pos := 0; ExpressionActions.remove := true |}
                Scenarios.arr_column
                (IColumn.ColumnArray (IColumn.ColumnVector [1; 2; 3]%Z) [2; 2; 3])
                eq_refl eq_refl eq_refl eq_refl (le_n 3) Scenarios.Int64 eq_refl)
    as (ctx' & Hrun & Hrows & _ & _ & _ & Hothers).
  exists ctx'. split; [exact Hrun|]. split; [exact Hrows|].
  apply (Hothers 1 Scenarios.tag_column); [vm_compute; discriminate | reflexivity].
Defined.

(** [operator_eq_same_type_ActionHash] on two applications of [plus] whose
    function objects were built apart. *)
Lemma operator_eq_same_type_ActionHash_witness :
  HashScenarios.apply_plus 1 ≠ HashScenarios.apply_plus 2
  ∧ HashScenarios.eqb (HashScenarios.apply_plus 1) (HashScenarios.apply_plus 2) = true
  ∧ HashScenarios.ActionHash (HashScenarios.apply_plus 1)
    = HashScenarios.ActionHash (HashScenarios.apply_plus 2).
Proof.
  split; [discriminate|]. split; [reflexivity|].
  apply (operator_eq_same_type_ActionHash IDataType.getName IDataType.equals
           HashScenarios.getName HashScenarios.getArgumentTypes id (λ _ _, true)
           (0, 0)%Z HashScenarios.mix id).
  - intros a b Hab. apply bool_decide_eq_true in Hab. by rewrite Hab.
  - reflexivity.
  - reflexivity.
Defined.

(** ** The builders and the pruning keep the DAG well formed *)

(** The nodes of the list have distinct addresses, and the pointers of the
    DAG (index entries, children, renaming parents) point to nodes of the
    list. *)
Definition WellFormed (this : ActionsDAG.t) : Prop :=
  NoDup (Node.addr <$> ActionsDAG.nodes this)
  ∧ ValidPointers this
  ∧ (∀ node parent, node ∈ ActionsDAG.nodes this → Node.renaming_parent node = Some parent →
                    parent ∈ addresses (ActionsDAG.nodes this)).

Lemma ValidPointers_addresses (this : ActionsDAG.t) :
  ValidPointers this
  ↔ (∀ name ptr, ActionsDAG.index this !! name = Some ptr →
                 ptr ∈ addresses (ActionsDAG.nodes this))
    ∧ (∀ node child, node ∈ ActionsDAG.nodes this → child ∈ Node.children node →
                     child ∈ addresses (ActionsDAG.nodes this)).
Proof.
  unfold ValidPointers. split; intros [Hindex Hchildren]; split.
  - intros name ptr Hname. apply elem_of_addresses. eauto.
  - intros node child Hnode Hchild. apply elem_of_addresses. eauto.
  - intros name ptr Hname. apply elem_of_addresses. eauto.
  - intros node child Hnode Hchild. apply elem_of_addresses. eauto.
Qed.

Lemma addresses_app (ns ns' : list Node.t) : addresses (ns ++ ns') = addresses ns ∪ addresses ns'.
Proof. unfold addresses. rewrite fmap_app. apply set_eq. intros ptr. set_solver. Qed.

Lemma fmap_addr_setRenamingParent ptr parent (ns : list Node.t) :
  Node.addr <$> ActionsDAG.setRenamingParent ptr parent ns = Node.addr <$> ns.
Proof.
  unfold ActionsDAG.setRenamingParent.
  rewrite <- list_fmap_compose. apply list_fmap_ext. intros i n _. simpl.
  by case_bool_decide.
Qed.

Lemma elem_of_setRenamingParent ptr parent (ns : list Node.t) (n : Node.t) :
  n ∈ ActionsDAG.setRenamingParent ptr parent ns →
  ∃ n0, n0 ∈ ns ∧ Node.children n = Node.children n0
        ∧ (Node.renaming_parent n = Node.renaming_parent n0 ∨ Node.renaming_parent n = parent).
Proof.
  unfold ActionsDAG.setRenamingParent. intros (n0 & -> & Hn0)%list_elem_of_fmap.
  exists n0. split; [done|]. case_bool_decide; auto.
Qed.

Lemma deref_NoDup (ns : list Node.t) (n : Node.t) :
  NoDup (Node.addr <$> ns) → n ∈ ns → deref ns (Node.addr n) = Some n.
Proof.
  intros Hnodup Hn. destruct (deref_is_Some ns n Hn) as [n' Hn'].
  rewrite Hn'. f_equal. apply deref_Some in Hn' as [Hin Haddr].
  apply list_elem_of_lookup in Hn as [i Hi]. apply list_elem_of_lookup in Hin as [j Hj].
  assert (i = j) as ->; [|congruence].
  eapply NoDup_lookup; [exact Hnodup|..]; rewrite list_lookup_fmap.
  - by rewrite Hi.
  - rewrite Hj. simpl. by rewrite Haddr.
Qed.

(** [addNode] keeps the DAG well formed when the children of the new node
    point into the list and it has no renaming parent. *)
Lemma addNode_WellFormed (this this' : ActionsDAG.t) (node res : Node.t) (can_replace : bool) :
  WellFormed this →
  (∀ child, child ∈ Node.children node → child ∈ addresses (ActionsDAG.nodes this)) →
  Node.renaming_parent node = None →
  ActionsDAG.addNode this node can_replace = Ok (this', res) →
  WellFormed this'.
Proof.
  unfold WellFormed. rewrite !ValidPointers_addresses.
  intros (Hnodup & (Hindex & Hchildren) & Hparents) Hnode Hnone.
  unfold ActionsDAG.addNode. destruct (_ && _); [discriminate|].
  intros [= <- <-]. unfold ActionsDAG.with_nodes_index. simpl.
  set (res := Node.set_addr node (ActionsDAG.fresh_addr (ActionsDAG.nodes this))).
  set (nodes' := match ActionsDAG.index this !! Node.result_name node with
                 | Some old => _
                 | None => _
                 end).
  assert (Node.addr <$> nodes' = (Node.addr <$> ActionsDAG.nodes this) ++ [Node.addr res])
    as Hfmap.
  { subst nodes'. destruct (ActionsDAG.index this !! Node.result_name node);
      by rewrite ?fmap_addr_setRenamingParent, fmap_app. }
  assert (addresses nodes' = addresses (ActionsDAG.nodes this) ∪ {[Node.addr res]}) as Haddr.
  { unfold addresses. rewrite Hfmap. apply set_eq. intros p. set_solver. }
  assert (∀ n, n ∈ nodes' →
               ∃ n0, n0 ∈ ActionsDAG.nodes this ++ [res]
                     ∧ Node.children n = Node.children n0
                     ∧ (Node.renaming_parent n = Node.renaming_parent n0
                        ∨ Node.renaming_parent n = Some (Node.addr res))) as Hfrom.
  { intros n Hn. subst nodes'. destruct (ActionsDAG.index this !! Node.result_name node);
      [by eapply elem_of_setRenamingParent | eauto]. }
  split; [|split; [split|]].
  - rewrite Hfmap. apply NoDup_app. split; [done|]. split; [|apply NoDup_singleton].
    intros p (n & Hp & Hn%fresh_addr_fresh)%list_elem_of_fmap Hres%list_elem_of_singleton.
    subst res p. simpl in Hres. lia.
  - intros name ptr. rewrite Haddr. rewrite lookup_insert.
    case_decide; [intros [= <-]; set_solver|]. intros ?%Hindex. set_solver.
  - intros n child Hn Hchild. rewrite Haddr.
    destruct (Hfrom n Hn) as (n0 & Hn0 & Heq & _).
    rewrite Heq in Hchild.
    apply elem_of_app in Hn0 as [Hn0 | ->%list_elem_of_singleton].
    + apply elem_of_union_l. eauto.
    + apply elem_of_union_l. by apply Hnode.
  - intros n parent Hn Hparent. rewrite Haddr.
    destruct (Hfrom n Hn) as (n0 & Hn0 & _ & [Heq | Heq]).
    + rewrite Heq in Hparent.
      apply elem_of_app in Hn0 as [Hn0 | ->%list_elem_of_singleton].
      * apply elem_of_union_l. eauto.
      * subst res. simpl in Hparent. congruence.
    + rewrite Heq in Hparent. injection Hparent as <-. set_solver.
Qed.

Lemma getNode_valid (this : ActionsDAG.t) (name : string) (child : Node.t) :
  ActionsDAG.getNode this name = Ok child →
  Node.addr child ∈ addresses (ActionsDAG.nodes this).
Proof.
  intros (ptr & _ & [Hchild <-]%deref_Some)%getNode_Ok.
  apply elem_of_addresses. by apply deref_is_Some.
Qed.

Lemma gatherArguments_valid (this : ActionsDAG.t) argument_names children allow all_const
    arguments :
  ActionsDAG.gatherArguments this argument_names = Ok (children, allow, all_const, arguments) →
  ∀ child, child ∈ children → child ∈ addresses (ActionsDAG.nodes this).
Proof.
  unfold ActionsDAG.gatherArguments. intros Hgather.
  apply (foldM_invariant
           (λ acc, ∀ child, child ∈ acc.1.1.1 → child ∈ addresses (ActionsDAG.nodes this))
           (ActionsDAG.gatherArgument this) argument_names ([], true, true, [])
           (children, allow, all_const, arguments)); [|by intros ? ?%elem_of_nil|exact Hgather].
  intros [[[cs al] ac] args] name [[[cs' al'] ac'] args'] Hcs.
  unfold ActionsDAG.gatherArgument. intros (child & Hchild%getNode_valid & [= <- _ _ _])%bind_Ok.
  simpl in *. intros c [Hc | ->%list_elem_of_singleton]%elem_of_app; auto.
Qed.

(** The three outcomes of [removeUnusedActions] on a DAG whose pointers are
    valid. *)
Lemma removeUnusedActions_cases (this : ActionsDAG.t) (required_names : list string) :
  ValidPointers this →
  match ActionsDAG.removeUnusedActions this required_names with
  | Throw e =>
      code e = UNKNOWN_IDENTIFIER
      ∧ ∃ name, name ∈ required_names ∧ ActionsDAG.index this !! name = None
  | Undefined => False
  | Ok this' =>
      (∀ name, name ∈ required_names → is_Some (ActionsDAG.index this !! name))
      ∧ (∀ name, ActionsDAG.index this' !! name
                 = if bool_decide (name ∈ required_names) then ActionsDAG.index this !! name
                   else None)
      ∧ ActionsDAG.max_temporary_columns this' = ActionsDAG.max_temporary_columns this
      ∧ ActionsDAG.max_temporary_non_const_columns this'
        = ActionsDAG.max_temporary_non_const_columns this
      ∧ ∃ visited : gset NodePtr,
          (∀ ptr, ptr ∈ visited ↔ Reachable this required_names ptr)
          ∧ ActionsDAG.nodes this'
            = ActionsDAG.clearPrunedParent visited
                <$> filter (λ n, Node.addr n ∈ visited) (ActionsDAG.nodes this)
  end.
Proof.
  intros Hvalid. unfold ActionsDAG.removeUnusedActions, ActionsDAG.collectRequired.
  pose proof (collectRequired_from this required_names ∅ ∅ []) as Hcollect.
  destruct (foldM _ _ required_names) as [[[new_index visited] stack]|e|]; [|done..].
  destruct Hcollect as (Hall & Hindex & Hvisited & Hstack & Hlen). simpl.
  destruct (traverse_spec this required_names
              (length required_names + length (ActionsDAG.nodes this)) stack visited)
    as (final & -> & Hsub & Hreach & Hclosed); try done.
  - intros ptr. rewrite Hstack, Hvisited. intros [[]%elem_of_nil | ?]; by right.
  - intros ptr [[]%elem_of_empty | (name & Hin & Hname)]%Hvisited.
    by eapply reachable_required.
  - intros ptr node child Hptr Hnot. exfalso. apply Hnot.
    apply Hstack. apply Hvisited in Hptr as [[]%elem_of_empty | ?]. by right.
  - simpl in Hlen. rewrite Hlen, Nat.add_0_r. apply Nat.add_le_mono_l.
    etrans; [|apply size_addresses]. apply subseteq_size. set_solver.
  - simpl. split; [done|]. split.
    { intros name. rewrite Hindex. by case_bool_decide. }
    split; [done|]. split; [done|].
    exists final. split; [|done].
    intros ptr. split; [apply Hreach|].
    induction 1 as [name ptr Hin Hname | ptr node child _ IH Hnode Hchild].
    + apply Hsub, Hvisited. eauto.
    + eauto.
Qed.

Lemma fmap_addr_pruned (visited : gset NodePtr) (ns : list Node.t) :
  Node.addr <$> (ActionsDAG.clearPrunedParent visited
                   <$> filter (λ n, Node.addr n ∈ visited) ns)
  = filter (λ p, p ∈ visited) (Node.addr <$> ns).
Proof.
  rewrite <- list_fmap_compose.
  induction ns as [|n ns IH]; [done|].
  rewrite fmap_cons, !filter_cons. case_decide; rewrite ?fmap_cons, IH; [|done].
  f_equal. simpl. unfold ActionsDAG.clearPrunedParent.
  by destruct (Node.renaming_parent n); [case_bool_decide|].
Qed.

Lemma children_clearPrunedParent visited n :
  Node.children (ActionsDAG.clearPrunedParent visited n) = Node.children n.
Proof.
  unfold ActionsDAG.clearPrunedParent.
  by destruct (Node.renaming_parent n); [case_bool_decide|].
Qed.

Lemma addr_clearPrunedParent visited n :
  Node.addr (ActionsDAG.clearPrunedParent visited n) = Node.addr n.
Proof.
  unfold ActionsDAG.clearPrunedParent.
  by destruct (Node.renaming_parent n); [case_bool_decide|].
Qed.

Lemma renaming_parent_clearPrunedParent visited n parent :
  Node.renaming_parent (ActionsDAG.clearPrunedParent visited n) = Some parent →
  Node.renaming_parent n = Some parent ∧ parent ∈ visited.
Proof.
  unfold ActionsDAG.clearPrunedParent.
  destruct (Node.renaming_parent n) as [p|] eqn:Hp; [|by rewrite Hp].
  case_bool_decide; [|discriminate]. rewrite Hp. by intros [= <-].
Qed.

(** Pruning keeps the DAG well formed. *)
Lemma removeUnusedActions_WellFormed (this this' : ActionsDAG.t) required_names :
  WellFormed this →
  ActionsDAG.removeUnusedActions this required_names = Ok this' →
  WellFormed this'.
Proof.
  intros (Hnodup & Hvalid & Hparents) Hprune.
  pose proof (removeUnusedActions_cases this required_names Hvalid) as Hspec.
  rewrite Hprune in Hspec.
  destruct Hspec as (Hall & Hindex & _ & _ & visited & Hvisited & Hnodes).
  assert (Node.addr <$> ActionsDAG.nodes this'
          = filter (λ p, p ∈ visited) (Node.addr <$> ActionsDAG.nodes this)) as Hfmap.
  { rewrite Hnodes. apply fmap_addr_pruned. }
  assert (∀ ptr, Reachable this required_names ptr →
                 is_Some (deref (ActionsDAG.nodes this') ptr)) as Hretained.
  { intros ptr Hptr. apply elem_of_addresses. unfold addresses. rewrite Hfmap.
    apply elem_of_list_to_set, list_elem_of_filter. split; [by apply Hvisited|].
    apply (elem_of_list_to_set (C := gset NodePtr)).
    fold (addresses (ActionsDAG.nodes this)).
    apply elem_of_addresses. by eapply reachable_valid. }
  split; [|split; [split|]].
  - rewrite Hfmap. by apply NoDup_filter.
  - intros name ptr. rewrite Hindex. case_bool_decide as Hin; [|discriminate].
    intros Hname. apply Hretained. by eapply reachable_required.
  - intros node child Hnode Hchild. rewrite Hnodes in Hnode.
    apply list_elem_of_fmap in Hnode as (n & -> & [Hn%Hvisited Hn']%list_elem_of_filter).
    apply Hretained. eapply reachable_child; [exact Hn|by apply deref_NoDup|].
    by rewrite children_clearPrunedParent in Hchild.
  - intros node parent Hnode Hparent. rewrite Hnodes in Hnode.
    apply list_elem_of_fmap in Hnode as (n & -> & _).
    apply renaming_parent_clearPrunedParent in Hparent as [_ Hparent].
    by apply elem_of_addresses, Hretained, Hvisited.
Qed.

(** Well-formedness is an invariant of the DAG: the empty DAG is well
    formed, every builder that succeeds keeps it, and so does
    [removeUnusedActions], after which every child and every renaming parent
    of a retained node is retained and every index entry points to a
    retained node. *)
Theorem builders_keep_well_formed :
  WellFormed ActionsDAG.init
  ∧ (∀ this this' res name type,
       WellFormed this → ActionsDAG.addInput this name type = Ok (this', res) →
       WellFormed this')
  ∧ (∀ this this' res column,
       WellFormed this → ActionsDAG.addInputColumn this column = Ok (this', res) →
       WellFormed this')
  ∧ (∀ this this' res column,
       WellFormed this → ActionsDAG.addColumn this column = Ok (this', res) →
       WellFormed this')
  ∧ (∀ this this' res name alias can_replace,
       WellFormed this → ActionsDAG.addAlias this name alias can_replace = Ok (this', res) →
       WellFormed this')
  ∧ (∀ this this' res source_name result_name unique_column_name,
       WellFormed this →
       ActionsDAG.addArrayJoin this source_name result_name unique_column_name = Ok (this', res) →
       WellFormed this')
  ∧ (∀ flag this this' res function argument_names result_name context,
       WellFormed this →
       ActionsDAG.addFunction flag this function argument_names result_name context
       = Ok (this', res) →
       WellFormed this')
  ∧ (∀ this this' required_names,
       WellFormed this →
       ActionsDAG.removeUnusedActions this required_names = Ok this' →
       WellFormed this').
Proof.
  split; [|split; [|split; [|split; [|split; [|split; [|split]]]]]].
  - split; [constructor|]. split; [split|].
    + by intros name ptr ?.
    + by intros node child ?%elem_of_nil.
    + by intros node parent ?%elem_of_nil.
  - intros this this' res name type Hwf.
    apply addNode_WellFormed; [done|by intros child ?%elem_of_nil|done].
  - intros this this' res column Hwf.
    apply addNode_WellFormed; [done|by intros child ?%elem_of_nil|done].
  - intros this this' res column Hwf. unfold ActionsDAG.addColumn.
    case_bool_decide; [discriminate|].
    apply addNode_WellFormed; [done|by intros child ?%elem_of_nil|done].
  - intros this this' res name alias can_replace Hwf. unfold ActionsDAG.addAlias.
    intros (child & Hchild%getNode_valid & Hadd)%bind_Ok.
    refine (addNode_WellFormed this this' _ res _ Hwf _ _ Hadd); [|reflexivity].
    by intros c ->%list_elem_of_singleton.
  - intros this this' res source_name result_name unique_column_name Hwf.
    unfold ActionsDAG.addArrayJoin.
    intros (child & Hchild%getNode_valid & Hadd)%bind_Ok.
    destruct (Node.result_type child ≫= IDataType.getNestedType); [|discriminate].
    refine (addNode_WellFormed this this' _ res _ Hwf _ _ Hadd); [|reflexivity].
    by intros c ->%list_elem_of_singleton.
  - intros flag this this' res function argument_names result_name context Hwf.
    unfold ActionsDAG.addFunction. fold (withSettings this context).
    intros ([[[children allow] all_const] arguments] & Hgather & H)%bind_Ok.
    apply bind_Ok in H as (function_base & _ & H).
    apply bind_Ok in H as (column & _ & H).
    pose proof (gatherArguments_valid _ _ _ _ _ _ Hgather) as Hchildren.
    destruct column as [col|];
      [|destruct (IFunctionBase.isSuitableForConstantFolding function_base);
        [destruct (IFunctionBase.getResultIfAlwaysReturnsConstantAndHasArguments _ _)|]];
      (refine (addNode_WellFormed (withSettings this context) this' _ res false _ _ _ H);
       [exact Hwf | exact Hchildren | reflexivity]).
  - intros this this' required_names. apply removeUnusedActions_WellFormed.
Qed.

(** ** The main loop of [buildExpressions] ends *)

(** A node that still waits for children. *)
Definition pending (d : ActionsDAG.Data) : Prop :=
  ActionsDAG.num_created_children d < ActionsDAG.num_expected_children d.

Definition pendingCount (data : list ActionsDAG.Data) : nat := length (filter pending data).

Lemma pendingCount_alter f i (data : list ActionsDAG.Data) d :
  data !! i = Some d →
  pendingCount (alter f i data) + (if decide (pending d) then 1 else 0)
  = pendingCount data + (if decide (pending (f d)) then 1 else 0).
Proof.
  unfold pendingCount. revert i.
  induction data as [|d0 data IH]; intros [|i] Hi; simplify_eq/=.
  - rewrite !filter_cons. repeat case_decide; simpl; try lia; tauto.
  - rewrite !filter_cons. specialize (IH i Hi). destruct (decide (pending d0)); simpl; lia.
Qed.

Lemma pendingCount_alter_same f i (data : list ActionsDAG.Data) :
  (∀ d, pending (f d) ↔ pending d) →
  pendingCount (alter f i data) = pendingCount data.
Proof.
  intros Hf. unfold pendingCount. revert i.
  induction data as [|d0 data IH]; intros [|i]; simpl; [done..| |].
  - rewrite !filter_cons. specialize (Hf d0).
    destruct (decide (pending (f d0))), (decide (pending d0)); simpl; tauto || lia.
  - rewrite !filter_cons. destruct (decide (pending d0)); cbn [length]; [f_equal|]; apply IH.
Qed.

Lemma Forall_alter_preserved {A} (P : A → Prop) f i (l : list A) :
  Forall P l → (∀ x, P x → P (f x)) → Forall P (alter f i l).
Proof.
  intros Hl Hf. revert i. induction Hl as [|x l Hx Hl IH]; intros [|i]; simpl.
  - constructor.
  - constructor.
  - constructor; [by apply Hf|done].
  - constructor; [done|apply IH].
Qed.

Lemma lookup_alter_preserved {A} (Q : nat → A → Prop) f k (l : list A) :
  (∀ i x, l !! i = Some x → Q i x) →
  (∀ x, Q k x → Q k (f x)) →
  ∀ i x, alter f k l !! i = Some x → Q i x.
Proof.
  intros Hl Hf i x. rewrite list_lookup_alter. case_decide; [|by eauto].
  subst. intros (y & Hy & ->)%fmap_Some. eauto.
Qed.

Lemma foldl_preserved {A B} (P : A → Prop) (f : A → B → A) (l : list B) (a : A) :
  (∀ a b, b ∈ l → P a → P (f a b)) → P a → P (foldl f a l).
Proof.
  revert a. induction l as [|b l IH]; intros a Hf Ha; simpl; [done|].
  apply IH; [|apply Hf; [left|done]]. intros a' b' Hb'. apply Hf. by right.
Qed.

(** The entries of [data] before the second loop. *)
Definition freshData (d : ActionsDAG.Data) : Prop :=
  ActionsDAG.num_created_children d = 0 ∧ ActionsDAG.num_expected_children d = 0
  ∧ ActionsDAG.parents d = [] ∧ ActionsDAG.renamed_child d = None.

(** The first loop numbers the nodes in the order of the list. *)
Lemma numberNodes_from (l1 l2 : list Node.t) data (reverse_index : gmap NodePtr nat) :
  NoDup (Node.addr <$> (l1 ++ l2)) →
  Forall freshData data →
  size reverse_index = length l1 →
  (∀ p, is_Some (reverse_index !! p) → p ∈ Node.addr <$> l1) →
  (∀ i m, l1 !! i = Some m → reverse_index !! Node.addr m = Some i) →
  let '(data', reverse_index') := foldl ActionsDAG.numberNode (data, reverse_index) l2 in
  length data' = length data
  ∧ Forall freshData data'
  ∧ ∀ i m, (l1 ++ l2) !! i = Some m → reverse_index' !! Node.addr m = Some i.
Proof.
  revert l1 data reverse_index.
  induction l2 as [|m l2 IH]; intros l1 data rev Hnodup Hfresh Hsize Hkeys Hids; simpl.
  - rewrite app_nil_r. done.
  - assert (rev !! Node.addr m = None) as Hnew.
    { apply eq_None_not_Some. intros Hin%Hkeys.
      rewrite fmap_app in Hnodup. apply NoDup_app in Hnodup as (_ & Hdisj & _).
      apply (Hdisj _ Hin). rewrite fmap_cons. left. }
    specialize (IH (l1 ++ [m]) (alter (ActionsDAG.set_node (Node.addr m)) (size rev) data)
                   (<[Node.addr m := size rev]> rev)).
    rewrite <- app_assoc in IH. simpl in IH.
    destruct (foldl _ _ l2) as [data' rev'].
    destruct IH as (Hlen & Hfresh' & Hids'); try done.
    + apply Forall_alter_preserved; [done|]. by intros d (? & ? & ? & ?).
    + rewrite map_size_insert_None by done. rewrite length_app. simpl. lia.
    + intros p. rewrite lookup_insert. case_decide as Hp.
      * intros _. subst p. rewrite fmap_app. apply elem_of_app. right. left.
      * intros Hin%Hkeys. rewrite fmap_app. apply elem_of_app. by left.
    + intros i m' [Hi | [Hi Hm']]%lookup_app_Some.
      * rewrite lookup_insert_ne; [by apply Hids|].
        intros Heq. assert (is_Some (rev !! Node.addr m')) as Hsome by (rewrite (Hids _ _ Hi); eauto).
        rewrite <- Heq, Hnew in Hsome. by destruct Hsome.
      * apply list_lookup_singleton_Some in Hm' as [Hi' <-].
        rewrite lookup_insert_eq. f_equal. lia.
    + rewrite length_alter in Hlen. done.
Qed.

Lemma numberNodes_spec (ns : list Node.t) :
  NoDup (Node.addr <$> ns) →
  let '(data, reverse_index) := ActionsDAG.numberNodes ns in
  length data = length ns
  ∧ Forall freshData data
  ∧ ∀ i m, ns !! i = Some m → ActionsDAG.idOf reverse_index (Node.addr m) = i.
Proof.
  intros Hnodup. unfold ActionsDAG.numberNodes.
  pose proof (numberNodes_from [] ns (repeat ActionsDAG.initData (length ns)) ∅) as Hfrom.
  destruct (foldl _ _ ns) as [data rev].
  destruct Hfrom as (Hlen & Hfresh & Hids); try done.
  - induction (length ns) as [|k IHk]; simpl; by constructor.
  - intros p [x Hx]. by rewrite lookup_empty in Hx.
  - rewrite Hlen, repeat_length. split; [done|]. split; [done|].
    intros i m Hm. unfold ActionsDAG.idOf. by rewrite (Hids i m Hm).
Qed.

Definition parentsValid (ns : list Node.t) (d : ActionsDAG.Data) : Prop :=
  ∀ p, p ∈ ActionsDAG.parents d → p ∈ addresses ns.

(** What the second loop keeps: no child is created yet, the parents
    recorded are nodes of the list, and a node that expects children
    renames a node or has children. *)
Definition Counted (ns : list Node.t) (reverse_index : gmap NodePtr nat)
    (data : list ActionsDAG.Data) : Prop :=
  Forall (λ d, ActionsDAG.num_created_children d = 0 ∧ parentsValid ns d) data
  ∧ ∀ i d, data !! i = Some d → 0 < ActionsDAG.num_expected_children d →
      ActionsDAG.renamed_child d ≠ None
      ∨ ∃ m, m ∈ ns ∧ ActionsDAG.idOf reverse_index (Node.addr m) = i
             ∧ Node.children m ≠ [].

Lemma Counted_expect ns reverse_index data m b :
  m ∈ ns → Counted ns reverse_index data →
  Counted ns reverse_index
    (alter (λ d, ActionsDAG.set_used_in_result b
                   (ActionsDAG.add_expected_children (length (Node.children m)) d))
           (ActionsDAG.idOf reverse_index (Node.addr m)) data).
Proof.
  intros Hm [Hall Hexp]. split.
  - apply Forall_alter_preserved; [done|]. by intros d [? ?].
  - apply (lookup_alter_preserved
             (λ i d, 0 < ActionsDAG.num_expected_children d →
                     ActionsDAG.renamed_child d ≠ None
                     ∨ ∃ m, m ∈ ns ∧ ActionsDAG.idOf reverse_index (Node.addr m) = i
                            ∧ Node.children m ≠ [])); [done|].
    simpl. intros d Hd Hpos.
    destruct (decide (0 < ActionsDAG.num_expected_children d)) as [Hold|Hold]; [by apply Hd|].
    right. exists m. split; [done|]. split; [done|].
    intros Hnil. rewrite Hnil in Hpos. simpl in Hpos. lia.
Qed.

Lemma Counted_push ns reverse_index data m child :
  m ∈ ns → Counted ns reverse_index data →
  Counted ns reverse_index
    (alter (ActionsDAG.push_parent (Node.addr m)) (ActionsDAG.idOf reverse_index child) data).
Proof.
  intros Hm [Hall Hexp]. split.
  - apply Forall_alter_preserved; [done|]. intros d [Hcreated Hparents]. split; [done|].
    intros p. simpl. intros [Hp | ->%list_elem_of_singleton]%elem_of_app; [by apply Hparents|].
    apply elem_of_addresses. by apply deref_is_Some.
  - apply (lookup_alter_preserved
             (λ i d, 0 < ActionsDAG.num_expected_children d →
                     ActionsDAG.renamed_child d ≠ None
                     ∨ ∃ m, m ∈ ns ∧ ActionsDAG.idOf reverse_index (Node.addr m) = i
                            ∧ Node.children m ≠ [])); [done|].
    simpl. intros d Hd Hpos. by apply Hd.
Qed.

Lemma Counted_rename ns reverse_index data m parent :
  Counted ns reverse_index data →
  Counted ns reverse_index
    (alter (λ d, ActionsDAG.add_expected_children 1
                   (ActionsDAG.set_renamed_child (Node.addr m) d))
           (ActionsDAG.idOf reverse_index parent) data).
Proof.
  intros [Hall Hexp]. split.
  - apply Forall_alter_preserved; [done|]. by intros d [? ?].
  - apply (lookup_alter_preserved
             (λ i d, 0 < ActionsDAG.num_expected_children d →
                     ActionsDAG.renamed_child d ≠ None
                     ∨ ∃ m, m ∈ ns ∧ ActionsDAG.idOf reverse_index (Node.addr m) = i
                            ∧ Node.children m ≠ [])); [done|].
    simpl. intros d Hd Hpos. by left.
Qed.

Lemma countNode_Counted this ns reverse_index data m :
  m ∈ ns → Counted ns reverse_index data →
  Counted ns reverse_index (ActionsDAG.countNode this reverse_index data m).
Proof.
  intros Hm Hdata. unfold ActionsDAG.countNode.
  destruct (Node.renaming_parent m) as [parent|]; [apply Counted_rename|];
    (apply (foldl_preserved (Counted ns reverse_index));
     [intros d child _ Hd; by apply Counted_push | by apply Counted_expect]).
Qed.

Lemma countNode_length this reverse_index data m :
  length (ActionsDAG.countNode this reverse_index data m) = length data.
Proof.
  unfold ActionsDAG.countNode.
  destruct (Node.renaming_parent m) as [parent|]; rewrite ?length_alter;
    (apply (foldl_preserved (λ d, length d = length data));
     [intros d child _ Hd; by rewrite length_alter | by rewrite length_alter]).
Qed.

Lemma countChildren_spec this reverse_index data :
  Counted (ActionsDAG.nodes this) reverse_index data →
  length (ActionsDAG.countChildren this reverse_index data) = length data
  ∧ Counted (ActionsDAG.nodes this) reverse_index
            (ActionsDAG.countChildren this reverse_index data).
Proof.
  intros Hdata. unfold ActionsDAG.countChildren. split.
  - apply (foldl_preserved (λ d, length d = length data)); [|done].
    intros d m _ Hd. by rewrite countNode_length.
  - apply (foldl_preserved (Counted (ActionsDAG.nodes this) reverse_index)); [|done].
    intros d m Hm Hd. by apply countNode_Counted.
Qed.

(** Two disjoint selections of the positions of a list. *)
Lemma filter_disjoint_length {A B} (R : A → Prop) `{!∀ x, Decision (R x)}
    (P : B → Prop) `{!∀ x, Decision (P x)} (l1 : list A) (l2 : list B) :
  Forall2 (λ a b, R a → ¬ P b) l1 l2 →
  length (filter R l1) + length (filter P l2) ≤ length l1.
Proof.
  induction 1 as [|a b l1 l2 Hab Hl IH]; [done|].
  rewrite !filter_cons. destruct (decide (R a)), (decide (P b)); simpl in *; tauto || lia.
Qed.

(** ** The state of the main loop *)

Definition Inv (ns : list Node.t) (st : ActionsDAG.Linearizer) : Prop :=
  length (ActionsDAG.data st) = length ns
  ∧ Forall (parentsValid ns) (ActionsDAG.data st)
  ∧ (∀ p, p ∈ ActionsDAG.ready_nodes st → p ∈ addresses ns)
  ∧ (∀ p, p ∈ ActionsDAG.ready_array_joins st → p ∈ addresses ns).

(** The nodes in the queues and the nodes that wait for children. *)
Definition potential (st : ActionsDAG.Linearizer) : nat :=
  length (ActionsDAG.ready_nodes st) + length (ActionsDAG.ready_array_joins st)
  + pendingCount (ActionsDAG.data st).

Definition Numbered (ns : list Node.t) (reverse_index : gmap NodePtr nat) : Prop :=
  ∀ i m, ns !! i = Some m → ActionsDAG.idOf reverse_index (Node.addr m) = i.

Lemma Numbered_lt ns reverse_index p :
  Numbered ns reverse_index → p ∈ addresses ns →
  ActionsDAG.idOf reverse_index p < length ns.
Proof.
  intros Hnum [n [Hn <-]%deref_Some]%elem_of_addresses.
  apply list_elem_of_lookup in Hn as [i Hi]. rewrite (Hnum i n Hi).
  by eapply lookup_lt_Some.
Qed.

Lemma startLinearizer_spec (this : ActionsDAG.t) reverse_index st :
  NoDup (Node.addr <$> ActionsDAG.nodes this) →
  ActionsDAG.startLinearizer this = (reverse_index, st) →
  Numbered (ActionsDAG.nodes this) reverse_index
  ∧ Inv (ActionsDAG.nodes this) st
  ∧ potential st ≤ length (ActionsDAG.nodes this).
Proof.
  intros Hnodup. unfold ActionsDAG.startLinearizer.
  pose proof (numberNodes_spec (ActionsDAG.nodes this) Hnodup) as Hnumber.
  destruct (ActionsDAG.numberNodes (ActionsDAG.nodes this)) as [data0 rev].
  destruct Hnumber as (Hlen0 & Hfresh & Hnum).
  intros [= <- <-].
  assert (Counted (ActionsDAG.nodes this) rev data0) as Hcounted0.
  { split.
    - eapply Forall_impl; [exact Hfresh|]. intros d (Hc & _ & Hp & _). split; [done|].
      intros p. rewrite Hp. by intros ?%elem_of_nil.
    - intros i d Hd Hpos. eapply Forall_lookup_1 in Hfresh as (_ & He & _); [|exact Hd]. lia. }
  destruct (countChildren_spec this rev data0 Hcounted0) as (Hlen1 & Hall & Hexp).
  split; [done|]. split.
  - split; [exact (eq_trans Hlen1 Hlen0)|]. split; [|split].
    + simpl. eapply Forall_impl; [exact Hall|]. by intros d [_ ?].
    + simpl. intros p (n & -> & [_ Hn]%list_elem_of_filter)%list_elem_of_fmap.
      apply elem_of_addresses. by apply deref_is_Some.
    + simpl. by intros p ?%elem_of_nil.
  - unfold potential, pendingCount. simpl. rewrite length_fmap, Nat.add_0_r.
    apply filter_disjoint_length.
    apply Forall2_same_length_lookup_2; [congruence|].
    intros i m d Hm Hd [Hleaf Hrenamed] Hpending.
    rewrite (Hnum i m Hm), (list_lookup_total_correct _ _ _ Hd) in Hrenamed.
    eapply Forall_lookup_1 in Hall as [Hcreated _]; [|exact Hd].
    unfold pending in Hpending. rewrite Hcreated in Hpending.
    destruct (Hexp i d Hd Hpending) as [Hr | (m' & Hm' & Hid & Hchildren)]; [done|].
    apply list_elem_of_lookup in Hm' as [j Hj]. rewrite (Hnum j m' Hj) in Hid. subst j.
    congruence.
Qed.

(** A loop whose steps all succeed succeeds. *)
Lemma foldM_Ok {A B} (I : B → Prop) (f : B → A → Result B) xs acc :
  (∀ b a, a ∈ xs → I b → ∃ b', f b a = Ok b' ∧ I b') →
  I acc → ∃ acc', foldM f acc xs = Ok acc' ∧ I acc'.
Proof.
  revert acc. induction xs as [|x xs IH]; intros acc Hf Hacc; simpl; [by eauto|].
  destruct (Hf acc x) as (b & -> & Hb); [left|done|]. simpl.
  apply IH; [|done]. intros b' a Ha. apply Hf. by right.
Qed.

(** A loop whose steps succeed or throw succeeds or throws. *)
Lemma foldM_total {A B} (I : B → Prop) (f : B → A → Result B) xs acc :
  (∀ b a, I b → (∃ b', f b a = Ok b' ∧ I b') ∨ (∃ e, f b a = Throw e)) →
  I acc →
  (∃ acc', foldM f acc xs = Ok acc' ∧ I acc') ∨ (∃ e, foldM f acc xs = Throw e).
Proof.
  intros Hf. revert acc. induction xs as [|x xs IH]; intros acc Hacc; simpl; [by eauto|].
  destruct (Hf acc x Hacc) as [(b & -> & Hb) | [e ->]]; simpl; eauto.
Qed.

Section Loop.
Context (ns : list Node.t) (reverse_index : gmap NodePtr nat).
Hypothesis Hnumbered : Numbered ns reverse_index.
Hypothesis Hrenaming : ∀ n parent,
  n ∈ ns → Node.renaming_parent n = Some parent → parent ∈ addresses ns.

Lemma update_parent_total st parent :
  Inv ns st → parent ∈ addresses ns →
  ∃ st', ActionsDAG.update_parent ns reverse_index st parent = Ok st'
         ∧ Inv ns st' ∧ potential st' = potential st.
Proof.
  intros (Hlen & Hparents & Hrn & Hraj) Hparent. unfold ActionsDAG.update_parent.
  pose proof (Numbered_lt ns reverse_index parent Hnumbered Hparent) as Hid.
  rewrite <- Hlen in Hid.
  destruct (lookup_lt_is_Some_2 _ _ Hid) as [d Hd].
  rewrite list_lookup_total_alter_eq by done.
  rewrite (list_lookup_total_correct _ _ _ Hd).
  pose proof (pendingCount_alter ActionsDAG.incr_created_children _ _ d Hd) as Hcount.
  assert (Forall (parentsValid ns)
            (alter ActionsDAG.incr_created_children
                   (ActionsDAG.idOf reverse_index parent) (ActionsDAG.data st))) as Hparents'.
  { by apply Forall_alter_preserved. }
  apply elem_of_addresses in Hparent as Hderef. destruct Hderef as [pn Hpn].
  unfold pending in Hcount. simpl in Hcount.
  case_bool_decide as Hready; simpl in Hready.
  - rewrite Hpn. simpl.
    case_bool_decide; eexists; (split; [reflexivity|]); unfold Inv, potential; simpl;
      rewrite length_alter, length_app; simpl.
    + split; [|repeat case_decide; lia]. split; [done|]. split; [done|]. split; [done|].
      intros p [Hp | ->%list_elem_of_singleton]%elem_of_app; [by apply Hraj|done].
    + split; [|repeat case_decide; lia]. split; [done|]. split; [done|]. split; [|done].
      intros p [Hp | ->%list_elem_of_singleton]%elem_of_app; [by apply Hrn|done].
  - eexists. split; [reflexivity|]. unfold Inv, potential. simpl. rewrite length_alter.
    split; [done|]. repeat case_decide; lia.
Qed.

Lemma update_parents_total st parents :
  Inv ns st → (∀ p, p ∈ parents → p ∈ addresses ns) →
  ∃ st', foldM (ActionsDAG.update_parent ns reverse_index) st parents = Ok st'
         ∧ Inv ns st' ∧ potential st' = potential st.
Proof.
  intros Hst Hparents.
  apply (foldM_Ok (λ s, Inv ns s ∧ potential s = potential st)); [|done].
  intros s p Hp [Hs Hpot].
  destruct (update_parent_total s p Hs (Hparents p Hp)) as (s' & Hs' & Hinv & Hpot').
  exists s'. split; [done|]. split; [done|]. congruence.
Qed.

Lemma buildArguments_total data children :
  Forall (parentsValid ns) data →
  (∃ data' arguments,
     ActionsDAG.buildArguments ns reverse_index data children = Ok (data', arguments)
     ∧ length data' = length data ∧ Forall (parentsValid ns) data'
     ∧ pendingCount data' = pendingCount data)
  ∨ (∃ e, ActionsDAG.buildArguments ns reverse_index data children = Throw e).
Proof.
  intros Hdata. unfold ActionsDAG.buildArguments.
  match goal with
  | |- context [foldM ?f ?acc ?xs] =>
      destruct (foldM_total
                  (λ s, length s.1 = length data ∧ Forall (parentsValid ns) s.1
                        ∧ pendingCount s.1 = pendingCount data) f xs acc)
        as [([data' arguments] & -> & Hinv) | [e ->]]
  end; [| done | by left; eauto | by right; eauto].
  intros [d arguments] child (Hlen & Hparents & Hcount). simpl in *.
  case_bool_decide; [right; by eexists|]. left. eexists. split; [reflexivity|]. simpl.
  rewrite length_alter. split; [done|]. split; [by apply Forall_alter_preserved|].
  by rewrite pendingCount_alter_same.
Qed.

Lemma linearizeNode_total st ptr :
  Inv ns st → ptr ∈ addresses ns →
  (∃ st', ActionsDAG.linearizeNode ns reverse_index st ptr = Ok st'
          ∧ Inv ns st' ∧ potential st' = potential st)
  ∨ (∃ e, ActionsDAG.linearizeNode ns reverse_index st ptr = Throw e).
Proof.
  intros (Hlen & Hparents & Hrn & Hraj) Hptr. unfold ActionsDAG.linearizeNode.
  apply elem_of_addresses in Hptr as Hderef. destruct Hderef as [n Hn].
  rewrite Hn. simpl. apply deref_Some in Hn as [Hn _].
  destruct (ActionsDAG.free_positions st) as [|top rest_free];
    [set (free_position := ExpressionActions.num_columns (ActionsDAG.expressions st))
    |set (free_position := top)].
  all: set (id := ActionsDAG.idOf reverse_index ptr).
  all: set (data1 := alter (ActionsDAG.set_position (Z.of_nat free_position)) id
                           (ActionsDAG.data st)).
  all: assert (Forall (parentsValid ns) data1) as Hparents1
         by (by apply Forall_alter_preserved).
  all: destruct (buildArguments_total data1 (Node.children n) Hparents1)
         as [(data2 & arguments & -> & Hlen2 & Hparents2 & Hcount2) | [e ->]];
         [|right; by eexists].
  all: simpl.
  all: assert (id < length data2) as Hid
         by (rewrite Hlen2; unfold data1; rewrite length_alter, Hlen; by apply Numbered_lt).
  all: destruct (lookup_lt_is_Some_2 _ _ Hid) as [cur Hcur].
  all: rewrite (list_lookup_total_correct _ _ _ Hcur).
  all: match goal with
       | |- context [foldM (ActionsDAG.update_parent ns reverse_index) ?st1 ?ps] =>
           destruct (update_parents_total st1 ps) as (st2 & -> & Hinv2 & Hpot2)
       end;
       [unfold Inv; simpl; split; [|done]; rewrite Hlen2; unfold data1; by rewrite length_alter
       |by eapply Forall_lookup_1 in Hparents2; [|exact Hcur]
       |].
  all: simpl.
  all: assert (potential st2 = potential st) as Hpot
         by (rewrite Hpot2; unfold potential; simpl; rewrite Hcount2; unfold data1;
             by rewrite pendingCount_alter_same).
  all: destruct (Node.renaming_parent n) as [parent|] eqn:Hparent; [|left; by exists st2].
  all: destruct (update_parent_total st2 parent Hinv2 (Hrenaming n parent Hn Hparent))
         as (st3 & -> & Hinv3 & Hpot3).
  all: left; exists st3; split; [done|]; split; [done|]; congruence.
Qed.

Lemma linearize_total fuel st :
  Inv ns st → potential st ≤ fuel →
  (∃ st', ActionsDAG.linearize fuel ns reverse_index st = Ok st')
  ∨ (∃ e, ActionsDAG.linearize fuel ns reverse_index st = Throw e).
Proof.
  revert st. induction fuel as [|fuel IH];
    intros [data rn raj fp e] (Hlen & Hparents & Hrn & Hraj); unfold potential; simpl;
    intros Hpot.
  - destruct rn, raj; simpl in Hpot; try lia. left. by eexists.
  - destruct rn as [|ptr rest]; [destruct raj as [|ptr rest]|]; [left; by eexists|..].
    + destruct (linearizeNode_total (ActionsDAG.mkLinearizer data [] rest fp e) ptr)
        as [(st' & -> & Hinv & Hpot') | [e' ->]]; [| |simpl|right; by eexists].
      * unfold Inv. simpl. split; [done|]. split; [done|]. split; [done|].
        intros p Hp. apply Hraj. by right.
      * apply Hraj. left.
      * apply IH; [done|]. rewrite Hpot'. unfold potential. simpl in *. lia.
    + destruct (linearizeNode_total (ActionsDAG.mkLinearizer data rest raj fp e) ptr)
        as [(st' & -> & Hinv & Hpot') | [e' ->]]; [| |simpl|right; by eexists].
      * unfold Inv. simpl. split; [done|]. split; [done|]. split; [|done].
        intros p Hp. apply Hrn. by right.
      * apply Hrn. left.
      * apply IH; [done|]. rewrite Hpot'. unfold potential. simpl in *. lia.
Qed.

End Loop.

(** [buildExpressions] returns on every well-formed DAG: the main loop ends
    within one iteration per node, every pointer it follows is a node of
    the DAG, and the result is a program or one of the two exceptions of
    the function. *)
Theorem buildExpressions_returns (this : ActionsDAG.t) :
  WellFormed this →
  (∃ this' program, ActionsDAG.buildExpressions this = Ok (this', program))
  ∨ (∃ e, ActionsDAG.buildExpressions this = Throw e
          ∧ (code e = LOGICAL_ERROR
             ∨ (code e = TOO_MANY_TEMPORARY_COLUMNS
                ∧ ActionsDAG.max_temporary_columns this ≠ 0))).
Proof.
  intros (Hnodup & _ & Hrenaming).
  destruct (ActionsDAG.buildExpressions this) as [[this' program]|e|] eqn:Hbuild.
  - left. eauto.
  - right. exists e. split; [done|]. by apply buildExpressions_Throw.
  - exfalso. revert Hbuild. unfold ActionsDAG.buildExpressions.
    destruct (ActionsDAG.startLinearizer this) as [reverse_index st] eqn:Hstart.
    destruct (startLinearizer_spec this reverse_index st Hnodup Hstart)
      as (Hnumbered & Hinv & Hpotential).
    destruct (linearize_total (ActionsDAG.nodes this) reverse_index Hnumbered Hrenaming
                (length (ActionsDAG.nodes this)) st Hinv Hpotential)
      as [[st' ->] | [e ->]]; simpl; [|done].
    by repeat case_bool_decide.
Qed.

Lemma WellFormed_decide (this : ActionsDAG.t) :
  NoDup (Node.addr <$> ActionsDAG.nodes this) →
  ValidPointers this →
  list_to_set (omap Node.renaming_parent (ActionsDAG.nodes this))
    ⊆ addresses (ActionsDAG.nodes this) →
  WellFormed this.
Proof.
  intros Hnodup Hvalid Hrenaming. split; [done|]. split; [done|].
  intros node parent Hnode Hparent. apply Hrenaming.
  apply elem_of_list_to_set, list_elem_of_omap. eauto.
Qed.

Lemma buildExpressions_returns_witness :
  WellFormed Scenarios.unpruned_chain_dag
  ∧ ((∃ this' program,
        ActionsDAG.buildExpressions Scenarios.unpruned_chain_dag = Ok (this', program))
     ∨ (∃ e, ActionsDAG.buildExpressions Scenarios.unpruned_chain_dag = Throw e
             ∧ (code e = LOGICAL_ERROR
                ∨ (code e = TOO_MANY_TEMPORARY_COLUMNS
                   ∧ ActionsDAG.max_temporary_columns Scenarios.unpruned_chain_dag ≠ 0)))).
Proof.
  assert (WellFormed Scenarios.unpruned_chain_dag) as Hwf.
  { apply WellFormed_decide; [|apply ValidPointers_decide|];
      apply (bool_decide_unpack _); vm_compute; exact I. }
  split; [exact Hwf|]. exact (buildExpressions_returns Scenarios.unpruned_chain_dag Hwf).
Defined.

(** ** What the program of [buildExpressions] holds *)

(** An invariant of the main loop that does not depend on the queues holds
    when the loop is over. *)
Lemma linearize_invariant (I : ActionsDAG.Linearizer → Prop) ns reverse_index :
  (∀ data rn raj rn' raj' fp e,
     I (ActionsDAG.mkLinearizer data rn raj fp e) →
     I (ActionsDAG.mkLinearizer data rn' raj' fp e)) →
  (∀ st ptr st', I st → ActionsDAG.linearizeNode ns reverse_index st ptr = Ok st' → I st') →
  ∀ fuel st st', I st → ActionsDAG.linearize fuel ns reverse_index st = Ok st' → I st'.
Proof.
  intros Hqueues Hstep. induction fuel as [|fuel IH]; intros [data rn raj fp e] st' Hst; simpl.
  - destruct rn, raj; try discriminate. by intros [= <-].
  - destruct rn as [|ptr rest], raj as [|ptr' rest']; [by intros [= <-]|..];
      (intros (st1 & Hst1 & H)%bind_Ok; eapply IH; [|exact H];
       eapply Hstep; [|exact Hst1]; by eapply Hqueues).
Qed.

(** The slots and the nodes of the program under construction: every
    position recorded is a slot of the program, every action writes a slot of
    its own and holds a node of the DAG that is no input, and every required
    column is an input of the DAG. *)
Definition Planned (ns : list Node.t) (st : ActionsDAG.Linearizer) : Prop :=
  let e := ActionsDAG.expressions st in
  ActionsDAG.free_positions st = []
  ∧ Forall (λ d, (ActionsDAG.position d < Z.of_nat (ExpressionActions.num_columns e))%Z)
           (ActionsDAG.data st)
  ∧ Forall (λ a, ExpressionActions.result_position a < ExpressionActions.num_columns e
                 ∧ Forall (λ arg, ExpressionActions.pos arg < ExpressionActions.num_columns e)
                          (ExpressionActions.arguments a)
                 ∧ ExpressionActions.node a ∈ ns
                 ∧ Node.type (ExpressionActions.node a) ≠ INPUT)
           (ExpressionActions.actions e)
  ∧ NoDup (ExpressionActions.result_position <$> ExpressionActions.actions e)
  ∧ Forall (λ c, ∃ n, n ∈ ns ∧ Node.type n = INPUT
                      ∧ c = {| nt_name := Node.result_name n; nt_type := Node.result_type n |})
           (ExpressionActions.required_columns e).

Lemma Forall_lookup_total {A} `{!Inhabited A} (P : A → Prop) (l : list A) (i : nat) :
  Forall P l → P inhabitant → P (l !!! i).
Proof.
  intros Hl Hdefault. rewrite list_lookup_total_alt.
  destruct (l !! i) as [x|] eqn:Hx; simpl; [|done]. by eapply Forall_lookup_1.
Qed.

(** The arguments built for a node are positions recorded before. *)
Lemma buildArguments_positions ns reverse_index data children data' arguments (N : nat) :
  Forall (λ d, (ActionsDAG.position d < Z.of_nat N)%Z) data →
  ActionsDAG.buildArguments ns reverse_index data children = Ok (data', arguments) →
  Forall (λ d, (ActionsDAG.position d < Z.of_nat N)%Z) data'
  ∧ Forall (λ arg, ExpressionActions.pos arg < N) arguments.
Proof.
  intros Hdata. unfold ActionsDAG.buildArguments.
  apply (foldM_invariant
           (λ s, Forall (λ d, (ActionsDAG.position d < Z.of_nat N)%Z) s.1
                 ∧ Forall (λ arg, ExpressionActions.pos arg < N) s.2)); [|by split].
  intros [d args] child [d' args'] [Hd Hargs]. simpl in *.
  case_bool_decide as Hpos; [discriminate|]. intros [= <- <-]. simpl.
  assert (Forall (λ d, (ActionsDAG.position d < Z.of_nat N)%Z)
            (alter ActionsDAG.incr_created_parents (ActionsDAG.idOf reverse_index child) d))
    as Hd' by (by apply Forall_alter_preserved).
  split; [done|]. apply Forall_app. split; [done|]. constructor; [|constructor]. simpl.
  pose proof (Forall_lookup_total _ _ (ActionsDAG.idOf reverse_index child) Hd') as Hlt.
  simpl in Hlt. specialize (Hlt ltac:(lia)).
  destruct (decide (ActionsDAG.idOf reverse_index child < length d)) as [Hin|Hout].
  - rewrite list_lookup_total_alter_eq in * by done. simpl in *. lia.
  - rewrite list_lookup_total_alt, list_lookup_alter_eq in *.
    rewrite (lookup_ge_None_2 d) in * by lia. simpl in *. lia.
Qed.

Lemma update_parent_data_positions ns reverse_index st parent st' (N : nat) :
  ActionsDAG.update_parent ns reverse_index st parent = Ok st' →
  Forall (λ d, (ActionsDAG.position d < Z.of_nat N)%Z) (ActionsDAG.data st) →
  Forall (λ d, (ActionsDAG.position d < Z.of_nat N)%Z) (ActionsDAG.data st').
Proof.
  intros Hup Hdata.
  assert (ActionsDAG.data st'
          = alter ActionsDAG.incr_created_children (ActionsDAG.idOf reverse_index parent)
                  (ActionsDAG.data st)) as ->.
  { revert Hup. unfold ActionsDAG.update_parent. case_bool_decide; [|by intros [= <-]].
    intros (n & _ & Hn)%bind_Ok. by case_bool_decide; injection Hn as <-. }
  by apply Forall_alter_preserved.
Qed.

Lemma linearizeNode_Planned ns reverse_index st ptr st' :
  Planned ns st → ActionsDAG.linearizeNode ns reverse_index st ptr = Ok st' → Planned ns st'.
Proof.
  destruct st as [data rn raj fp e].
  intros (Hfree & Hdata & Hactions & Hdistinct & Hrequired). simpl in *. subst fp.
  unfold ActionsDAG.linearizeNode. simpl.
  intros (n & [Hn _]%defined_Ok%deref_Some & H)%bind_Ok.
  apply bind_Ok in H as ([data2 arguments] & Hargs & H).
  set (N := ExpressionActions.num_columns e) in *.
  apply (buildArguments_positions _ _ _ _ _ _ (S N)) in Hargs as [Hdata2 Harguments].
  2:{ apply Forall_alter_preserved.
      - eapply Forall_impl; [exact Hdata|]. intros d Hd. simpl in Hd. lia.
      - intros d _. simpl. lia. }
  apply bind_Ok in H as (st2 & Hst2 & H).
  assert (Planned ns st2) as Hplanned2.
  { pose proof Hst2 as [Hf2 He2]%update_parents_Ok. simpl in Hf2, He2.
    unfold Planned. rewrite Hf2, He2. simpl.
    split; [done|]. split.
    { revert Hst2.
      apply (foldM_invariant
               (λ s, Forall (λ d, (ActionsDAG.position d < Z.of_nat (S N))%Z)
                            (ActionsDAG.data s))); [|done].
      intros s p s' Hs Hs'. by eapply update_parent_data_positions. }
    assert (Forall (λ a, ExpressionActions.result_position a < S N
                         ∧ Forall (λ arg, ExpressionActions.pos arg < S N)
                                  (ExpressionActions.arguments a)
                         ∧ ExpressionActions.node a ∈ ns
                         ∧ Node.type (ExpressionActions.node a) ≠ INPUT)
                   (ExpressionActions.actions e)) as Hactions'.
    { eapply Forall_impl; [exact Hactions|]. intros a (Hr & Ha & Hnode & Htype).
      split; [lia|]. split; [|done].
      eapply Forall_impl; [exact Ha|]. intros arg Harg. simpl in Harg. lia. }
    case_bool_decide as Hinput.
    - split; [done|]. split; [done|].
      apply Forall_app. split; [done|]. constructor; [|constructor]. eauto.
    - split; [|split; [|done]].
      + apply Forall_app. split; [done|]. constructor; [|constructor]. simpl.
        split; [lia|]. done.
      + rewrite fmap_app. apply NoDup_app. split; [done|]. split.
        * intros p (a & Hp & Ha)%list_elem_of_fmap Hnew. simpl in Hnew.
          apply list_elem_of_singleton in Hnew.
          rewrite Forall_forall in Hactions. apply Hactions in Ha as [Hlt _].
          simpl in Hlt. lia.
        * simpl. apply NoDup_singleton. }
  destruct (Node.renaming_parent n) as [parent|]; [|by injection H as <-].
  destruct Hplanned2 as (Hf2 & Hd2 & Hrest).
  pose proof H as [Hf He]%update_parent_Ok.
  unfold Planned. rewrite Hf, He. split; [done|]. split; [|done].
  by eapply update_parent_data_positions.
Qed.

Lemma startLinearizer_Planned (this : ActionsDAG.t) reverse_index st :
  ActionsDAG.startLinearizer this = (reverse_index, st) → Planned (ActionsDAG.nodes this) st.
Proof.
  unfold ActionsDAG.startLinearizer.
  destruct (ActionsDAG.numberNodes (ActionsDAG.nodes this)) as [data0 rev] eqn:Hnumber.
  intros [= _ <-]. unfold Planned. simpl.
  split; [done|]. split; [|split; [constructor|split; [constructor|constructor]]].
  unfold ActionsDAG.countChildren.
  apply (foldl_preserved (Forall (λ d, (ActionsDAG.position d < 0)%Z))).
  - intros d m _ Hd. unfold ActionsDAG.countNode.
    destruct (Node.renaming_parent m);
      [apply Forall_alter_preserved; [|done]|];
      (apply (foldl_preserved (Forall (λ d, (ActionsDAG.position d < 0)%Z)));
       [intros; by apply Forall_alter_preserved | by apply Forall_alter_preserved]).
  - revert Hnumber. unfold ActionsDAG.numberNodes.
    assert (Forall (λ d, (ActionsDAG.position d < 0)%Z)
              (repeat ActionsDAG.initData (length (ActionsDAG.nodes this)))) as Hinit.
    { induction (length (ActionsDAG.nodes this)); simpl; constructor; [simpl; lia|done]. }
    revert Hinit. generalize (repeat ActionsDAG.initData (length (ActionsDAG.nodes this))).
    generalize (∅ : gmap NodePtr nat). revert data0 rev.
    induction (ActionsDAG.nodes this) as [|m ms IH]; intros data0 rev rev0 d0 Hd0; simpl.
    + by intros [= <- _].
    + apply IH. by apply Forall_alter_preserved.
Qed.

(** What the loop of [buildExpressions] hands to the code after it. *)
Lemma buildExpressions_Ok (this this' : ActionsDAG.t) program :
  ActionsDAG.buildExpressions this = Ok (this', program) →
  ∃ reverse_index st st',
    ActionsDAG.startLinearizer this = (reverse_index, st)
    ∧ ActionsDAG.linearize (length (ActionsDAG.nodes this)) (ActionsDAG.nodes this)
        reverse_index st = Ok st'
    ∧ this' = ActionsDAG.with_nodes_index this
                (ExpressionActions.nodes (ActionsDAG.expressions st')) ∅
    ∧ program
      = ExpressionActions.mk (ActionsDAG.nodes this)
          (ExpressionActions.actions (ActionsDAG.expressions st'))
          (ExpressionActions.num_columns (ActionsDAG.expressions st'))
          (ExpressionActions.required_columns (ActionsDAG.expressions st'))
          (ExpressionActions.sample_block (ActionsDAG.expressions st'))
          (ExpressionActions.project_input (ActionsDAG.expressions st'))
          (ActionsDAG.max_temporary_non_const_columns this)
          (ExpressionActions.settings (ActionsDAG.expressions st')).
Proof.
  intros Hbuild.
  destruct (ActionsDAG.startLinearizer this) as [reverse_index st] eqn:Hstart.
  destruct (ActionsDAG.linearize (length (ActionsDAG.nodes this)) (ActionsDAG.nodes this)
              reverse_index st) as [st'|e|] eqn:Hloop.
  - rewrite (buildExpressions_after_loop _ _ _ _ Hstart Hloop) in Hbuild.
    destruct (_ && _); [discriminate|]. injection Hbuild as <- <-. eauto 10.
  - revert Hbuild. unfold ActionsDAG.buildExpressions. by rewrite Hstart, Hloop.
  - revert Hbuild. unfold ActionsDAG.buildExpressions. by rewrite Hstart, Hloop.
Qed.

(** Every slot the program names is one of its [num_columns] slots, no two
    actions write the same slot, every action holds a node of the DAG that
    is not an input, and every required column is an input node of the
    DAG. *)
Theorem buildExpressions_program_in_range (this this' : ActionsDAG.t)
    (program : ExpressionActions.t) :
  ActionsDAG.buildExpressions this = Ok (this', program) →
  Forall (λ a, ExpressionActions.result_position a < ExpressionActions.num_columns program
               ∧ Forall (λ arg, ExpressionActions.pos arg < ExpressionActions.num_columns program)
                        (ExpressionActions.arguments a)
               ∧ ExpressionActions.node a ∈ ExpressionActions.nodes program
               ∧ Node.type (ExpressionActions.node a) ≠ INPUT)
         (ExpressionActions.actions program)
  ∧ NoDup (ExpressionActions.result_position <$> ExpressionActions.actions program)
  ∧ Forall (λ c, ∃ n, n ∈ ExpressionActions.nodes program ∧ Node.type n = INPUT
                      ∧ c = {| nt_name := Node.result_name n; nt_type := Node.result_type n |})
           (ExpressionActions.required_columns program)
  ∧ length (ExpressionActions.required_columns program)
    ≤ ExpressionActions.num_columns program.
Proof.
  intros (reverse_index & st & st' & Hstart & Hloop & _ & ->)%buildExpressions_Ok. simpl.
  pose proof (startLinearizer_noSlotFreed _ _ _ Hstart) as Hslots.
  apply (linearize_noSlotFreed _ _ _ _ _ Hslots) in Hloop as Hslots'.
  destruct Hslots' as (_ & _ & Hcount).
  apply startLinearizer_Planned in Hstart.
  eapply (linearize_invariant (Planned (ActionsDAG.nodes this))) in Hloop;
    [| |apply linearizeNode_Planned|exact Hstart].
  2:{ intros data rn raj rn' raj' fp e. by unfold Planned. }
  destruct Hloop as (_ & _ & Hactions & Hdistinct & Hrequired).
  split; [done|]. split; [done|]. split; [done|]. lia.
Qed.

(** [buildExpressions] moves the nodes out of the DAG: the DAG it leaves has
    no node and no name, its limits are kept, the program owns the nodes,
    and building again gives a program without columns and actions. *)
Theorem buildExpressions_consumes_dag (this this' : ActionsDAG.t)
    (program : ExpressionActions.t) :
  ActionsDAG.buildExpressions this = Ok (this', program) →
  ActionsDAG.nodes this' = [] ∧ ActionsDAG.index this' = ∅
  ∧ ActionsDAG.getNames this' = []
  ∧ ActionsDAG.max_temporary_columns this' = ActionsDAG.max_temporary_columns this
  ∧ ExpressionActions.nodes program = ActionsDAG.nodes this
  ∧ ExpressionActions.max_temporary_non_const_columns program
    = ActionsDAG.max_temporary_non_const_columns this
  ∧ ∃ program',
      ActionsDAG.buildExpressions this' = Ok (this', program')
      ∧ ExpressionActions.actions program' = []
      ∧ ExpressionActions.required_columns program' = []
      ∧ ExpressionActions.num_columns program' = 0.
Proof.
  intros (reverse_index & st & st' & Hstart & Hloop & -> & ->)%buildExpressions_Ok.
  pose proof (startLinearizer_noSlotFreed _ _ _ Hstart) as Hslots.
  apply (linearize_noSlotFreed _ _ _ _ _ Hslots) in Hloop as (_ & -> & _).
  do 6 (split; [reflexivity|]). eexists. split; [|split; [|split]].
  - unfold ActionsDAG.buildExpressions, ActionsDAG.startLinearizer. simpl.
    rewrite andb_false_r. reflexivity.
  - reflexivity.
  - reflexivity.
  - reflexivity.
Qed.

(** ** Pruning twice *)

(** [removeUnusedActions] is idempotent: pruning a pruned DAG for the same
    names changes nothing. *)
Theorem removeUnusedActions_idempotent (this this' : ActionsDAG.t)
    (required_names : list string) :
  WellFormed this →
  ActionsDAG.removeUnusedActions this required_names = Ok this' →
  ActionsDAG.removeUnusedActions this' required_names = Ok this'.
Proof.
  intros Hwf Hprune.
  pose proof (removeUnusedActions_WellFormed _ _ _ Hwf Hprune) as Hwf'.
  destruct Hwf as (Hnodup & Hvalid & Hparents).
  destruct Hwf' as (Hnodup' & Hvalid' & Hparents').
  pose proof (removeUnusedActions_cases this required_names Hvalid) as Hspec.
  rewrite Hprune in Hspec.
  destruct Hspec as (Hall & Hindex & _ & _ & visited & Hvisited & Hnodes).
  pose proof (removeUnusedActions_cases this' required_names Hvalid') as Hspec'.
  destruct (ActionsDAG.removeUnusedActions this' required_names) as [this''|e|] eqn:Hagain;
    [|exfalso..|done].
  2:{ destruct Hspec' as (_ & name & Hin & Hnone). rewrite Hindex in Hnone.
      rewrite bool_decide_eq_true_2 in Hnone by done.
      destruct (Hall name Hin) as [ptr Hptr]. congruence. }
  destruct Hspec' as (_ & Hindex' & Hmax & Hmax' & visited' & Hvisited' & Hnodes').
  assert (∀ ptr, Reachable this required_names ptr → Reachable this' required_names ptr)
    as Hreach.
  { induction 1 as [name ptr Hin Hname | ptr node child Hptr IH Hnode Hchild].
    - apply (reachable_required _ _ name); [done|].
      rewrite Hindex. by rewrite bool_decide_eq_true_2.
    - apply (reachable_child _ _ ptr (ActionsDAG.clearPrunedParent visited node));
        [done| |by rewrite children_clearPrunedParent].
      apply deref_Some in Hnode as [Hnode <-].
      rewrite <- (addr_clearPrunedParent visited node).
      apply deref_NoDup; [done|]. rewrite Hnodes.
      apply list_elem_of_fmap. exists node. split; [done|].
      apply list_elem_of_filter. split; [|done]. by apply Hvisited. }
  assert (ActionsDAG.nodes this'' = ActionsDAG.nodes this') as Hsame.
  { rewrite Hnodes'.
    assert (∀ n, n ∈ ActionsDAG.nodes this' →
                 Node.addr n ∈ visited' ∧ ActionsDAG.clearPrunedParent visited' n = n) as Hkept.
    { intros n'. rewrite Hnodes at 1.
      intros (n & -> & [Hn Hin]%list_elem_of_filter)%list_elem_of_fmap. split.
      - rewrite addr_clearPrunedParent. by apply Hvisited', Hreach, Hvisited.
      - unfold ActionsDAG.clearPrunedParent at 1.
        destruct (Node.renaming_parent (ActionsDAG.clearPrunedParent visited n))
          as [p|] eqn:Hp; [|done].
        apply renaming_parent_clearPrunedParent in Hp as [_ Hp].
        rewrite bool_decide_eq_true_2; [done|]. by apply Hvisited', Hreach, Hvisited. }
    revert Hkept. generalize (ActionsDAG.nodes this'). intros ns Hkept.
    induction ns as [|n ns IH]; [done|].
    destruct (Hkept n) as [Hn Hclear]; [left|].
    rewrite filter_cons_True by done. rewrite fmap_cons, Hclear. f_equal.
    apply IH. intros m Hm. apply Hkept. by right. }
  assert (ActionsDAG.index this'' = ActionsDAG.index this') as Hsame_index.
  { apply map_eq. intros name. rewrite Hindex', Hindex. by case_bool_decide. }
  f_equal. destruct this'' as [ns'' idx'' m1'' m2''], this' as [ns' idx' m1' m2'].
  simpl in *. congruence.
Qed.

(** ** DAGs made by the builders *)

(** One call of a builder that succeeds. *)
Inductive Builds (this : ActionsDAG.t) : ActionsDAG.t → Node.t → Prop :=
  | builds_input name type this' res :
      ActionsDAG.addInput this name type = Ok (this', res) → Builds this this' res
  | builds_input_column column this' res :
      ActionsDAG.addInputColumn this column = Ok (this', res) → Builds this this' res
  | builds_column column this' res :
      ActionsDAG.addColumn this column = Ok (this', res) → Builds this this' res
  | builds_alias name alias can_replace this' res :
      ActionsDAG.addAlias this name alias can_replace = Ok (this', res) → Builds this this' res
  | builds_array_join source_name result_name unique_column_name this' res :
      ActionsDAG.addArrayJoin this source_name result_name unique_column_name = Ok (this', res) →
      Builds this this' res
  | builds_function flag function argument_names result_name context this' res :
      ActionsDAG.addFunction flag this function argument_names result_name context
      = Ok (this', res) →
      Builds this this' res.

(** The DAGs the builders make, starting from the empty one. *)
Inductive Built : ActionsDAG.t → Prop :=
  | built_init : Built ActionsDAG.init
  | built_step this this' res : Built this → Builds this this' res → Built this'.

(** Every builder ends in [addNode], with a node that has no renaming parent
    and whose children are nodes of the DAG. *)
Lemma Builds_addNode (this this' : ActionsDAG.t) (res : Node.t) :
  Builds this this' res →
  ∃ this0 node can_replace,
    ActionsDAG.addNode this0 node can_replace = Ok (this', res)
    ∧ ActionsDAG.nodes this0 = ActionsDAG.nodes this
    ∧ ActionsDAG.index this0 = ActionsDAG.index this
    ∧ Node.renaming_parent node = None
    ∧ (∀ child, child ∈ Node.children node → child ∈ addresses (ActionsDAG.nodes this)).
Proof.
  destruct 1 as [name type this' res H | column this' res H | column this' res H
                | name alias can_replace this' res H
                | source_name result_name unique_column_name this' res H
                | flag function argument_names result_name context this' res H].
  - eexists this, _, _. split; [exact H|]. do 3 (split; [reflexivity|]).
    by intros child ?%elem_of_nil.
  - eexists this, _, _. split; [exact H|]. do 3 (split; [reflexivity|]).
    by intros child ?%elem_of_nil.
  - revert H. unfold ActionsDAG.addColumn. case_bool_decide as Hnull; [discriminate|]. intros H.
    eexists this, _, _. split; [exact H|]. do 3 (split; [reflexivity|]).
    by intros child ?%elem_of_nil.
  - revert H. unfold ActionsDAG.addAlias.
    intros (child & Hchild%getNode_valid & H)%bind_Ok.
    eexists this, _, _. split; [exact H|]. do 3 (split; [reflexivity|]).
    by intros c ->%list_elem_of_singleton.
  - revert H. unfold ActionsDAG.addArrayJoin.
    intros (child & Hchild%getNode_valid & H)%bind_Ok.
    destruct (Node.result_type child ≫= IDataType.getNestedType); [|discriminate].
    eexists this, _, _. split; [exact H|]. do 3 (split; [reflexivity|]).
    by intros c ->%list_elem_of_singleton.
  - revert H. unfold ActionsDAG.addFunction. fold (withSettings this context).
    intros ([[[children allow] all_const] arguments] & Hgather & H)%bind_Ok.
    apply bind_Ok in H as (function_base & _ & H).
    apply bind_Ok in H as (column & _ & H).
    pose proof (gatherArguments_valid _ _ _ _ _ _ Hgather) as Hchildren.
    destruct column as [col|];
      [|destruct (IFunctionBase.isSuitableForConstantFolding function_base);
        [destruct (IFunctionBase.getResultIfAlwaysReturnsConstantAndHasArguments _ _)|]];
      (eexists (withSettings this context), _, _; split; [exact H|];
       do 3 (split; [reflexivity|]); exact Hchildren).
Qed.

(** The names of a DAG: every name of the index is the name of the node it
    points to, which no node renames; and every node that no node renames
    is the node the index gives for its name. *)
Definition Named (this : ActionsDAG.t) : Prop :=
  (∀ name ptr, ActionsDAG.index this !! name = Some ptr →
     ∃ n, n ∈ ActionsDAG.nodes this ∧ Node.addr n = ptr
          ∧ Node.result_name n = name ∧ Node.renaming_parent n = None)
  ∧ (∀ n, n ∈ ActionsDAG.nodes this → Node.renaming_parent n = None →
          ActionsDAG.index this !! Node.result_name n = Some (Node.addr n)).

Lemma NoDup_addr_inj (ns : list Node.t) (n m : Node.t) :
  NoDup (Node.addr <$> ns) → n ∈ ns → m ∈ ns → Node.addr n = Node.addr m → n = m.
Proof.
  intros Hnodup Hn Hm Haddr.
  pose proof (deref_NoDup ns n Hnodup Hn) as Hn'.
  pose proof (deref_NoDup ns m Hnodup Hm) as Hm'.
  rewrite Haddr in Hn'. congruence.
Qed.

(** The DAG after [addNode], when the index points to nodes of the list:
    the node is appended at a new address, and the node the index held for
    the name gets it as renaming parent. *)
Lemma addNode_Ok (this this' : ActionsDAG.t) (node res : Node.t) (can_replace : bool) :
  (∀ name ptr, ActionsDAG.index this !! name = Some ptr →
               ptr ∈ addresses (ActionsDAG.nodes this)) →
  ActionsDAG.addNode this node can_replace = Ok (this', res) →
  res = Node.set_addr node (ActionsDAG.fresh_addr (ActionsDAG.nodes this))
  ∧ (∀ n, n ∈ ActionsDAG.nodes this → Node.addr n ≠ Node.addr res)
  ∧ ActionsDAG.index this'
    = <[Node.result_name node := Node.addr res]> (ActionsDAG.index this)
  ∧ ActionsDAG.nodes this'
    = match ActionsDAG.index this !! Node.result_name node with
      | Some old =>
          ActionsDAG.setRenamingParent old (Some (Node.addr res)) (ActionsDAG.nodes this)
      | None => ActionsDAG.nodes this
      end ++ [res].
Proof.
  intros Hindex. unfold ActionsDAG.addNode. destruct (_ && _); [discriminate|].
  intros [= <- <-]. unfold ActionsDAG.with_nodes_index. simpl.
  assert (∀ n, n ∈ ActionsDAG.nodes this →
               Node.addr n ≠ ActionsDAG.fresh_addr (ActionsDAG.nodes this)) as Hfresh.
  { intros n Hn%fresh_addr_fresh. lia. }
  split; [done|]. split; [done|]. split; [done|].
  destruct (ActionsDAG.index this !! Node.result_name node) as [old|] eqn:Hold; [|done].
  unfold ActionsDAG.setRenamingParent. rewrite fmap_app. f_equal. simpl.
  case_bool_decide as Heq; [|done]. exfalso.
  apply Hindex, elem_of_addresses in Hold as [n [Hn Hn']%deref_Some].
  apply (Hfresh n Hn). congruence.
Qed.

Lemma elem_of_setRenamingParent_inv ptr parent (ns : list Node.t) (n : Node.t) :
  n ∈ ActionsDAG.setRenamingParent ptr parent ns ↔
  ∃ n0, n0 ∈ ns
        ∧ n = if bool_decide (Node.addr n0 = ptr) then Node.set_renaming_parent parent n0
              else n0.
Proof.
  unfold ActionsDAG.setRenamingParent. rewrite list_elem_of_fmap. naive_solver.
Qed.

(** [addNode] keeps the names. *)
Lemma addNode_Named (this this' : ActionsDAG.t) (node res : Node.t) (can_replace : bool) :
  NoDup (Node.addr <$> ActionsDAG.nodes this) →
  Named this →
  Node.renaming_parent node = None →
  ActionsDAG.addNode this node can_replace = Ok (this', res) →
  Named this'.
Proof.
  intros Hnodup [Hidx Hnodes] Hnone Hadd.
  apply addNode_Ok in Hadd as (Hres & Hfresh & Hindex' & Hnodes').
  2:{ intros name ptr (n & Hn & <- & _)%Hidx. apply elem_of_addresses. by apply deref_is_Some. }
  assert (Node.result_name res = Node.result_name node
          ∧ Node.renaming_parent res = None) as [Hname Hparent] by (by subst res).
  split.
  - intros name ptr. rewrite Hindex', lookup_insert. case_decide as Hcase.
    + intros [= <-]. subst name. exists res. rewrite Hnodes'.
      split; [apply elem_of_app; right; left|]. done.
    + intros Hptr. destruct (Hidx name ptr Hptr) as (n & Hn & Haddr & Hn_name & Hn_parent).
      exists n. split; [|done]. rewrite Hnodes'. apply elem_of_app. left.
      destruct (ActionsDAG.index this !! Node.result_name node) as [old|] eqn:Hold; [|done].
      apply elem_of_setRenamingParent_inv. exists n. split; [done|].
      rewrite bool_decide_eq_false_2; [done|]. intros Heq.
      destruct (Hidx _ _ Hold) as (m & Hm & Hm_addr & Hm_name & _).
      assert (n = m) as -> by (eapply NoDup_addr_inj; [done..|congruence]).
      congruence.
  - intros n. rewrite Hnodes', Hindex'.
    intros [Hn | ->%list_elem_of_singleton]%elem_of_app Hn_parent.
    2:{ rewrite Hname. by rewrite lookup_insert_eq. }
    destruct (ActionsDAG.index this !! Node.result_name node) as [old|] eqn:Hold.
    + apply elem_of_setRenamingParent_inv in Hn as (n0 & Hn0 & ->).
      case_bool_decide as Hcase; [discriminate|].
      rewrite lookup_insert_ne; [by apply Hnodes|].
      intros Heq. specialize (Hnodes n0 Hn0 Hn_parent). rewrite <- Heq in Hnodes.
      congruence.
    + rewrite lookup_insert_ne; [by apply Hnodes|].
      intros Heq. specialize (Hnodes n Hn Hn_parent). congruence.
Qed.

Lemma init_Named : Named ActionsDAG.init.
Proof. split; [by intros name ptr ?|by intros n ?%elem_of_nil]. Qed.

Lemma init_WellFormed : WellFormed ActionsDAG.init.
Proof.
  split; [constructor|]. split; [split|].
  - by intros name ptr ?.
  - by intros node child ?%elem_of_nil.
  - by intros node parent ?%elem_of_nil.
Qed.

Lemma Built_invariants (this : ActionsDAG.t) : Built this → WellFormed this ∧ Named this.
Proof.
  induction 1 as [|this this' res _ [Hwf Hnamed] Hbuilds];
    [split; [apply init_WellFormed|apply init_Named]|].
  apply Builds_addNode in Hbuilds
    as (this0 & node & can_replace & Hadd & Hnodes & Hindex & Hnone & Hchildren).
  assert (WellFormed this0) as Hwf0.
  { unfold WellFormed, ValidPointers in *. by rewrite Hnodes, Hindex. }
  assert (Named this0) as Hnamed0.
  { unfold Named in *. by rewrite Hnodes, Hindex. }
  split.
  - eapply (addNode_WellFormed this0); [done| |done..]. by rewrite Hnodes.
  - eapply (addNode_Named this0); [|done..]. rewrite Hnodes. apply Hwf.
Qed.

Lemma filter_all {A} (P : A → Prop) `{!∀ x, Decision (P x)} (l : list A) :
  (∀ x, x ∈ l → P x) → filter P l = l.
Proof.
  induction l as [|x l IH]; intros Hall; [done|].
  rewrite filter_cons_True by (apply Hall; left). f_equal. apply IH.
  intros y Hy. apply Hall. by right.
Qed.

(** The names left when the node at [old] gets a renaming parent. *)
Lemma getNames_setRenamingParent (old a : NodePtr) (name : string) (ns : list Node.t) :
  (∀ n, n ∈ ns → Node.renaming_parent n = None →
        (Node.addr n = old ↔ Node.result_name n = name)) →
  Node.result_name
    <$> filter (λ n, Node.renaming_parent n = None)
               (ActionsDAG.setRenamingParent old (Some a) ns)
  = filter (λ x, x ≠ name)
           (Node.result_name <$> filter (λ n, Node.renaming_parent n = None) ns).
Proof.
  unfold ActionsDAG.setRenamingParent.
  induction ns as [|n ns IH]; intros Hold; [done|].
  specialize (IH ltac:(intros m Hm; apply Hold; by right)).
  specialize (Hold n ltac:(left)).
  rewrite fmap_cons.
  destruct (decide (Node.renaming_parent n = None)) as [Hnone|Hsome].
  - rewrite (filter_cons_True _ n) by done. rewrite fmap_cons.
    case_bool_decide as Haddr.
    + rewrite filter_cons_False by done.
      rewrite filter_cons_False; [done|]. intros Hne. apply Hne. by apply Hold.
    + rewrite filter_cons_True by done. rewrite fmap_cons, IH.
      rewrite filter_cons_True; [done|]. intros Heq. apply Haddr. by apply Hold.
  - rewrite (filter_cons_False _ n) by done.
    rewrite filter_cons_False; [done|]. by case_bool_decide.
Qed.

(** A name that a built DAG holds is held by one node that no node
    renames, and [getNames] lists each such name once: the names listed are
    the names of the index, as many as [getResultColumns] reserves room for;
    [getNode] finds a node of that name or fails with UNKNOWN_IDENTIFIER. *)
Theorem Built_names (this : ActionsDAG.t) :
  Built this →
  NoDup (ActionsDAG.getNames this)
  ∧ (∀ name, name ∈ ActionsDAG.getNames this ↔ is_Some (ActionsDAG.index this !! name))
  ∧ length (ActionsDAG.getResultColumns this) = size (ActionsDAG.index this)
  ∧ CWT.name <$> ActionsDAG.getResultColumns this = ActionsDAG.getNames this
  ∧ ∀ name,
      match ActionsDAG.getNode this name with
      | Ok n => Node.result_name n = name ∧ Node.renaming_parent n = None
                ∧ n ∈ ActionsDAG.nodes this
      | Throw e => code e = UNKNOWN_IDENTIFIER ∧ ActionsDAG.index this !! name = None
      | Undefined => False
      end.
Proof.
  intros [(Hnodup & Hvalid & Hparents) [Hidx Hnodes]]%Built_invariants.
  assert (NoDup (ActionsDAG.getNames this)) as Hnames.
  { unfold ActionsDAG.getNames. apply NoDup_fmap_2_strong.
    - intros n m [Hn_parent Hn]%list_elem_of_filter [Hm_parent Hm]%list_elem_of_filter Heq.
      eapply NoDup_addr_inj; [done..|].
      pose proof (Hnodes n Hn Hn_parent) as Hn_idx.
      pose proof (Hnodes m Hm Hm_parent) as Hm_idx.
      rewrite Heq in Hn_idx. congruence.
    - apply NoDup_filter. by eapply NoDup_fmap_1. }
  assert (∀ name, name ∈ ActionsDAG.getNames this
                  ↔ is_Some (ActionsDAG.index this !! name)) as Hdom.
  { intros name. unfold ActionsDAG.getNames. rewrite list_elem_of_fmap. split.
    - intros (n & -> & [Hparent Hn]%list_elem_of_filter). rewrite Hnodes; eauto.
    - intros [ptr (n & Hn & _ & <- & Hparent)%Hidx].
      exists n. split; [done|]. by apply list_elem_of_filter. }
  split; [done|]. split; [done|]. split; [|split].
  - unfold ActionsDAG.getResultColumns. rewrite length_fmap.
    transitivity (length (ActionsDAG.getNames this));
      [unfold ActionsDAG.getNames; by rewrite length_fmap|].
    rewrite <- size_dom.
    assert (dom (ActionsDAG.index this) = list_to_set (ActionsDAG.getNames this)) as ->.
    { apply set_eq. intros name. rewrite elem_of_dom, elem_of_list_to_set. by rewrite Hdom. }
    by rewrite size_list_to_set.
  - unfold ActionsDAG.getResultColumns, ActionsDAG.getNames.
    rewrite <- list_fmap_compose. by apply list_fmap_ext.
  - intros name. unfold ActionsDAG.getNode.
    destruct (ActionsDAG.index this !! name) as [ptr|] eqn:Hname; [|done].
    destruct (Hidx name ptr Hname) as (n & Hn & <- & Hn_name & Hn_parent).
    by rewrite deref_NoDup.
Qed.

(** After a builder succeeds on a built DAG, [getNode] finds the node added
    under its name and finds every other name where it was; the name added is
    the last of [getNames], whether it is new or replaces a name. *)
Theorem Builds_getNode (this this' : ActionsDAG.t) (res : Node.t) :
  Built this → Builds this this' res →
  ActionsDAG.getNode this' (Node.result_name res) = Ok res
  ∧ (∀ name, name ≠ Node.result_name res →
             ActionsDAG.getNode this' name = ActionsDAG.getNode this name)
  ∧ ActionsDAG.getNames this'
    = filter (λ name, name ≠ Node.result_name res) (ActionsDAG.getNames this)
      ++ [Node.result_name res].
Proof.
  intros Hbuilt Hbuilds.
  pose proof (built_step _ _ _ Hbuilt Hbuilds) as Hbuilt'.
  apply Built_invariants in Hbuilt as [(Hnodup & Hvalid & Hparents) [Hidx Hnodes]].
  apply Built_invariants in Hbuilt' as [(Hnodup' & _ & _) _].
  apply Builds_addNode in Hbuilds
    as (this0 & node & can_replace & Hadd & Hnodes0 & Hindex0 & Hnone & Hchildren).
  apply addNode_Ok in Hadd as (Hres & Hfresh & Hindex' & Hnodes').
  2:{ rewrite Hnodes0, Hindex0. intros name ptr (n & Hn & <- & _)%Hidx.
      apply elem_of_addresses. by apply deref_is_Some. }
  rewrite Hnodes0 in Hres, Hfresh, Hnodes'. rewrite Hindex0 in Hindex', Hnodes'.
  assert (Node.result_name res = Node.result_name node
          ∧ Node.renaming_parent res = None) as [Hname Hparent] by (by subst res).
  rewrite Hname.
  assert (res ∈ ActionsDAG.nodes this') as Hres_in.
  { rewrite Hnodes'. apply elem_of_app. right. left. }
  split; [|split].
  - unfold ActionsDAG.getNode. rewrite Hindex', lookup_insert_eq. by rewrite deref_NoDup.
  - intros name Hne. unfold ActionsDAG.getNode. rewrite Hindex', lookup_insert_ne by done.
    destruct (ActionsDAG.index this !! name) as [ptr|] eqn:Hptr; [|done].
    destruct (Hidx name ptr Hptr) as (n & Hn & <- & Hn_name & Hn_parent).
    rewrite (deref_NoDup (ActionsDAG.nodes this)) by done.
    rewrite deref_NoDup; [done..|].
    rewrite Hnodes'. apply elem_of_app. left.
    destruct (ActionsDAG.index this !! Node.result_name node) as [old|] eqn:Hold; [|done].
    apply elem_of_setRenamingParent_inv. exists n. split; [done|].
    rewrite bool_decide_eq_false_2; [done|]. intros Heq.
    destruct (Hidx _ _ Hold) as (m & Hm & Hm_addr & Hm_name & _).
    assert (n = m) as ->
      by (apply (NoDup_addr_inj (ActionsDAG.nodes this)); [done..|congruence]).
    congruence.
  - unfold ActionsDAG.getNames. rewrite Hnodes', filter_app, fmap_app.
    rewrite (filter_cons_True _ res) by done. rewrite filter_nil. simpl. rewrite Hname.
    f_equal.
    destruct (ActionsDAG.index this !! Node.result_name node) as [old|] eqn:Hold.
    + apply getNames_setRenamingParent. intros n Hn Hn_parent.
      pose proof (Hnodes n Hn Hn_parent) as Hn_idx. split.
      * intros Haddr. destruct (Hidx _ _ Hold) as (m & Hm & Hm_addr & Hm_name & _).
        assert (n = m) as ->
      by (apply (NoDup_addr_inj (ActionsDAG.nodes this)); [done..|congruence]). done.
      * intros Heq. rewrite Heq in Hn_idx. congruence.
    + symmetry. apply filter_all.
      intros name (n & -> & [Hn_parent Hn]%list_elem_of_filter)%list_elem_of_fmap Heq.
      pose proof (Hnodes n Hn Hn_parent) as Hn_idx. rewrite Heq in Hn_idx. congruence.
Qed.

(** ** The errors of the builders *)

Lemma gatherArguments_missing (this : ActionsDAG.t) (argument_names : list string) acc :
  ValidPointers this →
  (∃ name, name ∈ argument_names ∧ ActionsDAG.index this !! name = None) →
  ∃ e, foldM (ActionsDAG.gatherArgument this) acc argument_names = Throw e
       ∧ code e = UNKNOWN_IDENTIFIER.
Proof.
  intros [Hindex _]. revert acc.
  induction argument_names as [|name names IH]; intros acc (missing & Hin & Hnone).
  { by apply elem_of_nil in Hin. }
  cbn [foldM].
  destruct (ActionsDAG.gatherArgument this acc name) as [acc'|e|] eqn:Hstep; simpl;
    revert Hstep; destruct acc as [[[children allow] all_const] arguments];
    unfold ActionsDAG.gatherArgument, ActionsDAG.getNode;
    destruct (ActionsDAG.index this !! name) as [ptr|] eqn:Hname; simpl; try discriminate.
  - intros _. apply IH. exists missing. split; [|done].
    apply elem_of_cons in Hin as [->|Hin]; [congruence|done].
  - destruct (Hindex name ptr Hname) as [child ->]. discriminate.
  - intros [= <-]. by eexists.
  - destruct (Hindex name ptr Hname) as [child ->]. discriminate.
Qed.

(** A name that the index does not hold makes [getNode], [addAlias],
    [addArrayJoin] and [addFunction] fail with UNKNOWN_IDENTIFIER, the last
    before it asks the function for anything; [addArrayJoin] of a source
    that is not an array fails with TYPE_MISMATCH; [addColumn] of a column
    without values fails with LOGICAL_ERROR. *)
Theorem builders_errors (this : ActionsDAG.t) :
  ValidPointers this →
  (∀ name, ActionsDAG.index this !! name = None →
     (∃ e, ActionsDAG.getNode this name = Throw e ∧ code e = UNKNOWN_IDENTIFIER)
     ∧ (∀ alias can_replace,
          ∃ e, ActionsDAG.addAlias this name alias can_replace = Throw e
               ∧ code e = UNKNOWN_IDENTIFIER)
     ∧ (∀ result_name unique_column_name,
          ∃ e, ActionsDAG.addArrayJoin this name result_name unique_column_name = Throw e
               ∧ code e = UNKNOWN_IDENTIFIER)
     ∧ (∀ flag function argument_names result_name context,
          name ∈ argument_names →
          ∃ e, ActionsDAG.addFunction flag this function argument_names result_name context
               = Throw e
               ∧ code e = UNKNOWN_IDENTIFIER))
  ∧ (∀ source_name child result_name unique_column_name,
       ActionsDAG.getNode this source_name = Ok child →
       Node.result_type child ≫= IDataType.getNestedType = None →
       ∃ e, ActionsDAG.addArrayJoin this source_name result_name unique_column_name = Throw e
            ∧ code e = TYPE_MISMATCH)
  ∧ (∀ column, CWT.column column = None →
       ∃ e, ActionsDAG.addColumn this column = Throw e ∧ code e = LOGICAL_ERROR).
Proof.
  intros Hvalid. split; [|split].
  - intros name Hnone.
    assert (∃ e, ActionsDAG.getNode this name = Throw e ∧ code e = UNKNOWN_IDENTIFIER)
      as (e & Hget & Hcode).
    { unfold ActionsDAG.getNode. rewrite Hnone. by eexists. }
    split; [by eauto|]. split; [|split].
    + intros alias can_replace. exists e. unfold ActionsDAG.addAlias. by rewrite Hget.
    + intros result_name unique. exists e. unfold ActionsDAG.addArrayJoin. by rewrite Hget.
    + intros flag function argument_names result_name context Hin.
      unfold ActionsDAG.addFunction, ActionsDAG.gatherArguments.
      destruct (gatherArguments_missing (withSettings this context) argument_names
                  ([], true, true, [])) as (e' & He' & Hcode'); [done|by eauto|].
      exists e'. unfold withSettings in He'. by rewrite He'.
  - intros source_name child result_name unique Hget Hnested.
    unfold ActionsDAG.addArrayJoin. rewrite Hget. simpl. rewrite Hnested. by eexists.
  - intros column Hnull. unfold ActionsDAG.addColumn.
    rewrite bool_decide_eq_true_2 by done. by eexists.
Qed.

(** ** The constructors of the DAG and its lists of columns *)

(** [ActionsDAG::ActionsDAG(const NamesAndTypesList & inputs)] *)
Definition ActionsDAG_of_NamesAndTypesList (inputs : list NameAndTypePair)
    : Result ActionsDAG.t :=
  foldM (λ this input,
           '(this, _) ← ActionsDAG.addInput this (nt_name input) (nt_type input); Ok this)
        ActionsDAG.init inputs.

(** [ActionsDAG::ActionsDAG(const ColumnsWithTypeAndName & inputs)] *)
Definition ActionsDAG_of_ColumnsWithTypeAndName (inputs : list CWT.t) : Result ActionsDAG.t :=
  foldM (λ this input, '(this, _) ← ActionsDAG.addInputColumn this input; Ok this)
        ActionsDAG.init inputs.

(** [ActionsDAG::getNamesAndTypesList] *)
Definition ActionsDAG_getNamesAndTypesList (this : ActionsDAG.t) : list NameAndTypePair :=
  (λ n, {| nt_name := Node.result_name n; nt_type := Node.result_type n |})
    <$> filter (λ n, Node.renaming_parent n = None) (ActionsDAG.nodes this).

(** A loop that adds one node per element, replacing none. *)
Lemma addNodes_spec {X} (nodeOf : X → Node.t) (xs : list X) (this : ActionsDAG.t) :
  (∀ x, Node.renaming_parent (nodeOf x) = None) →
  match foldM (λ this x, '(this, _) ← ActionsDAG.addNode this (nodeOf x) false; Ok this)
              this xs with
  | Ok this' =>
      NoDup (Node.result_name ∘ nodeOf <$> xs)
      ∧ (∀ x, x ∈ xs → ActionsDAG.index this !! Node.result_name (nodeOf x) = None)
      ∧ (∀ name, is_Some (ActionsDAG.index this' !! name)
                 ↔ is_Some (ActionsDAG.index this !! name)
                   ∨ name ∈ (Node.result_name ∘ nodeOf <$> xs))
      ∧ ∃ news,
          ActionsDAG.nodes this' = ActionsDAG.nodes this ++ news
          ∧ Forall2 (λ x n, n = Node.set_addr (nodeOf x) (Node.addr n)) xs news
  | Throw e =>
      code e = DUPLICATE_COLUMN
      ∧ ¬ (NoDup (Node.result_name ∘ nodeOf <$> xs)
           ∧ ∀ x, x ∈ xs → ActionsDAG.index this !! Node.result_name (nodeOf x) = None)
  | Undefined => False
  end.
Proof.
  intros Hnone. revert this. induction xs as [|x xs IH]; intros this.
  { simpl. split; [constructor|]. split; [by intros x ?%elem_of_nil|]. split.
    - intros name. split; [by left|]. by intros [?|?%elem_of_nil].
    - exists []. by rewrite app_nil_r. }
  cbn [foldM].
  destruct (ActionsDAG.index this !! Node.result_name (nodeOf x)) as [old|] eqn:Hold.
  - rewrite (addNode_duplicate _ _ old) by done. simpl. split; [done|].
    intros [_ Hfree]. specialize (Hfree x ltac:(left)). congruence.
  - rewrite addNode_replace by (by right). rewrite Hold. simpl.
    match goal with
    | |- context [foldM _ ?this1 xs] => specialize (IH this1); set (dag := this1) in *
    end.
    destruct (foldM _ dag xs) as [this'|e|]; [|..|done].
    + destruct IH as (Hnodup & Hfree & Hdom & news & Hnodes & Hnews).
      unfold dag, ActionsDAG.with_nodes_index in Hfree, Hdom, Hnodes. simpl in *.
      assert (∀ y, y ∈ xs → Node.result_name (nodeOf y) ≠ Node.result_name (nodeOf x)
                            ∧ ActionsDAG.index this !! Node.result_name (nodeOf y) = None)
        as Hrest.
      { intros y Hy. specialize (Hfree y Hy).
        apply lookup_insert_None in Hfree as [Hfree Hne]. done. }
      split; [|split; [|split]].
      * rewrite ?fmap_cons. constructor; [|done].
        intros (y & Heq & Hy)%list_elem_of_fmap. simpl in Heq.
        destruct (Hrest y Hy) as [Hne _]. congruence.
      * intros y [->|Hy]%elem_of_cons; [done|]. by apply Hrest.
      * intros name. rewrite Hdom, ?fmap_cons, elem_of_cons. simpl.
        rewrite lookup_insert. case_decide as Hcase.
        -- subst name. split; [by auto|]. intros _. left. eauto.
        -- split; [intros [?|?]; auto|]. intros [?|[?|?]]; auto. congruence.
      * eexists (_ :: news). rewrite Hnodes, <- app_assoc. split; [reflexivity|].
        constructor; [reflexivity|done].
    + destruct IH as [Hcode Hnot]. split; [done|]. intros [Hnodup Hfree]. apply Hnot.
      apply NoDup_cons in Hnodup as [Hx Hnodup]. split; [done|].
      intros y Hy. unfold dag, ActionsDAG.with_nodes_index. simpl.
      apply lookup_insert_None. split; [apply Hfree; by right|].
      intros Heq. apply Hx. apply list_elem_of_fmap. exists y. by split.
Qed.

Lemma filter_unrenamed_new {X} (nodeOf : X → Node.t) (xs : list X) (news : list Node.t) :
  (∀ x, Node.renaming_parent (nodeOf x) = None) →
  Forall2 (λ x n, n = Node.set_addr (nodeOf x) (Node.addr n)) xs news →
  filter (λ n, Node.renaming_parent n = None) news = news
  ∧ ∀ Y (g : Node.t → Y), (∀ m a, g (Node.set_addr m a) = g m) →
                           g <$> news = g ∘ nodeOf <$> xs.
Proof.
  intros Hnone. induction 1 as [|x n xs news Hn _ [Hfilter Hmap]]; [done|].
  rewrite filter_cons_True by (rewrite Hn; apply Hnone).
  rewrite Hfilter. split; [done|]. intros Y g Hg.
  rewrite !fmap_cons, Hmap by done. f_equal. simpl. rewrite Hn. apply Hg.
Qed.

(** A DAG made from a list of inputs gives the list back: the constructor
    succeeds exactly when the names are distinct, and fails with
    DUPLICATE_COLUMN otherwise; the DAG then holds one INPUT node per input,
    and [getNamesAndTypesList] (for columns, [getResultColumns]) is the list
    it was made from. *)
Theorem ActionsDAG_constructor_round_trip :
  (∀ inputs : list NameAndTypePair,
     match ActionsDAG_of_NamesAndTypesList inputs with
     | Ok this =>
         NoDup (nt_name <$> inputs)
         ∧ ActionsDAG_getNamesAndTypesList this = inputs
         ∧ ActionsDAG.getNames this = nt_name <$> inputs
         ∧ Forall (λ n, Node.type n = INPUT) (ActionsDAG.nodes this)
         ∧ ∀ name, is_Some (ActionsDAG.index this !! name) ↔ name ∈ nt_name <$> inputs
     | Throw e => code e = DUPLICATE_COLUMN ∧ ¬ NoDup (nt_name <$> inputs)
     | Undefined => False
     end)
  ∧ (∀ inputs : list CWT.t,
       match ActionsDAG_of_ColumnsWithTypeAndName inputs with
       | Ok this =>
           NoDup (CWT.name <$> inputs)
           ∧ ActionsDAG.getResultColumns this = inputs
           ∧ ActionsDAG.getNames this = CWT.name <$> inputs
           ∧ Forall (λ n, Node.type n = INPUT) (ActionsDAG.nodes this)
           ∧ ∀ name, is_Some (ActionsDAG.index this !! name) ↔ name ∈ CWT.name <$> inputs
       | Throw e => code e = DUPLICATE_COLUMN ∧ ¬ NoDup (CWT.name <$> inputs)
       | Undefined => False
       end).
Proof.
  split.
  - intros inputs. unfold ActionsDAG_of_NamesAndTypesList.
    pose proof (addNodes_spec
                  (λ input, Node.mk 0 [] None INPUT (nt_name input) (nt_type input) ""
                                    None None None false true None)
                  inputs ActionsDAG.init ltac:(done)) as Hspec.
    unfold ActionsDAG.addInput.
    destruct (foldM _ ActionsDAG.init inputs) as [this|e|]; [|..|done].
    + destruct Hspec as (Hnodup & _ & Hdom & news & Hnodes & Hnews).
      apply filter_unrenamed_new in Hnews as (Hfilter & Hmap); [|done].
      simpl in Hnodes. split; [done|].
      unfold ActionsDAG_getNamesAndTypesList, ActionsDAG.getNames.
      rewrite Hnodes, Hfilter, !Hmap by done. split; [|split; [done|split]].
      * rewrite <- (list_fmap_id inputs) at 2. apply list_fmap_ext. by intros i [? ?] _.
      * assert (Forall (λ k, k = INPUT) (Node.type <$> news)) as Hkinds.
        { rewrite Hmap by done. apply Forall_fmap, Forall_forall. by intros x _. }
        by apply Forall_fmap in Hkinds.
      * intros name. rewrite Hdom. simpl. rewrite lookup_empty.
        split; [intros [[? ?]|?]; done| by right].
    + destruct Hspec as [Hcode Hnot]. split; [done|]. intros Hnodup. apply Hnot.
      split; [done|]. intros x _. apply lookup_empty.
  - intros inputs. unfold ActionsDAG_of_ColumnsWithTypeAndName.
    pose proof (addNodes_spec
                  (λ column, Node.mk 0 [] None INPUT (CWT.name column) (CWT.type column) ""
                                     None None None false true (CWT.column column))
                  inputs ActionsDAG.init ltac:(done)) as Hspec.
    unfold ActionsDAG.addInputColumn.
    destruct (foldM _ ActionsDAG.init inputs) as [this|e|]; [|..|done].
    + destruct Hspec as (Hnodup & _ & Hdom & news & Hnodes & Hnews).
      apply filter_unrenamed_new in Hnews as (Hfilter & Hmap); [|done].
      simpl in Hnodes. split; [done|].
      unfold ActionsDAG.getResultColumns, ActionsDAG.getNames.
      rewrite Hnodes, Hfilter, !Hmap by done. split; [|split; [done|split]].
      * rewrite <- (list_fmap_id inputs) at 2. apply list_fmap_ext. by intros i [? ? ?] _.
      * assert (Forall (λ k, k = INPUT) (Node.type <$> news)) as Hkinds.
        { rewrite Hmap by done. apply Forall_fmap, Forall_forall. by intros x _. }
        by apply Forall_fmap in Hkinds.
      * intros name. rewrite Hdom. simpl. rewrite lookup_empty.
        split; [intros [[? ?]|?]; done| by right].
    + destruct Hspec as [Hcode Hnot]. split; [done|]. intros Hnodup. apply Hnot.
      split; [done|]. intros x _. apply lookup_empty.
Qed.

(** ** The smallest column *)

Section SmallestColumn.

(** What [getSmallestColumn] asks of a type (DataTypes/IDataType.h is not
    among the sources): whether its values have a maximum size, and that
    size. *)
Context (haveMaximumSizeOfValue : IDataType.t → bool)
        (getMaximumSizeOfValueInMemory : IDataType.t → nat).

(** [column.type->haveMaximumSizeOfValue()
      ? column.type->getMaximumSizeOfValueInMemory() : 100] *)
Definition sizeOfValue (type : IDataType.t) : nat :=
  if haveMaximumSizeOfValue type then getMaximumSizeOfValueInMemory type else 100.

(** The body of the loop of [getSmallestColumn], on [min_size] and [res]. *)
Definition smallerColumn (state : option nat * string) (column : NameAndTypePair)
    : Result (option nat * string) :=
  type ← defined (nt_type column);
  let size := sizeOfValue type in
  match state.1 with
  | Some min_size =>
      if bool_decide (size < min_size) then Ok (Some size, nt_name column) else Ok state
  | None => Ok (Some size, nt_name column)
  end.

(** [ExpressionActions::getSmallestColumn] *)
Definition getSmallestColumn (columns : list NameAndTypePair) : Result string :=
  state ← foldM smallerColumn (None, "") columns;
  match state.1 with
  | None => throw LOGICAL_ERROR "No available columns"
  | Some _ => Ok state.2
  end.

(** The size the loop sees for a column whose type is present. *)
Definition columnSize (column : NameAndTypePair) : nat :=
  from_option sizeOfValue 0 (nt_type column).

Lemma smallerColumn_Ok state column type :
  nt_type column = Some type →
  smallerColumn state column
  = Ok (match state.1 with
        | Some min_size =>
            if bool_decide (sizeOfValue type < min_size)
            then (Some (sizeOfValue type), nt_name column) else state
        | None => (Some (sizeOfValue type), nt_name column)
        end).
Proof.
  intros Htype. unfold smallerColumn. rewrite Htype. simpl.
  destruct state.1; [by case_bool_decide|done].
Qed.

(** The loop keeps the first column of the smallest size. *)
Lemma smallerColumn_loop (columns seen : list NameAndTypePair) (state : option nat * string) :
  Forall (λ c, is_Some (nt_type c)) columns →
  match state.1 with
  | Some min_size =>
      ∃ i c, seen !! i = Some c ∧ state.2 = nt_name c ∧ min_size = columnSize c
             ∧ ∀ j c', seen !! j = Some c' →
                       columnSize c ≤ columnSize c' ∧ (j < i → columnSize c < columnSize c')
  | None => seen = []
  end →
  ∃ state', foldM smallerColumn state columns = Ok state'
    ∧ match state'.1 with
      | Some min_size =>
          ∃ i c, (seen ++ columns) !! i = Some c ∧ state'.2 = nt_name c
                 ∧ min_size = columnSize c
                 ∧ ∀ j c', (seen ++ columns) !! j = Some c' →
                           columnSize c ≤ columnSize c'
                           ∧ (j < i → columnSize c < columnSize c')
      | None => seen ++ columns = []
      end.
Proof.
  revert seen state. induction columns as [|column columns IH]; intros seen state Htypes Hstate.
  { exists state. rewrite app_nil_r. done. }
  apply Forall_cons in Htypes as [[type Htype] Htypes].
  cbn [foldM]. rewrite (smallerColumn_Ok _ _ _ Htype). simpl.
  assert (columnSize column = sizeOfValue type) as Hsize
    by (unfold columnSize; by rewrite Htype).
  replace (seen ++ column :: columns) with ((seen ++ [column]) ++ columns)
    by (by rewrite <- app_assoc).
  destruct state as [[min_size|] res]; simpl in *.
  - destruct Hstate as (i & c & Hi & -> & -> & Hmin).
    case_bool_decide as Hless; simpl; apply IH; try done; simpl.
    + exists (length seen), column. rewrite lookup_app_r, Nat.sub_diag by lia.
      split; [done|]. split; [done|]. split; [done|].
      intros j c' [Hj | [Hj Hc']]%lookup_app_Some.
      * destruct (Hmin j c' Hj) as [Hle _]. split; [lia|]. intros _. lia.
      * apply list_lookup_singleton_Some in Hc' as [Hj' <-]. split; [done|]. lia.
    + exists i, c. split; [by apply lookup_app_l_Some|]. split; [done|]. split; [done|].
      intros j c' [Hj | [Hj Hc']]%lookup_app_Some; [by apply Hmin|].
      apply list_lookup_singleton_Some in Hc' as [Hj' <-].
      split; [lia|]. intros Hlt. apply lookup_lt_Some in Hi. lia.
  - subst seen. apply IH; [done|]. simpl.
    exists 0, column. split; [done|]. split; [done|]. split; [done|].
    intros j c' Hj. apply list_lookup_singleton_Some in Hj as [-> <-]. split; [done|lia].
Qed.

(** [getSmallestColumn] fails with LOGICAL_ERROR on an empty list; on a list
    of columns whose types are present it returns the name of the first
    column of the smallest size, a type without a maximum size counting for
    100. *)
Theorem getSmallestColumn_first_minimum :
  (∃ e, getSmallestColumn [] = Throw e ∧ code e = LOGICAL_ERROR)
  ∧ ∀ columns,
      columns ≠ [] → Forall (λ c, is_Some (nt_type c)) columns →
      ∃ i c,
        columns !! i = Some c
        ∧ getSmallestColumn columns = Ok (nt_name c)
        ∧ ∀ j c', columns !! j = Some c' →
                  columnSize c ≤ columnSize c' ∧ (j < i → columnSize c < columnSize c').
Proof.
  split; [by eexists|].
  intros columns Hne Htypes. unfold getSmallestColumn.
  destruct (smallerColumn_loop columns [] (None, "") Htypes eq_refl)
    as ([[min_size|] res] & -> & Hstate); simpl in *; [|done].
  destruct Hstate as (i & c & Hi & -> & _ & Hmin). eauto.
Qed.

End SmallestColumn.

(** ** The exceptions of [execute] *)

(** An exception out of a loop that keeps an invariant. *)
Lemma foldM_Throw_invariant {A B} (I : B → Prop) (P : Exception → Prop)
    (f : B → A → Result B) xs acc e :
  (∀ b a b', I b → f b a = Ok b' → I b') →
  (∀ b a e', a ∈ xs → I b → f b a = Throw e' → P e') →
  I acc → foldM f acc xs = Throw e → P e.
Proof.
  intros Hstep. revert acc. induction xs as [|x xs IH]; intros acc Hthrow Hacc; simpl;
    [discriminate|].
  intros [H | (acc' & Hacc' & H)]%bind_Throw.
  - eapply Hthrow; [left|done..].
  - eapply (IH acc'); [|by eapply Hstep|done].
    intros b a e' Ha. apply Hthrow. by right.
Qed.

(** The positions of the index of a block are positions of its columns. *)
Definition BlockIndexed (block : Block.t) : Prop :=
  ∀ name pos, Block.index_by_name block !! name = Some pos → pos < length (Block.data block).

(** The body of the loop of [execute] over the required columns. *)
#[local] Abbreviation takeInput this :=
  (λ '(blk, cols, to_remove) column,
     pos ← Block.getPositionByName blk (nt_name column);
     c ← Block.getByPosition blk pos;
     Ok (Block.setByPosition blk pos CWT.null,
         cols ++ [c],
         if Block.has (ExpressionActions.sample_block this) (nt_name column)
         then to_remove else to_remove ++ [pos])).

Lemma takeInput_missing (this : ExpressionActions.t) (block : Block.t)
    (required : list NameAndTypePair) (state : Block.t * list CWT.t * list nat) :
  BlockIndexed block →
  Block.index_by_name state.1.1 = Block.index_by_name block →
  length (Block.data state.1.1) = length (Block.data block) →
  (∃ c, c ∈ required ∧ Block.has block (nt_name c) = false) →
  ∃ e, foldM (takeInput this) state required = Throw e
       ∧ code e = NOT_FOUND_COLUMN_IN_BLOCK.
Proof.
  intros Hindexed. revert state.
  induction required as [|column required IH];
    intros [[blk cols] to_remove] Hindex Hlen (c & Hc & Hmissing); simpl in *.
  { by apply elem_of_nil in Hc. }
  unfold Block.getPositionByName. rewrite Hindex.
  destruct (Block.index_by_name block !! nt_name column) as [pos|] eqn:Hpos; simpl.
  - unfold Block.getByPosition.
    destruct (lookup_lt_is_Some_2 (Block.data blk) pos) as [col ->].
    { rewrite Hlen. by eapply Hindexed. }
    simpl. apply IH; simpl; [done|by rewrite length_insert|].
    exists c. split; [|done]. apply elem_of_cons in Hc as [->|Hc]; [|done].
    unfold Block.has in Hmissing. rewrite bool_decide_eq_false in Hmissing.
    exfalso. apply Hmissing. by rewrite Hpos.
  - by eexists.
Qed.

(** [execute] fails with NOT_FOUND_COLUMN_IN_BLOCK when the block, its index
    pointing to its columns, lacks a required column.  Every exception it
    raises is
    one of three: NOT_FOUND_COLUMN_IN_BLOCK for a required column that the
    block lacks; the exception of an action or of the limit check that
    follows it, with its code, its message extended by the description of
    the action; POSITION_OUT_OF_BOUND from erasing the inputs, when the input
    is not projected. *)
Theorem execute_exceptions (this : ExpressionActions.t) (block : Block.t) (dry_run : bool) :
  (BlockIndexed block →
   (∃ c, c ∈ ExpressionActions.required_columns this ∧ Block.has block (nt_name c) = false) →
   ∃ e, ExpressionActions.execute this block dry_run = Throw e
        ∧ code e = NOT_FOUND_COLUMN_IN_BLOCK)
  ∧ ∀ e, ExpressionActions.execute this block dry_run = Throw e →
      (code e = NOT_FOUND_COLUMN_IN_BLOCK
       ∧ ∃ c, c ∈ ExpressionActions.required_columns this
              ∧ Block.has block (nt_name c) = false)
      ∨ (∃ action execution_context e0,
           action ∈ ExpressionActions.actions this
           ∧ e = addMessage e0 ("while executing '"
                                +:+ ExpressionActions.toString (ExpressionActions.nodes this) action
                                +:+ "'")
           ∧ (ExpressionActions.executeAction action execution_context dry_run = Throw e0
              ∨ ExpressionActions.checkLimits this execution_context = Throw e0))
      ∨ (ExpressionActions.project_input this = false ∧ code e = POSITION_OUT_OF_BOUND).
Proof.
  split.
  - intros Hindexed Hmissing. unfold ExpressionActions.execute.
    destruct (takeInput_missing this block (ExpressionActions.required_columns this)
                (block, [], []) Hindexed eq_refl eq_refl Hmissing) as (e & -> & Hcode).
    by exists e.
  - intros e. unfold ExpressionActions.execute.
    intros [H | ([[block1 columns0] inputs_to_remove] & _ & H)]%bind_Throw.
    { left. revert H.
      apply (foldM_Throw_invariant
               (λ s, Block.index_by_name s.1.1 = Block.index_by_name block)
               (λ e, code e = NOT_FOUND_COLUMN_IN_BLOCK
                     ∧ ∃ c, c ∈ ExpressionActions.required_columns this
                            ∧ Block.has block (nt_name c) = false)); [| |done].
      - intros [[blk cols] to_remove] column [[blk' cols'] to_remove'] Hindex.
        intros (pos & _ & H)%bind_Ok.
        apply bind_Ok in H as (c & _ & [= <- _ _]). done.
      - intros [[blk cols] to_remove] column e' Hcolumn Hindex. simpl in Hindex.
        unfold Block.getPositionByName. rewrite Hindex.
        destruct (Block.index_by_name block !! nt_name column) as [pos|] eqn:Hpos; simpl.
        + intros [H | (c & _ & H)]%bind_Throw; [by apply defined_Throw in H|discriminate].
        + intros [= <-]. split; [done|]. exists column. split; [done|].
          unfold Block.has. apply bool_decide_eq_false. rewrite Hpos. by intros [? ?]. }
    apply bind_Throw in H as [H | (execution_context & _ & H)].
    { right. left. revert H.
      apply (foldM_Throw_invariant (λ _, True)
               (λ e, ∃ action execution_context e0,
                       action ∈ ExpressionActions.actions this
                       ∧ e = addMessage e0
                               ("while executing '"
                                +:+ ExpressionActions.toString (ExpressionActions.nodes this)
                                      action
                                +:+ "'")
                       ∧ (ExpressionActions.executeAction action execution_context dry_run
                          = Throw e0
                          ∨ ExpressionActions.checkLimits this execution_context = Throw e0)));
        [done| |done].
      intros ctx action e' Haction _.
      destruct (ExpressionActions.executeAction action ctx dry_run) as [ctx'|e0|] eqn:Hrun;
        simpl; [|intros [= <-]; eauto 10|discriminate].
      destruct (ExpressionActions.checkLimits this ctx') as [[]|e0|] eqn:Hlimits;
        simpl; [discriminate|intros [= <-]; eauto 10|discriminate]. }
    apply bind_Throw in H as [H | (block2 & _ & H)].
    { right. right. destruct (ExpressionActions.project_input this); [discriminate|].
      split; [done|]. revert H. apply (foldM_Throw (λ e, code e = POSITION_OUT_OF_BOUND)).
      intros blk pos e'. unfold Block.erase. case_bool_decide; [|discriminate].
      by intros [= <-]. }
    exfalso. apply bind_Throw in H as [H | ([block3 cols] & _ & H)]; [|discriminate].
    revert H. apply (foldM_Throw (λ _, False)).
    intros [blk cols] action e'. destruct (ExpressionActions.is_used_in_result action);
      simpl; [|discriminate].
    intros [H | (column & _ & H)]%bind_Throw; [by apply defined_Throw in H|].
    revert H. unfold Block.has, Block.setByName, Block.getPositionByName.
    case_bool_decide as Hhas; [|discriminate].
    destruct Hhas as [pos ->]. discriminate.
Qed.

(** ** The chain of steps *)
Module ExpressionActionsChain.

(** Modelled from the spec: the array-join operator
    (Interpreters/ArrayJoinAction.h is not among the sources) holds the set
    of the names of the array-joined columns. *)
Record ArrayJoinAction := { columns : gset string }.

(** Modelled from the spec: the join descriptor (Interpreters/TableJoin.h is
    not among the sources), with the three methods the steps call. *)
Record TableJoin := {
  keyNamesLeft : list string;
  columnsAddedByJoin : list NameAndTypePair;
  addJoinedColumnsAndCorrectNullability : list CWT.t → list CWT.t;
}.

Definition nameAndType (column : CWT.t) : NameAndTypePair :=
  {| nt_name := CWT.name column; nt_type := CWT.type column |}.

(** [ExpressionActionsChain::ArrayJoinStep] *)
Module ArrayJoinStep.

Record t := mk {
  array_join : ArrayJoinAction;
  required_columns : list NameAndTypePair;
  result_columns : list CWT.t;
}.

(** The body of the loop of the constructor: the column is required as it
    is; an array-joined column results with the nested type of its array
    type and without values. *)
Definition joinColumn (array_join_ : ArrayJoinAction)
    (state : list NameAndTypePair * list CWT.t) (column : CWT.t)
    : Result (list NameAndTypePair * list CWT.t) :=
  let '(required_columns, result_columns) := state in
  let required_columns := required_columns ++ [nameAndType column] in
  if bool_decide (CWT.name column ∈ columns array_join_) then
    nested ← defined (CWT.type column ≫= IDataType.getNestedType);
    Ok (required_columns, result_columns ++ [CWT.mk None (Some nested) (CWT.name column)])
  else Ok (required_columns, result_columns ++ [column]).

(** [ArrayJoinStep::ArrayJoinStep(array_join_, required_columns_)] *)
Definition init (array_join_ : ArrayJoinAction) (required_columns_ : list CWT.t) : Result t :=
  '(required_columns, result_columns) ←
    foldM (joinColumn array_join_) ([], []) required_columns_;
  Ok (mk array_join_ required_columns result_columns).

(** [array_join->columns.count(name) != 0 || names.count(name) != 0] *)
Definition kept (this : t) (names : gset string) (name : string) : Prop :=
  name ∈ columns (array_join this) ∨ name ∈ names.

#[global] Instance kept_dec this names name : Decision (kept this names name).
Proof. unfold kept. apply _. Defined.

(** [ArrayJoinStep::finalize] *)
Definition finalize (this : t) (required_output_ : list string) : t :=
  let names : gset string := list_to_set required_output_ in
  mk (array_join this)
     (filter (λ column, kept this names (nt_name column)) (required_columns this))
     (filter (λ column, kept this names (CWT.name column)) (result_columns this)).

End ArrayJoinStep.

(** [ExpressionActionsChain::JoinStep]; the join executor [join] is held and
    not used. *)
Module JoinStep.

Record t := mk {
  analyzed_join : TableJoin;
  required_columns : list NameAndTypePair;
  result_columns : list CWT.t;
}.

(** [JoinStep::JoinStep(analyzed_join_, join_, required_columns_)] *)
Definition init (analyzed_join_ : TableJoin) (required_columns_ : list CWT.t) : t :=
  mk analyzed_join_ (nameAndType <$> required_columns_)
     (addJoinedColumnsAndCorrectNullability analyzed_join_ required_columns_).

(** [JoinStep::finalize] *)
Definition finalize (this : t) (required_output_ : list string) : t :=
  let required_names : gset string :=
    list_to_set required_output_ ∪ list_to_set (keyNamesLeft (analyzed_join this)) in
  let new_required_columns :=
    filter (λ column, nt_name column ∈ required_names) (required_columns this) in
  let required_names : gset string :=
    required_names ∪ list_to_set (nt_name <$> columnsAddedByJoin (analyzed_join this)) in
  let new_result_columns :=
    filter (λ column, CWT.name column ∈ required_names) (result_columns this) in
  mk (analyzed_join this) new_required_columns new_result_columns.

End JoinStep.

(** [ExpressionActionsChain::Step]: the fields of the base class, and the
    state of the derived class. *)
Record Step (Derived : Type) := mkStep {
  required_output : list string;
  can_remove_required_output : list bool;
  additional_input : gset string;
  derived : Derived;
}.
Arguments mkStep {Derived} _ _ _ _.
Arguments required_output {Derived} _.
Arguments can_remove_required_output {Derived} _.
Arguments additional_input {Derived} _.
Arguments derived {Derived} _.

(** [required_output_indexes[required_output[j]] = j], for [j] upwards:
    the last position of a name. *)
Definition indexNames (required_output : list string) : gmap string nat :=
  (foldl (λ '(indexes, j) name, (<[name := j]> indexes, S j)) (∅, 0) required_output).1.

(** The body of the loop over the columns the next step requires. *)
Definition requireColumn (required_output_indexes : gmap string nat)
    (additional_input : gset string) (state : list string * list bool)
    (it : NameAndTypePair) : Result (list string * list bool) :=
  let '(required_output, can_remove_required_output) := state in
  if bool_decide (nt_name it ∈ additional_input) then Ok state
  else
    match required_output_indexes !! nt_name it with
    | None => Ok (required_output ++ [nt_name it], can_remove_required_output)
    | Some j =>
        if bool_decide (can_remove_required_output = []) then Ok state
        else if bool_decide (j < length can_remove_required_output) then
          Ok (required_output, <[j := false]> can_remove_required_output)
        else Undefined
    end.

Section Chain.

(** The virtual methods of a step. *)
Context {Derived : Type}.
Context (finalizeStep : Step Derived → list string → Result (Step Derived))
        (getRequiredColumns : Step Derived → list NameAndTypePair)
        (getResultColumns : Step Derived → list CWT.t)
        (prependProjectInput : Step Derived → Result (Step Derived)).

(** What step [i] is asked for, given step [i + 1] as it is once
    finalized. *)
Definition requireFromNext (step : Step Derived) (next : option (Step Derived))
    : Result (list string * list bool) :=
  let state := (required_output step, can_remove_required_output step) in
  match next with
  | Some next =>
      foldM (requireColumn (indexNames (required_output step)) (additional_input next))
            state (getRequiredColumns next)
  | None => Ok state
  end.

(** The first loop of [ExpressionActionsChain::finalize], from the last
    step to the first. *)
Fixpoint finalizeSteps (steps : list (Step Derived)) : Result (list (Step Derived)) :=
  match steps with
  | [] => Ok []
  | step :: rest =>
      rest ← finalizeSteps rest;
      '(required_output_, can_remove) ← requireFromNext step (head rest);
      step ← finalizeStep
                (mkStep (required_output step) can_remove (additional_input step)
                        (derived step))
                required_output_;
      Ok (step :: rest)
  end.

(** The body of the second loop, on the steps done and the step before. *)
Definition projectInput (state : list (Step Derived) * Step Derived) (step : Step Derived)
    : Result (list (Step Derived) * Step Derived) :=
  let '(done, previous) := state in
  let columns_from_previous := length (getResultColumns previous) in
  step ←
    (if bool_decide (getResultColumns step ≠ [])
        && bool_decide (length (getRequiredColumns step) < columns_from_previous)
     then prependProjectInput step else Ok step);
  Ok (done ++ [step], step).

(** The second loop of [ExpressionActionsChain::finalize], from the second
    step on. *)
Definition projectInputs (steps : list (Step Derived)) : Result (list (Step Derived)) :=
  match steps with
  | [] => Ok []
  | first :: rest =>
      '(steps, _) ← foldM projectInput ([first], first) rest; Ok steps
  end.

(** [ExpressionActionsChain::finalize] *)
Definition finalize (steps : list (Step Derived)) : Result (list (Step Derived)) :=
  steps ← finalizeSteps steps; projectInputs steps.

End Chain.

End ExpressionActionsChain.

(** ** The steps of a chain *)

(** Two lists with the same names, filtered by name. *)
Lemma filter_aligned {A B} (f : A → string) (g : B → string) (P : string → Prop)
    `{!∀ name, Decision (P name)} (l : list A) (k : list B) :
  f <$> l = g <$> k →
  f <$> filter (λ a, P (f a)) l = g <$> filter (λ b, P (g b)) k.
Proof.
  revert k. induction l as [|a l IH]; intros [|b k] Heq; try done.
  injection Heq as Hab Heq. rewrite !filter_cons, <- Hab.
  destruct (decide (P (f a))); rewrite ?fmap_cons, (IH k Heq); congruence.
Qed.

Lemma filter_idempotent {A} (P : A → Prop) `{!∀ x, Decision (P x)} (l : list A) :
  filter P (filter P l) = filter P l.
Proof. apply filter_all. by intros x [? _]%list_elem_of_filter. Qed.

Lemma joinColumns_spec (array_join_ : ExpressionActionsChain.ArrayJoinAction)
    (columns : list CWT.t) (required : list NameAndTypePair) (result : list CWT.t) :
  match foldM (ExpressionActionsChain.ArrayJoinStep.joinColumn array_join_)
              (required, result) columns with
  | Ok (required', result') =>
      required' = required ++ (ExpressionActionsChain.nameAndType <$> columns)
      ∧ ∃ news,
          result' = result ++ news
          ∧ Forall2 (λ column new,
                       CWT.name new = CWT.name column
                       ∧ if bool_decide (CWT.name column
                                         ∈ ExpressionActionsChain.columns array_join_)
                         then CWT.column new = None
                              ∧ is_Some (CWT.type new)
                              ∧ CWT.type new = CWT.type column ≫= IDataType.getNestedType
                         else new = column)
                    columns news
  | Throw e => False
  | Undefined =>
      ∃ column, column ∈ columns
                ∧ CWT.name column ∈ ExpressionActionsChain.columns array_join_
                ∧ CWT.type column ≫= IDataType.getNestedType = None
  end.
Proof.
  revert required result. induction columns as [|column columns IH]; intros required result.
  { simpl. rewrite app_nil_r. split; [done|]. exists []. by rewrite app_nil_r. }
  cbn [foldM].
  destruct (decide (CWT.name column ∈ ExpressionActionsChain.columns array_join_))
    as [Hjoined|Hjoined].
  - destruct (CWT.type column ≫= IDataType.getNestedType) as [nested|] eqn:Hnested.
    + assert (ExpressionActionsChain.ArrayJoinStep.joinColumn array_join_
                (required, result) column
              = Ok (required ++ [ExpressionActionsChain.nameAndType column],
                    result ++ [CWT.mk None (Some nested) (CWT.name column)])) as ->.
      { unfold ExpressionActionsChain.ArrayJoinStep.joinColumn.
        rewrite bool_decide_eq_true_2 by done. by rewrite Hnested. }
      simpl.
      specialize (IH (required ++ [ExpressionActionsChain.nameAndType column])
                     (result ++ [CWT.mk None (Some nested) (CWT.name column)])).
      destruct (foldM _ _ columns) as [[required' result']|e|]; [|done|].
      * destruct IH as (-> & news & -> & Hnews). rewrite <- !app_assoc.
        split; [done|]. eexists (_ :: news). split; [reflexivity|].
        constructor; [|done]. simpl. split; [done|].
        rewrite bool_decide_eq_true_2 by done. rewrite Hnested. eauto.
      * destruct IH as (c & Hc & Hin & Hnone). exists c. split; [by right|done].
    + assert (ExpressionActionsChain.ArrayJoinStep.joinColumn array_join_
                (required, result) column = Undefined) as ->.
      { unfold ExpressionActionsChain.ArrayJoinStep.joinColumn.
        rewrite bool_decide_eq_true_2 by done. by rewrite Hnested. }
      simpl. exists column. split; [left|done].
  - assert (ExpressionActionsChain.ArrayJoinStep.joinColumn array_join_
              (required, result) column
            = Ok (required ++ [ExpressionActionsChain.nameAndType column],
                  result ++ [column])) as ->.
    { unfold ExpressionActionsChain.ArrayJoinStep.joinColumn.
      by rewrite bool_decide_eq_false_2 by done. }
    simpl.
    specialize (IH (required ++ [ExpressionActionsChain.nameAndType column])
                   (result ++ [column])).
    destruct (foldM _ _ columns) as [[required' result']|e|]; [|done|].
    + destruct IH as (-> & news & -> & Hnews). rewrite <- !app_assoc.
      split; [done|]. eexists (_ :: news). split; [reflexivity|].
      constructor; [|done]. split; [done|]. by rewrite bool_decide_eq_false_2.
    + destruct IH as (c & Hc & Hin & Hnone). exists c. split; [by right|done].
Qed.

(** An array-join step requires the columns it is made from, as they are,
    and results in the same names in the same order, an array-joined column
    with the element type of its array type and without values; making the
    step is undefined when an array-joined column is not of an array type.
    [finalize] keeps the two lists by the same test on the name, so they
    stay aligned; it keeps every array-joined column and the columns
    required in the output, and doing it again changes nothing. *)
Theorem ArrayJoinStep_columns (array_join_ : ExpressionActionsChain.ArrayJoinAction)
    (required_columns_ : list CWT.t) :
  match ExpressionActionsChain.ArrayJoinStep.init array_join_ required_columns_ with
  | Ok step =>
      ExpressionActionsChain.ArrayJoinStep.required_columns step
      = ExpressionActionsChain.nameAndType <$> required_columns_
      ∧ Forall2 (λ column result,
                   CWT.name result = CWT.name column
                   ∧ if bool_decide (CWT.name column
                                     ∈ ExpressionActionsChain.columns array_join_)
                     then CWT.column result = None
                          ∧ is_Some (CWT.type result)
                          ∧ CWT.type result = CWT.type column ≫= IDataType.getNestedType
                     else result = column)
                required_columns_
                (ExpressionActionsChain.ArrayJoinStep.result_columns step)
      ∧ ∀ required_output_,
          let step' := ExpressionActionsChain.ArrayJoinStep.finalize step required_output_ in
          nt_name <$> ExpressionActionsChain.ArrayJoinStep.required_columns step'
          = CWT.name <$> ExpressionActionsChain.ArrayJoinStep.result_columns step'
          ∧ (∀ name,
               name ∈ CWT.name <$> ExpressionActionsChain.ArrayJoinStep.result_columns step'
               ↔ name ∈ CWT.name <$> required_columns_
                 ∧ (name ∈ ExpressionActionsChain.columns array_join_
                    ∨ name ∈ required_output_))
          ∧ ExpressionActionsChain.ArrayJoinStep.finalize step' required_output_ = step'
  | Throw e => False
  | Undefined =>
      ∃ column, column ∈ required_columns_
                ∧ CWT.name column ∈ ExpressionActionsChain.columns array_join_
                ∧ CWT.type column ≫= IDataType.getNestedType = None
  end.
Proof.
  unfold ExpressionActionsChain.ArrayJoinStep.init.
  pose proof (joinColumns_spec array_join_ required_columns_ [] []) as Hspec.
  destruct (foldM _ _ required_columns_) as [[required result]|e|]; [|done..].
  destruct Hspec as (-> & news & -> & Hnews). simpl.
  split; [done|]. split; [done|].
  assert (CWT.name <$> required_columns_ = CWT.name <$> news) as Hnames.
  { clear -Hnews.
    induction Hnews as [|column new columns news [Hname _] _ IH]; [done|].
    rewrite !fmap_cons, IH. by rewrite Hname. }
  assert (nt_name <$> (ExpressionActionsChain.nameAndType <$> required_columns_)
          = CWT.name <$> news) as Haligned.
  { rewrite <- Hnames, <- list_fmap_compose. by apply list_fmap_ext. }
  intros required_output_.
  unfold ExpressionActionsChain.ArrayJoinStep.finalize,
    ExpressionActionsChain.ArrayJoinStep.kept. simpl.
  split; [|split].
  - by apply (filter_aligned nt_name CWT.name
                (λ name, name ∈ ExpressionActionsChain.columns array_join_
                         ∨ name ∈ (list_to_set required_output_ : gset string))).
  - intros name. rewrite list_elem_of_fmap. split.
    + intros (c & -> & [Hkept Hc]%list_elem_of_filter). split.
      * rewrite Hnames. apply list_elem_of_fmap. eauto.
      * rewrite elem_of_list_to_set in Hkept. done.
    + intros [Hname Hkept].
      rewrite Hnames in Hname. apply list_elem_of_fmap in Hname as (c & -> & Hc).
      exists c. split; [done|]. apply list_elem_of_filter. split; [|done].
      rewrite elem_of_list_to_set. done.
  - f_equal; apply filter_idempotent.
Qed.

(** [JoinStep::finalize] keeps the order of the columns and invents none; a
    required column stays when it is required in the output or a left key
    of the join, a result column when it is that or a column the join adds;
    so a required column that stays is not dropped from the results, and
    finalizing again changes nothing. *)
Theorem JoinStep_finalize_keeps (this : ExpressionActionsChain.JoinStep.t)
    (required_output_ : list string) :
  let join := ExpressionActionsChain.JoinStep.analyzed_join this in
  let this' := ExpressionActionsChain.JoinStep.finalize this required_output_ in
  sublist (ExpressionActionsChain.JoinStep.required_columns this')
          (ExpressionActionsChain.JoinStep.required_columns this)
  ∧ sublist (ExpressionActionsChain.JoinStep.result_columns this')
            (ExpressionActionsChain.JoinStep.result_columns this)
  ∧ (∀ column,
       column ∈ ExpressionActionsChain.JoinStep.required_columns this'
       ↔ column ∈ ExpressionActionsChain.JoinStep.required_columns this
         ∧ (nt_name column ∈ required_output_
            ∨ nt_name column ∈ ExpressionActionsChain.keyNamesLeft join))
  ∧ (∀ column,
       column ∈ ExpressionActionsChain.JoinStep.result_columns this'
       ↔ column ∈ ExpressionActionsChain.JoinStep.result_columns this
         ∧ (CWT.name column ∈ required_output_
            ∨ CWT.name column ∈ ExpressionActionsChain.keyNamesLeft join
            ∨ CWT.name column ∈ nt_name <$> ExpressionActionsChain.columnsAddedByJoin join))
  ∧ (∀ name,
       name ∈ nt_name <$> ExpressionActionsChain.JoinStep.required_columns this' →
       name ∈ CWT.name <$> ExpressionActionsChain.JoinStep.result_columns this →
       name ∈ CWT.name <$> ExpressionActionsChain.JoinStep.result_columns this')
  ∧ ExpressionActionsChain.JoinStep.finalize this' required_output_ = this'.
Proof.
  intros join this'. subst this'.
  unfold ExpressionActionsChain.JoinStep.finalize. simpl. fold join.
  assert (∀ column,
            column ∈ filter (λ column, nt_name column
                                        ∈ (list_to_set required_output_
                                           ∪ list_to_set (ExpressionActionsChain.keyNamesLeft join)
                                           : gset string))
                            (ExpressionActionsChain.JoinStep.required_columns this)
            ↔ column ∈ ExpressionActionsChain.JoinStep.required_columns this
              ∧ (nt_name column ∈ required_output_
                 ∨ nt_name column ∈ ExpressionActionsChain.keyNamesLeft join)) as Hrequired.
  { intros column. rewrite list_elem_of_filter, elem_of_union, !elem_of_list_to_set.
    tauto. }
  assert (∀ column,
            column ∈ filter (λ column, CWT.name column
                                        ∈ (list_to_set required_output_
                                           ∪ list_to_set (ExpressionActionsChain.keyNamesLeft join)
                                           ∪ list_to_set
                                               (nt_name
                                                  <$> ExpressionActionsChain.columnsAddedByJoin
                                                        join)
                                           : gset string))
                            (ExpressionActionsChain.JoinStep.result_columns this)
            ↔ column ∈ ExpressionActionsChain.JoinStep.result_columns this
              ∧ (CWT.name column ∈ required_output_
                 ∨ CWT.name column ∈ ExpressionActionsChain.keyNamesLeft join
                 ∨ CWT.name column
                   ∈ nt_name <$> ExpressionActionsChain.columnsAddedByJoin join)) as Hresult.
  { intros column. rewrite list_elem_of_filter, !elem_of_union, !elem_of_list_to_set.
    tauto. }
  split; [apply sublist_filter|]. split; [apply sublist_filter|].
  split; [done|]. split; [done|]. split.
  - intros name (c & -> & [_ Hc]%Hrequired)%list_elem_of_fmap
      (r & Hname & Hr)%list_elem_of_fmap.
    apply list_elem_of_fmap. exists r. split; [done|]. apply Hresult.
    split; [done|]. rewrite <- Hname. tauto.
  - f_equal; apply filter_idempotent.
Qed.

(** ** Finalizing a chain *)

(** The last position of a name in a list. *)
Definition LastAt (names : list string) (name : string) (j : nat) : Prop :=
  names !! j = Some name ∧ ∀ k, j < k → names !! k ≠ Some name.

Lemma indexNames_from (names seen : list string) (indexes : gmap string nat) :
  (∀ name, match indexes !! name with
           | Some j => LastAt seen name j
           | None => name ∉ seen
           end) →
  ∀ name,
    match (foldl (λ '(indexes, j) name, (<[name := j]> indexes, S j))
                 (indexes, length seen) names).1 !! name with
    | Some j => LastAt (seen ++ names) name j
    | None => name ∉ seen ++ names
    end.
Proof.
  revert seen indexes. induction names as [|x names IH]; intros seen indexes Hseen name.
  { simpl. rewrite app_nil_r. apply Hseen. }
  simpl. replace (seen ++ x :: names) with ((seen ++ [x]) ++ names)
    by (by rewrite <- app_assoc).
  replace (S (length seen)) with (length (seen ++ [x])) by (rewrite length_app; simpl; lia).
  apply IH. clear name. intros name. rewrite lookup_insert. case_decide as Hcase.
  - subst x. split.
    + by rewrite lookup_app_r, Nat.sub_diag by lia.
    + intros k Hk. rewrite lookup_ge_None_2; [done|]. rewrite length_app. simpl. lia.
  - specialize (Hseen name). destruct (indexes !! name) as [j|].
    + destruct Hseen as [Hj Hlast]. split; [by apply lookup_app_l_Some|].
      intros k Hk [Hin | [_ Hin]]%lookup_app_Some; [by eapply Hlast|].
      apply list_lookup_singleton_Some in Hin as [_ ?]. congruence.
    + intros [Hin | Hin%list_elem_of_singleton]%elem_of_app; [done|congruence].
Qed.

(** [required_output_indexes] gives a name its last position. *)
Lemma indexNames_spec (names : list string) (name : string) :
  match ExpressionActionsChain.indexNames names !! name with
  | Some j => LastAt names name j
  | None => name ∉ names
  end.
Proof.
  unfold ExpressionActionsChain.indexNames.
  apply (indexNames_from names [] ∅). intros name'. rewrite lookup_empty. apply not_elem_of_nil.
Qed.

(** The names the next step needs from this one. *)
Definition needed (additional_input : gset string) (it : NameAndTypePair) : Prop :=
  nt_name it ∉ additional_input.

(** The loop over the columns the next step requires: the names that are
    not among the outputs are appended, the flags of those that are are
    cleared. *)
Lemma requireColumns_spec (indexes : gmap string nat) (additional_input : gset string)
    (columns : list NameAndTypePair) (required_output : list string) (can_remove : list bool)
    required_output' can_remove' :
  foldM (ExpressionActionsChain.requireColumn indexes additional_input)
        (required_output, can_remove) columns = Ok (required_output', can_remove') →
  required_output'
  = required_output
    ++ (nt_name <$> filter (λ it, (nt_name it ∉ additional_input)
                                  ∧ indexes !! nt_name it = None) columns)
  ∧ ∀ j, can_remove' !! j
         = if decide (Exists (λ it, (nt_name it ∉ additional_input)
                                    ∧ indexes !! nt_name it = Some j) columns)
           then (λ _, false) <$> can_remove !! j
           else can_remove !! j.
Proof.
  revert required_output can_remove.
  induction columns as [|it columns IH]; intros required_output can_remove.
  { intros [= <- <-]. rewrite app_nil_r. split; [done|]. intros j.
    rewrite decide_False; [done|]. by intros ?%Exists_nil. }
  cbn [foldM]. intros (state & Hstep & Hrest)%bind_Ok. destruct state as [out flags].
  apply IH in Hrest as [-> Hflags]. clear IH.
  revert Hstep. unfold ExpressionActionsChain.requireColumn.
  case_bool_decide as Hadditional.
  { intros [= <- <-]. rewrite filter_cons_False by tauto. split; [done|].
    intros j. rewrite Hflags. apply decide_ext. rewrite Exists_cons. tauto. }
  destruct (indexes !! nt_name it) as [i|] eqn:Hindex.
  - rewrite filter_cons_False by (intros [_ ?]; congruence).
    assert (∀ j, Exists (λ it', (nt_name it' ∉ additional_input)
                                ∧ indexes !! nt_name it' = Some j) (it :: columns)
                 ↔ j = i ∨ Exists (λ it', (nt_name it' ∉ additional_input)
                                          ∧ indexes !! nt_name it' = Some j) columns)
      as Hexists.
    { intros j. rewrite Exists_cons. rewrite Hindex. split.
      - intros [[_ [= <-]] | ?]; auto.
      - intros [-> | ?]; auto. }
    case_bool_decide as Hempty.
    { intros [= <- <-]. split; [done|]. intros j. rewrite Hflags, Hempty.
      rewrite !lookup_nil. by repeat case_decide. }
    case_bool_decide as Hrange; [|discriminate].
    intros [= <- <-]. split; [done|]. intros j. rewrite Hflags.
    destruct (decide (j = i)) as [->|Hne].
    + rewrite list_lookup_insert_eq by done.
      destruct (lookup_lt_is_Some_2 can_remove i Hrange) as [b ->].
      rewrite (decide_True (P := Exists _ (it :: columns))) by (apply Hexists; by left).
      by case_decide.
    + rewrite list_lookup_insert_ne by done. apply decide_ext. rewrite Hexists. tauto.
  - intros [= <- <-]. rewrite filter_cons_True by done. rewrite fmap_cons, <- app_assoc.
    split; [done|]. intros j. rewrite Hflags. apply decide_ext.
    rewrite Exists_cons. rewrite Hindex. split; [tauto|]. intros [[_ ?]|?]; [done|tauto].
Qed.

Section ChainProperties.

Context {Derived : Type}.
Context (finalizeStep : ExpressionActionsChain.Step Derived → list string
                        → Result (ExpressionActionsChain.Step Derived))
        (getRequiredColumns : ExpressionActionsChain.Step Derived → list NameAndTypePair)
        (getResultColumns : ExpressionActionsChain.Step Derived → list CWT.t)
        (prependProjectInput : ExpressionActionsChain.Step Derived
                               → Result (ExpressionActionsChain.Step Derived)).

#[local] Abbreviation Step := (ExpressionActionsChain.Step Derived).

(** What the first loop asks of one step, given the step after it as it is
    once finalized: the outputs required of the step, in their order, and
    after them the columns the next step requires that are neither its
    additional input nor among those outputs; the flag of an output that the
    next step requires is cleared, the other flags are left. *)
Definition Asked (step : Step) (next : option Step) (required_output_ : list string)
    (can_remove : list bool) : Prop :=
  match next with
  | None =>
      required_output_ = ExpressionActionsChain.required_output step
      ∧ can_remove = ExpressionActionsChain.can_remove_required_output step
  | Some next =>
      let wanted name :=
        name ∈ nt_name <$> getRequiredColumns next
        ∧ name ∉ ExpressionActionsChain.additional_input next in
      (∃ added, required_output_ = ExpressionActionsChain.required_output step ++ added
                ∧ ∀ name, name ∈ added
                          ↔ wanted name ∧ name ∉ ExpressionActionsChain.required_output step)
      ∧ (∀ name, wanted name → name ∈ required_output_)
      ∧ length can_remove
        = length (ExpressionActionsChain.can_remove_required_output step)
      ∧ ∀ j b,
          ExpressionActionsChain.can_remove_required_output step !! j = Some b →
          let hit := ∃ name, wanted name
                             ∧ LastAt (ExpressionActionsChain.required_output step) name j in
          (hit → can_remove !! j = Some false) ∧ (¬ hit → can_remove !! j = Some b)
  end.

Lemma requireFromNext_Asked (step : Step) (next : option Step) required_output_ can_remove :
  ExpressionActionsChain.requireFromNext getRequiredColumns step next
  = Ok (required_output_, can_remove) →
  Asked step next required_output_ can_remove.
Proof.
  unfold ExpressionActionsChain.requireFromNext, Asked.
  destruct next as [next|]; [|by intros [= <- <-]].
  intros [-> Hflags]%requireColumns_spec.
  set (out := ExpressionActionsChain.required_output step) in *.
  set (add := ExpressionActionsChain.additional_input next) in *.
  assert (∀ name,
            name ∈ nt_name <$> filter (λ it, (nt_name it ∉ add)
                                             ∧ ExpressionActionsChain.indexNames out
                                               !! nt_name it = None)
                                      (getRequiredColumns next)
            ↔ (name ∈ nt_name <$> getRequiredColumns next ∧ name ∉ add) ∧ name ∉ out)
    as Hadded.
  { intros name. rewrite !list_elem_of_fmap. split.
    - intros (it & -> & [[Hadd Hnone] Hit]%list_elem_of_filter).
      pose proof (indexNames_spec out (nt_name it)) as Hspec. rewrite Hnone in Hspec.
      eauto.
    - intros [[(it & -> & Hit) Hadd] Hout]. exists it. split; [done|].
      apply list_elem_of_filter. split; [|done]. split; [done|].
      pose proof (indexNames_spec out (nt_name it)) as Hspec.
      destruct (ExpressionActionsChain.indexNames out !! nt_name it) as [j|]; [|done].
      destruct Hspec as [Hj _]. exfalso. apply Hout. by eapply list_elem_of_lookup_2. }
  split; [eexists; split; [reflexivity|exact Hadded]|]. split; [|split].
  - intros name Hwanted. apply elem_of_app.
    destruct (decide (name ∈ out)); [by left|]. right. by apply Hadded.
  - apply Nat.le_antisymm.
    + destruct (decide (length can_remove
                        ≤ length (ExpressionActionsChain.can_remove_required_output step)))
        as [|Hgt]; [done|].
      pose proof (Hflags (length (ExpressionActionsChain.can_remove_required_output step)))
        as Hlast.
      rewrite (lookup_ge_None_2 (ExpressionActionsChain.can_remove_required_output step))
        in Hlast by lia.
      destruct (lookup_lt_is_Some_2 can_remove
                  (length (ExpressionActionsChain.can_remove_required_output step)))
        as [b Hb]; [lia|].
      rewrite Hb in Hlast. by case_decide.
    + destruct (decide (length (ExpressionActionsChain.can_remove_required_output step)
                        ≤ length can_remove)) as [|Hgt]; [done|].
      pose proof (Hflags (length can_remove)) as Hlast.
      rewrite (lookup_ge_None_2 can_remove) in Hlast by lia.
      destruct (lookup_lt_is_Some_2 (ExpressionActionsChain.can_remove_required_output step)
                  (length can_remove)) as [b Hb]; [lia|].
      rewrite Hb in Hlast. by case_decide.
  - intros j b Hb. rewrite Hflags, Hb.
    assert (Exists (λ it, (nt_name it ∉ add)
                          ∧ ExpressionActionsChain.indexNames out !! nt_name it = Some j)
                   (getRequiredColumns next)
            ↔ ∃ name, (name ∈ nt_name <$> getRequiredColumns next ∧ name ∉ add)
                      ∧ LastAt out name j) as Hexists.
    { rewrite Exists_exists. split.
      - intros (it & Hit & Hadd & Hj). exists (nt_name it).
        split; [split; [apply list_elem_of_fmap; eauto|done]|].
        pose proof (indexNames_spec out (nt_name it)) as Hspec. by rewrite Hj in Hspec.
      - intros (name & [(it & -> & Hit)%list_elem_of_fmap Hadd] & [Hj Hlast]).
        exists it. split; [done|]. split; [done|].
        pose proof (indexNames_spec out (nt_name it)) as Hspec.
        destruct (ExpressionActionsChain.indexNames out !! nt_name it) as [k|].
        + destruct Hspec as [Hk Hlast']. f_equal.
          destruct (Nat.lt_trichotomy j k) as [Hlt | [-> | Hlt]]; [|done|].
          * by apply Hlast in Hlt.
          * by apply Hlast' in Hlt.
        + exfalso. apply Hspec. by eapply list_elem_of_lookup_2. }
    simpl. case_decide as Hhit; rewrite Hexists in Hhit; split; tauto || done.
Qed.

(** The second loop keeps the steps, but for the project-input it prepends
    to steps after the first that have result columns. *)
Lemma projectInputs_spec (steps final : list Step) :
  ExpressionActionsChain.projectInputs getRequiredColumns getResultColumns
    prependProjectInput steps = Ok final →
  length final = length steps
  ∧ head final = head steps
  ∧ ∀ i step step',
      steps !! i = Some step → final !! i = Some step' →
      step' = step
      ∨ (0 < i ∧ getResultColumns step ≠ [] ∧ prependProjectInput step = Ok step').
Proof.
  unfold ExpressionActionsChain.projectInputs.
  destruct steps as [|first rest]; [by intros [= <-]|].
  intros ([final' last] & Hloop & [= <-])%bind_Ok.
  assert (∀ done previous,
            foldM (ExpressionActionsChain.projectInput getRequiredColumns getResultColumns
                     prependProjectInput) (done, previous) rest = Ok (final', last) →
            ∃ news, final' = done ++ news
                    ∧ Forall2 (λ step step',
                                 step' = step
                                 ∨ (getResultColumns step ≠ []
                                    ∧ prependProjectInput step = Ok step'))
                              rest news) as Hgen.
  { clear Hloop. induction rest as [|step rest IH]; intros done previous.
    - intros [= <- <-]. exists []. by rewrite app_nil_r.
    - cbn [foldM]. intros ([done' step'] & Hstep & Hrest)%bind_Ok.
      apply IH in Hrest as (news & -> & Hnews).
      revert Hstep. unfold ExpressionActionsChain.projectInput.
      intros (step'' & Hstep'' & [= <- <-])%bind_Ok.
      exists (step'' :: news). rewrite <- app_assoc. split; [done|].
      constructor; [|done].
      destruct (bool_decide (getResultColumns step ≠ [])) eqn:Hresult; simpl in Hstep''.
      + apply bool_decide_eq_true in Hresult.
        destruct (bool_decide _); [by right|]. left. by injection Hstep'' as <-.
      + left. by injection Hstep'' as <-. }
  apply Hgen in Hloop as (news & -> & Hnews). simpl.
  split; [f_equal; symmetry; by eapply Forall2_length|]. split; [done|].
  intros [|i] step step'; simpl; [intros [= <-] [= <-]; by left|].
  intros Hstep Hstep'.
  destruct (Forall2_lookup_lr _ _ _ _ _ _ Hnews Hstep Hstep') as [-> | [? ?]];
    [by left|right]. split; [lia|done].
Qed.

(** [finalize] asks each step, from the last to the first, for the outputs
    required of it and for what the step after it, once finalized, requires
    and does not get as additional input; an output that the next step
    requires may not be removed.  The steps are kept in number and order;
    the second loop leaves the first step alone and prepends a
    project-input only to steps that have result columns. *)
Theorem chain_finalize_requires (steps final : list Step) :
  ExpressionActionsChain.finalize finalizeStep getRequiredColumns getResultColumns
    prependProjectInput steps = Ok final →
  ∃ finalized,
    length finalized = length steps
    ∧ (∀ i step,
         steps !! i = Some step →
         ∃ step' required_output_ can_remove,
           finalized !! i = Some step'
           ∧ finalizeStep
               (ExpressionActionsChain.mkStep
                  (ExpressionActionsChain.required_output step) can_remove
                  (ExpressionActionsChain.additional_input step)
                  (ExpressionActionsChain.derived step))
               required_output_ = Ok step'
           ∧ Asked step (finalized !! S i) required_output_ can_remove)
    ∧ length final = length steps
    ∧ head final = head finalized
    ∧ ∀ i step step',
        finalized !! i = Some step → final !! i = Some step' →
        step' = step
        ∨ (0 < i ∧ getResultColumns step ≠ [] ∧ prependProjectInput step = Ok step').
Proof.
  unfold ExpressionActionsChain.finalize.
  intros (finalized & Hfirst & Hsecond)%bind_Ok. exists finalized.
  apply projectInputs_spec in Hsecond as (Hlen & Hhead & Hsteps).
  assert (length finalized = length steps
          ∧ ∀ i step,
              steps !! i = Some step →
              ∃ step' required_output_ can_remove,
                finalized !! i = Some step'
                ∧ finalizeStep
                    (ExpressionActionsChain.mkStep
                       (ExpressionActionsChain.required_output step) can_remove
                       (ExpressionActionsChain.additional_input step)
                       (ExpressionActionsChain.derived step))
                    required_output_ = Ok step'
                ∧ Asked step (finalized !! S i) required_output_ can_remove) as [Hlen' Hfin].
  { clear Hlen Hhead Hsteps final. revert finalized Hfirst.
    induction steps as [|step steps IH]; intros finalized; simpl.
    - intros [= <-]. split; [done|]. by intros i step ?.
    - intros (rest & Hrest & H)%bind_Ok.
      apply bind_Ok in H as ([required_output_ can_remove] & Hask & H).
      apply bind_Ok in H as (step' & Hstep' & [= <-]).
      destruct (IH rest Hrest) as [Hlen IHrest]. simpl.
      split; [by rewrite Hlen|].
      intros [|i] step0; simpl.
      + intros [= <-]. exists step', required_output_, can_remove.
        split; [done|]. split; [done|].
        apply requireFromNext_Asked in Hask. by rewrite head_lookup in Hask.
      + apply IHrest. }
  split; [done|]. split; [done|]. split; [congruence|]. done.
Qed.

End ChainProperties.

(** ** The theorems at concrete inputs, continued *)

(** A chain of an array-join step and a join step; their project-input
    does nothing. *)
Module ChainScenarios.

Inductive Derived :=
  | ArrayJoin (step : ExpressionActionsChain.ArrayJoinStep.t)
  | Join (step : ExpressionActionsChain.JoinStep.t).

Definition Step : Type := ExpressionActionsChain.Step Derived.

Definition finalizeStep (step : Step) (required_output_ : list string) : Result Step :=
  Ok (ExpressionActionsChain.mkStep
        (ExpressionActionsChain.required_output step)
        (ExpressionActionsChain.can_remove_required_output step)
        (ExpressionActionsChain.additional_input step)
        match ExpressionActionsChain.derived step with
        | ArrayJoin s => ArrayJoin (ExpressionActionsChain.ArrayJoinStep.finalize s required_output_)
        | Join s => Join (ExpressionActionsChain.JoinStep.finalize s required_output_)
        end).

Definition getRequiredColumns (step : Step) : list NameAndTypePair :=
  match ExpressionActionsChain.derived step with
  | ArrayJoin s => ExpressionActionsChain.ArrayJoinStep.required_columns s
  | Join s => ExpressionActionsChain.JoinStep.required_columns s
  end.

Definition getResultColumns (step : Step) : list CWT.t :=
  match ExpressionActionsChain.derived step with
  | ArrayJoin s => ExpressionActionsChain.ArrayJoinStep.result_columns s
  | Join s => ExpressionActionsChain.JoinStep.result_columns s
  end.

Definition prependProjectInput (step : Step) : Result Step := Ok step.

Definition arr : CWT.t := CWT.mk None (Some (IDataType.DataTypeArray Scenarios.Int64)) "arr".
Definition key : CWT.t := CWT.mk None (Some Scenarios.Int64) "key".
Definition tag : CWT.t := CWT.mk None (Some Scenarios.String_) "tag".

Definition array_join_step : ExpressionActionsChain.ArrayJoinStep.t :=
  Scenarios.the (ExpressionActionsChain.ArrayJoinStep.mk
                   {| ExpressionActionsChain.columns := ∅ |} [] [])
    (ExpressionActionsChain.ArrayJoinStep.init
       {| ExpressionActionsChain.columns := {["arr"]} |} [arr; key; tag]).

Definition table_join : ExpressionActionsChain.TableJoin :=
  {| ExpressionActionsChain.keyNamesLeft := ["key"];
     ExpressionActionsChain.columnsAddedByJoin :=
       [{| nt_name := "joined"; nt_type := Some Scenarios.Int64 |}];
     ExpressionActionsChain.addJoinedColumnsAndCorrectNullability :=
       λ columns, columns ++ [CWT.mk None (Some Scenarios.Int64) "joined"] |}.

Definition join_step : ExpressionActionsChain.JoinStep.t :=
  ExpressionActionsChain.JoinStep.init table_join
    [CWT.mk None (Some Scenarios.Int64) "arr"; key].

(** The array join, of which [tag] and [arr] are required, and then the
    join, of which [joined] is required. *)
Definition steps : list Step :=
  [ExpressionActionsChain.mkStep ["tag"; "arr"] [true; true] ∅ (ArrayJoin array_join_step);
   ExpressionActionsChain.mkStep ["joined"] [true] ∅ (Join join_step)].

Definition finalize : list Step → Result (list Step) :=
  ExpressionActionsChain.finalize finalizeStep getRequiredColumns getResultColumns
    prependProjectInput.

End ChainScenarios.

(** [buildExpressions_program_in_range] on [c = g(f(a))]. *)
Lemma buildExpressions_program_in_range_witness :
  ∃ this' program,
    ActionsDAG.buildExpressions Scenarios.unpruned_chain_dag = Ok (this', program)
    ∧ ExpressionActions.num_columns program = 3
    ∧ Forall (λ a, ExpressionActions.result_position a < ExpressionActions.num_columns program
                   ∧ Forall (λ arg, ExpressionActions.pos arg
                                    < ExpressionActions.num_columns program)
                            (ExpressionActions.arguments a)
                   ∧ ExpressionActions.node a ∈ ExpressionActions.nodes program
                   ∧ Node.type (ExpressionActions.node a) ≠ INPUT)
             (ExpressionActions.actions program).
Proof.
  destruct (ActionsDAG.buildExpressions Scenarios.unpruned_chain_dag)
    as [[this' program]|e|] eqn:Hbuild; [|vm_compute in Hbuild; discriminate..].
  exists this', program. split; [done|]. split.
  - vm_compute in Hbuild. by injection Hbuild as _ <-.
  - exact (proj1 (buildExpressions_program_in_range _ _ _ Hbuild)).
Defined.

(** [buildExpressions_consumes_dag] on [c = g(f(a))]. *)
Lemma buildExpressions_consumes_dag_witness :
  ∃ this' program,
    ActionsDAG.buildExpressions Scenarios.unpruned_chain_dag = Ok (this', program)
    ∧ ActionsDAG.nodes this' = []
    ∧ ExpressionActions.nodes program = ActionsDAG.nodes Scenarios.unpruned_chain_dag.
Proof.
  destruct (ActionsDAG.buildExpressions Scenarios.unpruned_chain_dag)
    as [[this' program]|e|] eqn:Hbuild; [|vm_compute in Hbuild; discriminate..].
  exists this', program. split; [done|].
  pose proof (buildExpressions_consumes_dag _ _ _ Hbuild) as (Hnodes & _ & _ & _ & Hprogram & _).
  by split.
Defined.

(** [removeUnusedActions_idempotent] on [c = g(f(a))] pruned for [b]. *)
Lemma removeUnusedActions_idempotent_witness :
  WellFormed Scenarios.unpruned_chain_dag
  ∧ ∃ this',
      ActionsDAG.removeUnusedActions Scenarios.unpruned_chain_dag ["b"] = Ok this'
      ∧ Node.result_name <$> ActionsDAG.nodes this' = ["a"; "b"]
      ∧ ActionsDAG.removeUnusedActions this' ["b"] = Ok this'.
Proof.
  assert (WellFormed Scenarios.unpruned_chain_dag) as Hwf.
  { apply WellFormed_decide; [|apply ValidPointers_decide|];
      apply (bool_decide_unpack _); vm_compute; exact I. }
  split; [exact Hwf|].
  destruct (ActionsDAG.removeUnusedActions Scenarios.unpruned_chain_dag ["b"])
    as [this'|e|] eqn:Hprune; [|vm_compute in Hprune; discriminate..].
  exists this'. split; [done|]. split.
  - vm_compute in Hprune. by injection Hprune as <-.
  - exact (removeUnusedActions_idempotent _ _ _ Hwf Hprune).
Defined.

Lemma x_dag_Built : Built Scenarios.x_dag.
Proof.
  eapply built_step; [apply built_init|].
  eapply (builds_input _ "x" (Some Scenarios.Int64)). reflexivity.
Qed.

(** [Built_names] on the DAG with the input [x]. *)
Lemma Built_names_witness :
  Built Scenarios.x_dag
  ∧ ActionsDAG.getNames Scenarios.x_dag = ["x"]
  ∧ NoDup (ActionsDAG.getNames Scenarios.x_dag)
  ∧ length (ActionsDAG.getResultColumns Scenarios.x_dag)
    = size (ActionsDAG.index Scenarios.x_dag).
Proof.
  split; [exact x_dag_Built|]. split; [reflexivity|].
  pose proof (Built_names Scenarios.x_dag x_dag_Built) as (Hnodup & _ & Hsize & _).
  by split.
Defined.

(** [Builds_getNode] on the DAG with the input [x], to which the alias [x]
    of [x] is added with replacement. *)
Lemma Builds_getNode_witness :
  Built Scenarios.x_dag
  ∧ ∃ this' res,
      ActionsDAG.addAlias Scenarios.x_dag "x" "x" true = Ok (this', res)
      ∧ Node.type res = ALIAS
      ∧ length (ActionsDAG.nodes this') = 2
      ∧ ActionsDAG.getNode this' (Node.result_name res) = Ok res
      ∧ ActionsDAG.getNames this'
        = filter (λ name, name ≠ Node.result_name res) (ActionsDAG.getNames Scenarios.x_dag)
          ++ [Node.result_name res].
Proof.
  split; [exact x_dag_Built|].
  destruct (ActionsDAG.addAlias Scenarios.x_dag "x" "x" true)
    as [[this' res]|e|] eqn:Halias; [|vm_compute in Halias; discriminate..].
  exists this', res. split; [done|].
  split; [vm_compute in Halias; by injection Halias as _ <-|].
  split; [vm_compute in Halias; by injection Halias as <- _|].
  pose proof (Builds_getNode Scenarios.x_dag this' res x_dag_Built
                (builds_alias _ _ _ _ _ _ Halias)) as (Hget & _ & Hnames).
  by split.
Defined.

(** [builders_errors] on the DAG with the input [x], which holds no [y]. *)
Lemma builders_errors_witness :
  ValidPointers Scenarios.x_dag
  ∧ ActionsDAG.index Scenarios.x_dag !! "y" = None
  ∧ (∃ e, ActionsDAG.addAlias Scenarios.x_dag "y" "z" false = Throw e
          ∧ code e = UNKNOWN_IDENTIFIER)
  ∧ (∃ e, ActionsDAG.addFunction false Scenarios.x_dag Scenarios.f ["x"; "y"] ""
            (Scenarios.context 0) = Throw e
          ∧ code e = UNKNOWN_IDENTIFIER).
Proof.
  assert (ValidPointers Scenarios.x_dag) as Hvalid.
  { apply ValidPointers_decide; apply (bool_decide_unpack _); vm_compute; exact I. }
  split; [exact Hvalid|]. split; [reflexivity|].
  destruct (builders_errors Scenarios.x_dag Hvalid) as (Hmissing & _ & _).
  destruct (Hmissing "y" eq_refl) as (_ & Halias & _ & Hfunction).
  split; [apply Halias|]. apply Hfunction. set_solver.
Defined.

(** [chain_finalize_requires] on an array join followed by a join: the
    array-join step is asked for [tag] and [arr], and for [key], which the
    join requires. *)
Lemma chain_finalize_requires_witness :
  ∃ final,
    ChainScenarios.finalize ChainScenarios.steps = Ok final
    ∧ (λ step, CWT.name <$> ChainScenarios.getResultColumns step) <$> final
      = [["arr"; "key"; "tag"]; ["key"; "joined"]]
    ∧ ∃ finalized,
        length finalized = length ChainScenarios.steps
        ∧ ∀ i step,
            ChainScenarios.steps !! i = Some step →
            ∃ step' required_output_ can_remove,
              finalized !! i = Some step'
              ∧ ChainScenarios.finalizeStep
                  (ExpressionActionsChain.mkStep
                     (ExpressionActionsChain.required_output step) can_remove
                     (ExpressionActionsChain.additional_input step)
                     (ExpressionActionsChain.derived step))
                  required_output_ = Ok step'
              ∧ Asked ChainScenarios.getRequiredColumns step (finalized !! S i)
                      required_output_ can_remove.
Proof.
  destruct (ChainScenarios.finalize ChainScenarios.steps) as [final|e|] eqn:Hfinal;
    [|vm_compute in Hfinal; discriminate..].
  exists final. split; [done|]. split.
  - vm_compute in Hfinal. by injection Hfinal as <-.
  - destruct (chain_finalize_requires _ _ _ _ _ _ Hfinal)
      as (finalized & Hlen & Hasked & _).
    exists finalized. by split.
Defined.

(** ** The linearizer schedules every node *)

(** How often [q] has the child [c]. *)
Definition occurrences (c : NodePtr) (q : Node.t) : list NodePtr :=
  filter (λ child, child = c) (Node.children q).

(** The parents of [c], one for each time it is a child, in the order of
    the nodes. *)
Definition parentsOf (ns : list Node.t) (c : NodePtr) : list NodePtr :=
  ns ≫= λ q, (λ _, Node.addr q) <$> occurrences c q.

(** The nodes that [p] renames. *)
Definition renamersOf (ns : list Node.t) (p : NodePtr) : list Node.t :=
  filter (λ k, Node.renaming_parent k = Some p) ns.

(** The children a node waits for, and those of them that are in [P]. *)
Definition expectedOf (ns : list Node.t) (m : Node.t) : nat :=
  length (Node.children m) + length (renamersOf ns (Node.addr m)).

Definition doneOf (ns : list Node.t) (P : gset NodePtr) (m : Node.t) : nat :=
  length (filter (λ child, child ∈ P) (Node.children m))
  + length (filter (λ k, Node.addr k ∈ P) (renamersOf ns (Node.addr m))).

Lemma length_filter_le {A} (P : A → Prop) `{!∀ x, Decision (P x)} (l : list A) :
  length (filter P l) ≤ length l.
Proof.
  induction l as [|x l IH]; [done|]. rewrite filter_cons. case_decide; simpl; lia.
Qed.

Lemma length_filter_all {A} (P : A → Prop) `{!∀ x, Decision (P x)} (l : list A) :
  length (filter P l) = length l → Forall P l.
Proof.
  induction l as [|x l IH]; [constructor|]. rewrite filter_cons.
  pose proof (length_filter_le P l). case_decide; simpl; [|lia].
  intros [= Hlen]. constructor; auto.
Qed.

Lemma doneOf_le ns P m : doneOf ns P m ≤ expectedOf ns m.
Proof. unfold doneOf, expectedOf. apply Nat.add_le_mono; apply length_filter_le. Qed.

Lemma doneOf_full ns P m :
  doneOf ns P m = expectedOf ns m →
  (∀ child, child ∈ Node.children m → child ∈ P)
  ∧ (∀ k, k ∈ ns → Node.renaming_parent k = Some (Node.addr m) → Node.addr k ∈ P).
Proof.
  unfold doneOf, expectedOf. intros Heq.
  pose proof (length_filter_le (λ child, child ∈ P) (Node.children m)) as Hc.
  pose proof (length_filter_le (λ k, Node.addr k ∈ P) (renamersOf ns (Node.addr m))) as Hr.
  split.
  - apply Forall_forall. apply (length_filter_all (λ child, child ∈ P)). lia.
  - intros k Hk Hparent.
    assert (Forall (λ k, Node.addr k ∈ P) (renamersOf ns (Node.addr m))) as Hall
      by (apply (length_filter_all (λ k, Node.addr k ∈ P)); lia).
    rewrite Forall_forall in Hall. apply Hall. by apply list_elem_of_filter.
Qed.

Lemma doneOf_mono ns (P P' : gset NodePtr) m : P ⊆ P' → doneOf ns P m ≤ doneOf ns P' m.
Proof.
  intros Hsub. unfold doneOf.
  assert (∀ {A} (f : A → NodePtr) (l : list A),
            length (filter (λ x, f x ∈ P) l) ≤ length (filter (λ x, f x ∈ P') l)) as Hmono.
  { intros A f l. induction l as [|x l IH]; [done|]. rewrite !filter_cons.
    destruct (decide (f x ∈ P)) as [Hin|Hout].
    - rewrite decide_True by set_solver. simpl. lia.
    - case_decide; simpl; lia. }
  apply Nat.add_le_mono; [apply (Hmono _ id)|apply (Hmono _ Node.addr)].
Qed.

Lemma filter_none {A} (P : A → Prop) `{!∀ x, Decision (P x)} (l : list A) :
  (∀ x, x ∈ l → ¬ P x) → filter P l = [].
Proof.
  induction l as [|x l IH]; intros Hnone; [done|].
  rewrite filter_cons_False by (apply Hnone; left). apply IH.
  intros y Hy. apply Hnone. by right.
Qed.

Lemma filter_addr_NoDup (l : list Node.t) (m : Node.t) :
  NoDup (Node.addr <$> l) → m ∈ l → filter (λ n, Node.addr n = Node.addr m) l = [m].
Proof.
  induction l as [|a l IH]; intros Hnodup Hm; [by apply elem_of_nil in Hm|].
  rewrite fmap_cons in Hnodup. apply NoDup_cons in Hnodup as [Ha Hnodup].
  apply elem_of_cons in Hm as [->|Hm].
  - rewrite filter_cons_True by done. f_equal.
    destruct (filter (λ n, Node.addr n = Node.addr a) l) as [|x rest] eqn:Hfilter; [done|].
    assert (x ∈ filter (λ n, Node.addr n = Node.addr a) l) as Hx by (rewrite Hfilter; left).
    apply list_elem_of_filter in Hx as [Hx Hin]. exfalso. apply Ha.
    rewrite <- Hx. apply list_elem_of_fmap. eauto.
  - rewrite filter_cons_False; [by apply IH|].
    intros Heq. apply Ha. rewrite Heq. apply list_elem_of_fmap. eauto.
Qed.

Section Schedule.

Context (ns : list Node.t) (reverse_index : gmap NodePtr nat).
Hypothesis Hnodup : NoDup (Node.addr <$> ns).
Hypothesis Hnumbered : Numbered ns reverse_index.

(** [data[reverse_index[ptr]]] *)
Definition dataAt (data : list ActionsDAG.Data) (ptr : NodePtr) : ActionsDAG.Data :=
  data !!! ActionsDAG.idOf reverse_index ptr.

Lemma idOf_inj (p q : NodePtr) :
  p ∈ addresses ns → q ∈ addresses ns →
  ActionsDAG.idOf reverse_index p = ActionsDAG.idOf reverse_index q → p = q.
Proof.
  intros [n [Hn <-]%deref_Some]%elem_of_addresses [m [Hm <-]%deref_Some]%elem_of_addresses.
  apply list_elem_of_lookup in Hn as [i Hi]. apply list_elem_of_lookup in Hm as [j Hj].
  rewrite (Hnumbered i n Hi), (Hnumbered j m Hj). intros ->. congruence.
Qed.

(** A write to the entry of one node is seen at that node only. *)
Lemma dataAt_alter f (q p : NodePtr) (data : list ActionsDAG.Data) :
  q ∈ addresses ns → p ∈ addresses ns → length data = length ns →
  dataAt (alter f (ActionsDAG.idOf reverse_index q) data) p
  = if decide (q = p) then f (dataAt data p) else dataAt data p.
Proof.
  intros Hq Hp Hlen. unfold dataAt. case_decide as Hcase.
  - subst q. apply list_lookup_total_alter_eq. rewrite Hlen. by apply Numbered_lt.
  - apply list_lookup_total_alter_ne. intros Heq. by apply Hcase, idOf_inj.
Qed.

Lemma elem_of_addresses_elem (n : Node.t) : n ∈ ns → Node.addr n ∈ addresses ns.
Proof. intros Hn. apply elem_of_addresses. by apply deref_is_Some. Qed.

(** *** What the second loop records *)

(** What a list of nodes adds to the entry of [p]. *)
Definition addedExpected (l : list Node.t) (p : NodePtr) : nat :=
  sum_list ((λ n, (if decide (Node.addr n = p) then length (Node.children n) else 0)
                  + (if decide (Node.renaming_parent n = Some p) then 1 else 0)) <$> l).

Lemma addedExpected_cons (n : Node.t) (l : list Node.t) (p : NodePtr) :
  addedExpected (n :: l) p = addedExpected [n] p + addedExpected l p.
Proof. unfold addedExpected. rewrite !fmap_cons. simpl. lia. Qed.

Lemma pushParents_at (a : NodePtr) (children : list NodePtr) (data : list ActionsDAG.Data)
    (p : NodePtr) :
  p ∈ addresses ns → (∀ child, child ∈ children → child ∈ addresses ns) →
  length data = length ns →
  let data' := foldl (λ data child,
                        alter (ActionsDAG.push_parent a)
                              (ActionsDAG.idOf reverse_index child) data)
                     data children in
  length data' = length ns
  ∧ ActionsDAG.num_created_children (dataAt data' p)
    = ActionsDAG.num_created_children (dataAt data p)
  ∧ ActionsDAG.num_expected_children (dataAt data' p)
    = ActionsDAG.num_expected_children (dataAt data p)
  ∧ ActionsDAG.position (dataAt data' p) = ActionsDAG.position (dataAt data p)
  ∧ ActionsDAG.parents (dataAt data' p)
    = ActionsDAG.parents (dataAt data p)
      ++ ((λ _, a) <$> filter (λ child, child = p) children).
Proof.
  intros Hp. revert data. induction children as [|child children IH]; intros data Hvalid Hlen.
  { simpl. by rewrite app_nil_r. }
  simpl.
  destruct (IH (alter (ActionsDAG.push_parent a) (ActionsDAG.idOf reverse_index child) data))
    as (Hlen' & Hcreated & Hexpected & Hposition & Hparents).
  { intros c Hc. apply Hvalid. by right. }
  { by rewrite length_alter. }
  rewrite Hcreated, Hexpected, Hposition, Hparents.
  rewrite dataAt_alter by (done || apply Hvalid; left).
  split; [done|]. rewrite filter_cons.
  destruct (decide (child = p)) as [->|Hne]; simpl; [|done].
  by rewrite <- app_assoc.
Qed.

Lemma countNode_at (this : ActionsDAG.t) (n : Node.t) (data : list ActionsDAG.Data)
    (p : NodePtr) :
  p ∈ addresses ns → n ∈ ns →
  (∀ child, child ∈ Node.children n → child ∈ addresses ns) →
  (∀ parent, Node.renaming_parent n = Some parent → parent ∈ addresses ns) →
  length data = length ns →
  let data' := ActionsDAG.countNode this reverse_index data n in
  length data' = length ns
  ∧ ActionsDAG.num_created_children (dataAt data' p)
    = ActionsDAG.num_created_children (dataAt data p)
  ∧ ActionsDAG.position (dataAt data' p) = ActionsDAG.position (dataAt data p)
  ∧ ActionsDAG.num_expected_children (dataAt data' p)
    = ActionsDAG.num_expected_children (dataAt data p) + addedExpected [n] p
  ∧ ActionsDAG.parents (dataAt data' p)
    = ActionsDAG.parents (dataAt data p) ++ ((λ _, Node.addr n) <$> occurrences p n).
Proof.
  intros Hp Hn Hchildren Hparent Hlen. unfold ActionsDAG.countNode, addedExpected. simpl.
  rewrite Nat.add_0_r.
  destruct (Node.renaming_parent n) as [parent|] eqn:Hrenaming.
  all: match goal with
       | |- context [foldl _ ?d _] => set (data1 := d)
       end.
  all: assert (length data1 = length ns) as Hlen1 by (unfold data1; by rewrite length_alter).
  all: destruct (pushParents_at (Node.addr n) (Node.children n) data1 p Hp Hchildren Hlen1)
         as (Hlen2 & Hcreated & Hexpected & Hposition & Hparents).
  all: assert (dataAt data1 p
               = if decide (Node.addr n = p)
                 then ActionsDAG.set_used_in_result
                        (ActionsDAG.used_in_result (dataAt data1 (Node.addr n)))
                        (ActionsDAG.add_expected_children (length (Node.children n))
                           (dataAt data p))
                 else dataAt data p) as Hfirst
         by (unfold data1;
             rewrite !dataAt_alter by (done || by apply elem_of_addresses_elem);
             rewrite (decide_True (P := Node.addr n = Node.addr n)) by done;
             by case_decide).
  - rewrite length_alter. split; [done|].
    rewrite dataAt_alter by (done || by apply Hparent).
    destruct (decide (parent = p)) as [->|Hne]; simpl;
      rewrite Hcreated, Hexpected, Hposition, Hparents, Hfirst;
      repeat case_decide; simplify_eq/=;
      (split; [done|]); (split; [done|]); (split; [lia|done]).
  - split; [done|].
    rewrite Hcreated, Hexpected, Hposition, Hparents, Hfirst.
    repeat case_decide; simplify_eq/=;
      (split; [done|]); (split; [done|]); (split; [lia|done]).
Qed.

Lemma countNodes_at (this : ActionsDAG.t) (l : list Node.t) (data : list ActionsDAG.Data)
    (p : NodePtr) :
  p ∈ addresses ns →
  (∀ n, n ∈ l → n ∈ ns
                ∧ (∀ child, child ∈ Node.children n → child ∈ addresses ns)
                ∧ (∀ parent, Node.renaming_parent n = Some parent → parent ∈ addresses ns)) →
  length data = length ns →
  let data' := foldl (ActionsDAG.countNode this reverse_index) data l in
  length data' = length ns
  ∧ ActionsDAG.num_created_children (dataAt data' p)
    = ActionsDAG.num_created_children (dataAt data p)
  ∧ ActionsDAG.position (dataAt data' p) = ActionsDAG.position (dataAt data p)
  ∧ ActionsDAG.num_expected_children (dataAt data' p)
    = ActionsDAG.num_expected_children (dataAt data p) + addedExpected l p
  ∧ ActionsDAG.parents (dataAt data' p) = ActionsDAG.parents (dataAt data p) ++ parentsOf l p.
Proof.
  intros Hp. revert data. induction l as [|n l IH]; intros data Hl Hlen.
  { simpl. unfold addedExpected, parentsOf. simpl. by rewrite Nat.add_0_r, app_nil_r. }
  simpl. destruct (Hl n ltac:(left)) as (Hn & Hchildren & Hparent).
  destruct (countNode_at this n data p Hp Hn Hchildren Hparent Hlen)
    as (Hlen1 & Hcreated1 & Hposition1 & Hexpected1 & Hparents1).
  destruct (IH (ActionsDAG.countNode this reverse_index data n))
    as (Hlen' & Hcreated & Hposition & Hexpected & Hparents); [|done|].
  { intros m Hm. apply Hl. by right. }
  rewrite Hcreated, Hposition, Hexpected, Hparents, Hcreated1, Hposition1, Hexpected1, Hparents1.
  split; [done|]. split; [done|]. split; [done|]. split.
  - rewrite (addedExpected_cons n l). lia.
  - unfold parentsOf. simpl. by rewrite <- app_assoc.
Qed.

(** With distinct addresses, what the nodes add to the entry of a node is
    the number of children it waits for. *)
Lemma addedExpected_expectedOf (m : Node.t) :
  m ∈ ns → addedExpected ns (Node.addr m) = expectedOf ns m.
Proof.
  intros Hm. unfold addedExpected, expectedOf, renamersOf.
  assert (∀ l : list Node.t,
            sum_list ((λ n, (if decide (Node.addr n = Node.addr m)
                             then length (Node.children n) else 0)
                            + (if decide (Node.renaming_parent n = Some (Node.addr m))
                               then 1 else 0)) <$> l)
            = sum_list ((λ n, length (Node.children n))
                          <$> filter (λ n, Node.addr n = Node.addr m) l)
              + length (filter (λ k, Node.renaming_parent k = Some (Node.addr m)) l)) as Hsplit.
  { induction l as [|n l IH]; [done|]. rewrite fmap_cons. cbn [sum_list]. rewrite IH.
    rewrite !filter_cons.
    repeat case_decide; rewrite ?fmap_cons; cbn [sum_list length]; unfold id;
      first [lia|done]. }
  rewrite Hsplit. f_equal.
  rewrite filter_addr_NoDup by done. simpl. lia.
Qed.


(** *** How the main loop moves the counters *)

Hypothesis Hchildren : ∀ n child, n ∈ ns → child ∈ Node.children n → child ∈ addresses ns.
Hypothesis Hrenaming : ∀ n parent,
  n ∈ ns → Node.renaming_parent n = Some parent → parent ∈ addresses ns.

(** How often [q] is in a list of pointers. *)
Definition count (q : NodePtr) (l : list NodePtr) : nat := length (filter (λ x, x = q) l).

Lemma count_app q l k : count q (l ++ k) = count q l + count q k.
Proof. unfold count. by rewrite filter_app, length_app. Qed.

Lemma count_pos q l : 0 < count q l ↔ q ∈ l.
Proof.
  unfold count. split.
  - destruct (filter (λ x, x = q) l) as [|x rest] eqn:Hfilter; [simpl; lia|]. intros _.
    assert (x ∈ filter (λ x, x = q) l) as Hx by (rewrite Hfilter; left).
    by apply list_elem_of_filter in Hx as [-> ?].
  - intros Hq. assert (q ∈ filter (λ x, x = q) l) as Hin by (by apply list_elem_of_filter).
    destruct (filter (λ x, x = q) l); [by apply elem_of_nil in Hin|simpl; lia].
Qed.

Lemma parentsOf_elem (l : list Node.t) (p x : NodePtr) :
  x ∈ parentsOf l p ↔ ∃ q, q ∈ l ∧ x = Node.addr q ∧ p ∈ Node.children q.
Proof.
  unfold parentsOf, occurrences. rewrite list_elem_of_bind. split.
  - intros (q & (c & -> & [-> Hc]%list_elem_of_filter)%list_elem_of_fmap & Hq). eauto.
  - intros (q & Hq & -> & Hp). exists q. split; [|done].
    apply list_elem_of_fmap. exists p. split; [done|]. by apply list_elem_of_filter.
Qed.

Lemma parentsOf_cons (a : Node.t) (l : list Node.t) (p : NodePtr) :
  parentsOf (a :: l) p = ((λ _, Node.addr a) <$> occurrences p a) ++ parentsOf l p.
Proof. reflexivity. Qed.

Lemma parentsOf_count (l : list Node.t) (m : Node.t) (p : NodePtr) :
  NoDup (Node.addr <$> l) → m ∈ l →
  count (Node.addr m) (parentsOf l p) = length (occurrences p m).
Proof.
  unfold count.
  induction l as [|a l IH]; intros Hnd Hm; [by apply elem_of_nil in Hm|].
  rewrite fmap_cons in Hnd. apply NoDup_cons in Hnd as [Ha Hnd].
  rewrite parentsOf_cons, filter_app, length_app.
  apply elem_of_cons in Hm as [Heq|Hm].
  - subst a. rewrite (filter_none _ (parentsOf l p)).
    2:{ intros x (q & Hq & Hx & _)%parentsOf_elem Heq. apply Ha.
        rewrite <- Heq, Hx. apply list_elem_of_fmap. eauto. }
    rewrite filter_all.
    2:{ intros x (c & Hx & _)%list_elem_of_fmap. exact Hx. }
    rewrite length_fmap. simpl. lia.
  - rewrite IH by done. rewrite filter_none; [done|].
    intros x (c & Hx & _)%list_elem_of_fmap Heq. apply Ha.
    simpl in Hx. rewrite <- Hx, Heq. apply list_elem_of_fmap. eauto.
Qed.

Lemma length_filter_union {A} (f : A → NodePtr) (P : gset NodePtr) (p : NodePtr)
    (l : list A) :
  p ∉ P →
  length (filter (λ x, f x ∈ P ∪ {[p]}) l)
  = length (filter (λ x, f x ∈ P) l) + length (filter (λ x, f x = p) l).
Proof.
  intros Hp. induction l as [|x l IH]; [done|]. rewrite !filter_cons.
  destruct (decide (f x = p)) as [Heq|Hne].
  - rewrite decide_True by set_solver. rewrite decide_False by (by rewrite Heq).
    simpl. lia.
  - destruct (decide (f x ∈ P)) as [Hin|Hout].
    + rewrite decide_True by set_solver. simpl. lia.
    + rewrite decide_False by set_solver. done.
Qed.

(** One more node done. *)
Lemma doneOf_insert (P : gset NodePtr) (done : Node.t) (m : Node.t) :
  done ∈ ns → Node.addr done ∉ P →
  doneOf ns (P ∪ {[Node.addr done]}) m
  = doneOf ns P m + length (occurrences (Node.addr done) m)
    + (if decide (Node.renaming_parent done = Some (Node.addr m)) then 1 else 0).
Proof.
  intros Hdone Hout. unfold doneOf, occurrences.
  rewrite (length_filter_union id) by done.
  rewrite (length_filter_union Node.addr) by done.
  assert (length (filter (λ k, Node.addr k = Node.addr done) (renamersOf ns (Node.addr m)))
          = if decide (Node.renaming_parent done = Some (Node.addr m)) then 1 else 0) as ->.
  { unfold renamersOf. rewrite list_filter_filter.
    rewrite (list_filter_iff _ (λ k, Node.renaming_parent k = Some (Node.addr m)
                                     ∧ Node.addr k = Node.addr done)) by (intros k; tauto).
    rewrite <- (list_filter_filter (λ k, Node.renaming_parent k = Some (Node.addr m))
                  (λ k, Node.addr k = Node.addr done)).
    rewrite filter_addr_NoDup by done. rewrite filter_cons. by case_decide. }
  simpl. lia.
Qed.

(** The counters and the position of an entry. *)
Definition sameCounts (d d' : ActionsDAG.Data) : Prop :=
  ActionsDAG.num_created_children d' = ActionsDAG.num_created_children d
  ∧ ActionsDAG.num_expected_children d' = ActionsDAG.num_expected_children d
  ∧ ActionsDAG.parents d' = ActionsDAG.parents d
  ∧ ActionsDAG.position d' = ActionsDAG.position d.

(** The body of the loop of [buildArguments]. *)
#[local] Abbreviation argumentStep :=
  (λ '(data, arguments) child,
     let id := ActionsDAG.idOf reverse_index child in
     let arg := data !!! id in
     if bool_decide (ActionsDAG.position arg < 0)%Z then
       throw LOGICAL_ERROR
         ("Argument was not calculated for "
          +:+ ExpressionActions.childName ns (Some child))
     else
       let data1 := alter ActionsDAG.incr_created_parents id data in
       let arg := data1 !!! id in
       let argument :=
         {| ExpressionActions.pos := Z.to_nat (ActionsDAG.position arg);
            ExpressionActions.remove :=
              negb (ActionsDAG.used_in_result arg)
              && bool_decide (ActionsDAG.num_created_parents arg
                              = length (ActionsDAG.parents arg)) |} in
       Ok (data1, arguments ++ [argument])).

Lemma argumentSteps_spec (children : list NodePtr) (data : list ActionsDAG.Data)
    (arguments : list ExpressionActions.Argument) :
  (∀ child, child ∈ children → child ∈ addresses ns) →
  length data = length ns →
  match foldM argumentStep (data, arguments) children with
  | Ok (data', arguments') =>
      length data' = length ns
      ∧ (∀ p, p ∈ addresses ns → sameCounts (dataAt data p) (dataAt data' p))
      ∧ ∃ news, arguments' = arguments ++ news
                ∧ Forall2 (λ child argument,
                             ExpressionActions.pos argument
                             = Z.to_nat (ActionsDAG.position (dataAt data child)))
                          children news
  | Throw e => ∃ child, child ∈ children ∧ (ActionsDAG.position (dataAt data child) < 0)%Z
  | Undefined => False
  end.
Proof.
  revert data arguments.
  induction children as [|child children IH]; intros data arguments Hvalid Hlen.
  { simpl. split; [done|]. split; [by intros p _|]. exists []. by rewrite app_nil_r. }
  cbn [foldM]. cbv beta iota zeta. fold (dataAt data child).
  case_bool_decide as Hposition; [simpl; exists child; split; [left|done]|]. simpl.
  match goal with
  | |- context [foldM _ (?d, ?a) children] => specialize (IH d a)
  end.
  assert (∀ p, p ∈ addresses ns →
               sameCounts (dataAt data p)
                 (dataAt (alter ActionsDAG.incr_created_parents
                                (ActionsDAG.idOf reverse_index child) data) p)) as Hsame.
  { intros p Hp. rewrite dataAt_alter by (done || apply Hvalid; left).
    destruct (decide (child = p)); unfold sameCounts; simpl; by repeat split. }
  destruct (foldM _ _ children) as [[data' arguments']|e|].
  - destruct IH as (Hlen' & Hcounts & news & -> & Hnews);
      [intros c Hc; apply Hvalid; by right|by rewrite length_alter|].
    split; [done|]. split.
    + intros p Hp. destruct (Hsame p Hp) as (H1 & H2 & H3 & H4).
      destruct (Hcounts p Hp) as (H1' & H2' & H3' & H4').
      unfold sameCounts. by rewrite H1', H2', H3', H4'.
    + eexists (_ :: news). rewrite <- app_assoc. split; [reflexivity|].
      constructor.
      * simpl. fold (dataAt (alter ActionsDAG.incr_created_parents
                              (ActionsDAG.idOf reverse_index child) data) child).
        destruct (Hsame child) as (_ & _ & _ & ->); [apply Hvalid; left|done].
      * assert (Forall (λ c, c ∈ addresses ns) children) as Hall
          by (apply Forall_forall; intros c Hc; apply Hvalid; by right).
        clear -Hnews Hall Hsame. induction Hnews as [|c arg cs args Harg _ IHn]; [done|].
        apply Forall_cons in Hall as [Hc Hall]. constructor; [|by apply IHn].
        rewrite Harg. by destruct (Hsame c Hc) as (_ & _ & _ & ->).
  - destruct IH as (c & Hc & Hneg);
      [intros c Hc; apply Hvalid; by right|by rewrite length_alter|].
    exists c. split; [by right|].
    destruct (Hsame c) as (_ & _ & _ & Hpos); [apply Hvalid; by right|]. by rewrite <- Hpos.
  - destruct IH; [intros c Hc; apply Hvalid; by right|by rewrite length_alter].
Qed.

(** [buildArguments] fails only for a child without a position; it takes
    the positions of the children and leaves the counters. *)
Lemma buildArguments_spec (data : list ActionsDAG.Data) (children : list NodePtr) :
  (∀ child, child ∈ children → child ∈ addresses ns) →
  length data = length ns →
  match ActionsDAG.buildArguments ns reverse_index data children with
  | Ok (data', arguments) =>
      length data' = length ns
      ∧ (∀ p, p ∈ addresses ns → sameCounts (dataAt data p) (dataAt data' p))
      ∧ Forall2 (λ child argument,
                   ExpressionActions.pos argument
                   = Z.to_nat (ActionsDAG.position (dataAt data child)))
                children arguments
  | Throw e => ∃ child, child ∈ children ∧ (ActionsDAG.position (dataAt data child) < 0)%Z
  | Undefined => False
  end.
Proof.
  intros Hvalid Hlen. unfold ActionsDAG.buildArguments.
  pose proof (argumentSteps_spec children data [] Hvalid Hlen) as Hspec.
  destruct (foldM _ _ children) as [[data' arguments]|e|]; [|done..].
  destruct Hspec as (Hlen' & Hcounts & news & -> & Hnews). done.
Qed.

(** *** What [update_parent] does *)

(** The queue of the main loop. *)
Definition queue (st : ActionsDAG.Linearizer) : list NodePtr :=
  ActionsDAG.ready_nodes st ++ ActionsDAG.ready_array_joins st.

Definition created (st : ActionsDAG.Linearizer) (q : NodePtr) : nat :=
  ActionsDAG.num_created_children (dataAt (ActionsDAG.data st) q).

Definition expected (st : ActionsDAG.Linearizer) (q : NodePtr) : nat :=
  ActionsDAG.num_expected_children (dataAt (ActionsDAG.data st) q).

(** What [update_parent] leaves as it is. *)
Definition sameRest (st st' : ActionsDAG.Linearizer) : Prop :=
  length (ActionsDAG.data st') = length (ActionsDAG.data st)
  ∧ ActionsDAG.free_positions st' = ActionsDAG.free_positions st
  ∧ ActionsDAG.expressions st' = ActionsDAG.expressions st
  ∧ ∀ q, q ∈ addresses ns →
      expected st' q = expected st q
      ∧ ActionsDAG.parents (dataAt (ActionsDAG.data st') q)
        = ActionsDAG.parents (dataAt (ActionsDAG.data st) q)
      ∧ ActionsDAG.position (dataAt (ActionsDAG.data st') q)
        = ActionsDAG.position (dataAt (ActionsDAG.data st) q).

Lemma sameRest_trans st1 st2 st3 : sameRest st1 st2 → sameRest st2 st3 → sameRest st1 st3.
Proof.
  intros (Hl & Hf & He & Hq) (Hl' & Hf' & He' & Hq').
  split; [congruence|]. split; [congruence|]. split; [congruence|].
  intros q Hin. destruct (Hq q Hin) as (H1 & H2 & H3). destruct (Hq' q Hin) as (H1' & H2' & H3').
  split; [congruence|]. split; congruence.
Qed.

Lemma count_cons (q x : NodePtr) (l : list NodePtr) :
  count q (x :: l) = (if decide (x = q) then 1 else 0) + count q l.
Proof. unfold count. rewrite filter_cons. by destruct (decide (x = q)). Qed.

(** One call of [update_parent]: one more child of the parent is created,
    and the parent is queued when that was the last it waited for. *)
Lemma update_parent_spec st parent :
  parent ∈ addresses ns → length (ActionsDAG.data st) = length ns →
  ∃ st', ActionsDAG.update_parent ns reverse_index st parent = Ok st'
    ∧ sameRest st st'
    ∧ (∀ q, q ∈ addresses ns →
         created st' q = created st q + (if decide (parent = q) then 1 else 0))
    ∧ queue st' ≡ₚ queue st ++ (if decide (S (created st parent) = expected st parent)
                                then [parent] else []).
Proof.
  intros Hparent Hlen. unfold ActionsDAG.update_parent.
  set (data1 := alter ActionsDAG.incr_created_children
                      (ActionsDAG.idOf reverse_index parent) (ActionsDAG.data st)).
  assert (∀ q, q ∈ addresses ns →
               dataAt data1 q
               = if decide (parent = q)
                 then ActionsDAG.incr_created_children (dataAt (ActionsDAG.data st) q)
                 else dataAt (ActionsDAG.data st) q) as Hat
    by (intros q Hq; by apply dataAt_alter).
  assert (∀ rn raj,
            let st' := ActionsDAG.mkLinearizer data1 rn raj (ActionsDAG.free_positions st)
                         (ActionsDAG.expressions st) in
            sameRest st st'
            ∧ ∀ q, q ∈ addresses ns →
                created st' q = created st q + (if decide (parent = q) then 1 else 0)) as Hrest.
  { intros rn raj. simpl. split.
    - split; [unfold data1; simpl; by rewrite length_alter|]. split; [done|]. split; [done|].
      intros q Hq. unfold expected. simpl. rewrite (Hat q Hq).
      by destruct (decide (parent = q)).
    - intros q Hq. unfold created. simpl. rewrite (Hat q Hq).
      destruct (decide (parent = q)); simpl; lia. }
  fold (dataAt data1 parent). rewrite (Hat parent Hparent), decide_True by done. simpl.
  fold (created st parent) (expected st parent).
  destruct (proj1 (elem_of_addresses ns parent) Hparent) as [parent_node Hnode].
  case_bool_decide as Hready.
  - rewrite Hnode. simpl. rewrite decide_True by done.
    case_bool_decide; (eexists; split; [reflexivity|]);
      (split; [apply Hrest|]); (split; [apply Hrest|]); unfold queue; simpl.
    + by rewrite app_assoc.
    + rewrite <- !app_assoc. by rewrite (Permutation_app_comm [parent]).
  - eexists. split; [reflexivity|]. split; [apply Hrest|]. split; [apply Hrest|].
    rewrite decide_False by done. unfold queue. simpl. by rewrite app_nil_r.
Qed.

(** The calls of [update_parent] for a list of parents: every parent gets
    as many children more as it is in the list, and is queued once when the
    last child it waited for is among them. *)
Lemma update_parents_spec (L : list NodePtr) st :
  (∀ q, q ∈ L → q ∈ addresses ns) → length (ActionsDAG.data st) = length ns →
  ∃ st' pushed,
    foldM (ActionsDAG.update_parent ns reverse_index) st L = Ok st'
    ∧ sameRest st st'
    ∧ (∀ q, q ∈ addresses ns → created st' q = created st q + count q L)
    ∧ queue st' ≡ₚ queue st ++ pushed
    ∧ NoDup pushed
    ∧ (∀ q, q ∈ pushed → q ∈ L)
    ∧ (∀ q, q ∈ addresses ns →
         q ∈ pushed ↔ created st q < expected st q ≤ created st q + count q L).
Proof.
  revert st. induction L as [|p L IH]; intros st Hvalid Hlen.
  { exists st, []. simpl. split; [done|]. split.
    { split; [done|]. split; [done|]. split; [done|]. by intros q _. }
    split; [intros q _; unfold count; simpl; lia|]. split; [by rewrite app_nil_r|].
    split; [constructor|]. split; [by intros q ?%elem_of_nil|].
    intros q _. unfold count. simpl. rewrite elem_of_nil. lia. }
  destruct (update_parent_spec st p) as (st1 & Hst1 & Hrest1 & Hcreated1 & Hqueue1);
    [apply Hvalid; left|done|].
  destruct (IH st1) as (st' & pushed & Hst' & Hrest & Hcreated & Hqueue & Hnodup' & Hin & Hpushed).
  { intros q Hq. apply Hvalid. by right. }
  { destruct Hrest1 as [Hl _]. congruence. }
  set (first := if decide (S (created st p) = expected st p) then [p] else []) in *.
  exists st', (first ++ pushed). simpl. rewrite Hst1. simpl.
  split; [done|]. split; [by eapply sameRest_trans|].
  assert (∀ q, q ∈ addresses ns → expected st1 q = expected st q) as Hexpected1
    by (intros q Hq; by destruct Hrest1 as (_ & _ & _ & Hall); destruct (Hall q Hq)).
  split.
  { intros q Hq. rewrite (Hcreated q Hq), (Hcreated1 q Hq), count_cons. lia. }
  split.
  { rewrite Hqueue, Hqueue1. by rewrite <- app_assoc. }
  split.
  { apply NoDup_app. split; [unfold first; case_decide; [apply NoDup_singleton|constructor]|].
    split; [|done]. unfold first. intros q Hq. case_decide as Hfirst; [|by apply elem_of_nil in Hq].
    apply list_elem_of_singleton in Hq as ->. rewrite (Hpushed p) by (apply Hvalid; left).
    rewrite (Hcreated1 p), (Hexpected1 p) by (apply Hvalid; left).
    rewrite decide_True by done. lia. }
  split.
  { intros q [Hq|Hq]%elem_of_app; [|right; by apply Hin].
    unfold first in Hq. case_decide; [|by apply elem_of_nil in Hq].
    apply list_elem_of_singleton in Hq as ->. left. }
  intros q Hq. rewrite elem_of_app, (Hpushed q Hq), (Hcreated1 q Hq), (Hexpected1 q Hq), count_cons.
  unfold first. destruct (decide (p = q)) as [->|Hne].
  - case_decide; rewrite ?list_elem_of_singleton, ?elem_of_nil; naive_solver lia.
  - case_decide; rewrite ?list_elem_of_singleton, ?elem_of_nil; naive_solver lia.
Qed.

(** The two calls at the end of an iteration are one loop over the parents
    and the renaming parent. *)
Lemma foldM_snoc_option {A B} (f : B → A → Result B) (acc : B) (l : list A) (o : option A) :
  (acc' ← foldM f acc l; match o with Some x => f acc' x | None => Ok acc' end)
  = foldM f acc (l ++ option_list o).
Proof.
  revert acc. induction l as [|x l IH]; intros acc; simpl.
  - destruct o as [x|]; simpl; [|done]. by destruct (f acc x).
  - destruct (f acc x) as [acc1|e|]; simpl; [apply IH|done..].
Qed.

(** *** The invariant of the main loop *)

Definition columnOf (n : Node.t) : NameAndTypePair :=
  {| nt_name := Node.result_name n; nt_type := Node.result_type n |}.

(** The program for the nodes served so far, in the order they were served:
    the node served as the [i]-th has slot [i], the required columns are the
    inputs and the actions the other nodes, in that order, and every
    argument of an action is the slot of the child, which is served before
    the node. *)
Definition Linearized (order : list Node.t) (e : ExpressionActions.t) : Prop :=
  ExpressionActions.num_columns e = length order
  ∧ ExpressionActions.required_columns e
    = columnOf <$> filter (λ n, Node.type n = INPUT) order
  ∧ ExpressionActions.node <$> ExpressionActions.actions e
    = filter (λ n, Node.type n ≠ INPUT) order
  ∧ Forall (λ a, order !! ExpressionActions.result_position a = Some (ExpressionActions.node a)
                 ∧ Forall2 (λ child arg,
                              ExpressionActions.pos arg < ExpressionActions.result_position a
                              ∧ Node.addr <$> order !! ExpressionActions.pos arg = Some child)
                           (Node.children (ExpressionActions.node a))
                           (ExpressionActions.arguments a))
           (ExpressionActions.actions e).

(** The state of the main loop when the nodes of [order] are served and
    those of [Q] are queued. *)
Definition Scheduled (order : list Node.t) (Q : list NodePtr)
    (st : ActionsDAG.Linearizer) : Prop :=
  length (ActionsDAG.data st) = length ns
  ∧ (∀ m, m ∈ ns →
       expected st (Node.addr m) = expectedOf ns m
       ∧ ActionsDAG.parents (dataAt (ActionsDAG.data st) (Node.addr m))
         = parentsOf ns (Node.addr m)
       ∧ created st (Node.addr m) = doneOf ns (addresses order) m
       ∧ (doneOf ns (addresses order) m = expectedOf ns m
          ↔ Node.addr m ∈ Q ∨ Node.addr m ∈ addresses order))
  ∧ (∀ i m, order !! i = Some m →
       m ∈ ns
       ∧ ActionsDAG.position (dataAt (ActionsDAG.data st) (Node.addr m)) = Z.of_nat i)
  ∧ NoDup Q
  ∧ (∀ q, q ∈ Q → q ∈ addresses ns ∧ q ∉ addresses order)
  ∧ NoDup (Node.addr <$> order)
  ∧ ActionsDAG.free_positions st = []
  ∧ Linearized order (ActionsDAG.expressions st).

Lemma addresses_snoc (order : list Node.t) (n : Node.t) :
  addresses (order ++ [n]) = addresses order ∪ {[Node.addr n]}.
Proof. unfold addresses. rewrite fmap_app, list_to_set_app_L. simpl. set_solver. Qed.

Lemma elem_of_addresses_lookup (order : list Node.t) (q : NodePtr) :
  q ∈ addresses order → ∃ i m, order !! i = Some m ∧ Node.addr m = q.
Proof.
  unfold addresses. rewrite elem_of_list_to_set.
  intros (m & -> & [i Hi]%list_elem_of_lookup)%list_elem_of_fmap. eauto.
Qed.

Lemma count_option (q : NodePtr) (o : option NodePtr) :
  count q (option_list o) = if decide (o = Some q) then 1 else 0.
Proof.
  destruct o as [x|]; simpl; [|done]. rewrite count_cons. unfold count. simpl.
  repeat case_decide; simplify_eq; done.
Qed.

Lemma Program_snoc (order : list Node.t) (e : ExpressionActions.t) (n : Node.t)
    (arguments : list ExpressionActions.Argument) (used : bool) sample_block :
  Linearized order e →
  Forall2 (λ child arg, ExpressionActions.pos arg < length order
                        ∧ Node.addr <$> order !! ExpressionActions.pos arg = Some child)
          (Node.children n) arguments →
  Linearized (order ++ [n])
    (ExpressionActions.mk (ExpressionActions.nodes e)
       (if bool_decide (Node.type n = INPUT) then ExpressionActions.actions e
        else ExpressionActions.actions e
             ++ [{| ExpressionActions.node := n;
                    ExpressionActions.arguments := arguments;
                    ExpressionActions.result_position := ExpressionActions.num_columns e;
                    ExpressionActions.is_used_in_result := used |}])
       (S (ExpressionActions.num_columns e))
       (if bool_decide (Node.type n = INPUT) then
          ExpressionActions.required_columns e
          ++ [{| nt_name := Node.result_name n; nt_type := Node.result_type n |}]
        else ExpressionActions.required_columns e)
       sample_block (ExpressionActions.project_input e)
       (ExpressionActions.max_temporary_non_const_columns e) (ExpressionActions.settings e)).
Proof.
  intros (Hnum & Hrequired & Hactions & Hall) Harguments. unfold Linearized. simpl.
  rewrite !filter_app, !filter_cons, !filter_nil, length_app. simpl.
  assert (Forall (λ a, (order ++ [n]) !! ExpressionActions.result_position a
                       = Some (ExpressionActions.node a)
                       ∧ Forall2 (λ child arg,
                                    ExpressionActions.pos arg
                                    < ExpressionActions.result_position a
                                    ∧ Node.addr <$> (order ++ [n]) !! ExpressionActions.pos arg
                                      = Some child)
                                 (Node.children (ExpressionActions.node a))
                                 (ExpressionActions.arguments a))
                 (ExpressionActions.actions e)) as Hold.
  { eapply Forall_impl; [exact Hall|]. intros a [Hresult Hargs]. split.
    - by apply lookup_app_l_Some.
    - eapply Forall2_impl; [exact Hargs|]. intros child arg [Hlt Hchild]. split; [done|].
      destruct (order !! ExpressionActions.pos arg) as [c|] eqn:Hc; [|done].
      by rewrite (lookup_app_l_Some _ _ _ _ Hc). }
  split; [lia|]. case_bool_decide as Hinput.
  - rewrite decide_True, decide_False by (done || by intros ?).
    rewrite !fmap_app, !app_nil_r. simpl. split; [by rewrite Hrequired|]. by split.
  - rewrite decide_False, decide_True by done.
    rewrite !fmap_app, !app_nil_r. simpl. split; [done|]. split; [by rewrite Hactions|].
    apply Forall_app. split; [done|]. constructor; [|constructor]. simpl. split.
    + rewrite Hnum. by apply list_lookup_middle.
    + eapply Forall2_impl; [exact Harguments|]. intros child arg [Hlt Hchild].
      split; [lia|].
      destruct (order !! ExpressionActions.pos arg) as [c|] eqn:Hc; [|done].
      by rewrite (lookup_app_l_Some _ _ _ _ Hc).
Qed.

Lemma addresses_elem_inv (q : NodePtr) : q ∈ addresses ns → ∃ m, m ∈ ns ∧ Node.addr m = q.
Proof.
  intros [m Hm]%elem_of_addresses. exists m. by apply deref_Some.
Qed.

(** One iteration of the main loop: the node at the front of the queue is
    served, nothing is thrown, and the parents that waited for it only are
    queued. *)
Lemma linearizeNode_Scheduled (order : list Node.t) st p :
  Scheduled order (p :: queue st) st →
  ∃ n st', deref ns p = Some n
    ∧ ActionsDAG.linearizeNode ns reverse_index st p = Ok st'
    ∧ Scheduled (order ++ [n]) (queue st') st'.
Proof.
  intros (Hlen & Hnodes & Horder & HQnodup & HQ & Hordnodup & Hfree & Hprogram).
  destruct (HQ p ltac:(left)) as [Hp Hpout].
  destruct (proj1 (elem_of_addresses ns p) Hp) as [n Hderef].
  destruct (deref_Some _ _ _ Hderef) as [Hn <-].
  exists n.
  pose proof Hprogram as (Hnum & _).
  unfold ActionsDAG.linearizeNode. rewrite Hderef, Hfree. simpl.
  set (N := ExpressionActions.num_columns (ActionsDAG.expressions st)) in *.
  set (data1 := alter (ActionsDAG.set_position (Z.of_nat N)) _ (ActionsDAG.data st)).
  assert (length data1 = length ns) as Hlen1 by (unfold data1; by rewrite length_alter).
  assert (∀ q, q ∈ addresses ns →
               dataAt data1 q
               = if decide (Node.addr n = q)
                 then ActionsDAG.set_position (Z.of_nat N) (dataAt (ActionsDAG.data st) q)
                 else dataAt (ActionsDAG.data st) q) as Hat1
    by (intros q Hq; by apply dataAt_alter).
  destruct (Hnodes n Hn) as (Hexp_n & Hpar_n & Hcre_n & Hready_n).
  assert (doneOf ns (addresses order) n = expectedOf ns n) as Hfull
    by (apply Hready_n; left; left).
  destruct (doneOf_full _ _ _ Hfull) as [Hdone _].
  assert (∀ i m, order !! i = Some m → Node.addr m ≠ Node.addr n) as Hother.
  { intros i m Hi Heq. apply Hpout. rewrite <- Heq.
    apply elem_of_list_to_set, list_elem_of_fmap. exists m. split; [done|].
    by eapply list_elem_of_lookup_2. }
  assert (∀ child, child ∈ Node.children n →
            ∃ i, Node.addr <$> order !! i = Some child ∧ i < length order
                 ∧ ActionsDAG.position (dataAt data1 child) = Z.of_nat i) as Hchild.
  { intros child Hc.
    destruct (elem_of_addresses_lookup order child (Hdone child Hc)) as (i & c & Hi & <-).
    exists i. rewrite Hi. split; [done|]. split; [by eapply lookup_lt_Some|].
    destruct (Horder i c Hi) as [Hcn Hpos].
    rewrite Hat1 by (by apply elem_of_addresses_elem). rewrite decide_False; [done|].
    intros Heq. by eapply Hother. }
  pose proof (buildArguments_spec data1 (Node.children n)
                (λ c Hc, Hchildren n c Hn Hc) Hlen1) as Hspec.
  destruct (ActionsDAG.buildArguments ns reverse_index data1 (Node.children n))
    as [[data2 arguments]|e'|]; [|exfalso..].
  2:{ destruct Hspec as (child & Hc & Hneg).
      destruct (Hchild child Hc) as (i & _ & _ & Hpos). lia. }
  2:{ done. }
  destruct Hspec as (Hlen2 & Hsame & Harguments). simpl.
  assert (ActionsDAG.parents (dataAt data2 (Node.addr n)) = parentsOf ns (Node.addr n)) as Hps.
  { destruct (Hsame _ Hp) as (_ & _ & -> & _). rewrite (Hat1 _ Hp), decide_True by done.
    simpl. exact Hpar_n. }
  set (L := parentsOf ns (Node.addr n) ++ option_list (Node.renaming_parent n)).
  assert (∀ q, q ∈ L → q ∈ addresses ns) as HL.
  { intros q [Hq|Hq]%elem_of_app.
    - apply parentsOf_elem in Hq as (m & Hm & -> & _). by apply elem_of_addresses_elem.
    - destruct (Node.renaming_parent n) as [parent|] eqn:Hparent;
        [|by apply elem_of_nil in Hq].
      apply list_elem_of_singleton in Hq as ->. by eapply Hrenaming. }
  match goal with
  | |- context [foldM (ActionsDAG.update_parent ns reverse_index) ?st1 _] =>
      set (start := st1);
      destruct (update_parents_spec L start HL)
        as (st' & pushed & Hst' & Hrest & Hcreated & Hqueue & Hpnodup & HpL & Hpushed);
      [exact Hlen2|]
  end.
  exists st'. split; [done|]. split.
  { unfold L in Hst'. rewrite <- foldM_snoc_option, <- Hps in Hst'. exact Hst'. }
  change (queue start) with (queue st) in Hqueue.
  assert (∀ q, q ∈ addresses ns →
            created start q = created st q
            ∧ expected start q = expected st q
            ∧ ActionsDAG.parents (dataAt (ActionsDAG.data start) q)
              = ActionsDAG.parents (dataAt (ActionsDAG.data st) q)
            ∧ ActionsDAG.position (dataAt (ActionsDAG.data start) q)
              = if decide (Node.addr n = q) then Z.of_nat N
                else ActionsDAG.position (dataAt (ActionsDAG.data st) q)) as Hstart.
  { intros q Hq. unfold created, expected, start. simpl.
    destruct (Hsame q Hq) as (-> & -> & -> & ->). rewrite (Hat1 q Hq).
    by destruct (decide (Node.addr n = q)). }
  assert (∀ m, m ∈ ns →
            count (Node.addr m) L
            = length (occurrences (Node.addr n) m)
              + (if decide (Node.renaming_parent n = Some (Node.addr m)) then 1 else 0))
    as Hcount.
  { intros m Hm. unfold L. rewrite count_app, count_option.
    by rewrite (parentsOf_count ns m (Node.addr n) Hnodup Hm). }
  assert (∀ m, m ∈ ns →
            doneOf ns (addresses (order ++ [n])) m
            = doneOf ns (addresses order) m + count (Node.addr m) L) as Hgrow.
  { intros m Hm. rewrite addresses_snoc, (doneOf_insert _ n m Hn Hpout), (Hcount m Hm). lia. }
  destruct Hrest as (Hlen' & Hfree' & Hexpressions' & Hrest).
  split; [by rewrite Hlen'|]. split.
  { intros m Hm. pose proof (elem_of_addresses_elem m Hm) as Hq.
    destruct (Hnodes m Hm) as (Hexp & Hpar & Hcre & Hold).
    destruct (Hstart _ Hq) as (Hc1 & He1 & Hp1 & Hpos1).
    destruct (Hrest _ Hq) as (He' & Hp' & Hpos').
    split; [congruence|]. split; [congruence|].
    split; [rewrite (Hcreated _ Hq), (Hgrow m Hm); congruence|].
    pose proof (doneOf_le ns (addresses (order ++ [n])) m) as Hle.
    pose proof (Hpushed _ Hq) as Hpush. rewrite Hc1, He1, Hcre, Hexp in Hpush.
    rewrite (Hgrow m Hm) in Hle |- *.
    rewrite Hqueue, elem_of_app, addresses_snoc, elem_of_union, elem_of_singleton.
    rewrite elem_of_cons in Hold. clear -Hle Hold Hpush.
    destruct (decide (doneOf ns (addresses order) m = expectedOf ns m)) as [Heq|Hne].
    - split; [tauto|lia].
    - split.
      + intros Hall. left. right. apply Hpush. lia.
      + intros [[Hin|Hin%Hpush]|[Hin|Hin]]; [|lia|..]; exfalso; apply Hne, Hold; tauto. }
  split.
  { intros i m [Hi | [Hge Hi]]%lookup_app_Some.
    - destruct (Horder i m Hi) as [Hm Hpos]. split; [done|].
      pose proof (elem_of_addresses_elem m Hm) as Hq.
      destruct (Hrest _ Hq) as (_ & _ & ->). destruct (Hstart _ Hq) as (_ & _ & _ & ->).
      rewrite decide_False; [done|]. intros Heq. by eapply Hother.
    - apply list_lookup_singleton_Some in Hi as [Hi <-]. split; [done|].
      destruct (Hrest _ Hp) as (_ & _ & ->). destruct (Hstart _ Hp) as (_ & _ & _ & ->).
      rewrite decide_True by done. subst N. rewrite Hnum. f_equal. lia. }
  assert (∀ q, q ∈ pushed → ∃ m, m ∈ ns ∧ Node.addr m = q
                                 ∧ doneOf ns (addresses order) m < expectedOf ns m) as Hwaits.
  { intros q Hq. pose proof (HL q (HpL q Hq)) as Haddr.
    destruct (addresses_elem_inv q Haddr) as (m & Hm & <-). exists m. split; [done|].
    split; [done|]. apply (Hpushed _ Haddr) in Hq.
    destruct (Hstart _ Haddr) as (Hc1 & He1 & _). destruct (Hnodes m Hm) as (Hexp & _ & Hcre & _).
    rewrite Hc1, He1, Hcre, Hexp in Hq. lia. }
  apply NoDup_cons in HQnodup as [Hfront HQnodup].
  split.
  { rewrite Hqueue. apply NoDup_app. split; [done|]. split; [|done].
    intros q Hq Hin. destruct (Hwaits q Hin) as (m & Hm & <- & Hlt).
    destruct (Hnodes m Hm) as (_ & _ & _ & Hold).
    assert (doneOf ns (addresses order) m = expectedOf ns m); [|lia].
    apply Hold. left. by right. }
  split.
  { intros q. rewrite Hqueue, elem_of_app, addresses_snoc, elem_of_union, elem_of_singleton.
    intros [Hq|Hq].
    - destruct (HQ q) as [Haddr Hout]; [by right|]. split; [done|].
      intros [?| ->]; [done|]. by apply Hfront.
    - split; [by apply HL, HpL|]. destruct (Hwaits q Hq) as (m & Hm & <- & Hlt).
      destruct (Hnodes m Hm) as (_ & _ & _ & Hold).
      intros Hin. assert (doneOf ns (addresses order) m = expectedOf ns m); [|lia].
      apply Hold. destruct Hin as [Hin| ->]; [by right|left; left]. }
  split.
  { rewrite fmap_app. apply NoDup_app. split; [done|]. split; [|apply NoDup_singleton].
    intros q Hq ->%list_elem_of_singleton. apply Hpout. by apply elem_of_list_to_set. }
  split; [by rewrite Hfree'|].
  rewrite Hexpressions'. unfold start. simpl. apply Program_snoc; [done|].
  apply Forall2_same_length_lookup_2; [by eapply Forall2_length|].
  intros i child arg Hc Ha.
  pose proof (Forall2_lookup_lr _ _ _ _ _ _ Harguments Hc Ha) as Hpos. simpl in Hpos.
  destruct (Hchild child (list_elem_of_lookup_2 _ _ _ Hc)) as (j & Hj & Hlt & Hposj).
  rewrite Hpos, Hposj, Nat2Z.id. done.
Qed.

(** The main loop: nothing is thrown, and when it is over no node is
    queued. *)
Lemma linearize_Scheduled (fuel : nat) (order : list Node.t) st :
  Scheduled order (queue st) st →
  match ActionsDAG.linearize fuel ns reverse_index st with
  | Ok st' => ∃ order', Scheduled order' [] st'
  | Throw e => False
  | Undefined => True
  end.
Proof.
  revert order st. induction fuel as [|fuel IH]; intros order [data rn raj fp e] Hst.
  - simpl. destruct rn, raj; try done. by exists order.
  - simpl. destruct rn as [|ptr rest]; [destruct raj as [|ptr rest]|].
    + by exists order.
    + destruct (linearizeNode_Scheduled order (ActionsDAG.mkLinearizer data [] rest fp e) ptr)
        as (n & st' & _ & -> & Hst'); [exact Hst|]. simpl. by eapply IH.
    + destruct (linearizeNode_Scheduled order (ActionsDAG.mkLinearizer data rest raj fp e) ptr)
        as (n & st' & _ & -> & Hst'); [exact Hst|]. simpl. by eapply IH.
Qed.

Lemma doneOf_all (P : gset NodePtr) (m : Node.t) :
  (∀ child, child ∈ Node.children m → child ∈ P) →
  (∀ k, k ∈ ns → Node.renaming_parent k = Some (Node.addr m) → Node.addr k ∈ P) →
  doneOf ns P m = expectedOf ns m.
Proof.
  intros Hc Hr. unfold doneOf, expectedOf.
  rewrite (filter_all (λ child, child ∈ P)) by done.
  rewrite (filter_all (λ k, Node.addr k ∈ P)); [done|].
  intros k [Hk Hin]%list_elem_of_filter. by apply Hr.
Qed.

(** When no node is queued, every node of a list without cycles is
    served. *)
Lemma Scheduled_complete (rank : NodePtr → nat) (order : list Node.t) st :
  (∀ m, m ∈ ns →
     (∀ child, child ∈ Node.children m → rank child < rank (Node.addr m))
     ∧ (∀ parent, Node.renaming_parent m = Some parent → rank (Node.addr m) < rank parent)) →
  Scheduled order [] st →
  ∀ m, m ∈ ns → Node.addr m ∈ addresses order.
Proof.
  intros Hrank (_ & Hnodes & _).
  assert (∀ bound m, m ∈ ns → rank (Node.addr m) < bound → Node.addr m ∈ addresses order)
    as Hall; [|by eauto].
  induction bound as [|bound IH]; intros m Hm Hlt; [lia|].
  destruct (Hnodes m Hm) as (_ & _ & _ & Hready).
  destruct (proj1 Hready) as [[]%elem_of_nil|Hin]; [|done].
  apply doneOf_all.
  - intros child Hchild.
    destruct (addresses_elem_inv child (Hchildren m child Hm Hchild)) as (c & Hc & <-).
    apply IH; [done|]. destruct (Hrank m Hm) as [Hsmaller _].
    specialize (Hsmaller _ Hchild). lia.
  - intros k Hk Hparent. apply IH; [done|]. destruct (Hrank k Hk) as [_ Hlarger].
    specialize (Hlarger _ Hparent). lia.
Qed.

(** *** The state the main loop starts from *)

Lemma pushParents_renamed (a : NodePtr) (children : list NodePtr)
    (data : list ActionsDAG.Data) (p : NodePtr) :
  p ∈ addresses ns → (∀ child, child ∈ children → child ∈ addresses ns) →
  length data = length ns →
  ActionsDAG.renamed_child
    (dataAt (foldl (λ data child,
                      alter (ActionsDAG.push_parent a)
                            (ActionsDAG.idOf reverse_index child) data)
                   data children) p)
  = ActionsDAG.renamed_child (dataAt data p).
Proof.
  intros Hp. revert data. induction children as [|child children IH]; intros data Hvalid Hlen;
    [done|].
  simpl. rewrite IH.
  - rewrite dataAt_alter by (done || apply Hvalid; left).
    by destruct (decide (child = p)).
  - intros c Hc. apply Hvalid. by right.
  - by rewrite length_alter.
Qed.

Lemma countNode_renamed (this : ActionsDAG.t) (n : Node.t) (data : list ActionsDAG.Data)
    (p : NodePtr) :
  p ∈ addresses ns → n ∈ ns → length data = length ns →
  ActionsDAG.renamed_child (dataAt (ActionsDAG.countNode this reverse_index data n) p)
  = if decide (Node.renaming_parent n = Some p) then Some (Node.addr n)
    else ActionsDAG.renamed_child (dataAt data p).
Proof.
  intros Hp Hn Hlen. unfold ActionsDAG.countNode.
  match goal with
  | |- context [foldl _ ?d _] => set (data1 := d)
  end.
  assert (length data1 = length ns) as Hlen1 by (unfold data1; by rewrite length_alter).
  destruct (pushParents_at (Node.addr n) (Node.children n) data1 p Hp
              (λ c Hc, Hchildren n c Hn Hc) Hlen1) as (Hlen2 & _).
  assert (ActionsDAG.renamed_child (dataAt data1 p)
          = ActionsDAG.renamed_child (dataAt data p)) as Hfirst.
  { unfold data1. rewrite dataAt_alter by (done || by apply elem_of_addresses_elem).
    by destruct (decide (Node.addr n = p)). }
  destruct (Node.renaming_parent n) as [parent|] eqn:Hparent.
  - rewrite dataAt_alter by (done || by eapply Hrenaming).
    destruct (decide (parent = p)) as [->|Hne].
    + by rewrite decide_True.
    + rewrite decide_False by congruence.
      rewrite pushParents_renamed; [done..| |done]. intros c Hc. by eapply Hchildren.
  - rewrite decide_False by done.
    rewrite pushParents_renamed; [done..| |done]. intros c Hc. by eapply Hchildren.
Qed.

Lemma countNodes_renamed (this : ActionsDAG.t) (l : list Node.t)
    (data : list ActionsDAG.Data) (p : NodePtr) :
  p ∈ addresses ns → (∀ n, n ∈ l → n ∈ ns) → length data = length ns →
  ActionsDAG.renamed_child (dataAt (foldl (ActionsDAG.countNode this reverse_index) data l) p)
  = None
  ↔ ActionsDAG.renamed_child (dataAt data p) = None ∧ renamersOf l p = [].
Proof.
  intros Hp. revert data. induction l as [|n l IH]; intros data Hl Hlen.
  { simpl. unfold renamersOf. rewrite filter_nil. tauto. }
  simpl. rewrite IH.
  - rewrite countNode_renamed by (done || apply Hl; left).
    unfold renamersOf. rewrite filter_cons.
    destruct (decide (Node.renaming_parent n = Some p)); [|done].
    split; [by intros [? _]|by intros [_ ?]].
  - intros m Hm. apply Hl. by right.
  - destruct (countNode_at this n data p Hp) as (Hlen1 & _); try done.
    + apply Hl. left.
    + intros c Hc. eapply Hchildren; [|done]. apply Hl. left.
    + intros q Hq. eapply Hrenaming; [|done]. apply Hl. left.
Qed.

Lemma countNodes_length (this : ActionsDAG.t) (l : list Node.t)
    (data : list ActionsDAG.Data) :
  length (foldl (ActionsDAG.countNode this reverse_index) data l) = length data.
Proof.
  revert data. induction l as [|n l IH]; intros data; [done|].
  simpl. rewrite IH. apply countNode_length.
Qed.

Lemma doneOf_empty (m : Node.t) : doneOf ns (addresses []) m = 0.
Proof.
  unfold doneOf.
  rewrite (filter_none (λ child, child ∈ addresses [])) by (intros x _; set_solver).
  rewrite (filter_none (λ k, Node.addr k ∈ addresses [])) by (intros x _; set_solver).
  done.
Qed.

(** After the second loop every node expects its children and the nodes it
    renames, and the nodes that expect none are queued. *)
Lemma countChildren_Scheduled (this : ActionsDAG.t) (data0 : list ActionsDAG.Data) :
  ActionsDAG.nodes this = ns → length data0 = length ns → Forall freshData data0 →
  let data1 := ActionsDAG.countChildren this reverse_index data0 in
  let ready :=
    Node.addr <$>
      filter (λ n, Node.children n = []
                   ∧ ActionsDAG.renamed_child
                       (data1 !!! ActionsDAG.idOf reverse_index (Node.addr n)) = None)
             ns in
  Scheduled [] ready (ActionsDAG.mkLinearizer data1 ready [] [] ExpressionActions.init).
Proof.
  intros Hthis Hlen Hfresh data1 ready.
  assert (∀ n, n ∈ ns →
            n ∈ ns
            ∧ (∀ child, child ∈ Node.children n → child ∈ addresses ns)
            ∧ (∀ parent, Node.renaming_parent n = Some parent → parent ∈ addresses ns))
    as Hvalid by (intros n Hn; split; [done|]; split; intros; eauto).
  assert (freshData inhabitant) as Hinit by (by repeat split).
  assert (∀ m, m ∈ ns →
            created (ActionsDAG.mkLinearizer data1 ready [] [] ExpressionActions.init)
              (Node.addr m) = 0
            ∧ expected (ActionsDAG.mkLinearizer data1 ready [] [] ExpressionActions.init)
                (Node.addr m) = expectedOf ns m
            ∧ ActionsDAG.parents (dataAt data1 (Node.addr m)) = parentsOf ns (Node.addr m)
            ∧ (Node.addr m ∈ ready ↔ expectedOf ns m = 0)) as Hdata.
  { intros m Hm. pose proof (elem_of_addresses_elem m Hm) as Hp.
    unfold created, expected. simpl. unfold data1, ActionsDAG.countChildren. rewrite Hthis.
    destruct (countNodes_at this ns data0 (Node.addr m) Hp Hvalid Hlen)
      as (_ & -> & _ & -> & ->).
    destruct (Forall_lookup_total freshData data0
                (ActionsDAG.idOf reverse_index (Node.addr m)) Hfresh Hinit)
      as (Hc & He & Hps & Hr).
    fold (dataAt data0 (Node.addr m)) in Hc, He, Hps, Hr. rewrite Hc, He, Hps.
    rewrite (addedExpected_expectedOf m Hm).
    split; [done|]. split; [done|]. split; [done|].
    assert (ActionsDAG.renamed_child (dataAt data1 (Node.addr m)) = None
            ↔ renamersOf ns (Node.addr m) = []) as Hrenamed.
    { unfold data1, ActionsDAG.countChildren. rewrite Hthis.
      rewrite (countNodes_renamed this ns data0 (Node.addr m) Hp) by done. tauto. }
    unfold ready, expectedOf. rewrite list_elem_of_fmap. split.
    - intros (m' & Haddr & [[Hleaf Hnone] Hm']%list_elem_of_filter).
      assert (m' = m) as -> by (by eapply (NoDup_addr_inj ns)).
      apply Hrenamed in Hnone. by rewrite Hleaf, Hnone.
    - intros Hzero. exists m. split; [done|]. apply list_elem_of_filter. split; [|done].
      split; [apply length_zero_iff_nil; lia|].
      apply Hrenamed, length_zero_iff_nil. lia. }
  split.
  { simpl. unfold data1, ActionsDAG.countChildren. by rewrite countNodes_length. }
  split.
  { intros m Hm. destruct (Hdata m Hm) as (Hc & He & Hps & Hready).
    split; [done|]. split; [done|]. rewrite doneOf_empty. split; [done|].
    rewrite Hready. unfold addresses. simpl. set_solver. }
  split; [by intros i m ?|].
  split.
  { unfold ready. apply (sublist_NoDup _ (Node.addr <$> ns)); [done|]. apply fmap_sublist, sublist_filter. }
  split.
  { intros q (m & -> & [_ Hm]%list_elem_of_filter)%list_elem_of_fmap.
    split; [by apply elem_of_addresses_elem|]. unfold addresses. simpl. set_solver. }
  split; [constructor|]. split; [done|].
  unfold Linearized. simpl. by repeat split.
Qed.

End Schedule.

(** A list of nodes has no cycle when a rank grows from every child to its
    parent and from every node to its renaming parent. *)
Definition Acyclic (ns : list Node.t) : Prop :=
  ∃ rank : NodePtr → nat,
    ∀ n, n ∈ ns →
      (∀ child, child ∈ Node.children n → rank child < rank (Node.addr n))
      ∧ (∀ parent, Node.renaming_parent n = Some parent → rank (Node.addr n) < rank parent).

(** The nodes of a DAG are ordered when every child has a smaller address
    than its parent, and every renaming parent a larger one than the node it
    renames: the addresses grow as the nodes are added. *)
Definition Ordered (ns : list Node.t) : Prop :=
  ∀ n, n ∈ ns →
    (∀ child, child ∈ Node.children n → child < Node.addr n)
    ∧ (∀ parent, Node.renaming_parent n = Some parent → Node.addr n < parent).

Lemma Ordered_Acyclic (ns : list Node.t) : Ordered ns → Acyclic ns.
Proof. intros Hordered. exists (λ ptr, ptr). exact Hordered. Qed.

Lemma Ordered_decide (ns : list Node.t) :
  Forall (λ n, Forall (λ child, child < Node.addr n) (Node.children n)
               ∧ Forall (λ parent, Node.addr n < parent)
                        (option_list (Node.renaming_parent n))) ns →
  Ordered ns.
Proof.
  intros Hall n Hn. rewrite Forall_forall in Hall. destruct (Hall n Hn) as [Hc Hp]. split.
  - by apply Forall_forall.
  - intros parent Hparent. rewrite Hparent in Hp. simpl in Hp.
    by apply Forall_cons in Hp as [? _].
Qed.

(** On a well-formed DAG without cycles the linearizer serves every node:
    [buildExpressions] raises no LOGICAL_ERROR; it raises
    TOO_MANY_TEMPORARY_COLUMNS when the limit is not zero and below the
    number of nodes, and otherwise returns a program with one slot for
    every node.  The nodes in the order of their slots are a permutation of
    the nodes of the DAG; the required columns are the inputs and the actions
    the other nodes, in that order; each action writes the slot of its node,
    and its arguments are the slots of the children of the node, which come
    before it. *)
Theorem buildExpressions_schedules_every_node (this : ActionsDAG.t) :
  WellFormed this → Acyclic (ActionsDAG.nodes this) →
  if bool_decide (ActionsDAG.max_temporary_columns this ≠ 0)
     && bool_decide (ActionsDAG.max_temporary_columns this < length (ActionsDAG.nodes this))
  then ∃ e, ActionsDAG.buildExpressions this = Throw e
            ∧ code e = TOO_MANY_TEMPORARY_COLUMNS
  else ∃ this' program order,
         ActionsDAG.buildExpressions this = Ok (this', program)
         ∧ order ≡ₚ ActionsDAG.nodes this
         ∧ Linearized order program.
Proof.
  intros (Hnodup & Hvalid & Hrenaming) [rank Hrank].
  destruct (ActionsDAG.startLinearizer this) as [reverse_index st] eqn:Hstart.
  destruct (startLinearizer_spec this reverse_index st Hnodup Hstart)
    as (Hnumbered & Hinv & Hpotential).
  assert (∀ n child, n ∈ ActionsDAG.nodes this → child ∈ Node.children n →
                     child ∈ addresses (ActionsDAG.nodes this)) as Hchildren.
  { intros n child Hn Hchild. apply elem_of_addresses. destruct Hvalid as [_ Hc]. eauto. }
  assert (Scheduled (ActionsDAG.nodes this) reverse_index [] (queue st) st) as Hst.
  { revert Hstart. unfold ActionsDAG.startLinearizer.
    pose proof (numberNodes_spec (ActionsDAG.nodes this) Hnodup) as Hnumber.
    destruct (ActionsDAG.numberNodes (ActionsDAG.nodes this)) as [data0 rev].
    destruct Hnumber as (Hlen0 & Hfresh & _). intros [= -> <-].
    unfold queue. simpl. rewrite app_nil_r. by apply countChildren_Scheduled. }
  pose proof (linearize_Scheduled (ActionsDAG.nodes this) reverse_index Hnodup Hnumbered
                Hchildren Hrenaming (length (ActionsDAG.nodes this)) [] st Hst) as Hloop.
  destruct (linearize_total (ActionsDAG.nodes this) reverse_index Hnumbered Hrenaming
              (length (ActionsDAG.nodes this)) st Hinv Hpotential)
    as [[st' Hrun] | [e Hrun]]; rewrite Hrun in Hloop; [|done].
  destruct Hloop as [order Hfinal].
  pose proof Hfinal as (_ & _ & Horder & _ & _ & Hordnodup & _ & Hprogram).
  assert (order ≡ₚ ActionsDAG.nodes this) as Hperm.
  { apply NoDup_Permutation; [by eapply NoDup_fmap_1|by eapply NoDup_fmap_1|].
    intros m. split.
    - intros [i Hi]%list_elem_of_lookup. by destruct (Horder i m Hi).
    - intros Hm.
      pose proof (Scheduled_complete (ActionsDAG.nodes this) reverse_index Hchildren
                    rank order st' Hrank Hfinal m Hm) as Hin.
      apply elem_of_addresses_lookup in Hin as (i & m' & Hi & Haddr).
      destruct (Horder i m' Hi) as [Hm' _].
      assert (m' = m) as <- by (by eapply (NoDup_addr_inj (ActionsDAG.nodes this))).
      by eapply list_elem_of_lookup_2. }
  rewrite (buildExpressions_after_loop this reverse_index st st' Hstart Hrun).
  cbv zeta. destruct Hprogram as (Hnum & Hrequired & Hactions & Hall).
  rewrite Hnum, (Permutation_length Hperm).
  destruct (bool_decide (ActionsDAG.max_temporary_columns this ≠ 0)
            && bool_decide (ActionsDAG.max_temporary_columns this
                            < length (ActionsDAG.nodes this))).
  - eexists. split; reflexivity.
  - eexists _, _, order. split; [reflexivity|]. split; [done|].
    exact (conj (eq_sym (Permutation_length Hperm)) (conj Hrequired (conj Hactions Hall))).
Qed.

(** ** The builders make no cycle *)

(** [addNode] gives the new node the largest address: its children are
    nodes of the DAG, and it is the renaming parent of an older node. *)
Lemma addNode_Ordered (this this' : ActionsDAG.t) (node res : Node.t) (can_replace : bool) :
  WellFormed this → Ordered (ActionsDAG.nodes this) →
  (∀ child, child ∈ Node.children node → child ∈ addresses (ActionsDAG.nodes this)) →
  Node.renaming_parent node = None →
  ActionsDAG.addNode this node can_replace = Ok (this', res) →
  Ordered (ActionsDAG.nodes this').
Proof.
  intros (Hnodup & Hvalid & Hrenaming) Hordered Hchildren Hnone Hadd.
  apply ValidPointers_addresses in Hvalid as [Hindex _].
  destruct (addNode_Ok this this' node res can_replace Hindex Hadd)
    as (-> & Hfresh & _ & ->).
  intros n [Hn | ->%list_elem_of_singleton]%elem_of_app.
  - assert (∃ n0, n0 ∈ ActionsDAG.nodes this
                  ∧ Node.addr n = Node.addr n0 ∧ Node.children n = Node.children n0
                  ∧ (Node.renaming_parent n = Node.renaming_parent n0
                     ∨ Node.renaming_parent n
                       = Some (ActionsDAG.fresh_addr (ActionsDAG.nodes this))))
      as (n0 & Hn0 & -> & -> & Hparent).
    { destruct (ActionsDAG.index this !! Node.result_name node) as [old|].
      - apply elem_of_setRenamingParent_inv in Hn as (n0 & Hn0 & ->).
        exists n0. case_bool_decide; simpl; auto.
      - exists n. auto. }
    destruct (Hordered n0 Hn0) as [Hsmaller Hlarger]. split; [done|].
    intros parent Hp. destruct Hparent as [Hsame|Hnew].
    + apply Hlarger. congruence.
    + rewrite Hnew in Hp. injection Hp as <-. by apply fresh_addr_fresh.
  - simpl. split; [|by rewrite Hnone].
    intros child (c & Hc & <-)%Hchildren%addresses_elem_inv. by apply fresh_addr_fresh.
Qed.

Lemma Built_Ordered (this : ActionsDAG.t) : Built this → Ordered (ActionsDAG.nodes this).
Proof.
  induction 1 as [|this this' res Hbuilt IH Hbuilds]; [by intros n ?%elem_of_nil|].
  destruct (Built_invariants this Hbuilt) as [Hwf _].
  apply Builds_addNode in Hbuilds
    as (this0 & node & can_replace & Hadd & Hnodes & Hindex & Hnone & Hchildren).
  eapply (addNode_Ordered this0); [| | |done..].
  - unfold WellFormed, ValidPointers in *. by rewrite Hnodes, Hindex.
  - by rewrite Hnodes.
  - by rewrite Hnodes.
Qed.

(** Pruning keeps the order: the nodes left keep their children, and their
    renaming parent or none. *)
Lemma removeUnusedActions_Ordered (this this' : ActionsDAG.t) (required_names : list string) :
  ValidPointers this → Ordered (ActionsDAG.nodes this) →
  ActionsDAG.removeUnusedActions this required_names = Ok this' →
  Ordered (ActionsDAG.nodes this').
Proof.
  intros Hvalid Hordered Hrun.
  pose proof (removeUnusedActions_cases this required_names Hvalid) as Hcases.
  rewrite Hrun in Hcases. destruct Hcases as (_ & _ & _ & _ & visited & _ & ->).
  intros n (n0 & -> & [_ Hn0]%list_elem_of_filter)%list_elem_of_fmap.
  destruct (Hordered n0 Hn0) as [Hsmaller Hlarger].
  rewrite children_clearPrunedParent, addr_clearPrunedParent. split; [done|].
  intros parent [Hparent _]%renaming_parent_clearPrunedParent. by apply Hlarger.
Qed.

(** The DAGs the builders make have no cycle, pruned or not: a node is
    added after its children and after the node it renames, and pruning adds
    no pointer.  So they are well formed and without cycle, as the
    linearizer needs them. *)
Theorem builders_make_no_cycle (this : ActionsDAG.t) :
  Built this →
  WellFormed this ∧ Acyclic (ActionsDAG.nodes this)
  ∧ ∀ required_names this',
      ActionsDAG.removeUnusedActions this required_names = Ok this' →
      WellFormed this' ∧ Acyclic (ActionsDAG.nodes this').
Proof.
  intros Hbuilt. destruct (Built_invariants this Hbuilt) as [Hwf _].
  pose proof (Built_Ordered this Hbuilt) as Hordered.
  split; [done|]. split; [by apply Ordered_Acyclic|].
  intros required_names this' Hrun. split.
  - by eapply removeUnusedActions_WellFormed.
  - apply Ordered_Acyclic. eapply removeUnusedActions_Ordered; [|done..]. apply Hwf.
Qed.

(** ** The theorems at concrete inputs, the linearizer *)

Lemma renamed_chain_dag_Built : Built Scenarios.renamed_chain_dag.
Proof.
  eapply built_step; [eapply built_step; [eapply built_step; [eapply built_step;
    [apply built_init|]|]|]|].
  - eapply (builds_input _ "a" (Some Scenarios.Int64)). vm_compute. reflexivity.
  - eapply (builds_function _ false Scenarios.f ["a"] "b" (Scenarios.context 0)).
    vm_compute. reflexivity.
  - eapply (builds_function _ false Scenarios.g ["b"] "c" (Scenarios.context 0)).
    vm_compute. reflexivity.
  - eapply (builds_alias _ "a" "b" true). vm_compute. reflexivity.
Qed.

(** [buildExpressions_schedules_every_node] on [c = g(b)], [b = f(a)] and the
    alias of [a] that replaced [b]: four nodes, four slots. *)
Lemma buildExpressions_schedules_every_node_witness :
  WellFormed Scenarios.renamed_chain_dag
  ∧ Acyclic (ActionsDAG.nodes Scenarios.renamed_chain_dag)
  ∧ ∃ this' program order,
      ActionsDAG.buildExpressions Scenarios.renamed_chain_dag = Ok (this', program)
      ∧ order ≡ₚ ActionsDAG.nodes Scenarios.renamed_chain_dag
      ∧ Linearized order program
      ∧ ExpressionActions.num_columns program = 4.
Proof.
  assert (WellFormed Scenarios.renamed_chain_dag) as Hwf.
  { apply WellFormed_decide; [|apply ValidPointers_decide|];
      apply (bool_decide_unpack _); vm_compute; exact I. }
  assert (Acyclic (ActionsDAG.nodes Scenarios.renamed_chain_dag)) as Hacyclic.
  { apply Ordered_Acyclic, Ordered_decide. apply (bool_decide_unpack _). vm_compute. exact I. }
  split; [exact Hwf|]. split; [exact Hacyclic|].
  destruct (buildExpressions_schedules_every_node Scenarios.renamed_chain_dag Hwf Hacyclic)
    as (this' & program & order & Hbuild & Hperm & Hprogram).
  exists this', program, order. split; [exact Hbuild|]. split; [exact Hperm|].
  split; [exact Hprogram|].
  destruct Hprogram as (-> & _). by rewrite (Permutation_length Hperm).
Defined.

(** [builders_make_no_cycle] on the same DAG, pruned to [c]. *)
Lemma builders_make_no_cycle_witness :
  Built Scenarios.renamed_chain_dag
  ∧ ∃ this',
      ActionsDAG.removeUnusedActions Scenarios.renamed_chain_dag ["c"] = Ok this'
      ∧ Node.result_name <$> ActionsDAG.nodes this' = ["a"; "b"; "c"]
      ∧ WellFormed this' ∧ Acyclic (ActionsDAG.nodes this').
Proof.
  split; [exact renamed_chain_dag_Built|].
  destruct (builders_make_no_cycle Scenarios.renamed_chain_dag renamed_chain_dag_Built)
    as (_ & _ & Hpruned).
  destruct (ActionsDAG.removeUnusedActions Scenarios.renamed_chain_dag ["c"])
    as [this'|e|] eqn:Hrun; [|vm_compute in Hrun; discriminate..].
  exists this'. split; [reflexivity|].
  split; [vm_compute in Hrun; by injection Hrun as <-|].
  exact (Hpruned ["c"] this' Hrun).
Defined.
